(** * zultra: a shallow embedding of the optimal DEFLATE compressor

    The development follows the layout of the C sources:

    - [huffman/bitwriter.c]   the LSB-first bit packer;
    - [huffman/huffencoder.c] the Huffman code designer (index quicksort,
      Moffat-Katajainen code lengths, Kraft length limiting);
    - [blockdeflate.c]        the cost model and the backward optimal parser;
    - [matchfinder.c]         the clamping of the per-position match table;
    - [libzultra.c]           stream initialisation, the per-block driver with
      its stored-block fallback, and the output bound.

    C integers are modelled as [Z]; where the source relies on a fixed width
    (the 32-bit accumulator of the bit writer, the [int] sums of the Huffman
    builder, [size_t] in the output bound, [unsigned short] match entries,
    [unsigned char] stores) the reduction is written out.  Arrays are lists
    indexed with stdpp's lookup and insert.  Loops are fixpoints on the
    number of rounds left; where the source gives no bound on a loop the
    fixpoint takes fuel and the proofs show how much is enough.

    The suffix-array match finder (which rests on libdivsufsort), the block
    splitter and the cost evaluation, the checksum, and the smoothing of
    counts for run-length coding are section variables: the results are
    about the code around them. *)

From Stdlib Require Import ZArith List Lia Bool.
From stdpp Require Import base list.
Import ListNotations.
Local Open Scope Z_scope.

(** ** Fixed-width helpers *)

Definition u32 (x : Z) : Z := x mod 2 ^ 32.
Definition u16 (x : Z) : Z := x mod 2 ^ 16.
Definition uchar (x : Z) : Z := x mod 2 ^ 8.

(** A signed 32-bit [int] after an addition that may leave its range. *)
Definition int32 (x : Z) : Z := (x + 2 ^ 31) mod 2 ^ 32 - 2 ^ 31.

(** [a[i]] for a C array held in a list; reading outside the list, which is
    undefined in C, yields 0 here. *)
Definition zget (l : list Z) (i : Z) : Z :=
  if i <? 0 then 0 else default 0 (l !! Z.to_nat i).

(** [a[i] = v]; a store outside the list leaves it unchanged. *)
Definition zset (l : list Z) (i : Z) (v : Z) : list Z :=
  if i <? 0 then l else <[Z.to_nat i := v]> l.


(** ** format.h, private.h, libzultra.h: constants *)

Definition MIN_MATCH_SIZE : Z := 3.
Definition MAX_MATCH_SIZE : Z := 258.
Definition MIN_OFFSET : Z := 1.
Definition MAX_OFFSET : Z := 32768.
Definition HISTORY_SIZE : Z := 32768.
Definition NCODELENSYMS : Z := 19.
Definition NLITERALSYMS : Z := 288.
Definition NEODMARKERSYM : Z := 256.
Definition NOFFSETSYMS : Z := 32.
Definition MAX_SYMBOLS : Z := 288.

Definition LCP_MAX : Z := 511.
Definition NMATCHES_PER_OFFSET : Z := 8.
Definition MATCHES_PER_OFFSET_SHIFT : Z := 3.
Definition LEAVE_ALONE_MATCH_SIZE : Z := 40.
Definition LAST_LITERALS : Z := 1.
Definition MAX_SPLITS : Z := 64.

Definition ZULTRA_DEFAULT_MAX_BLOCK_SIZE : Z := 1048576.
Definition ZULTRA_FLAG_DEFLATE_FRAMING : Z := 0.
Definition ZULTRA_FLAG_ZLIB_FRAMING : Z := 1.
Definition ZULTRA_FLAG_GZIP_FRAMING : Z := 2.
(** ** huffman/bitwriter.c *)

Module BitWriter.

(** [zultra_bitwriter_t] without [pOutData]: the output buffer the pointer
    designates is threaded next to the record, so that copying the record
    copies the position and the accumulator but not the bytes. *)
Record zultra_bitwriter_t : Type := mk_bitwriter {
  nEncBitCount : Z;
  nEncBitsData : Z;
  nOutOffset : Z;
  nMaxOutDataOffset : Z
}.

Definition zultra_bitwriter_init (nOutOffset0 nMaxOutDataSize : Z) : zultra_bitwriter_t :=
  {| nEncBitCount := 0; nEncBitsData := 0;
     nOutOffset := nOutOffset0; nMaxOutDataOffset := nMaxOutDataSize |}.

Definition zultra_bitwriter_copy (pSrcBitWriter : zultra_bitwriter_t) : zultra_bitwriter_t :=
  {| nEncBitCount := nEncBitCount pSrcBitWriter;
     nEncBitsData := nEncBitsData pSrcBitWriter;
     nOutOffset := nOutOffset pSrcBitWriter;
     nMaxOutDataOffset := nMaxOutDataOffset pSrcBitWriter |}.

Definition zultra_bitwriter_get_offset (bw : zultra_bitwriter_t) : Z :=
  if nOutOffset bw <=? nMaxOutDataOffset bw then nOutOffset bw else -1.

Definition zultra_bitwriter_set_offset (bw : zultra_bitwriter_t) (nOutOffset0 : Z)
  : zultra_bitwriter_t :=
  {| nEncBitCount := nEncBitCount bw; nEncBitsData := nEncBitsData bw;
     nOutOffset := nOutOffset0; nMaxOutDataOffset := nMaxOutDataOffset bw |}.

(** The [while (nEncBitCount >= 8)] loop of [put_bits].  It runs
    [nEncBitCount / 8] times unless a bounds check fails first, which is the
    counter the recursion is on. *)
Fixpoint put_bits_drain (n : nat) (bw : zultra_bitwriter_t) (out : list Z)
  : Z * zultra_bitwriter_t * list Z :=
  match n with
  | O => (0, bw, out)
  | S n' =>
      if nOutOffset bw >=? nMaxOutDataOffset bw then (-1, bw, out)
      else
        put_bits_drain n'
          {| nEncBitCount := nEncBitCount bw - 8;
             nEncBitsData := Z.shiftr (nEncBitsData bw) 8;
             nOutOffset := nOutOffset bw + 1;
             nMaxOutDataOffset := nMaxOutDataOffset bw |}
          (zset out (nOutOffset bw) (uchar (nEncBitsData bw)))
  end.

Definition zultra_bitwriter_put_bits (bw : zultra_bitwriter_t) (out : list Z)
    (nValue nBits : Z) : Z * zultra_bitwriter_t * list Z :=
  if nBits >? 16 then (-1, bw, out)
  else
    let bw1 :=
      {| nEncBitCount := nEncBitCount bw + nBits;
         nEncBitsData := Z.lor (nEncBitsData bw) (u32 (Z.shiftl nValue (nEncBitCount bw)));
         nOutOffset := nOutOffset bw;
         nMaxOutDataOffset := nMaxOutDataOffset bw |} in
    put_bits_drain (Z.to_nat (nEncBitCount bw1 / 8)) bw1 out.

Definition zultra_bitwriter_flush_bits (bw : zultra_bitwriter_t) (out : list Z)
  : Z * zultra_bitwriter_t * list Z :=
  if nEncBitCount bw >? 8 then (-1, bw, out)
  else if nEncBitCount bw >? 0 then
    if nOutOffset bw >=? nMaxOutDataOffset bw then (-1, bw, out)
    else
      (0,
       {| nEncBitCount := 0; nEncBitsData := 0;
          nOutOffset := nOutOffset bw + 1;
          nMaxOutDataOffset := nMaxOutDataOffset bw |},
       zset out (nOutOffset bw)
         (uchar (Z.land (nEncBitsData bw) (Z.shiftl 1 (nEncBitCount bw) - 1))))
  else (0, bw, out).

(** A run of [put_bits] calls that stops at the first failing one: the shape
    of every emitter built on the writer. *)
Fixpoint put_bits_seq (puts : list (Z * Z)) (bw : zultra_bitwriter_t) (out : list Z)
  : Z * zultra_bitwriter_t * list Z :=
  match puts with
  | [] => (0, bw, out)
  | (nValue, nBits) :: rest =>
      let '(r, bw1, out1) := zultra_bitwriter_put_bits bw out nValue nBits in
      if r <? 0 then (r, bw1, out1) else put_bits_seq rest bw1 out1
  end.

(** The calls of a block emitter applied in order; like the emitters of
    huffencoder.c, it does not look at the status of each call. *)
Fixpoint put_bits_all (puts : list (Z * Z)) (bw : zultra_bitwriter_t) (out : list Z)
  : zultra_bitwriter_t * list Z :=
  match puts with
  | [] => (bw, out)
  | (nValue, nBits) :: rest =>
      let '(_, bw1, out1) := zultra_bitwriter_put_bits bw out nValue nBits in
      put_bits_all rest bw1 out1
  end.

(** The bytes the writer has stored so far, and the [n] low bytes of a number,
    least significant first. *)
Definition emitted (bw : zultra_bitwriter_t) (out : list Z) : list Z :=
  take (Z.to_nat (nOutOffset bw)) out.

Fixpoint bytes_le (n : nat) (x : Z) : list Z :=
  match n with
  | O => []
  | S n' => x mod 2 ^ 8 :: bytes_le n' (x / 2 ^ 8)
  end.

(** The invariant of the writer between calls. *)
Definition bw_inv (bw : zultra_bitwriter_t) : Prop :=
  0 <= nEncBitCount bw <= 7 /\ nOutOffset bw <= nMaxOutDataOffset bw.

(** A writer whose accumulator holds nothing above its pending bits, and whose
    window lies inside the buffer. *)
Definition bw_wf (bw : zultra_bitwriter_t) (out : list Z) : Prop :=
  0 <= nEncBitCount bw <= 7 /\
  0 <= nEncBitsData bw < 2 ^ nEncBitCount bw /\
  0 <= nOutOffset bw <= nMaxOutDataOffset bw /\
  nMaxOutDataOffset bw <= Z.of_nat (length out).

End BitWriter.

(** *** States and contents of the bit writer *)

(** A writer that has run out of room in [put_bits]: a whole byte is
    pending and there is no place left to store it. *)
Definition bw_failed (bw : BitWriter.zultra_bitwriter_t) : Prop :=
  8 <= BitWriter.nEncBitCount bw
  /\ BitWriter.nMaxOutDataOffset bw <= BitWriter.nOutOffset bw.

(** The number of bits of a run of [put_bits] calls, and the bits themselves
    as one number: the first value in the lowest bits, each later value
    above the ones before it. *)
Fixpoint bits_total (puts : list (Z * Z)) : Z :=
  match puts with
  | [] => 0
  | (_, nBits) :: rest => nBits + bits_total rest
  end.

Fixpoint bits_value (puts : list (Z * Z)) : Z :=
  match puts with
  | [] => 0
  | (nValue, nBits) :: rest => nValue + 2 ^ nBits * bits_value rest
  end.

(** Every call of the run passes a width of at most 16 bits and a value
    that fits it. *)
Definition puts_fit (puts : list (Z * Z)) : Prop :=
  Forall (fun p => 0 <= p.2 <= 16 /\ 0 <= p.1 < 2 ^ p.2) puts.


(** ** huffman/huffencoder.c *)

(** [zultra_huffman_encoder_t]; the three arrays have [MAX_SYMBOLS] entries. *)
Record zultra_huffman_encoder_t : Type := mk_encoder {
  nSymbols : Z;
  nMaxCodeLength : Z;
  nEntropy : list Z;
  nCodeWord : list Z;
  nCodeLength : list Z
}.

(** What a builder call comes to: it returns 0 with the encoder updated, it
    returns -1, or it leaves the behaviour C defines (a loop that does not
    end, a read past the symbols queued). *)
Inductive huffman_outcome : Type :=
| Built (e : zultra_huffman_encoder_t)
| BuildError
| BuildUndefined.

Definition set_code_lengths (e : zultra_huffman_encoder_t) (len : list Z)
  : zultra_huffman_encoder_t :=
  {| nSymbols := nSymbols e; nMaxCodeLength := nMaxCodeLength e;
     nEntropy := nEntropy e; nCodeWord := nCodeWord e; nCodeLength := len |}.

Definition set_code_words (e : zultra_huffman_encoder_t) (cw : list Z)
  : zultra_huffman_encoder_t :=
  {| nSymbols := nSymbols e; nMaxCodeLength := nMaxCodeLength e;
     nEntropy := nEntropy e; nCodeWord := cw; nCodeLength := nCodeLength e |}.

Definition set_entropy (e : zultra_huffman_encoder_t) (v : list Z)
  : zultra_huffman_encoder_t :=
  {| nSymbols := nSymbols e; nMaxCodeLength := nMaxCodeLength e;
     nEntropy := v; nCodeWord := nCodeWord e; nCodeLength := nCodeLength e |}.

(** *** zultra_huffman_encoder_qsort *)

Definition swap (idx : list Z) (i j : Z) : list Z :=
  let tmp := zget idx i in
  zset (zset idx i (zget idx j)) j tmp.

(** The partition loop [for (i = left + 1; i <= right; i++)], [cnt] rounds
    from [i] on. *)
Fixpoint qsort_partition (cnt : nat) (value idx : list Z) (left i last : Z)
  : list Z * Z :=
  match cnt with
  | O => (idx, last)
  | S cnt' =>
      let tmp := zget idx i in
      if (zget value (zget idx left) >? zget value tmp)
         || ((zget value (zget idx left) =? zget value tmp) && (zget idx left >? tmp))
      then
        let last := last + 1 in
        let idx := zset idx i (zget idx last) in
        let idx := zset idx last tmp in
        qsort_partition cnt' value idx left (i + 1) last
      else qsort_partition cnt' value idx left (i + 1) last
  end.

(** Every nested call sorts a strictly shorter range, so [fuel] only has to
    reach the length of the range. *)
Fixpoint zultra_huffman_encoder_qsort (fuel : nat) (value idx : list Z) (left right : Z)
  : list Z :=
  match fuel with
  | O => idx
  | S fuel' =>
      if left >=? right then idx
      else
        let mid := Z.shiftr (left + right) 1 in
        let idx := swap idx left mid in
        let '(idx, last) :=
          qsort_partition (Z.to_nat (right - left)) value idx left (left + 1) left in
        let idx := swap idx left last in
        let idx := zultra_huffman_encoder_qsort fuel' value idx left (last - 1) in
        zultra_huffman_encoder_qsort fuel' value idx (last + 1) right
  end.

(** *** zultra_huffman_encoder_estimate_dynamic_codelens *)

(** The queue [nMinQueue] as the enumeration loops fill it: the symbols
    below [n] whose entry in [v] is not 0, in increasing order.  Only these
    [nNumSorted] entries of the C array are ever read. *)
Definition used_symbols (n : Z) (v : list Z) : list Z :=
  List.filter (fun i => negb (zget v i =? 0)) (map Z.of_nat (seq 0 (Z.to_nat n))).

(** One of the two selections of phase 1 at step [t]: the cheaper of the
    next internal node [A[r]] and the next leaf [A[s]]; an internal node
    receives its parent [t + 1]. *)
Definition mk_select (n t : Z) (st : Z * Z * list Z) : Z * (Z * Z * list Z) :=
  let '(s, r, A) := st in
  if (s >=? n) || ((r <? t) && (zget A r <? zget A s))
  then (zget A r, (s, r + 1, zset A r (t + 1)))
  else (zget A s, (s + 1, r, A)).

(** Phase 1, [for (t = 0; t < (n - 1); t++)]: [cnt] steps from [t] on. *)
Fixpoint mk_phase1 (cnt : nat) (n t : Z) (st : Z * Z * list Z) : Z * Z * list Z :=
  match cnt with
  | O => st
  | S cnt' =>
      let '(w1, st1) := mk_select n t st in
      let '(w2, st2) := mk_select n t st1 in
      let '(s, r, A) := st2 in
      mk_phase1 cnt' n (t + 1) (s, r, zset A t (int32 (w1 + w2)))
  end.

(** Phase 2, [for (t = n - 3; t >= 0; t--) A[t] = A[A[t] - 1] + 1]: the
    next index is [cnt - 1]. *)
Fixpoint mk_depths (cnt : nat) (A : list Z) : list Z :=
  match cnt with
  | O => A
  | S t => mk_depths t (zset A (Z.of_nat t) (zget A (zget A (Z.of_nat t) - 1) + 1))
  end.

(** [while (t >= 0 && A[t] == d) { u++; t--; }] *)
Fixpoint mk_count (fuel : nat) (A : list Z) (d t u : Z) : Z * Z :=
  match fuel with
  | O => (t, u)
  | S fuel' =>
      if (t >=? 0) && (zget A t =? d) then mk_count fuel' A d (t - 1) (u + 1)
      else (t, u)
  end.

(** [while (a > u) { A[x] = d; x--; a--; }], which runs [a - u] times. *)
Fixpoint mk_assign (cnt : nat) (A : list Z) (d x : Z) : list Z * Z :=
  match cnt with
  | O => (A, x)
  | S cnt' => mk_assign cnt' (zset A x d) d (x - 1)
  end.

(** [while (a > 0)], one round per depth [d]; [u] is 0 whenever the test is
    made.  [None]: not finished after [fuel] rounds. *)
Fixpoint mk_levels (fuel : nat) (A : list Z) (a d x t : Z) : option (list Z) :=
  match fuel with
  | O => None
  | S fuel' =>
      if a >? 0 then
        let '(t', u) := mk_count (Z.to_nat (t + 1)) A d t 0 in
        let '(A', x') := mk_assign (Z.to_nat (a - u)) A d x in
        mk_levels fuel' A' (Z.shiftl u 1) (d + 1) x' t'
      else Some A
  end.

(** The Moffat-Katajainen code lengths of the [n] sorted weights [A]. *)
Definition mk_code_lengths (n : Z) (A : list Z) : option (list Z) :=
  let '(_, _, A) := mk_phase1 (Z.to_nat (n - 1)) n 0 (0, 0, A) in
  let A := zset A (n - 2) 0 in
  let A := mk_depths (Z.to_nat (n - 2)) A in
  mk_levels (Z.to_nat n + 1) A 1 0 (n - 1) (n - 2).

(** [for (i = 0; i < nNumSorted; i++) nCodeLength[nMinQueue[i]] = A[i]] *)
Fixpoint store_code_lengths (queue A len : list Z) : list Z :=
  match queue, A with
  | q :: queue', a :: A' => store_code_lengths queue' A' (zset len q a)
  | _, _ => len
  end.

Definition zultra_huffman_encoder_estimate_dynamic_codelens
    (e : zultra_huffman_encoder_t) : huffman_outcome :=
  if (nSymbols e <? 0) || (nSymbols e >? MAX_SYMBOLS) then BuildError
  else
    let nMinQueue := used_symbols (nSymbols e) (nEntropy e) in
    let nNumSorted := Z.of_nat (length nMinQueue) in
    let zeros := repeat 0 (Z.to_nat MAX_SYMBOLS) in
    if nNumSorted >? 1 then
      let nMinQueue :=
        zultra_huffman_encoder_qsort (length nMinQueue) (nEntropy e) nMinQueue
          0 (nNumSorted - 1) in
      let A := map (zget (nEntropy e)) nMinQueue in
      match mk_code_lengths nNumSorted A with
      | Some A => Built (set_code_lengths e (store_code_lengths nMinQueue A zeros))
      | None => BuildUndefined
      end
    else Built (set_code_lengths e (zset zeros 0 1)).

(** *** zultra_huffman_encoder_build_dynamic_codewords *)

(** The length limiter works on [k], the Kraft number, against
    [maxk = 1 << nMaxCodeLength]. *)

(** [for (i = nNumSorted - 1; i >= 0; i--)]: clamp and add up; the next
    index is [cnt - 1]. *)
Fixpoint limit_clamp (cnt : nat) (queue len : list Z) (L maxk k : Z) : list Z * Z :=
  match cnt with
  | O => (len, k)
  | S i =>
      let n := zget queue (Z.of_nat i) in
      let len := if zget len n >? L then zset len n L else len in
      limit_clamp i queue len L maxk (int32 (k + Z.shiftr maxk (zget len n)))
  end.

(** [while (nCodeLength[n] < nMaxCodeLength && k > maxk)], which runs at
    most [nMaxCodeLength - nCodeLength[n]] times. *)
Fixpoint limit_lengthen (cnt : nat) (len : list Z) (n L maxk k : Z) : list Z * Z :=
  match cnt with
  | O => (len, k)
  | S cnt' =>
      if (zget len n <? L) && (k >? maxk) then
        let len := zset len n (zget len n + 1) in
        limit_lengthen cnt' len n L maxk (int32 (k - Z.shiftr maxk (zget len n)))
      else (len, k)
  end.

(** [for (i = nNumSorted - 1; k > maxk && i >= 0; i--)] *)
Fixpoint limit_propagate (cnt : nat) (queue len : list Z) (L maxk k : Z) : list Z * Z :=
  match cnt with
  | O => (len, k)
  | S i =>
      if k >? maxk then
        let n := zget queue (Z.of_nat i) in
        let '(len, k) := limit_lengthen (Z.to_nat (L - zget len n)) len n L maxk k in
        limit_propagate i queue len L maxk k
      else (len, k)
  end.

(** [while ((k + (maxk >> nCodeLength[n])) <= maxk)]; [None] once the
    length would go below 0, where the shift is undefined. *)
Fixpoint limit_shorten (fuel : nat) (len : list Z) (n maxk k : Z) : option (list Z * Z) :=
  match fuel with
  | O => None
  | S fuel' =>
      if int32 (k + Z.shiftr maxk (zget len n)) <=? maxk then
        limit_shorten fuel' (zset len n (zget len n - 1)) n maxk
          (int32 (k + Z.shiftr maxk (zget len n)))
      else Some (len, k)
  end.

(** [for (i = 0; k < maxk && i <= nNumSorted; i++)]: the bound lets [i]
    reach [nNumSorted], one past the queued symbols; [None] if it does. *)
Fixpoint limit_recover (cnt : nat) (i : Z) (queue len : list Z) (maxk k : Z)
  : option (list Z * Z) :=
  match cnt with
  | O => Some (len, k)
  | S cnt' =>
      if k <? maxk then
        if i <? Z.of_nat (length queue) then
          let n := zget queue i in
          match limit_shorten (Z.to_nat (zget len n) + 1) len n maxk k with
          | Some (len, k) => limit_recover cnt' (i + 1) queue len maxk k
          | None => None
          end
        else None
      else Some (len, k)
  end.

Definition limit_code_lengths (queue len : list Z) (L : Z) : option (list Z * Z) :=
  let maxk := int32 (Z.shiftl 1 L) in
  let '(len, k) := limit_clamp (length queue) queue len L maxk 0 in
  let '(len, k) := limit_propagate (length queue) queue len L maxk k in
  limit_recover (S (length queue)) 0 queue len maxk k.

(** The upside-down codeword of 16 bits. *)
Definition reverse16 (w : Z) : Z :=
  let w := Z.lor (u32 (Z.shiftl (Z.land w 21845) 1)) (Z.shiftr (Z.land w 43690) 1) in
  let w := Z.lor (u32 (Z.shiftl (Z.land w 13107) 2)) (Z.shiftr (Z.land w 52428) 2) in
  let w := Z.lor (u32 (Z.shiftl (Z.land w 3855) 4)) (Z.shiftr (Z.land w 61680) 4) in
  Z.lor (u32 (Z.shiftl (Z.land w 255) 8)) (Z.shiftr (Z.land w 65280) 8).

(** Canonical codewords along the sorted queue. *)
Fixpoint issue_codewords (queue len cw : list Z) (nCanonicalCodeWord nCanonicalLength : Z)
  : list Z :=
  match queue with
  | [] => cw
  | n :: rest =>
      let nRevWord := Z.shiftr (reverse16 nCanonicalCodeWord) (16 - nCanonicalLength) in
      let cw := zset cw n nRevWord in
      match rest with
      | [] => cw
      | n' :: _ =>
          let nNewLength := zget len n' in
          issue_codewords rest len cw
            (u32 (Z.shiftl (nCanonicalCodeWord + 1) (nNewLength - nCanonicalLength)))
            nNewLength
      end
  end.

Definition zultra_huffman_encoder_build_dynamic_codewords
    (e : zultra_huffman_encoder_t) : huffman_outcome :=
  match zultra_huffman_encoder_estimate_dynamic_codelens e with
  | Built e =>
      let nMinQueue := used_symbols (nSymbols e) (nCodeLength e) in
      let nNumSorted := Z.of_nat (length nMinQueue) in
      let limited :=
        if (nNumSorted >? 0) && (nMaxCodeLength e >? 0) then
          let nMinQueue :=
            zultra_huffman_encoder_qsort (length nMinQueue) (nCodeLength e) nMinQueue
              0 (nNumSorted - 1) in
          if zget (nCodeLength e) (zget nMinQueue (nNumSorted - 1)) >? nMaxCodeLength e
          then
            match limit_code_lengths nMinQueue (nCodeLength e) (nMaxCodeLength e) with
            | Some (len, _) =>
                Some (zultra_huffman_encoder_qsort (length nMinQueue) len nMinQueue
                        0 (nNumSorted - 1), len)
            | None => None
            end
          else Some (nMinQueue, nCodeLength e)
        else Some (nMinQueue, nCodeLength e) in
      match limited with
      | Some (nMinQueue, len) =>
          Built (set_code_words (set_code_lengths e len)
                   (issue_codewords nMinQueue len (nCodeWord e) 0
                      (zget len (zget nMinQueue 0))))
      | None => BuildUndefined
      end
  | other => other
  end.

(** *** zultra_huffman_encoder_get_defined_var_lengths_count *)

(** [while (i > nMinSymbols && !nCodeLength[i - 1]) i--] *)
Fixpoint defined_lengths_from (fuel : nat) (len : list Z) (nMinSymbols i : Z) : Z :=
  match fuel with
  | O => i
  | S fuel' =>
      if (i >? nMinSymbols) && (zget len (i - 1) =? 0)
      then defined_lengths_from fuel' len nMinSymbols (i - 1)
      else i
  end.

Definition zultra_huffman_encoder_get_defined_var_lengths_count
    (e : zultra_huffman_encoder_t) (nMinSymbols : Z) : Z :=
  defined_lengths_from (Z.to_nat (nSymbols e - nMinSymbols)) (nCodeLength e)
    nMinSymbols (nSymbols e).

(** *** The Kraft number of a table of code lengths *)

(** The sum, over the symbols with a nonzero length, of [2^(L - len)]. *)
Fixpoint kraft_sum (L : Z) (len : list Z) : Z :=
  match len with
  | [] => 0
  | l :: rest => (if l =? 0 then 0 else 2 ^ (L - l)) + kraft_sum L rest
  end.

(** The number of symbols with a nonzero entry. *)
Fixpoint count_used (v : list Z) : Z :=
  match v with
  | [] => 0
  | x :: rest => (if x =? 0 then 0 else 1) + count_used rest
  end.

(** The entries of [idx] in [[l, r]] are sorted by [value]. *)
Definition sorted_range (value idx : list Z) (l r : Z) : Prop :=
  forall a b, l <= a -> a <= b -> b <= r ->
    zget value (zget idx a) <= zget value (zget idx b).

(** The sum of [f] over [cnt] consecutive indices from [lo] on. *)
Fixpoint rsum (f : Z -> Z) (lo : Z) (cnt : nat) : Z :=
  match cnt with
  | O => 0
  | S cnt' => f lo + rsum f (lo + 1) cnt'
  end.

(** *** Invariants of the Moffat-Katajainen phases *)

(** The first [r] entries of [A] are parent pointers (1-based): each lies
    above its own node and is at most [bound], they never decrease, and no
    three consecutive nodes share a parent. *)
Definition mk_ptrs (r bound : Z) (A : list Z) : Prop :=
  (forall j, 0 <= j < r -> j + 2 <= zget A j <= bound)
  /\ (forall j, 0 <= j -> j + 1 < r -> zget A j <= zget A (j + 1))
  /\ (forall j, 0 <= j -> j + 2 < r -> zget A j < zget A (j + 2)).

(** Phase 1 at step [t], after [c] of its two selections: [s] leaves and
    [r] internal nodes are consumed. *)
Definition mk_inv1 (n t c : Z) (st : Z * Z * list Z) : Prop :=
  let '(s, r, A) := st in
  0 <= r <= t /\ s <= n /\ s + r = 2 * t + c /\ Z.of_nat (length A) = n
  /\ mk_ptrs r (t + 1) A
  /\ (forall j, 0 <= j < r - c -> zget A j <= t).

(** The depth-assignment loop at depth [d]: the internal nodes above [t]
    are counted, [T - t] of them at depth [d - 1]; the leaves above [x] have
    their depth; [A1] holds the parents, [D] the depths of the internal
    nodes; the Kraft number of the leaves placed plus the [a] open slots at
    depth [d] is one. *)
Definition mk_inv2 (n M : Z) (A1 D A : list Z) (a d x t : Z) : Prop :=
  exists T,
    -1 <= t /\ t <= T /\ T <= n - 2 /\ t <= n - 3
    /\ a = 2 * (T - t) /\ x = t + a /\ x <= n - 1 /\ 1 <= d
    /\ Z.of_nat (length A) = n
    /\ (forall j, 0 <= j <= t -> zget A j = zget D j)
    /\ (forall j, t < j <= T -> zget D j = d - 1)
    /\ (forall j, 0 <= j <= t -> zget A1 j - 1 <= T)
    /\ (forall j, 0 <= j <= t -> d <= zget D j)
    /\ (forall j, x < j <= n - 1 -> 1 <= zget A j <= n - 1)
    /\ rsum (fun j => 2 ^ (M - zget A j)) (x + 1) (Z.to_nat (n - 1 - x))
       + a * 2 ^ (M - d) = 2 ^ M.

(** The sum of [g] over the symbols queued in [l]. *)
Fixpoint lsum (g : Z -> Z) (l : list Z) : Z :=
  match l with
  | [] => 0
  | s :: rest => g s + lsum g rest
  end.

(** The Kraft number, at scale [L], of the symbols in [queue]. *)
Definition queue_kraft (L : Z) (queue len : list Z) : Z :=
  lsum (fun s => 2 ^ (L - zget len s)) queue.

(** *** Invariants of the length limiter *)

(** While the error is propagated backward: the symbols queued before
    position [cnt] have their clamped length, the others are at [L], and
    [k] is the Kraft number. *)
Definition limit_state (queue len0 : list Z) (L cnt : Z) (len : list Z) (k : Z) : Prop :=
  length len = length len0
  /\ (forall i, 0 <= i < cnt ->
        zget len (zget queue i) = Z.min (zget len0 (zget queue i)) L)
  /\ (forall i, cnt <= i < Z.of_nat (length queue) -> zget len (zget queue i) = L)
  /\ (forall s, ~ In s queue -> zget len s = zget len0 s)
  /\ k = queue_kraft L queue len.

(** Once it stops at position [j], lengthened to [c]: the Kraft number is
    short of [2^L] by less than one codeword of length [c], and by less than
    the number of symbols after [j], which are all at [L]. *)
Definition limit_stopped (queue len0 : list Z) (L : Z) (len : list Z) (k : Z) : Prop :=
  exists j c,
    0 <= j < Z.of_nat (length queue) - 1 /\ c <= L
    /\ length len = length len0
    /\ (forall i, 0 <= i <= j -> 1 <= zget len (zget queue i) <= c)
    /\ (forall i, j < i < Z.of_nat (length queue) -> zget len (zget queue i) = L)
    /\ (forall s, ~ In s queue -> zget len s = zget len0 s)
    /\ k = queue_kraft L queue len
    /\ 0 <= 2 ^ L - k /\ 2 ^ L - k < 2 ^ (L - c)
    /\ 2 ^ L - k < Z.of_nat (length queue) - 1 - j.

(** *** Two encoders as the program sets them up

    The code-length encoder of [zultra_block_deflate]: 19 symbols, at most
    7 bits; here with Fibonacci frequencies, whose unlimited code reaches 13
    bits. *)
Definition fibonacci_tables_encoder : zultra_huffman_encoder_t :=
  {| nSymbols := NCODELENSYMS; nMaxCodeLength := 7;
     nEntropy := [1; 1; 2; 3; 5; 8; 13; 21; 34; 55; 89; 144; 233; 377]
                 ++ repeat 0 274;
     nCodeWord := repeat 0 288; nCodeLength := repeat 0 288 |}.

(** An encoder no part of the program sets up: five used symbols but only
    [2^2] codes. *)
Definition crowded_encoder : zultra_huffman_encoder_t :=
  {| nSymbols := 8; nMaxCodeLength := 2;
     nEntropy := [1; 1; 1; 1; 1] ++ repeat 0 283;
     nCodeWord := repeat 0 288; nCodeLength := repeat 0 288 |}.

(** *** The order of the index quicksort *)

(** The order the quicksort compares with: by [value], then by index. *)
Definition lex_le (value : list Z) (s t : Z) : Prop :=
  zget value s < zget value t \/ (zget value s = zget value t /\ s <= t).

(** *** The depth assignment of the Moffat-Katajainen method *)

(** The leaves above [x] have their depth: none is deeper than [d - 1], and
    a leaf of larger weight (a larger index) is never deeper. *)
Definition mk_mono (n d x : Z) (A : list Z) : Prop :=
  forall j j', x < j -> j <= j' -> j' <= n - 1 ->
    zget A j' <= zget A j /\ zget A j <= d - 1.

(** *** Canonical codewords *)

(** The [n] low bits of [w] in reverse order: bit 0 of [w] becomes bit
    [n - 1]. *)
Fixpoint bitrev (n : nat) (w : Z) : Z :=
  match n with
  | O => 0
  | S n' => (w mod 2) * 2 ^ Z.of_nat n' + bitrev n' (w / 2)
  end.

(** [reverse16] agrees with [bitrev 16] on the [cnt] values from [c] on. *)
Fixpoint reverse16_agrees (cnt : nat) (c : Z) : bool :=
  match cnt with
  | O => true
  | S cnt' => (reverse16 c =? bitrev 16 c) && reverse16_agrees cnt' (c + 1)
  end.

(** Strictly before, in the order of the quicksort. *)
Definition lex_ltb (value : list Z) (s t : Z) : bool :=
  (zget value s <? zget value t)
  || ((zget value s =? zget value t) && (s <? t)).

(** The Kraft number, at scale [L], of the symbols of [queue] that come
    before [s] in the order of their lengths, then of their indices. *)
Definition kraft_before (L : Z) (queue len : list Z) (s : Z) : Z :=
  queue_kraft L (List.filter (fun u => lex_ltb len u s) queue) len.

(** *** zultra_huffman_encoder_build_static_codewords *)

(** Every symbol below [nSymbols] is queued, whatever its code length; the
    codewords are then issued by the same loop as for a dynamic table.  The
    function always returns 0. *)
Definition zultra_huffman_encoder_build_static_codewords
    (e : zultra_huffman_encoder_t) : zultra_huffman_encoder_t :=
  let nMinQueue := map Z.of_nat (seq 0 (Z.to_nat (nSymbols e))) in
  let nNumSorted := Z.of_nat (length nMinQueue) in
  if nNumSorted >? 0 then
    let nMinQueue :=
      zultra_huffman_encoder_qsort (length nMinQueue) (nCodeLength e) nMinQueue
        0 (nNumSorted - 1) in
    set_code_words e
      (issue_codewords nMinQueue (nCodeLength e) (nCodeWord e) 0
         (zget (nCodeLength e) (zget nMinQueue 0)))
  else e.

(** The literal/length encoder of a static block, as [zultra_block_deflate]
    fills it before the codewords are built. *)
Definition static_literals_encoder : zultra_huffman_encoder_t :=
  {| nSymbols := NLITERALSYMS; nMaxCodeLength := 15;
     nEntropy := repeat 0 288; nCodeWord := repeat 0 288;
     nCodeLength := repeat 8 144 ++ repeat 9 112 ++ repeat 7 24 ++ repeat 8 8 |}.

(** *** zultra_huffman_encoder_write_codeword *)

Definition zultra_huffman_encoder_write_codeword (e : zultra_huffman_encoder_t)
    (nSymbol : Z) (bw : BitWriter.zultra_bitwriter_t) (out : list Z)
  : Z * BitWriter.zultra_bitwriter_t * list Z :=
  if (nSymbol >=? 0) && (nSymbol <? nSymbols e)
  then BitWriter.zultra_bitwriter_put_bits bw out
         (zget (nCodeWord e) nSymbol) (zget (nCodeLength e) nSymbol)
  else (-1, bw, out).

(** An encoder whose codewords the bit writer can take: every code length
    is at most 16 and every codeword fits its length. *)
Definition encoder_fits (e : zultra_huffman_encoder_t) : Prop :=
  forall s, 0 <= s < nSymbols e ->
    0 <= zget (nCodeLength e) s <= 16
    /\ 0 <= zget (nCodeWord e) s < 2 ^ zget (nCodeLength e) s.

(** [f] holds of the [cnt] integers from [o] on. *)
Fixpoint all_from (f : Z -> bool) (cnt : nat) (o : Z) : bool :=
  match cnt with
  | O => true
  | S cnt' => f o && all_from f cnt' (o + 1)
  end.

(** [encoder_fits] at one symbol, as a test. *)
Definition encoder_fits_at (e : zultra_huffman_encoder_t) (s : Z) : bool :=
  (0 <=? zget (nCodeLength e) s) && (zget (nCodeLength e) s <=? 16)
  && (0 <=? zget (nCodeWord e) s)
  && (zget (nCodeWord e) s <? 2 ^ zget (nCodeLength e) s).


(** ** blockdeflate.c: the cost model and the optimal parser *)

(** Tables mapping every match offset (less one) to its symbol and number of
    extra bits; offsets above 256 are looked up in steps of 128. *)
Definition g_nOffsetSymbol : list Z :=
  [
   0; 1; 2; 3; 4; 4; 5; 5; 6; 6; 6; 6; 7; 7; 7; 7; 8; 8; 8; 8; 8; 8; 8; 8;
   9; 9; 9; 9; 9; 9; 9; 9; 10; 10; 10; 10; 10; 10; 10; 10; 10; 10; 10; 10; 10; 10; 10; 10;
   11; 11; 11; 11; 11; 11; 11; 11; 11; 11; 11; 11; 11; 11; 11; 11; 12; 12; 12; 12; 12; 12; 12; 12;
   12; 12; 12; 12; 12; 12; 12; 12; 12; 12; 12; 12; 12; 12; 12; 12; 12; 12; 12; 12; 12; 12; 12; 12;
   13; 13; 13; 13; 13; 13; 13; 13; 13; 13; 13; 13; 13; 13; 13; 13; 13; 13; 13; 13; 13; 13; 13; 13;
   13; 13; 13; 13; 13; 13; 13; 13; 14; 14; 14; 14; 14; 14; 14; 14; 14; 14; 14; 14; 14; 14; 14; 14;
   14; 14; 14; 14; 14; 14; 14; 14; 14; 14; 14; 14; 14; 14; 14; 14; 14; 14; 14; 14; 14; 14; 14; 14;
   14; 14; 14; 14; 14; 14; 14; 14; 14; 14; 14; 14; 14; 14; 14; 14; 14; 14; 14; 14; 14; 14; 14; 14;
   15; 15; 15; 15; 15; 15; 15; 15; 15; 15; 15; 15; 15; 15; 15; 15; 15; 15; 15; 15; 15; 15; 15; 15;
   15; 15; 15; 15; 15; 15; 15; 15; 15; 15; 15; 15; 15; 15; 15; 15; 15; 15; 15; 15; 15; 15; 15; 15;
   15; 15; 15; 15; 15; 15; 15; 15; 15; 15; 15; 15; 15; 15; 15; 15; 16; 17; 18; 18; 19; 19; 20; 20;
   20; 20; 21; 21; 21; 21; 22; 22; 22; 22; 22; 22; 22; 22; 23; 23; 23; 23; 23; 23; 23; 23; 24; 24;
   24; 24; 24; 24; 24; 24; 24; 24; 24; 24; 24; 24; 24; 24; 25; 25; 25; 25; 25; 25; 25; 25; 25; 25;
   25; 25; 25; 25; 25; 25; 26; 26; 26; 26; 26; 26; 26; 26; 26; 26; 26; 26; 26; 26; 26; 26; 26; 26;
   26; 26; 26; 26; 26; 26; 26; 26; 26; 26; 26; 26; 26; 26; 27; 27; 27; 27; 27; 27; 27; 27; 27; 27;
   27; 27; 27; 27; 27; 27; 27; 27; 27; 27; 27; 27; 27; 27; 27; 27; 27; 27; 27; 27; 27; 27; 28; 28;
   28; 28; 28; 28; 28; 28; 28; 28; 28; 28; 28; 28; 28; 28; 28; 28; 28; 28; 28; 28; 28; 28; 28; 28;
   28; 28; 28; 28; 28; 28; 28; 28; 28; 28; 28; 28; 28; 28; 28; 28; 28; 28; 28; 28; 28; 28; 28; 28;
   28; 28; 28; 28; 28; 28; 28; 28; 28; 28; 28; 28; 28; 28; 29; 29; 29; 29; 29; 29; 29; 29; 29; 29;
   29; 29; 29; 29; 29; 29; 29; 29; 29; 29; 29; 29; 29; 29; 29; 29; 29; 29; 29; 29; 29; 29; 29; 29;
   29; 29; 29; 29; 29; 29; 29; 29; 29; 29; 29; 29; 29; 29; 29; 29; 29; 29; 29; 29; 29; 29; 29; 29;
   29; 29; 29; 29; 29; 29; 0; 0
  ].

Definition g_nOffsetExtraBits : list Z :=
  [
   0; 0; 0; 0; 1; 1; 1; 1; 2; 2; 2; 2; 2; 2; 2; 2; 3; 3; 3; 3; 3; 3; 3; 3;
   3; 3; 3; 3; 3; 3; 3; 3; 4; 4; 4; 4; 4; 4; 4; 4; 4; 4; 4; 4; 4; 4; 4; 4;
   4; 4; 4; 4; 4; 4; 4; 4; 4; 4; 4; 4; 4; 4; 4; 4; 5; 5; 5; 5; 5; 5; 5; 5;
   5; 5; 5; 5; 5; 5; 5; 5; 5; 5; 5; 5; 5; 5; 5; 5; 5; 5; 5; 5; 5; 5; 5; 5;
   5; 5; 5; 5; 5; 5; 5; 5; 5; 5; 5; 5; 5; 5; 5; 5; 5; 5; 5; 5; 5; 5; 5; 5;
   5; 5; 5; 5; 5; 5; 5; 5; 6; 6; 6; 6; 6; 6; 6; 6; 6; 6; 6; 6; 6; 6; 6; 6;
   6; 6; 6; 6; 6; 6; 6; 6; 6; 6; 6; 6; 6; 6; 6; 6; 6; 6; 6; 6; 6; 6; 6; 6;
   6; 6; 6; 6; 6; 6; 6; 6; 6; 6; 6; 6; 6; 6; 6; 6; 6; 6; 6; 6; 6; 6; 6; 6;
   6; 6; 6; 6; 6; 6; 6; 6; 6; 6; 6; 6; 6; 6; 6; 6; 6; 6; 6; 6; 6; 6; 6; 6;
   6; 6; 6; 6; 6; 6; 6; 6; 6; 6; 6; 6; 6; 6; 6; 6; 6; 6; 6; 6; 6; 6; 6; 6;
   6; 6; 6; 6; 6; 6; 6; 6; 6; 6; 6; 6; 6; 6; 6; 6; 7; 7; 8; 8; 8; 8; 9; 9;
   9; 9; 9; 9; 9; 9; 10; 10; 10; 10; 10; 10; 10; 10; 10; 10; 10; 10; 10; 10; 10; 10; 11; 11;
   11; 11; 11; 11; 11; 11; 11; 11; 11; 11; 11; 11; 11; 11; 11; 11; 11; 11; 11; 11; 11; 11; 11; 11;
   11; 11; 11; 11; 11; 11; 12; 12; 12; 12; 12; 12; 12; 12; 12; 12; 12; 12; 12; 12; 12; 12; 12; 12;
   12; 12; 12; 12; 12; 12; 12; 12; 12; 12; 12; 12; 12; 12; 12; 12; 12; 12; 12; 12; 12; 12; 12; 12;
   12; 12; 12; 12; 12; 12; 12; 12; 12; 12; 12; 12; 12; 12; 12; 12; 12; 12; 12; 12; 12; 12; 13; 13;
   13; 13; 13; 13; 13; 13; 13; 13; 13; 13; 13; 13; 13; 13; 13; 13; 13; 13; 13; 13; 13; 13; 13; 13;
   13; 13; 13; 13; 13; 13; 13; 13; 13; 13; 13; 13; 13; 13; 13; 13; 13; 13; 13; 13; 13; 13; 13; 13;
   13; 13; 13; 13; 13; 13; 13; 13; 13; 13; 13; 13; 13; 13; 13; 13; 13; 13; 13; 13; 13; 13; 13; 13;
   13; 13; 13; 13; 13; 13; 13; 13; 13; 13; 13; 13; 13; 13; 13; 13; 13; 13; 13; 13; 13; 13; 13; 13;
   13; 13; 13; 13; 13; 13; 13; 13; 13; 13; 13; 13; 13; 13; 13; 13; 13; 13; 13; 13; 13; 13; 13; 13;
   13; 13; 13; 13; 13; 13; 0; 0
  ].

(** Tables mapping every match length (less three) to its symbol and number
    of extra bits. *)
Definition g_nMatchLenSymbol : list Z :=
  [
   257; 258; 259; 260; 261; 262; 263; 264; 265; 265; 266; 266; 267; 267; 268; 268; 269; 269; 269; 269; 270; 270; 270; 270;
   271; 271; 271; 271; 272; 272; 272; 272; 273; 273; 273; 273; 273; 273; 273; 273; 274; 274; 274; 274; 274; 274; 274; 274;
   275; 275; 275; 275; 275; 275; 275; 275; 276; 276; 276; 276; 276; 276; 276; 276; 277; 277; 277; 277; 277; 277; 277; 277;
   277; 277; 277; 277; 277; 277; 277; 277; 278; 278; 278; 278; 278; 278; 278; 278; 278; 278; 278; 278; 278; 278; 278; 278;
   279; 279; 279; 279; 279; 279; 279; 279; 279; 279; 279; 279; 279; 279; 279; 279; 280; 280; 280; 280; 280; 280; 280; 280;
   280; 280; 280; 280; 280; 280; 280; 280; 281; 281; 281; 281; 281; 281; 281; 281; 281; 281; 281; 281; 281; 281; 281; 281;
   281; 281; 281; 281; 281; 281; 281; 281; 281; 281; 281; 281; 281; 281; 281; 281; 282; 282; 282; 282; 282; 282; 282; 282;
   282; 282; 282; 282; 282; 282; 282; 282; 282; 282; 282; 282; 282; 282; 282; 282; 282; 282; 282; 282; 282; 282; 282; 282;
   283; 283; 283; 283; 283; 283; 283; 283; 283; 283; 283; 283; 283; 283; 283; 283; 283; 283; 283; 283; 283; 283; 283; 283;
   283; 283; 283; 283; 283; 283; 283; 283; 284; 284; 284; 284; 284; 284; 284; 284; 284; 284; 284; 284; 284; 284; 284; 284;
   284; 284; 284; 284; 284; 284; 284; 284; 284; 284; 284; 284; 284; 284; 284; 285
  ].

Definition g_nMatchLenExtraBits : list Z :=
  [
   0; 0; 0; 0; 0; 0; 0; 0; 1; 1; 1; 1; 1; 1; 1; 1; 2; 2; 2; 2; 2; 2; 2; 2;
   2; 2; 2; 2; 2; 2; 2; 2; 3; 3; 3; 3; 3; 3; 3; 3; 3; 3; 3; 3; 3; 3; 3; 3;
   3; 3; 3; 3; 3; 3; 3; 3; 3; 3; 3; 3; 3; 3; 3; 3; 4; 4; 4; 4; 4; 4; 4; 4;
   4; 4; 4; 4; 4; 4; 4; 4; 4; 4; 4; 4; 4; 4; 4; 4; 4; 4; 4; 4; 4; 4; 4; 4;
   4; 4; 4; 4; 4; 4; 4; 4; 4; 4; 4; 4; 4; 4; 4; 4; 4; 4; 4; 4; 4; 4; 4; 4;
   4; 4; 4; 4; 4; 4; 4; 4; 5; 5; 5; 5; 5; 5; 5; 5; 5; 5; 5; 5; 5; 5; 5; 5;
   5; 5; 5; 5; 5; 5; 5; 5; 5; 5; 5; 5; 5; 5; 5; 5; 5; 5; 5; 5; 5; 5; 5; 5;
   5; 5; 5; 5; 5; 5; 5; 5; 5; 5; 5; 5; 5; 5; 5; 5; 5; 5; 5; 5; 5; 5; 5; 5;
   5; 5; 5; 5; 5; 5; 5; 5; 5; 5; 5; 5; 5; 5; 5; 5; 5; 5; 5; 5; 5; 5; 5; 5;
   5; 5; 5; 5; 5; 5; 5; 5; 5; 5; 5; 5; 5; 5; 5; 5; 5; 5; 5; 5; 5; 5; 5; 5;
   5; 5; 5; 5; 5; 5; 5; 5; 5; 5; 5; 5; 5; 5; 5; 0
  ].

(** [zultra_match_t]: the two [unsigned short] fields [length] and [offset]. *)
Record zultra_match_t : Type := mk_match {
  match_length : Z;
  match_offset : Z
}.

Definition no_match : zultra_match_t := {| match_length := 0; match_offset := 0 |}.

Definition mget (l : list zultra_match_t) (i : Z) : zultra_match_t :=
  if i <? 0 then no_match else default no_match (l !! Z.to_nat i).

Definition mset (l : list zultra_match_t) (i : Z) (v : zultra_match_t)
  : list zultra_match_t :=
  if i <? 0 then l else <[Z.to_nat i := v]> l.

(** The part of [zultra_compressor_t] the parser works on: the match table
    ([NMATCHES_PER_OFFSET] slots per position), the chosen parse, the cost
    array (which reuses [pos_data]) and the two entropy coders. *)
Record zultra_block_state : Type := mk_block_state {
  match_table : list zultra_match_t;
  best_match : list zultra_match_t;
  cost : list Z;
  literalsEncoder : zultra_huffman_encoder_t;
  offsetEncoder : zultra_huffman_encoder_t
}.

Definition zultra_get_literal_size (bs : zultra_block_state) (nLiteralByte : Z) : Z :=
  if nLiteralByte <? 256 then zget (nCodeLength (literalsEncoder bs)) nLiteralByte
  else 8.

Definition zultra_get_offset_size (bs : zultra_block_state) (nMatchOffset : Z) : Z :=
  let nMatchOffset := u32 (nMatchOffset - 1) in
  if nMatchOffset <? 256 then
    zget (nCodeLength (offsetEncoder bs)) (zget g_nOffsetSymbol nMatchOffset)
    + zget g_nOffsetExtraBits nMatchOffset
  else if nMatchOffset <? 32768 then
    let nMatchOffset := 256 + Z.shiftr (nMatchOffset - 256) 7 in
    zget (nCodeLength (offsetEncoder bs)) (zget g_nOffsetSymbol nMatchOffset)
    + zget g_nOffsetExtraBits nMatchOffset
  else NOFFSETSYMS.

Definition zultra_get_varlen_size (bs : zultra_block_state) (nLength : Z) : Z :=
  let nLength := if u32 nLength >? 255 then 255 else u32 nLength in
  zget (nCodeLength (literalsEncoder bs)) (zget g_nMatchLenSymbol nLength)
  + zget g_nMatchLenExtraBits nLength.

(** [nCachedVarlenSize] as [zultra_optimize_matches_lwd] fills it. *)
Definition cached_varlen_sizes (bs : zultra_block_state) : list Z :=
  map (fun i => zultra_get_varlen_size bs (Z.of_nat i))
    (seq 0 (Z.to_nat LEAVE_ALONE_MATCH_SIZE)).

(** The running best choice at a position: [nBestCost], [nBestMatchLen],
    [nBestMatchOffset]. *)
Definition best_t : Type := (Z * Z * Z)%type.

Definition improve (best : best_t) (nCurCost nLen nOffset : Z) : best_t :=
  if best.1.1 >? nCurCost then (nCurCost, nLen, nOffset) else best.

(** [for (k = nMatchLen; k >= MIN_MATCH_SIZE; k--)]: [n] rounds from [k] down. *)
Fixpoint optimize_lengths (n : nat) (k : Z) (nCachedVarlenSize : list Z)
    (nOffsetSize : Z) (cost0 : list Z) (i nOffset : Z) (best : best_t) : best_t :=
  match n with
  | O => best
  | S n' =>
      let nCurCost := zget nCachedVarlenSize (k - MIN_MATCH_SIZE)
                      + (nOffsetSize + zget cost0 (i + k)) in
      optimize_lengths n' (k - 1) nCachedVarlenSize nOffsetSize cost0 i nOffset
        (improve best nCurCost k nOffset)
  end.

(** [for (m = 0; m < NMATCHES_PER_OFFSET && pMatch[m].length >= MIN_MATCH_SIZE; m++)]:
    [n] slots are left from slot [m] on. *)
Fixpoint optimize_candidates (n : nat) (m : Z) (bs : zultra_block_state)
    (nCachedVarlenSize : list Z) (i nEndOffset : Z) (best : best_t) : best_t :=
  match n with
  | O => best
  | S n' =>
      let pMatch := mget (match_table bs) (Z.shiftl i MATCHES_PER_OFFSET_SHIFT + m) in
      if match_length pMatch >=? MIN_MATCH_SIZE then
        let nOffsetSize := zultra_get_offset_size bs (match_offset pMatch) in
        let nMatchLen :=
          if i + match_length pMatch >? nEndOffset - LAST_LITERALS
          then nEndOffset - LAST_LITERALS - i else match_length pMatch in
        let best' :=
          if match_length pMatch >=? LEAVE_ALONE_MATCH_SIZE then
            let nCurCost := zultra_get_varlen_size bs (nMatchLen - MIN_MATCH_SIZE)
                            + (nOffsetSize + zget (cost bs) (i + nMatchLen)) in
            improve best nCurCost nMatchLen (match_offset pMatch)
          else
            optimize_lengths (Z.to_nat (nMatchLen - MIN_MATCH_SIZE + 1)) nMatchLen
              nCachedVarlenSize nOffsetSize (cost bs) i (match_offset pMatch) best in
        optimize_candidates n' (m + 1) bs nCachedVarlenSize i nEndOffset best'
      else best
  end.

Definition set_parse (bs : zultra_block_state) (cost' : list Z)
    (best_match' : list zultra_match_t) : zultra_block_state :=
  {| match_table := match_table bs; best_match := best_match'; cost := cost';
     literalsEncoder := literalsEncoder bs; offsetEncoder := offsetEncoder bs |}.

(** The body of the position loop at [i]. *)
Definition optimize_position (bs : zultra_block_state) (pInWindow : list Z)
    (nCachedVarlenSize : list Z) (i nEndOffset : Z) : zultra_block_state :=
  let best0 : best_t :=
    (zultra_get_literal_size bs (zget pInWindow i) + zget (cost bs) (i + 1), 0, 0) in
  let best := optimize_candidates (Z.to_nat NMATCHES_PER_OFFSET) 0 bs nCachedVarlenSize
                i nEndOffset best0 in
  set_parse bs (zset (cost bs) i best.1.1)
    (mset (best_match bs) i
       {| match_length := u16 best.1.2; match_offset := u16 best.2 |}).

(** [for (i = nEndOffset - 2; i != (nStartOffset - 1); i--)]: [n] positions
    are left, the next one being [nStartOffset + n - 1]. *)
Fixpoint optimize_positions (n : nat) (bs : zultra_block_state) (pInWindow : list Z)
    (nCachedVarlenSize : list Z) (nStartOffset nEndOffset : Z) : zultra_block_state :=
  match n with
  | O => bs
  | S n' =>
      optimize_positions n'
        (optimize_position bs pInWindow nCachedVarlenSize
           (nStartOffset + Z.of_nat n') nEndOffset)
        pInWindow nCachedVarlenSize nStartOffset nEndOffset
  end.

(** [zultra_optimize_matches_lwd].  ([nLastLiteralsOffset] is written but
    never read in the source and is left out.) *)
Definition zultra_optimize_matches_lwd (bs : zultra_block_state) (pInWindow : list Z)
    (nStartOffset nEndOffset : Z) : zultra_block_state :=
  if nEndOffset <=? nStartOffset then bs
  else
    let nCachedVarlenSize := cached_varlen_sizes bs in
    let bs1 :=
      set_parse bs
        (zset (cost bs) (nEndOffset - 1)
           (zultra_get_literal_size bs (zget pInWindow (nEndOffset - 1))))
        (mset (best_match bs) (nEndOffset - 1) no_match) in
    optimize_positions (Z.to_nat (nEndOffset - 1 - nStartOffset)) bs1 pInWindow
      nCachedVarlenSize nStartOffset nEndOffset.

(** The token starts of the chosen parse, as [zultra_write_block_lwd] and
    [zultra_build_final_entropy_lwd] walk it: a match of [MIN_MATCH_SIZE] or
    more advances by its length, anything else is a literal.  Each step
    advances, so [nEndOffset - i] steps are enough. *)
Fixpoint parse_token_starts (fuel : nat) (best : list zultra_match_t) (i nEndOffset : Z)
  : list Z :=
  match fuel with
  | O => []
  | S fuel' =>
      if i <? nEndOffset then
        i :: parse_token_starts fuel' best
               (if match_length (mget best i) >=? MIN_MATCH_SIZE
                then i + match_length (mget best i) else i + 1)
               nEndOffset
      else []
  end.

(** The candidates the parser weighs at position [i], in the order in which
    it evaluates them: the literal, then each usable slot of the match table,
    a long match at its clamped length only and a short one at every length
    from the clamped one down to [MIN_MATCH_SIZE]. *)
Fixpoint candidate_lengths (n : nat) (k : Z) (nCachedVarlenSize : list Z)
    (nOffsetSize : Z) (cost0 : list Z) (i nOffset : Z) : list best_t :=
  match n with
  | O => []
  | S n' =>
      (zget nCachedVarlenSize (k - MIN_MATCH_SIZE) + (nOffsetSize + zget cost0 (i + k)),
       k, nOffset)
      :: candidate_lengths n' (k - 1) nCachedVarlenSize nOffsetSize cost0 i nOffset
  end.

Fixpoint candidate_matches (n : nat) (m : Z) (bs : zultra_block_state)
    (nCachedVarlenSize : list Z) (i nEndOffset : Z) : list best_t :=
  match n with
  | O => []
  | S n' =>
      let pMatch := mget (match_table bs) (Z.shiftl i MATCHES_PER_OFFSET_SHIFT + m) in
      if match_length pMatch >=? MIN_MATCH_SIZE then
        let nOffsetSize := zultra_get_offset_size bs (match_offset pMatch) in
        let nMatchLen :=
          if i + match_length pMatch >? nEndOffset - LAST_LITERALS
          then nEndOffset - LAST_LITERALS - i else match_length pMatch in
        (if match_length pMatch >=? LEAVE_ALONE_MATCH_SIZE then
           [(zultra_get_varlen_size bs (nMatchLen - MIN_MATCH_SIZE)
             + (nOffsetSize + zget (cost bs) (i + nMatchLen)),
             nMatchLen, match_offset pMatch)]
         else
           candidate_lengths (Z.to_nat (nMatchLen - MIN_MATCH_SIZE + 1)) nMatchLen
             nCachedVarlenSize nOffsetSize (cost bs) i (match_offset pMatch))
        ++ candidate_matches n' (m + 1) bs nCachedVarlenSize i nEndOffset
      else []
  end.

Definition candidates_at (bs : zultra_block_state) (pInWindow : list Z)
    (nCachedVarlenSize : list Z) (i nEndOffset : Z) : list best_t :=
  (zultra_get_literal_size bs (zget pInWindow i) + zget (cost bs) (i + 1), 0, 0)
  :: candidate_matches (Z.to_nat NMATCHES_PER_OFFSET) 0 bs nCachedVarlenSize i nEndOffset.

(** A block state whose match table is [tbl]. *)
Definition set_match_table (bs : zultra_block_state) (tbl : list zultra_match_t)
  : zultra_block_state :=
  {| match_table := tbl; best_match := best_match bs; cost := cost bs;
     literalsEncoder := literalsEncoder bs; offsetEncoder := offsetEncoder bs |}.

(** The first cheapest candidate of a list, scanning it as the parser does. *)
Definition first_cheapest (best : best_t) (l : list best_t) : best_t :=
  fold_left (fun b c => improve b c.1.1 c.1.2 c.2) l best.

(** *** Properties of a parse *)

(** A running best whose length keeps position [i]'s token before [e - 1]. *)
Definition len_ok (i e : Z) (b : best_t) : Prop :=
  0 <= b.1.2 /\ i + b.1.2 <= e - LAST_LITERALS.

(** The entry of the parse at [j] keeps its token before [e - 1]. *)
Definition parse_ok (e : Z) (best : list zultra_match_t) (j : Z) : Prop :=
  0 <= match_length (mget best j)
  /\ j + match_length (mget best j) <= e - LAST_LITERALS.

(** [chosen] is the first cheapest entry of [l]: everything before it costs
    strictly more, nothing after it costs less. *)
Definition first_cheapest_of (chosen : best_t) (l : list best_t) : Prop :=
  exists before after,
    l = before ++ chosen :: after
    /\ Forall (fun c => chosen.1.1 < c.1.1) before
    /\ Forall (fun c => chosen.1.1 <= c.1.1) after.

(** Two block states that differ only in the parse and in the costs at or
    before [i] offer the same candidates at [i]. *)
Definition same_above (i : Z) (bs1 bs2 : zultra_block_state) : Prop :=
  match_table bs1 = match_table bs2
  /\ literalsEncoder bs1 = literalsEncoder bs2
  /\ offsetEncoder bs1 = offsetEncoder bs2
  /\ forall j, i < j -> zget (cost bs1) j = zget (cost bs2) j.

(** What [zultra_optimize_matches_lwd] records at [i]: the cost and the
    (truncated) length and offset of [chosen]. *)
Definition records (bs : zultra_block_state) (i : Z) (chosen : best_t) : Prop :=
  zget (cost bs) i = chosen.1.1
  /\ mget (best_match bs) i
     = {| match_length := u16 chosen.1.2; match_offset := u16 chosen.2 |}.

(** *** A block in which two lengths of one match cost the same

    Six bytes [A]; the byte has a 4-bit code, length symbols 257 (length 3)
    and 258 (length 4) have 3-bit and 7-bit codes, distance symbol 0 has a
    1-bit code.  The match table offers one match at position 1: length 4 at
    offset 1. *)
Definition tie_window : list Z := [65; 65; 65; 65; 65; 65].

Definition tie_block_state : zultra_block_state :=
  {| match_table := mset (repeat no_match 48) 8 {| match_length := 4; match_offset := 1 |};
     best_match := repeat no_match 6;
     cost := repeat 0 6;
     literalsEncoder :=
       {| nSymbols := NLITERALSYMS; nMaxCodeLength := 15;
          nEntropy := repeat 0 288; nCodeWord := repeat 0 288;
          nCodeLength := zset (zset (zset (repeat 0 288) 65 4) 257 3) 258 7 |};
     offsetEncoder :=
       {| nSymbols := NOFFSETSYMS; nMaxCodeLength := 15;
          nEntropy := repeat 0 288; nCodeWord := repeat 0 288;
          nCodeLength := zset (repeat 0 288) 0 1 |} |}.

(** *** The final Huffman tables of a dynamic block *)

(** The scan of the last convergence pass of [zultra_block_deflate]:
    [for (i = 0; nOffsetLens < 2 && i < NOFFSETSYMS - 2; i++)
       if (nEntropy[i]) nOffsetLens++;] *)
Fixpoint count_offset_lens (cnt : nat) (i : Z) (entropy : list Z) (nOffsetLens : Z) : Z :=
  match cnt with
  | O => nOffsetLens
  | S cnt' =>
      if nOffsetLens <? 2 then
        count_offset_lens cnt' (i + 1) entropy
          (if zget entropy i =? 0 then nOffsetLens else nOffsetLens + 1)
      else nOffsetLens
  end.

(** The phantom frequencies given to distance symbols 0 and 1 when the
    parse uses fewer than two distance symbols. *)
Definition add_phantom_offsets (off : zultra_huffman_encoder_t) : zultra_huffman_encoder_t :=
  let nOffsetLens :=
    count_offset_lens (Z.to_nat (NOFFSETSYMS - 2)) 0 (nEntropy off) 0 in
  if nOffsetLens =? 0 then set_entropy off (zset (zset (nEntropy off) 1 1) 0 1)
  else if nOffsetLens =? 1 then
    if negb (zget (nEntropy off) 0 =? 0)
    then set_entropy off (zset (nEntropy off) 1 1)
    else set_entropy off (zset (nEntropy off) 0 1)
  else off.

(** What the header of a dynamic block declares for the distance code:
    [nOffsetSyms] and the first [nOffsetSyms] code lengths. *)
Definition declared_offset_lengths (off : zultra_huffman_encoder_t) : list Z :=
  take (Z.to_nat (zultra_huffman_encoder_get_defined_var_lengths_count off 1))
    (nCodeLength off).

Section FinalTables.

(** [zultra_huffman_encoder_optimize_for_rle] (huffutils.c), which returns
    the smoothed counts, and [zultra_block_evaluate_dynamic_cost], which only
    reads the two encoders. *)
Variable zultra_huffman_encoder_optimize_for_rle : Z -> list Z -> list Z.
Variable zultra_block_evaluate_dynamic_cost :
  zultra_huffman_encoder_t -> zultra_huffman_encoder_t -> Z.

(** The tail of the dynamic branch of [zultra_block_deflate], from the last
    convergence pass on: [lit] and [off] hold the entropies
    [zultra_build_final_entropy_lwd] has counted.  [None] stands for the
    [return -1] of a failed build. *)
Definition final_dynamic_tables (lit off : zultra_huffman_encoder_t)
  : option (zultra_huffman_encoder_t * zultra_huffman_encoder_t) :=
  let off := add_phantom_offsets off in
  match zultra_huffman_encoder_build_dynamic_codewords lit with
  | Built lit =>
      match zultra_huffman_encoder_build_dynamic_codewords off with
      | Built off =>
          let nCurTotalBitCost := zultra_block_evaluate_dynamic_cost lit off in
          let optLiteralsEncoder :=
            set_entropy lit
              (zultra_huffman_encoder_optimize_for_rle NLITERALSYMS (nEntropy lit)) in
          let optOffsetEncoder :=
            set_entropy off
              (zultra_huffman_encoder_optimize_for_rle NOFFSETSYMS (nEntropy off)) in
          match zultra_huffman_encoder_build_dynamic_codewords optLiteralsEncoder with
          | Built optLiteralsEncoder =>
              match zultra_huffman_encoder_build_dynamic_codewords optOffsetEncoder with
              | Built optOffsetEncoder =>
                  let nOptTotalBitCost :=
                    zultra_block_evaluate_dynamic_cost optLiteralsEncoder
                      optOffsetEncoder in
                  if nOptTotalBitCost <? nCurTotalBitCost
                  then Some (optLiteralsEncoder, optOffsetEncoder)
                  else Some (lit, off)
              | _ => None
              end
          | _ => None
          end
      | _ => None
      end
  | _ => None
  end.

End FinalTables.

(** The two encoders as [zultra_block_deflate] initialises them, with the
    entropies of a block of literals only: no distance symbol is used. *)
Definition literals_only_encoder : zultra_huffman_encoder_t :=
  {| nSymbols := NLITERALSYMS; nMaxCodeLength := 15;
     nEntropy := zset (zset (zset (repeat 0 288) 65 5) 66 3) NEODMARKERSYM 1;
     nCodeWord := repeat 0 288; nCodeLength := repeat 0 288 |}.

Definition unused_offset_encoder : zultra_huffman_encoder_t :=
  {| nSymbols := NOFFSETSYMS; nMaxCodeLength := 15;
     nEntropy := repeat 0 288;
     nCodeWord := repeat 0 288; nCodeLength := repeat 0 288 |}.

(** ** matchfinder.c: filling the match table *)

Section MatchFinder.

(** The suffix-array intervals the finder walks, and the finder itself:
    [zultra_find_matches_at] returns the matches it wrote through [pMatches],
    at most [nMaxMatches] of them, longest first. *)
Variable finder_state : Type.
Variable zultra_find_matches_at :
  finder_state -> Z -> Z -> list zultra_match_t * finder_state.
(** [LAST_MATCH_OFFSET] is used by matchfinder.c but defined in none of the
    sources. *)
Variable LAST_MATCH_OFFSET : Z.

(** The inner loop of [zultra_find_all_matches] over the slots of position
    [i], [n] of them from slot [m] on. *)
Fixpoint clamp_slots (n : nat) (m : Z) (tbl : list zultra_match_t)
    (nMatches i nEndOffset : Z) : list zultra_match_t :=
  match n with
  | O => tbl
  | S n' =>
      let idx := Z.shiftl i MATCHES_PER_OFFSET_SHIFT + m in
      let pMatch := mget tbl idx in
      let tbl' :=
        if (nMatches <=? m) || (i >? nEndOffset - LAST_MATCH_OFFSET) then
          mset tbl idx no_match
        else
          let nMaxLen := nEndOffset - LAST_LITERALS - i in
          let nMaxLen := if nMaxLen <? 0 then 0 else nMaxLen in
          if match_length pMatch >? u32 nMaxLen
          then mset tbl idx {| match_length := u16 (u32 nMaxLen);
                               match_offset := match_offset pMatch |}
          else tbl in
      clamp_slots n' (m + 1) tbl' nMatches i nEndOffset
  end.

Fixpoint store_matches (found : list zultra_match_t) (idx : Z) (tbl : list zultra_match_t)
  : list zultra_match_t :=
  match found with
  | [] => tbl
  | pm :: rest => store_matches rest (idx + 1) (mset tbl idx pm)
  end.

(** [zultra_find_all_matches], [n] positions from [i] on. *)
Fixpoint find_all_matches_from (n : nat) (i : Z) (st : finder_state)
    (tbl : list zultra_match_t) (nEndOffset : Z) : list zultra_match_t * finder_state :=
  match n with
  | O => (tbl, st)
  | S n' =>
      let '(found, st') := zultra_find_matches_at st i NMATCHES_PER_OFFSET in
      let tbl1 := store_matches found (Z.shiftl i MATCHES_PER_OFFSET_SHIFT) tbl in
      let tbl2 := clamp_slots (Z.to_nat NMATCHES_PER_OFFSET) 0 tbl1
                    (Z.of_nat (length found)) i nEndOffset in
      find_all_matches_from n' (i + 1) st' tbl2 nEndOffset
  end.

Definition zultra_find_all_matches (st : finder_state) (tbl : list zultra_match_t)
    (nStartOffset nEndOffset : Z) : list zultra_match_t * finder_state :=
  find_all_matches_from (Z.to_nat (nEndOffset - nStartOffset)) nStartOffset st tbl
    nEndOffset.

End MatchFinder.

(** ** blockdeflate.c: the writers of a block *)

(** The base value of the symbol of every match offset (less one), looked up
    like [g_nOffsetSymbol], and of every match length (less three). *)
Definition g_nOffsetBase : list Z :=
  [
   1; 2; 3; 4; 5; 5; 7; 7; 9; 9; 9; 9; 13; 13; 13; 13; 17; 17; 17; 17; 17; 17; 17; 17;
   25; 25; 25; 25; 25; 25; 25; 25; 33; 33; 33; 33; 33; 33; 33; 33; 33; 33; 33; 33; 33; 33; 33; 33;
   49; 49; 49; 49; 49; 49; 49; 49; 49; 49; 49; 49; 49; 49; 49; 49; 65; 65; 65; 65; 65; 65; 65; 65;
   65; 65; 65; 65; 65; 65; 65; 65; 65; 65; 65; 65; 65; 65; 65; 65; 65; 65; 65; 65; 65; 65; 65; 65;
   97; 97; 97; 97; 97; 97; 97; 97; 97; 97; 97; 97; 97; 97; 97; 97; 97; 97; 97; 97; 97; 97; 97; 97;
   97; 97; 97; 97; 97; 97; 97; 97; 129; 129; 129; 129; 129; 129; 129; 129; 129; 129; 129; 129; 129; 129; 129; 129;
   129; 129; 129; 129; 129; 129; 129; 129; 129; 129; 129; 129; 129; 129; 129; 129; 129; 129; 129; 129; 129; 129; 129; 129;
   129; 129; 129; 129; 129; 129; 129; 129; 129; 129; 129; 129; 129; 129; 129; 129; 129; 129; 129; 129; 129; 129; 129; 129;
   193; 193; 193; 193; 193; 193; 193; 193; 193; 193; 193; 193; 193; 193; 193; 193; 193; 193; 193; 193; 193; 193; 193; 193;
   193; 193; 193; 193; 193; 193; 193; 193; 193; 193; 193; 193; 193; 193; 193; 193; 193; 193; 193; 193; 193; 193; 193; 193;
   193; 193; 193; 193; 193; 193; 193; 193; 193; 193; 193; 193; 193; 193; 193; 193; 257; 385; 513; 513; 769; 769; 1025; 1025;
   1025; 1025; 1537; 1537; 1537; 1537; 2049; 2049; 2049; 2049; 2049; 2049; 2049; 2049; 3073; 3073; 3073; 3073; 3073; 3073; 3073; 3073; 4097; 4097;
   4097; 4097; 4097; 4097; 4097; 4097; 4097; 4097; 4097; 4097; 4097; 4097; 4097; 4097; 6145; 6145; 6145; 6145; 6145; 6145; 6145; 6145; 6145; 6145;
   6145; 6145; 6145; 6145; 6145; 6145; 8193; 8193; 8193; 8193; 8193; 8193; 8193; 8193; 8193; 8193; 8193; 8193; 8193; 8193; 8193; 8193; 8193; 8193;
   8193; 8193; 8193; 8193; 8193; 8193; 8193; 8193; 8193; 8193; 8193; 8193; 8193; 8193; 12289; 12289; 12289; 12289; 12289; 12289; 12289; 12289; 12289; 12289;
   12289; 12289; 12289; 12289; 12289; 12289; 12289; 12289; 12289; 12289; 12289; 12289; 12289; 12289; 12289; 12289; 12289; 12289; 12289; 12289; 12289; 12289; 16385; 16385;
   16385; 16385; 16385; 16385; 16385; 16385; 16385; 16385; 16385; 16385; 16385; 16385; 16385; 16385; 16385; 16385; 16385; 16385; 16385; 16385; 16385; 16385; 16385; 16385;
   16385; 16385; 16385; 16385; 16385; 16385; 16385; 16385; 16385; 16385; 16385; 16385; 16385; 16385; 16385; 16385; 16385; 16385; 16385; 16385; 16385; 16385; 16385; 16385;
   16385; 16385; 16385; 16385; 16385; 16385; 16385; 16385; 16385; 16385; 16385; 16385; 16385; 16385; 24577; 24577; 24577; 24577; 24577; 24577; 24577; 24577; 24577; 24577;
   24577; 24577; 24577; 24577; 24577; 24577; 24577; 24577; 24577; 24577; 24577; 24577; 24577; 24577; 24577; 24577; 24577; 24577; 24577; 24577; 24577; 24577; 24577; 24577;
   24577; 24577; 24577; 24577; 24577; 24577; 24577; 24577; 24577; 24577; 24577; 24577; 24577; 24577; 24577; 24577; 24577; 24577; 24577; 24577; 24577; 24577; 24577; 24577;
   24577; 24577; 24577; 24577; 24577; 24577; 0; 0
  ].

Definition g_nMatchLenBase : list Z :=
  [
   0; 1; 2; 3; 4; 5; 6; 7; 8; 8; 10; 10; 12; 12; 14; 14; 16; 16; 16; 16; 20; 20; 20; 20;
   24; 24; 24; 24; 28; 28; 28; 28; 32; 32; 32; 32; 32; 32; 32; 32; 40; 40; 40; 40; 40; 40; 40; 40;
   48; 48; 48; 48; 48; 48; 48; 48; 56; 56; 56; 56; 56; 56; 56; 56; 64; 64; 64; 64; 64; 64; 64; 64;
   64; 64; 64; 64; 64; 64; 64; 64; 80; 80; 80; 80; 80; 80; 80; 80; 80; 80; 80; 80; 80; 80; 80; 80;
   96; 96; 96; 96; 96; 96; 96; 96; 96; 96; 96; 96; 96; 96; 96; 96; 112; 112; 112; 112; 112; 112; 112; 112;
   112; 112; 112; 112; 112; 112; 112; 112; 128; 128; 128; 128; 128; 128; 128; 128; 128; 128; 128; 128; 128; 128; 128; 128;
   128; 128; 128; 128; 128; 128; 128; 128; 128; 128; 128; 128; 128; 128; 128; 128; 160; 160; 160; 160; 160; 160; 160; 160;
   160; 160; 160; 160; 160; 160; 160; 160; 160; 160; 160; 160; 160; 160; 160; 160; 160; 160; 160; 160; 160; 160; 160; 160;
   192; 192; 192; 192; 192; 192; 192; 192; 192; 192; 192; 192; 192; 192; 192; 192; 192; 192; 192; 192; 192; 192; 192; 192;
   192; 192; 192; 192; 192; 192; 192; 192; 224; 224; 224; 224; 224; 224; 224; 224; 224; 224; 224; 224; 224; 224; 224; 224;
   224; 224; 224; 224; 224; 224; 224; 224; 224; 224; 224; 224; 224; 224; 224; 255
  ].

(** The number of displacement bits of each match length symbol (from
    [NMATCHLENSYMSTART] on) and of each offset symbol. *)
Definition g_nRevMatchSymbolBits : list Z :=
  [
   0; 0; 0; 0; 0; 0; 0; 0; 1; 1; 1; 1; 2; 2; 2; 2; 3; 3; 3; 3; 4; 4; 4; 4;
   5; 5; 5; 5; 0
  ].

Definition g_nRevOffsetSymbolBits : list Z :=
  [
   0; 0; 0; 0; 1; 1; 2; 2; 3; 3; 4; 4; 5; 5; 6; 6; 7; 7; 8; 8; 9; 9; 10; 10;
   11; 11; 12; 12; 13; 13; 0; 0
  ].

Definition NMATCHLENSYMSTART : Z := 257.
Definition NMATCHLENSYMS : Z := 29.
Definition NVALIDLITERALSYMS : Z := 286.
Definition NVALIDOFFSETSYMS : Z := 30.
Definition NCODELENBITS : Z := 3.
Definition MAX_CODES_MASK : Z := 31.

(** [zultra_get_offset_symbol] and [zultra_get_varlen_symbol] (the
    compressor they are passed is not used). *)
Definition zultra_get_offset_symbol (nMatchOffset : Z) : Z :=
  let nMatchOffset := u32 (nMatchOffset - 1) in
  if nMatchOffset <? 256 then zget g_nOffsetSymbol nMatchOffset
  else if nMatchOffset <? 32768 then
    zget g_nOffsetSymbol (256 + Z.shiftr (nMatchOffset - 256) 7)
  else NOFFSETSYMS.

Definition zultra_get_varlen_symbol (nLength : Z) : Z :=
  let nLength := if u32 nLength >? 255 then 255 else u32 nLength in
  zget g_nMatchLenSymbol nLength.

Definition zultra_write_literal (bs : zultra_block_state)
    (bw : BitWriter.zultra_bitwriter_t) (out : list Z) (nLiteralByte : Z)
  : Z * BitWriter.zultra_bitwriter_t * list Z :=
  if nLiteralByte >=? 256 then (-1, bw, out)
  else
    let '(r, bw1, out1) :=
      zultra_huffman_encoder_write_codeword (literalsEncoder bs) nLiteralByte bw out in
    if r <? 0 then (-1, bw1, out1) else (0, bw1, out1).

(** The table lookups at the head of [zultra_write_offset]: the symbol, the
    base and the number of extra bits of an offset; [None] where the
    function returns -1 without writing. *)
Definition offset_code (nMatchOffset : Z) : option (Z * Z * Z) :=
  let nMatchOffsetIdx := u32 (nMatchOffset - 1) in
  if nMatchOffsetIdx <? 256 then
    Some (zget g_nOffsetSymbol nMatchOffsetIdx,
          zget g_nOffsetBase nMatchOffsetIdx,
          zget g_nOffsetExtraBits nMatchOffsetIdx)
  else if nMatchOffsetIdx <? 32768 then
    let nMatchOffsetIdx := 256 + Z.shiftr (nMatchOffsetIdx - 256) 7 in
    Some (zget g_nOffsetSymbol nMatchOffsetIdx,
          zget g_nOffsetBase nMatchOffsetIdx,
          zget g_nOffsetExtraBits nMatchOffsetIdx)
  else None.

Definition zultra_write_offset (bs : zultra_block_state)
    (bw : BitWriter.zultra_bitwriter_t) (out : list Z) (nMatchOffset : Z)
  : Z * BitWriter.zultra_bitwriter_t * list Z :=
  match offset_code nMatchOffset with
  | Some (nSymbol, nBase, nExtraBits) =>
      let nDisp := u32 (nMatchOffset - nBase) in
      let '(r, bw1, out1) :=
        zultra_huffman_encoder_write_codeword (offsetEncoder bs) nSymbol bw out in
      if r <? 0 then (-1, bw1, out1)
      else
        let '(r, bw2, out2) :=
          BitWriter.zultra_bitwriter_put_bits bw1 out1 nDisp nExtraBits in
        if r <? 0 then (-1, bw2, out2) else (0, bw2, out2)
  | None => (-1, bw, out)
  end.

(** The table lookups at the head of [zultra_write_varlen], for an encoded
    match length (the length less [MIN_MATCH_SIZE]). *)
Definition varlen_code (nLength : Z) : Z * Z * Z :=
  let nLengthIdx := if u32 nLength >? 255 then 255 else u32 nLength in
  (zget g_nMatchLenSymbol nLengthIdx, zget g_nMatchLenBase nLengthIdx,
   zget g_nMatchLenExtraBits nLengthIdx).

Definition zultra_write_varlen (bs : zultra_block_state)
    (bw : BitWriter.zultra_bitwriter_t) (out : list Z) (nLength : Z)
  : Z * BitWriter.zultra_bitwriter_t * list Z :=
  let '(nSymbol, nBase, nExtraBits) := varlen_code nLength in
  let nDisp := u32 (nLength - nBase) in
  let '(r, bw1, out1) :=
    zultra_huffman_encoder_write_codeword (literalsEncoder bs) nSymbol bw out in
  if r <? 0 then (-1, bw1, out1)
  else
    let '(r, bw2, out2) :=
      BitWriter.zultra_bitwriter_put_bits bw1 out1 nDisp nExtraBits in
    if r <? 0 then (-1, bw2, out2) else (0, bw2, out2).

(** What is checked of every offset [o]: the symbol is the one
    [zultra_get_offset_symbol] counts, it is a valid distance symbol, the
    extra bits are those of the symbol and at most 13, the displacement fits
    them, and the next offset has the same symbol and base or a later
    symbol. *)
Definition offset_code_ok (o : Z) : bool :=
  match offset_code o with
  | Some (sym, base, extra) =>
      (sym =? zultra_get_offset_symbol o)
      && (0 <=? sym) && (sym <? NVALIDOFFSETSYMS)
      && (extra =? zget g_nRevOffsetSymbolBits sym)
      && (0 <=? extra) && (extra <=? 13)
      && (base <=? o) && (o - base <? 2 ^ extra)
      && (if o <? MAX_OFFSET then
            match offset_code (o + 1) with
            | Some (sym', base', _) =>
                (sym <=? sym') && ((sym <? sym') || (base' =? base))
            | None => false
            end
          else true)
  | None => false
  end.

(** The same for every encoded match length [l]; at most 5 extra bits. *)
Definition varlen_code_ok (l : Z) : bool :=
  let '(sym, base, extra) := varlen_code l in
  (sym =? zultra_get_varlen_symbol l)
  && (NMATCHLENSYMSTART <=? sym) && (sym <? NMATCHLENSYMSTART + NMATCHLENSYMS)
  && (extra =? zget g_nRevMatchSymbolBits (sym - NMATCHLENSYMSTART))
  && (0 <=? extra) && (extra <=? 5)
  && (base <=? l) && (l - base <? 2 ^ extra)
  && (if l <? 255 then
        let '(sym', base', _) := varlen_code (l + 1) in
        (sym <=? sym') && ((sym <? sym') || (base' =? base))
      else true).

(** The position of the writer in bits. *)
Definition bit_position (bw : BitWriter.zultra_bitwriter_t) : Z :=
  8 * BitWriter.nOutOffset bw + BitWriter.nEncBitCount bw.

(** *** Parses built from the candidates of the parser *)

(** A way to cover the bytes from position [i] to the end [e] of the block
    with tokens the parser weighs, and what it costs.  The last byte is a
    literal.  Before it, one of the candidates of the position is taken (the
    literal, or a match of a table slot at one of the lengths tried) and
    the parse goes on after it, one byte further for a literal and the match
    length further for a match.  A candidate carries the cost of its token
    plus the cost recorded for the position after it, so the token itself
    costs the difference. *)
Inductive candidate_parse (bs : zultra_block_state) (window cached : list Z) (s e : Z)
  : Z -> Z -> Prop :=
| parse_last_literal :
    candidate_parse bs window cached s e (e - 1)
      (zultra_get_literal_size bs (zget window (e - 1)))
| parse_token (i : Z) (c : best_t) (total : Z) :
    s <= i <= e - 2 ->
    In c (candidates_at bs window cached i e) ->
    candidate_parse bs window cached s e (i + (if c.1.2 =? 0 then 1 else c.1.2)) total ->
    candidate_parse bs window cached s e i
      (c.1.1 - zget (cost bs) (i + (if c.1.2 =? 0 then 1 else c.1.2)) + total).

(** *** zultra_post_optimize_block_lwd *)

(** [for (j = 0; j < nMatchLen && nLiteralsCost < nMatchCost; j++)]: the
    cost of the bytes of a match as literals, [n] rounds from [j] on.  The
    costs are [unsigned int]; a byte without a code ends the loop with
    [nLiteralsCost = -1]. *)
Fixpoint literals_cost (n : nat) (bs : zultra_block_state) (pInWindow : list Z)
    (nStartIdx j nMatchCost nLiteralsCost : Z) : Z :=
  match n with
  | O => nLiteralsCost
  | S n' =>
      if nLiteralsCost <? nMatchCost then
        let nCurLiteralCost :=
          u32 (zget (nCodeLength (literalsEncoder bs)) (zget pInWindow (nStartIdx + j))) in
        if nCurLiteralCost =? 0 then u32 (-1)
        else literals_cost n' bs pInWindow nStartIdx (j + 1) nMatchCost
               (u32 (nLiteralsCost + nCurLiteralCost))
      else nLiteralsCost
  end.

(** [for (j = 0; j < nMatchLen; j++) best_match[nStartIdx + j].length = 0] *)
Fixpoint zero_lengths (n : nat) (best : list zultra_match_t) (nStartIdx j : Z)
  : list zultra_match_t :=
  match n with
  | O => best
  | S n' =>
      zero_lengths n'
        (mset best (nStartIdx + j)
           {| match_length := 0;
              match_offset := match_offset (mget best (nStartIdx + j)) |})
        nStartIdx (j + 1)
  end.

(** The walk over the parse from [i] on; every round advances, so
    [nEndOffset - i] rounds are enough. *)
Fixpoint post_optimize_from (fuel : nat) (bs : zultra_block_state) (pInWindow : list Z)
    (best : list zultra_match_t) (i nEndOffset : Z) : list zultra_match_t :=
  match fuel with
  | O => best
  | S fuel' =>
      if i <? nEndOffset then
        let pMatch := mget best i in
        if match_length pMatch >=? MIN_MATCH_SIZE then
          let nMatchOffset := match_offset pMatch in
          let nMatchLen := match_length pMatch in
          let nEncodedMatchLen := u32 (nMatchLen - MIN_MATCH_SIZE) in
          let nStartIdx := i in
          let i := i + nMatchLen in
          if (nMatchOffset <? MIN_OFFSET) || (nMatchOffset >? MAX_OFFSET) then
            post_optimize_from fuel' bs pInWindow best i nEndOffset
          else
            let nMatchCost :=
              u32 (zultra_get_varlen_size bs nEncodedMatchLen
                   + zultra_get_offset_size bs nMatchOffset) in
            let nLiteralsCost :=
              literals_cost (Z.to_nat nMatchLen) bs pInWindow nStartIdx 0 nMatchCost 0 in
            if nLiteralsCost =? u32 (-1) then
              post_optimize_from fuel' bs pInWindow best i nEndOffset
            else if nLiteralsCost <? nMatchCost then
              post_optimize_from fuel' bs pInWindow
                (zero_lengths (Z.to_nat nMatchLen) best nStartIdx 0) i nEndOffset
            else post_optimize_from fuel' bs pInWindow best i nEndOffset
        else post_optimize_from fuel' bs pInWindow best (i + 1) nEndOffset
      else best
  end.

(** [zultra_post_optimize_block_lwd] changes nothing but the parse. *)
Definition zultra_post_optimize_block_lwd (bs : zultra_block_state) (pInWindow : list Z)
    (nStartOffset nEndOffset : Z) : zultra_block_state :=
  set_parse bs (cost bs)
    (post_optimize_from (Z.to_nat (nEndOffset - nStartOffset)) bs pInWindow
       (best_match bs) nStartOffset nEndOffset).

(** What the pass may do to the entry of the parse at [j]: nothing, or set
    its length to 0 where the byte has a code of its own. *)
Definition rewritten_as_literals (bs : zultra_block_state) (pInWindow : list Z)
    (best best' : list zultra_match_t) : Prop :=
  length best' = length best
  /\ forall j,
       match_offset (mget best' j) = match_offset (mget best j)
       /\ (match_length (mget best' j) = match_length (mget best j)
           \/ (match_length (mget best' j) = 0
               /\ zget (nCodeLength (literalsEncoder bs)) (zget pInWindow j) <> 0)).


(** ** libzultra.c: compression states and statuses *)

Definition CSTATE_HAS_DICTIONARY : Z := 1.
Definition CSTATE_HEADER_EMITTED : Z := 2.
Definition CSTATE_FINALIZED_COMPRESSION : Z := 4.
Definition CSTATE_FOOTER_EMITTED : Z := 8.

Inductive zultra_status_t : Type :=
  | ZULTRA_OK
  | ZULTRA_ERROR_SRC
  | ZULTRA_ERROR_DST
  | ZULTRA_ERROR_DICTIONARY
  | ZULTRA_ERROR_MEMORY
  | ZULTRA_ERROR_COMPRESSION.

Definition status_is_ok (s : zultra_status_t) : bool :=
  match s with ZULTRA_OK => true | _ => false end.

(** [size_t] arithmetic, on 64 bits. *)
Definition size_t (x : Z) : Z := x mod 2 ^ 64.

(** *** The framing layer (frame.h) *)

(** Modelled from the spec: frame.c is not among the sources (frame.h only
    declares its functions).  The gzip wrapper has the 10-byte header
    [1f 8b 08 00 00 00 00 00 00 ff], the zlib wrapper the 2-byte header
    [78 9c], raw deflate none. *)
Definition zultra_frame_encode_header_bytes (nFlags : Z) : list Z :=
  if nFlags =? ZULTRA_FLAG_GZIP_FRAMING then [31; 139; 8; 0; 0; 0; 0; 0; 0; 255]
  else if nFlags =? ZULTRA_FLAG_ZLIB_FRAMING then [120; 156]
  else [].

(** Modelled from the spec: the size of the header above. *)
Definition zultra_frame_get_header_size (nFlags : Z) : Z :=
  Z.of_nat (length (zultra_frame_encode_header_bytes nFlags)).

(** Modelled from the spec: Adler-32 starts at 1, CRC-32 at 0. *)
Definition zultra_frame_init_checksum (nFlags : Z) : Z :=
  if nFlags =? ZULTRA_FLAG_ZLIB_FRAMING then 1 else 0.

Definition le32 (x : Z) : list Z :=
  [x mod 256; (x / 2 ^ 8) mod 256; (x / 2 ^ 16) mod 256; (x / 2 ^ 24) mod 256].

Definition be32 (x : Z) : list Z := rev (le32 x).

(** Modelled from the spec: the gzip trailer is the CRC-32 then ISIZE, both
    little-endian; the zlib trailer is the Adler-32, big-endian; raw deflate
    has none.  The checksum update itself is a parameter of the driver
    below. *)
Definition zultra_frame_encode_footer_bytes (nChecksum nOriginalSize nFlags : Z) : list Z :=
  if nFlags =? ZULTRA_FLAG_GZIP_FRAMING then le32 nChecksum ++ le32 nOriginalSize
  else if nFlags =? ZULTRA_FLAG_ZLIB_FRAMING then be32 nChecksum
  else [].

(** Modelled from the spec: the size of the trailer above. *)
Definition zultra_frame_get_footer_size (nFlags : Z) : Z :=
  if nFlags =? ZULTRA_FLAG_GZIP_FRAMING then 8
  else if nFlags =? ZULTRA_FLAG_ZLIB_FRAMING then 4
  else 0.

(** ** libzultra.c *)

(** The defaulting and clamping of the block size shared by
    [zultra_stream_init] and [zultra_memory_bound]. *)
Definition clamp_max_block_size (nMaxBlockSize : Z) : Z :=
  let b := if nMaxBlockSize =? 0 then ZULTRA_DEFAULT_MAX_BLOCK_SIZE else nMaxBlockSize in
  let b := if b <? 32768 then 32768 else b in
  if b >? 2097152 then 2097152 else b.

Definition zultra_memory_bound (nInputSize nFlags nMaxBlockSize : Z) : Z :=
  let nMaxSplits := MAX_SPLITS in
  let nMaxBlockSize := clamp_max_block_size nMaxBlockSize in
  let per_block := size_t (size_t (size_t (size_t (nInputSize + (nMaxBlockSize - 1))
                                     / nMaxBlockSize) * (1 + 4 + 1)) * nMaxSplits) in
  size_t (size_t (size_t (size_t (zultra_frame_get_header_size nFlags + per_block)
                            + nInputSize) + 1)
          + zultra_frame_get_footer_size nFlags).

(** Size of the compressor's output buffer. *)
Definition out_buffer_size (nMaxBlockSize : Z) : Z :=
  1 + nMaxBlockSize + (1 + 4) * ((nMaxBlockSize / 65535) + 1).

(** [memcpy (dst + off, src, n)] on lists. *)
Definition memcpy_at (dst : list Z) (off : Z) (src : list Z) (n : Z) : list Z :=
  take (Z.to_nat off) dst ++ take (Z.to_nat n) src
    ++ drop (Z.to_nat off + Z.to_nat n) dst.

(** *** Stored blocks, in the words of the spec

    A sub-range that does not compress is sent as stored blocks of at most
    65535 bytes: after the bits already pending, BFINAL and BTYPE = 00,
    zero-padded to a byte boundary, then LEN on two bytes, least significant
    first, then NLEN, the one's complement of LEN, then the LEN raw bytes.
    Only the last block of the sub-range can carry BFINAL = 1. *)

Definition stored_block_spec (nPendingCount nPendingBits bfinal : Z) (chunk : list Z)
  : list Z :=
  let LEN := Z.of_nat (length chunk) in
  let NLEN := 65535 - LEN in
  BitWriter.bytes_le (Z.to_nat ((nPendingCount + 3 + 7) / 8))
    (nPendingBits + bfinal * 2 ^ nPendingCount)
  ++ BitWriter.bytes_le 2 LEN ++ BitWriter.bytes_le 2 NLEN ++ chunk.

Fixpoint stored_blocks_spec (fuel : nat) (nPendingCount nPendingBits bfinal : Z)
    (raw : list Z) : list Z :=
  match fuel with
  | O => []
  | S fuel' =>
      if Z.of_nat (length raw) =? 0 then []
      else if Z.of_nat (length raw) <=? 65535
      then stored_block_spec nPendingCount nPendingBits bfinal raw
      else stored_block_spec nPendingCount nPendingBits 0 (take (Z.to_nat 65535) raw)
           ++ stored_blocks_spec fuel' 0 0 bfinal (drop (Z.to_nat 65535) raw)
  end.

Section Driver.

(** The working arrays and entropy coders of [zultra_compressor_t] that the
    driver only hands on to the block compressor. *)
Variable block_state : Type.
Variable block_state_init : block_state.

(** The allocator of the stream ([zalloc], by default [malloc]): whether a
    request for [items] objects of [size] bytes is served. *)
Variable zalloc : Z -> Z -> bool.
(** [sizeof (zultra_compressor_t)], which depends on the target. *)
Variable sizeof_zultra_compressor_t : Z.
(** libdivsufsort, external to the repository: the status of its set-up. *)
Variable divsufsort_init : Z.
(** CRC-32 or Adler-32 of the framing layer. *)
Variable zultra_frame_update_checksum : Z -> list Z -> Z -> Z.

(** The block compressor as the driver sees it.  [zultra_build_suffix_array]
    with the priming and filling of the match table returns its status; the
    splitter returns [nSplitArraySize] and the split offsets; the cost
    evaluation returns its status and the two estimates; and
    [zultra_block_deflate], which reaches the output only through
    [zultra_bitwriter_put_bits], returns its status with the calls it made. *)
Variable find_matches : block_state -> list Z -> Z -> Z -> Z * block_state.
Variable zultra_block_split :
  block_state -> list Z -> Z -> Z -> Z -> Z * list Z * block_state.
Variable evaluate_costs : block_state -> list Z -> Z -> Z -> bool * Z * Z * block_state.
Variable zultra_block_deflate :
  block_state -> BitWriter.zultra_bitwriter_t -> list Z -> list Z -> Z -> Z -> Z
  -> Z * list (Z * Z) * block_state.

Import BitWriter.

Record zultra_compressor_t : Type := mk_compressor {
  flags : Z;
  max_block_size : Z;
  dictionary_data : option (list Z);
  dictionary_size : Z;
  in_data : list Z;
  cur_in_bytes : Z;
  previous_block_size : Z;
  out_buffer : list Z;
  cur_out_index : Z;
  pending_out_bytes : Z;
  bitwriter : zultra_bitwriter_t;
  compression_state : Z;
  cur_frame_index : Z;
  pending_frame_bytes : Z;
  frame_buffer : list Z;
  block : block_state
}.

(** [zultra_stream_t]; its [state] pointer is the compressor record, which the
    functions below take and return next to the stream. *)
Record zultra_stream_t : Type := mk_stream {
  next_in : list Z;      (**r unread input; [avail_in] is its length *)
  total_in : Z;
  next_out : list Z;     (**r bytes delivered to the caller so far *)
  avail_out : Z;
  total_out : Z;
  adler : Z
}.

Definition avail_in (strm : zultra_stream_t) : Z := Z.of_nat (length (next_in strm)).

(** [zultra_stream_init].  Every allocation goes through [zalloc]; a refused
    one ends the stream and returns [ZULTRA_ERROR_MEMORY]. *)
Definition zultra_stream_init (nFlags nMaxBlockSize0 : Z)
  : zultra_status_t * option zultra_compressor_t :=
  let nMaxBlockSize := clamp_max_block_size nMaxBlockSize0 in
  if negb (zalloc 1 sizeof_zultra_compressor_t) then (ZULTRA_ERROR_MEMORY, None)
  else if negb (zalloc (HISTORY_SIZE + nMaxBlockSize) 1) then (ZULTRA_ERROR_MEMORY, None)
  else if negb (zalloc (out_buffer_size nMaxBlockSize) 1) then (ZULTRA_ERROR_MEMORY, None)
  else
    let nMaxWindowSize := HISTORY_SIZE + nMaxBlockSize in
    let nResult :=
      if negb (divsufsort_init =? 0) then divsufsort_init
      else if zalloc nMaxWindowSize 4 && zalloc nMaxWindowSize 4
              && zalloc (LCP_MAX + 1) 4
              && zalloc (nMaxWindowSize * NMATCHES_PER_OFFSET) 4
              && zalloc nMaxWindowSize 4
           then 0 else -1 in
    if negb (nResult =? 0) then (ZULTRA_ERROR_MEMORY, None)
    else
      (ZULTRA_OK,
       Some {| flags := nFlags;
               max_block_size := nMaxBlockSize;
               dictionary_data := None;
               dictionary_size := 0;
               in_data := repeat 0 (Z.to_nat (HISTORY_SIZE + nMaxBlockSize));
               cur_in_bytes := 0;
               previous_block_size := 0;
               out_buffer := repeat 0 (Z.to_nat (out_buffer_size nMaxBlockSize));
               cur_out_index := 0;
               pending_out_bytes := 0;
               bitwriter := zultra_bitwriter_init 0 (out_buffer_size nMaxBlockSize);
               compression_state := 0;
               cur_frame_index := 0;
               pending_frame_bytes := 0;
               frame_buffer := repeat 0 16;
               block := block_state_init |}).

(** Field updates of the compressor used by the driver. *)
Definition set_writer (c : zultra_compressor_t) (bw : zultra_bitwriter_t) (out : list Z)
    (bs : block_state) : zultra_compressor_t :=
  {| flags := flags c; max_block_size := max_block_size c;
     dictionary_data := dictionary_data c; dictionary_size := dictionary_size c;
     in_data := in_data c; cur_in_bytes := cur_in_bytes c;
     previous_block_size := previous_block_size c;
     out_buffer := out; cur_out_index := cur_out_index c;
     pending_out_bytes := pending_out_bytes c; bitwriter := bw;
     compression_state := compression_state c;
     cur_frame_index := cur_frame_index c;
     pending_frame_bytes := pending_frame_bytes c;
     frame_buffer := frame_buffer c; block := bs |}.

Definition set_frame (c : zultra_compressor_t) (cstate idx pending : Z) (buf : list Z)
  : zultra_compressor_t :=
  {| flags := flags c; max_block_size := max_block_size c;
     dictionary_data := dictionary_data c; dictionary_size := dictionary_size c;
     in_data := in_data c; cur_in_bytes := cur_in_bytes c;
     previous_block_size := previous_block_size c;
     out_buffer := out_buffer c; cur_out_index := cur_out_index c;
     pending_out_bytes := pending_out_bytes c; bitwriter := bitwriter c;
     compression_state := cstate;
     cur_frame_index := idx; pending_frame_bytes := pending;
     frame_buffer := buf; block := block c |}.

Definition set_input (c : zultra_compressor_t) (data : list Z) (cur prev dict_size : Z)
  : zultra_compressor_t :=
  {| flags := flags c; max_block_size := max_block_size c;
     dictionary_data := dictionary_data c; dictionary_size := dict_size;
     in_data := data; cur_in_bytes := cur;
     previous_block_size := prev;
     out_buffer := out_buffer c; cur_out_index := cur_out_index c;
     pending_out_bytes := pending_out_bytes c; bitwriter := bitwriter c;
     compression_state := compression_state c;
     cur_frame_index := cur_frame_index c;
     pending_frame_bytes := pending_frame_bytes c;
     frame_buffer := frame_buffer c; block := block c |}.

Definition set_pending_out (c : zultra_compressor_t) (idx pending : Z)
  : zultra_compressor_t :=
  {| flags := flags c; max_block_size := max_block_size c;
     dictionary_data := dictionary_data c; dictionary_size := dictionary_size c;
     in_data := in_data c; cur_in_bytes := cur_in_bytes c;
     previous_block_size := previous_block_size c;
     out_buffer := out_buffer c; cur_out_index := idx;
     pending_out_bytes := pending; bitwriter := bitwriter c;
     compression_state := compression_state c;
     cur_frame_index := cur_frame_index c;
     pending_frame_bytes := pending_frame_bytes c;
     frame_buffer := frame_buffer c; block := block c |}.

Definition deliver (strm : zultra_stream_t) (bytes : list Z) : zultra_stream_t :=
  {| next_in := next_in strm; total_in := total_in strm;
     next_out := next_out strm ++ bytes;
     avail_out := avail_out strm - Z.of_nat (length bytes);
     total_out := total_out strm + Z.of_nat (length bytes);
     adler := adler strm |}.

(** The stored-block loop of [zultra_stream_compress] (the
    [while (!nError && nRemainingBlockSize)] of the fallback).  [src] is the
    input from [in_data + HISTORY_SIZE + nInStart + nSubBlockOffset] on; the
    loop ends when nothing remains, after at most [nRemainingBlockSize]
    rounds, which bounds the recursion. *)
Fixpoint emit_stored_blocks (fuel : nat) (nMaxBlockSize nIsFinal : Z) (src : list Z)
    (nRemainingBlockSize : Z) (bw : zultra_bitwriter_t) (out : list Z)
  : zultra_status_t * zultra_bitwriter_t * list Z :=
  match fuel with
  | O => (ZULTRA_OK, bw, out)
  | S fuel' =>
      if nRemainingBlockSize =? 0 then (ZULTRA_OK, bw, out)
      else
        let nSubBlockSize := if nRemainingBlockSize >? 65535 then 65535 else nRemainingBlockSize in
        let nSubIsFinal := if nRemainingBlockSize >? 65535 then 0 else nIsFinal in
        let '(r1, bw1, out1) := zultra_bitwriter_put_bits bw out nSubIsFinal 1 in
        if r1 <? 0 then (ZULTRA_ERROR_DST, bw1, out1)
        else
          let '(r2, bw2, out2) := zultra_bitwriter_put_bits bw1 out1 0 2 in
          if r2 <? 0 then (ZULTRA_ERROR_DST, bw2, out2)
          else
            let '(r3, bw3, out3) := zultra_bitwriter_flush_bits bw2 out2 in
            if r3 <? 0 then (ZULTRA_ERROR_DST, bw3, out3)
            else
              let nCurWriteOffset := zultra_bitwriter_get_offset bw3 in
              if (nCurWriteOffset <? 0)
                 || (nCurWriteOffset + 4 + nSubBlockSize >? out_buffer_size nMaxBlockSize)
              then (ZULTRA_ERROR_DST, bw3, out3)
              else
                let out4 := zset out3 nCurWriteOffset (Z.land nSubBlockSize 255) in
                let out5 := zset out4 (nCurWriteOffset + 1)
                              (Z.land (Z.shiftr nSubBlockSize 8) 255) in
                let out6 := zset out5 (nCurWriteOffset + 2)
                              (Z.lxor (Z.land nSubBlockSize 255) 255) in
                let out7 := zset out6 (nCurWriteOffset + 3)
                              (Z.lxor (Z.land (Z.shiftr nSubBlockSize 8) 255) 255) in
                let out8 := memcpy_at out7 (nCurWriteOffset + 4) src nSubBlockSize in
                emit_stored_blocks fuel' nMaxBlockSize nIsFinal
                  (drop (Z.to_nat nSubBlockSize) src)
                  (nRemainingBlockSize - nSubBlockSize)
                  (zultra_bitwriter_set_offset bw3 (nCurWriteOffset + 4 + nSubBlockSize))
                  out8
  end.

(** One round of the sub-block loop of [zultra_stream_compress]: the static or
    dynamic attempt and, when it fails or takes more bytes than the sub-block
    itself, the rewind and the stored blocks.  Returns the status, the
    compressor and the new [nInStart]. *)
Definition compress_subblock (nDoFinalize nInDataSize nAvailIn : Z)
    (c : zultra_compressor_t) (nInStart nSplitOffset : Z)
  : zultra_status_t * zultra_compressor_t * Z :=
  let nMaxBlockSize := max_block_size c in
  let pInWindow := drop (Z.to_nat (HISTORY_SIZE - previous_block_size c)) (in_data c) in
  let nBlockSize := nSplitOffset - (nInStart + previous_block_size c) in
  let '(bCostOk, nStaticCost, nDynamicCost, bs1) :=
    evaluate_costs (block c) pInWindow (previous_block_size c + nInStart) nBlockSize in
  let nError0 := if bCostOk then ZULTRA_OK else ZULTRA_ERROR_COMPRESSION in
  let nIsDynamic := if nStaticCost <=? nDynamicCost then 0 else 1 in
  let blockBitWriter := zultra_bitwriter_copy (bitwriter c) in
  let nIsFinal :=
    if negb (nDoFinalize =? 0) && (nInStart + nBlockSize >=? nInDataSize) && (nAvailIn =? 0)
    then 1 else 0 in
  let '(r1, bw1, out1) :=
    zultra_bitwriter_put_bits (bitwriter c) (out_buffer c) nIsFinal 1 in
  if r1 <? 0 then (ZULTRA_ERROR_DST, set_writer c bw1 out1 bs1, nInStart)
  else
    let '(r2, bw2, out2) := zultra_bitwriter_put_bits bw1 out1 (1 + nIsDynamic) 2 in
    if r2 <? 0 then (ZULTRA_ERROR_DST, set_writer c bw2 out2 bs1, nInStart)
    else if negb (status_is_ok nError0) then (nError0, set_writer c bw2 out2 bs1, nInStart)
    else
      let nPrevOffset := zultra_bitwriter_get_offset bw2 in
      let '(nCompressionResult, puts, bs2) :=
        if nPrevOffset <? 0 then (2, [], bs1)
        else zultra_block_deflate bs1 bw2 out2 pInWindow
               (previous_block_size c + nInStart) nBlockSize nIsDynamic in
      let '(bw3, out3) := put_bits_all puts bw2 out2 in
      if (nCompressionResult <? 0)
         || (zultra_bitwriter_get_offset bw3 <? 0)
         || (zultra_bitwriter_get_offset bw3 - nPrevOffset >? nBlockSize)
      then
        (* Not compressible; rewind to final block bit *)
        let bw4 := zultra_bitwriter_copy blockBitWriter in
        let '(nError, bw5, out5) :=
          emit_stored_blocks (Z.to_nat nBlockSize) nMaxBlockSize nIsFinal
            (drop (Z.to_nat (HISTORY_SIZE + nInStart)) (in_data c))
            nBlockSize bw4 out3 in
        (nError, set_writer c bw5 out5 bs2, nInStart + nBlockSize)
      else (ZULTRA_OK, set_writer c bw3 out3 bs2, nInStart + nBlockSize).

(** [while (nInStart < nInDataSize && !nError)], one split offset a round. *)
Fixpoint compress_subblocks (nSplitOffset : list Z) (nDoFinalize nInDataSize nAvailIn : Z)
    (nError : zultra_status_t) (c : zultra_compressor_t) (nInStart : Z)
  : zultra_status_t * zultra_compressor_t :=
  match nSplitOffset with
  | [] => (nError, c)
  | nSplit :: rest =>
      if (nInStart <? nInDataSize) && status_is_ok nError then
        let '(nError1, c1, nInStart1) :=
          compress_subblock nDoFinalize nInDataSize nAvailIn c nInStart nSplit in
        compress_subblocks rest nDoFinalize nInDataSize nAvailIn nError1 c1 nInStart1
      else (nError, c)
  end.

(** Copying pending frame bytes (header or footer) to the caller: the two
    identical [if (!nError && pCompressor->pending_frame_bytes)] blocks. *)
Definition drain_frame_bytes (nError : zultra_status_t) (c : zultra_compressor_t)
    (strm : zultra_stream_t) : zultra_status_t * zultra_compressor_t * zultra_stream_t :=
  if status_is_ok nError && negb (pending_frame_bytes c =? 0) then
    if cur_frame_index c + pending_frame_bytes c >? 16 then (ZULTRA_ERROR_COMPRESSION, c, strm)
    else if negb (avail_out strm =? 0) then
      let nMaxFrameOutBytes :=
        if avail_out strm >? pending_frame_bytes c then pending_frame_bytes c
        else avail_out strm in
      let bytes := take (Z.to_nat nMaxFrameOutBytes)
                     (drop (Z.to_nat (cur_frame_index c)) (frame_buffer c)) in
      (nError,
       set_frame c (compression_state c) (cur_frame_index c + nMaxFrameOutBytes)
         (pending_frame_bytes c - nMaxFrameOutBytes) (frame_buffer c),
       deliver strm bytes)
    else (nError, c, strm)
  else (nError, c, strm).

(** The body of [if (nInDataSize > 0)]: one group of blocks, from the checksum
    to the readying of the output. *)
Definition compress_block_group (nDoFinalize nInDataSize : Z) (c : zultra_compressor_t)
    (strm : zultra_stream_t) : zultra_status_t * zultra_compressor_t * zultra_stream_t :=
  let nMaxBlockSize := max_block_size c in
  let strm1 :=
    {| next_in := next_in strm; total_in := total_in strm; next_out := next_out strm;
       avail_out := avail_out strm; total_out := total_out strm;
       adler := zultra_frame_update_checksum (adler strm)
                  (take (Z.to_nat nInDataSize) (drop (Z.to_nat HISTORY_SIZE) (in_data c)))
                  (flags c) |} in
  let c1 := set_input c (in_data c) 0 (previous_block_size c) 0 in
  let pInWindow := drop (Z.to_nat (HISTORY_SIZE - previous_block_size c1)) (in_data c1) in
  let '(nFound, bs1) :=
    find_matches (block c1) pInWindow (previous_block_size c1)
      (previous_block_size c1 + nInDataSize) in
  let c2 := set_writer c1 (bitwriter c1) (out_buffer c1) bs1 in
  let '(nError3, c3) :=
    if negb (nFound =? 0) then (ZULTRA_ERROR_COMPRESSION, c2)
    else
      let '(nSplitArraySize, nSplitOffset, bs2) :=
        zultra_block_split (block c2) pInWindow (previous_block_size c2) nInDataSize
          MAX_SPLITS in
      let c2' := set_writer c2 (bitwriter c2) (out_buffer c2) bs2 in
      if nSplitArraySize <? 0 then (ZULTRA_ERROR_COMPRESSION, c2')
      else compress_subblocks nSplitOffset nDoFinalize nInDataSize (avail_in strm1)
             ZULTRA_OK c2' 0 in
  let nPrev := if nInDataSize >? HISTORY_SIZE then HISTORY_SIZE else nInDataSize in
  let data4 :=
    if nPrev =? 0 then in_data c3
    else memcpy_at (in_data c3) (HISTORY_SIZE - nPrev)
           (drop (Z.to_nat (HISTORY_SIZE + (nMaxBlockSize - nPrev))) (in_data c3)) nPrev in
  let c4 := set_input c3 data4 (cur_in_bytes c3) nPrev (dictionary_size c3) in
  let '(nError5, c5) :=
    if status_is_ok nError3 && negb (nDoFinalize =? 0) && (avail_in strm1 =? 0) then
      let '(r, bw, out) := zultra_bitwriter_flush_bits (bitwriter c4) (out_buffer c4) in
      if r <? 0 then (ZULTRA_ERROR_DST, set_writer c4 bw out (block c4))
      else
        let c4' := set_writer c4 bw out (block c4) in
        (nError3,
         set_frame c4' (Z.lor (compression_state c4') CSTATE_FINALIZED_COMPRESSION)
           (cur_frame_index c4') (pending_frame_bytes c4') (frame_buffer c4'))
    else (nError3, c4) in
  if status_is_ok nError5 then
    let nCurWriteOffset := zultra_bitwriter_get_offset (bitwriter c5) in
    if nCurWriteOffset <? 0 then (ZULTRA_ERROR_DST, c5, strm1)
    else
      let c6 := set_pending_out c5 0 nCurWriteOffset in
      (nError5,
       set_writer c6 (zultra_bitwriter_set_offset (bitwriter c6) 0) (out_buffer c6) (block c6),
       strm1)
  else (nError5, c5, strm1).

(** The blocks of the body of the [do ... while] of [zultra_stream_compress],
    in the order of the source. *)

(** [if ((compression_state & CSTATE_HEADER_EMITTED) == 0)]: stage the header. *)
Definition pass_header (c : zultra_compressor_t) (strm : zultra_stream_t)
  : zultra_status_t * zultra_compressor_t * zultra_stream_t :=
  if Z.land (compression_state c) CSTATE_HEADER_EMITTED =? 0 then
    let header := zultra_frame_encode_header_bytes (flags c) in
    (ZULTRA_OK,
     set_frame c (Z.lor (compression_state c) CSTATE_HEADER_EMITTED) 0
       (Z.of_nat (length header)) (header ++ drop (length header) (frame_buffer c)),
     {| next_in := next_in strm; total_in := total_in strm; next_out := next_out strm;
        avail_out := avail_out strm; total_out := total_out strm;
        adler := zultra_frame_init_checksum (flags c) |})
  else (ZULTRA_OK, c, strm).

(** Loading the dictionary in front of the first block. *)
Definition pass_dictionary (nError : zultra_status_t) (c : zultra_compressor_t)
  : zultra_compressor_t :=
  match dictionary_data c with
  | Some dict =>
      if status_is_ok nError && (previous_block_size c =? 0)
         && negb (dictionary_size c =? 0)
      then set_input c
             (memcpy_at (in_data c) (HISTORY_SIZE - dictionary_size c) dict
                (dictionary_size c))
             (cur_in_bytes c) (dictionary_size c) (dictionary_size c)
      else c
  | None => c
  end.

(** Taking input and, once a block is full or the stream is finalized,
    compressing it. *)
Definition pass_input (nDoFinalize : Z) (nError : zultra_status_t)
    (c : zultra_compressor_t) (strm : zultra_stream_t)
  : zultra_status_t * zultra_compressor_t * zultra_stream_t :=
  let nMaxBlockSize := max_block_size c in
  if status_is_ok nError && (pending_frame_bytes c =? 0) && (pending_out_bytes c =? 0)
  then
    let nMaxInBytes :=
      if avail_in strm >? nMaxBlockSize - cur_in_bytes c
      then nMaxBlockSize - cur_in_bytes c else avail_in strm in
    let c1 := set_input c
                (memcpy_at (in_data c) (HISTORY_SIZE + cur_in_bytes c)
                   (next_in strm) nMaxInBytes)
                (cur_in_bytes c + nMaxInBytes) (previous_block_size c)
                (dictionary_size c) in
    let strm1 :=
      {| next_in := drop (Z.to_nat nMaxInBytes) (next_in strm);
         total_in := total_in strm + nMaxInBytes;
         next_out := next_out strm; avail_out := avail_out strm;
         total_out := total_out strm; adler := adler strm |} in
    if ((cur_in_bytes c1 >=? nMaxBlockSize) && negb (avail_in strm1 =? 0))
       || negb (nDoFinalize =? 0)
    then
      let nInDataSize := cur_in_bytes c1 in
      if nInDataSize >? 0 then compress_block_group nDoFinalize nInDataSize c1 strm1
      else (nError, c1, strm1)
    else (nError, c1, strm1)
  else (nError, c, strm).

(** Copying compressed bytes to the caller. *)
Definition pass_output (nError : zultra_status_t) (c : zultra_compressor_t)
    (strm : zultra_stream_t) : zultra_status_t * zultra_compressor_t * zultra_stream_t :=
  if status_is_ok nError && (pending_frame_bytes c =? 0)
     && negb (pending_out_bytes c =? 0)
  then
    if cur_out_index c + pending_frame_bytes c >? out_buffer_size (max_block_size c)
    then (ZULTRA_ERROR_COMPRESSION, c, strm)
    else if negb (avail_out strm =? 0) then
      let nMaxOutDataBytes :=
        if avail_out strm >? pending_out_bytes c then pending_out_bytes c
        else avail_out strm in
      let bytes := take (Z.to_nat nMaxOutDataBytes)
                     (drop (Z.to_nat (cur_out_index c)) (out_buffer c)) in
      (nError,
       set_pending_out c (cur_out_index c + nMaxOutDataBytes)
         (pending_out_bytes c - nMaxOutDataBytes),
       deliver strm bytes)
    else (nError, c, strm)
  else (nError, c, strm).

(** Staging the footer once the compression is finalized and delivered. *)
Definition pass_footer (nError : zultra_status_t) (c : zultra_compressor_t)
    (strm : zultra_stream_t) : zultra_compressor_t :=
  if status_is_ok nError && (pending_frame_bytes c =? 0) && (pending_out_bytes c =? 0)
     && negb (Z.land (compression_state c) CSTATE_FINALIZED_COMPRESSION =? 0)
     && (Z.land (compression_state c) CSTATE_FOOTER_EMITTED =? 0)
  then
    let footer :=
      zultra_frame_encode_footer_bytes (adler strm) (total_in strm) (flags c) in
    set_frame c
      (Z.land (Z.lor (compression_state c) CSTATE_FOOTER_EMITTED)
         (Z.lnot CSTATE_FINALIZED_COMPRESSION))
      0 (Z.of_nat (length footer)) (footer ++ drop (length footer) (frame_buffer c))
  else c.

Definition stream_compress_pass (nDoFinalize : Z) (c : zultra_compressor_t)
    (strm : zultra_stream_t) : zultra_status_t * zultra_compressor_t * zultra_stream_t :=
  let '(nErrorA, cA, strmA) := pass_header c strm in
  let '(nErrorB, cB, strmB) := drain_frame_bytes nErrorA cA strmA in
  let cC := pass_dictionary nErrorB cB in
  let '(nErrorD, cD, strmD) := pass_input nDoFinalize nErrorB cC strmB in
  let '(nErrorE, cE, strmE) := pass_output nErrorD cD strmD in
  let cF := pass_footer nErrorE cE strmE in
  drain_frame_bytes nErrorE cF strmE.

(** [zultra_stream_compress]: the passes repeat while there is no error, input
    remains and the caller's buffer has room.  Every further pass consumes
    input or delivers output, so [fuel] passes are enough for any call whose
    input and room add up to less than [fuel]. *)
Fixpoint zultra_stream_compress (fuel : nat) (nDoFinalize : Z) (c : zultra_compressor_t)
    (strm : zultra_stream_t) : zultra_status_t * zultra_compressor_t * zultra_stream_t :=
  match fuel with
  | O => (ZULTRA_OK, c, strm)
  | S fuel' =>
      let '(nError, c1, strm1) := stream_compress_pass nDoFinalize c strm in
      if status_is_ok nError && negb (avail_in strm1 =? 0) && negb (avail_out strm1 =? 0)
      then zultra_stream_compress fuel' nDoFinalize c1 strm1
      else (nError, c1, strm1)
  end.

(** [zultra_memory_compress]: the compressed bytes, or [None] for the error
    return -1.  [ZULTRA_FINALIZE] is 1. *)
Definition zultra_memory_compress (fuel : nat) (pInputData : list Z)
    (nMaxOutBufferSize nFlags nMaxBlockSize : Z) : option (list Z) :=
  match zultra_stream_init nFlags nMaxBlockSize with
  | (ZULTRA_OK, Some c) =>
      let strm := {| next_in := pInputData; total_in := 0; next_out := [];
                     avail_out := nMaxOutBufferSize; total_out := 0; adler := 0 |} in
      let '(nStatus, _, strm') := zultra_stream_compress fuel 1 c strm in
      if status_is_ok nStatus then Some (next_out strm') else None
  | _ => None
  end.

(** A compressor with nothing staged: no frame bytes and no output pending,
    no input buffered, no dictionary. *)
Definition idle (c : zultra_compressor_t) : Prop :=
  pending_frame_bytes c = 0 /\ pending_out_bytes c = 0 /\ cur_in_bytes c = 0
  /\ dictionary_data c = None /\ 0 <= max_block_size c.

End Driver.

(** *** A sub-block of one byte between two block groups *)

(** The calls [zultra_block_deflate] makes for a sub-block that is the
    single byte [b], with the static tables: a sub-block ends in a literal,
    so [zultra_write_block_lwd] writes the codeword of [b] and then the
    end-of-data marker. *)
Definition static_block_puts (b : Z) : list (Z * Z) :=
  let e := zultra_huffman_encoder_build_static_codewords static_literals_encoder in
  [(zget (nCodeWord e) b, zget (nCodeLength e) b);
   (zget (nCodeWord e) NEODMARKERSYM, zget (nCodeLength e) NEODMARKERSYM)].

(** The compressor after a first block group of 32768 bytes has been handed
    to the caller ([zultra_bitwriter_set_offset] has put the offset back to
    0) with five bits of its last block still pending, and with one more
    byte, 65, read as the second and last group. *)
Definition one_byte_group_compressor : zultra_compressor_t unit :=
  {| flags := ZULTRA_FLAG_DEFLATE_FRAMING; max_block_size := 32768;
     dictionary_data := None; dictionary_size := 0;
     in_data := repeat 0 (Z.to_nat HISTORY_SIZE) ++ 65 :: repeat 0 (Z.to_nat 32767);
     cur_in_bytes := 0; previous_block_size := 32768;
     out_buffer := repeat 0 (Z.to_nat (out_buffer_size 32768));
     cur_out_index := 0; pending_out_bytes := 0;
     bitwriter :=
       {| BitWriter.nEncBitCount := 5; BitWriter.nEncBitsData := 0;
          BitWriter.nOutOffset := 0;
          BitWriter.nMaxOutDataOffset := out_buffer_size 32768 |};
     compression_state := CSTATE_HEADER_EMITTED;
     cur_frame_index := 0; pending_frame_bytes := 0;
     frame_buffer := repeat 0 16; block := tt |}.

(** * Proofs *)

(** Boolean comparisons in hypotheses, as propositions [lia] reads. *)
Ltac zbool :=
  repeat match goal with
         | H : (_ =? _) = true |- _ => apply Z.eqb_eq in H
         | H : (_ =? _) = false |- _ => apply Z.eqb_neq in H
         | H : (_ <? _) = true |- _ => apply Z.ltb_lt in H
         | H : (_ <? _) = false |- _ => apply Z.ltb_ge in H
         | H : (_ <=? _) = true |- _ => apply Z.leb_le in H
         | H : (_ <=? _) = false |- _ => apply Z.leb_gt in H
         | H : (_ >? _) = _ |- _ => rewrite Z.gtb_ltb in H
         | H : (_ >=? _) = _ |- _ => rewrite Z.geb_leb in H
         end.

(** Case analysis on every conditional of the goal. *)
Ltac case_ifs :=
  repeat match goal with
         | |- context [if ?b then _ else _] =>
             lazymatch b with
             | context [if _ then _ else _] => fail
             | _ => destruct b eqn:?
             end
         end.

(** ** Arrays *)

Lemma zget_zset_eq (l : list Z) (i v : Z) :
  0 <= i < Z.of_nat (length l) -> zget (zset l i v) i = v.
Proof.
  intros Hi. unfold zget, zset.
  destruct (i <? 0) eqn:E; [apply Z.ltb_lt in E; lia|].
  rewrite list_lookup_insert_eq by lia. reflexivity.
Qed.

Lemma zget_zset_ne (l : list Z) (i j v : Z) :
  i <> j -> zget (zset l i v) j = zget l j.
Proof.
  intros Hne. unfold zget, zset.
  destruct (j <? 0) eqn:Ej; [reflexivity|].
  destruct (i <? 0) eqn:Ei; [reflexivity|].
  apply Z.ltb_ge in Ej, Ei.
  rewrite list_lookup_insert_ne by lia. reflexivity.
Qed.

Lemma zset_length (l : list Z) (i v : Z) : length (zset l i v) = length l.
Proof. unfold zset. destruct (i <? 0); [reflexivity|apply length_insert]. Qed.

(** ** The bit writer *)

Section BitWriterProofs.
Import BitWriter.

Lemma lor_disjoint_add (d v c : Z) :
  0 <= c -> 0 <= d < 2 ^ c -> 0 <= v -> Z.lor d (v * 2 ^ c) = d + v * 2 ^ c.
Proof.
  intros Hc Hd Hv.
  assert (Hland : Z.land d (v * 2 ^ c) = 0).
  { apply Z.bits_inj'. intros n Hn. rewrite Z.land_spec, Z.bits_0.
    destruct (Z.lt_ge_cases n c) as [Hlt|Hge].
    - rewrite <- Z.shiftl_mul_pow2 by lia.
      rewrite Z.shiftl_spec_low by lia. apply andb_false_r.
    - replace d with (d mod 2 ^ c) by (apply Z.mod_small; lia).
      rewrite Z.mod_pow2_bits_high by lia. reflexivity. }
  rewrite <- Z.lxor_lor by exact Hland.
  symmetry. apply Z.add_nocarry_lxor. exact Hland.
Qed.

Lemma put_bits_drain_max (n : nat) bw out :
  nMaxOutDataOffset (put_bits_drain n bw out).1.2 = nMaxOutDataOffset bw.
Proof.
  revert bw out. induction n as [|n IH]; intros bw out; simpl; [reflexivity|].
  destruct (nOutOffset bw >=? nMaxOutDataOffset bw); [reflexivity|].
  rewrite IH. reflexivity.
Qed.

(** Closed form of the drain loop when it has room for its [n] bytes. *)
Lemma put_bits_drain_ok (n : nat) bw out :
  0 <= nOutOffset bw ->
  0 <= nEncBitsData bw ->
  nOutOffset bw + Z.of_nat n <= nMaxOutDataOffset bw ->
  nMaxOutDataOffset bw <= Z.of_nat (length out) ->
  exists out',
    put_bits_drain n bw out =
      (0,
       {| nEncBitCount := nEncBitCount bw - 8 * Z.of_nat n;
          nEncBitsData := nEncBitsData bw / 2 ^ (8 * Z.of_nat n);
          nOutOffset := nOutOffset bw + Z.of_nat n;
          nMaxOutDataOffset := nMaxOutDataOffset bw |},
       out') /\
    length out' = length out /\
    (forall j, 0 <= j < Z.of_nat n ->
       zget out' (nOutOffset bw + j) = (nEncBitsData bw / 2 ^ (8 * j)) mod 2 ^ 8) /\
    (forall i, ~ (nOutOffset bw <= i < nOutOffset bw + Z.of_nat n) ->
       zget out' i = zget out i).
Proof.
  revert bw out. induction n as [|n IH]; intros bw out Hoff Hdata Hroom Hlen.
  - exists out. simpl. split; [|split; [reflexivity|split; [intros; lia|reflexivity]]].
    destruct bw; simpl. repeat f_equal; try lia.
    rewrite Z.div_1_r. reflexivity.
  - simpl put_bits_drain.
    destruct (nOutOffset bw >=? nMaxOutDataOffset bw) eqn:E.
    { apply Z.geb_le in E. lia. }
    set (bw1 := {| nEncBitCount := nEncBitCount bw - 8;
                   nEncBitsData := Z.shiftr (nEncBitsData bw) 8;
                   nOutOffset := nOutOffset bw + 1;
                   nMaxOutDataOffset := nMaxOutDataOffset bw |}).
    set (out1 := zset out (nOutOffset bw) (uchar (nEncBitsData bw))).
    destruct (IH bw1 out1) as (out' & Heq & Hlen' & Hbytes & Hother).
    + simpl. lia.
    + simpl. rewrite Z.shiftr_div_pow2 by lia. apply Z.div_pos; lia.
    + simpl. lia.
    + unfold out1. rewrite zset_length. simpl. lia.
    + exists out'. split; [|split; [|split]].
      * rewrite Heq. simpl. f_equal. f_equal. f_equal; try lia.
        rewrite Z.shiftr_div_pow2 by lia.
        rewrite Z.div_div by lia.
        rewrite <- Z.pow_add_r by lia. f_equal. f_equal. lia.
      * rewrite Hlen'. unfold out1. apply zset_length.
      * intros j Hj. destruct (Z.eq_dec j 0) as [->|Hj0].
        -- rewrite Hother by (simpl; lia).
           unfold out1. rewrite Z.add_0_r, zget_zset_eq by lia.
           unfold uchar. simpl (8 * 0). rewrite Z.div_1_r. reflexivity.
        -- replace (nOutOffset bw + j) with (nOutOffset bw1 + (j - 1)) by (simpl; lia).
           rewrite Hbytes by lia. simpl nEncBitsData.
           rewrite Z.shiftr_div_pow2 by lia.
           rewrite Z.div_div by lia.
           rewrite <- Z.pow_add_r by lia. do 3 f_equal. lia.
      * intros i Hi. rewrite Hother by (simpl; lia).
        unfold out1. apply zget_zset_ne. lia.
Qed.

(** The drain loop fails as soon as one of its [n] bytes has no room. *)
Lemma put_bits_drain_fail (n : nat) bw out :
  nOutOffset bw <= nMaxOutDataOffset bw ->
  nMaxOutDataOffset bw < nOutOffset bw + Z.of_nat n ->
  (put_bits_drain n bw out).1.1 = -1.
Proof.
  revert bw out. induction n as [|n IH]; intros bw out Hle Hlt; [lia|].
  simpl put_bits_drain.
  destruct (nOutOffset bw >=? nMaxOutDataOffset bw) eqn:E; [reflexivity|].
  rewrite Z.geb_leb in E. apply Z.leb_gt in E.
  apply IH; simpl; lia.
Qed.

(** What a successful drain of [n] bytes leaves, whatever the accumulator held. *)
Lemma put_bits_drain_success (n : nat) bw out bw' out' :
  put_bits_drain n bw out = (0, bw', out') ->
  nEncBitCount bw' = nEncBitCount bw - 8 * Z.of_nat n /\
  nOutOffset bw' = nOutOffset bw + Z.of_nat n /\
  nMaxOutDataOffset bw' = nMaxOutDataOffset bw /\
  (0 < Z.of_nat n -> nOutOffset bw' <= nMaxOutDataOffset bw).
Proof.
  revert bw out. induction n as [|n IH]; intros bw out Heq.
  - simpl in Heq. injection Heq as <- _. repeat split; lia.
  - simpl put_bits_drain in Heq.
    destruct (nOutOffset bw >=? nMaxOutDataOffset bw) eqn:E; [discriminate|].
    rewrite Z.geb_leb in E. apply Z.leb_gt in E.
    apply IH in Heq. simpl in Heq. destruct Heq as (Hc & Ho & Hm & Hle).
    repeat split; try lia.
Qed.

(** The closed form of a [put_bits] call whose value fits its width. *)
Lemma put_bits_fitting
    (bw : zultra_bitwriter_t) (out : list Z) (nValue nBits : Z) :
  bw_wf bw out ->
  0 <= nBits <= 16 ->
  0 <= nValue < 2 ^ nBits ->
  let total := nEncBitsData bw + nValue * 2 ^ nEncBitCount bw in
  let nBytes := (nEncBitCount bw + nBits) / 8 in
  let '(r, bw', out') := zultra_bitwriter_put_bits bw out nValue nBits in
  (r = -1 <-> nMaxOutDataOffset bw < nOutOffset bw + nBytes) /\
  (r = 0 \/ r = -1) /\
  (r = 0 ->
     bw' = {| nEncBitCount := (nEncBitCount bw + nBits) mod 8;
              nEncBitsData := total / 2 ^ (8 * nBytes);
              nOutOffset := nOutOffset bw + nBytes;
              nMaxOutDataOffset := nMaxOutDataOffset bw |} /\
     length out' = length out /\
     (forall j, 0 <= j < nBytes ->
        zget out' (nOutOffset bw + j) = (total / 2 ^ (8 * j)) mod 2 ^ 8) /\
     (forall i, ~ (nOutOffset bw <= i < nOutOffset bw + nBytes) ->
        zget out' i = zget out i)).
Proof.
  intros (Hcount & Hdata & Hoff & Hlen) HnBits Hval total nBytes.
  unfold zultra_bitwriter_put_bits.
  destruct (nBits >? 16) eqn:E16; [apply Z.gtb_lt in E16; lia|].
  assert (Hpow : 0 < 2 ^ nEncBitCount bw) by (apply Z.pow_pos_nonneg; lia).
  assert (Hshift : u32 (Z.shiftl nValue (nEncBitCount bw)) = nValue * 2 ^ nEncBitCount bw).
  { unfold u32. rewrite Z.shiftl_mul_pow2 by lia. apply Z.mod_small.
    assert (2 ^ nBits <= 2 ^ 16) by (apply Z.pow_le_mono_r; lia).
    assert (2 ^ nEncBitCount bw <= 2 ^ 7) by (apply Z.pow_le_mono_r; lia).
    change (2 ^ 32) with (2 ^ 16 * 2 ^ 16). change (2 ^ 7) with 128 in *.
    change (2 ^ 16) with 65536 in *. nia. }
  rewrite Hshift, lor_disjoint_add by lia. fold total. simpl nEncBitCount.
  assert (HnB : 0 <= nBytes) by (apply Z.div_pos; lia).
  set (bw1 := {| nEncBitCount := nEncBitCount bw + nBits; nEncBitsData := total;
                 nOutOffset := nOutOffset bw; nMaxOutDataOffset := nMaxOutDataOffset bw |}).
  fold nBytes.
  destruct (Z_le_gt_dec (nOutOffset bw + nBytes) (nMaxOutDataOffset bw)) as [Hroom|Hfull].
  - assert (Htot : 0 <= total).
    { unfold total. apply Z.add_nonneg_nonneg; [lia|apply Z.mul_nonneg_nonneg; lia]. }
    pose proof (put_bits_drain_ok (Z.to_nat nBytes) bw1 out) as Hok.
    simpl in Hok. rewrite Z2Nat.id in Hok by lia.
    destruct Hok as (out' & Heq & Hl & Hb & Ho); [lia|exact Htot|lia|lia|].
    rewrite Heq.
    split; [split; [discriminate|lia]|]. split; [left; reflexivity|].
    intros _. split; [|split; [exact Hl|split; [exact Hb|exact Ho]]].
    f_equal. unfold nBytes. rewrite Z.mod_eq by lia. lia.
  - pose proof (put_bits_drain_fail (Z.to_nat nBytes) bw1 out) as Hf.
    destruct (put_bits_drain (Z.to_nat nBytes) bw1 out) as [[r bw'] out'].
    simpl in Hf. rewrite Hf by (rewrite ?Z2Nat.id; lia).
    split; [split; [lia|reflexivity]|]. split; [right; reflexivity|discriminate].
Qed.

(** C6, as the code has it: [put_bits] does not mask [nValue].  For a value
    that fits in [nBits] bits (which is what every caller passes) and a
    well-formed writer, the call appends exactly those [nBits] bits after the
    pending ones: with [total] the pending bits followed by the value, it
    stores the [(count + nBits) / 8] low bytes of [total], least significant
    first, keeps the remaining high bits pending, and leaves every other byte
    of the buffer alone.  It returns -1 exactly when one of those byte stores
    would pass [nMaxOutDataOffset], and 0 otherwise. *)
Theorem put_bits_appends_fitting_value
    (bw : zultra_bitwriter_t) (out : list Z) (nValue nBits : Z) :
  bw_wf bw out ->
  0 <= nBits <= 16 ->
  0 <= nValue < 2 ^ nBits ->
  let total := nEncBitsData bw + nValue * 2 ^ nEncBitCount bw in
  let nBytes := (nEncBitCount bw + nBits) / 8 in
  let '(r, bw', out') := zultra_bitwriter_put_bits bw out nValue nBits in
  (r = -1 <-> nMaxOutDataOffset bw < nOutOffset bw + nBytes) /\
  (r = 0 \/ r = -1) /\
  (r = 0 ->
     bw' = {| nEncBitCount := (nEncBitCount bw + nBits) mod 8;
              nEncBitsData := total / 2 ^ (8 * nBytes);
              nOutOffset := nOutOffset bw + nBytes;
              nMaxOutDataOffset := nMaxOutDataOffset bw |} /\
     length out' = length out /\
     (forall j, 0 <= j < nBytes ->
        zget out' (nOutOffset bw + j) = (total / 2 ^ (8 * j)) mod 2 ^ 8) /\
     (forall i, ~ (nOutOffset bw <= i < nOutOffset bw + nBytes) ->
        zget out' i = zget out i)).
Proof. exact (put_bits_fitting bw out nValue nBits). Qed.


(** C10: the writer's invariant ([0 <= nEncBitCount <= 7] and
    [nOutOffset <= nMaxOutDataOffset]) holds after initialisation inside the
    buffer, and is kept by every successful [put_bits] of a non-negative
    number of bits and by every successful [flush_bits]; from such a state
    [flush_bits] never takes its [nEncBitCount > 8] error branch, advances the
    offset by at most one byte, and can only fail on the bounds check. *)
Theorem bitwriter_invariant_kept :
  (forall nOutOffset0 nMaxOutDataSize,
     nOutOffset0 <= nMaxOutDataSize ->
     bw_inv (zultra_bitwriter_init nOutOffset0 nMaxOutDataSize)) /\
  (forall bw out nValue nBits bw' out',
     bw_inv bw -> 0 <= nBits ->
     zultra_bitwriter_put_bits bw out nValue nBits = (0, bw', out') ->
     bw_inv bw') /\
  (forall bw out r bw' out',
     bw_inv bw ->
     zultra_bitwriter_flush_bits bw out = (r, bw', out') ->
     (nEncBitCount bw >? 8) = false /\
     nOutOffset bw <= nOutOffset bw' <= nOutOffset bw + 1 /\
     (r = 0 -> bw_inv bw') /\
     (r <> 0 -> 0 < nEncBitCount bw /\ nMaxOutDataOffset bw <= nOutOffset bw)).
Proof.
  split; [|split].
  - intros off mx Hle. unfold bw_inv, zultra_bitwriter_init. simpl. lia.
  - intros bw out v n bw' out' (Hc & Ho) Hn Heq.
    unfold zultra_bitwriter_put_bits in Heq.
    destruct (n >? 16) eqn:E16; [discriminate|].
    rewrite Z.gtb_ltb in E16. apply Z.ltb_ge in E16.
    apply put_bits_drain_success in Heq. simpl in Heq.
    destruct Heq as (Hc' & Ho' & Hm' & Hle).
    assert (Hq : 0 <= (nEncBitCount bw + n) / 8) by (apply Z.div_pos; lia).
    rewrite Z2Nat.id in * by lia.
    pose proof (Z.mod_pos_bound (nEncBitCount bw + n) 8 ltac:(lia)) as Hmod.
    rewrite Z.mod_eq in Hmod by lia.
    unfold bw_inv. split; [lia|].
    destruct (Z.eq_dec ((nEncBitCount bw + n) / 8) 0) as [Hz|Hnz]; [|lia].
    rewrite Hz in *. lia.
  - intros bw out r bw' out' (Hc & Ho) Heq.
    unfold zultra_bitwriter_flush_bits in Heq.
    destruct (nEncBitCount bw >? 8) eqn:E8; [apply Z.gtb_lt in E8; lia|].
    split; [reflexivity|].
    destruct (nEncBitCount bw >? 0) eqn:E0.
    + apply Z.gtb_lt in E0.
      destruct (nOutOffset bw >=? nMaxOutDataOffset bw) eqn:Em.
      * apply Z.geb_le in Em. injection Heq as <- <- _.
        split; [lia|]. split; [discriminate|]. intros _. lia.
      * rewrite Z.geb_leb in Em. apply Z.leb_gt in Em.
        injection Heq as <- <- _. simpl.
        split; [lia|]. unfold bw_inv. simpl.
        split; [intros _; lia|]. intros H; contradiction.
    + injection Heq as <- <- _.
      split; [lia|].
      split; [intros _; split; assumption|]. intros H; contradiction.
Qed.

Lemma put_bits_appends_fitting_value_witness :
  let bw0 := zultra_bitwriter_init 0 4 in
  let out0 := [0; 0; 0; 0] in
  bw_wf bw0 out0 /\ 0 <= 8 <= 16 /\ 0 <= 171 < 2 ^ 8 /\
  (zultra_bitwriter_put_bits bw0 out0 171 8).1.1 = 0.
Proof.
  intros bw0 out0.
  assert (Hwf : bw_wf bw0 out0) by (unfold bw_wf; simpl; lia).
  assert (Hn : 0 <= 8 <= 16) by lia.
  assert (Hv : 0 <= 171 < 2 ^ 8) by (simpl; lia).
  split; [exact Hwf|]. split; [exact Hn|]. split; [exact Hv|].
  pose proof (put_bits_appends_fitting_value bw0 out0 171 8 Hwf Hn Hv) as H.
  destruct (zultra_bitwriter_put_bits bw0 out0 171 8) as [[r bw'] out'].
  simpl in *. destruct H as ([H1 _] & [H2|H2] & _); [exact H2|].
  apply H1 in H2. discriminate H2.
Defined.

(** C6 as stated fails: 31 and 15 agree on their low 4 bits, yet writing 31
    on 4 bits leaves bit 4 of the value in the accumulator, and the next
    4-bit write flushes it: the byte stored is 31 instead of 15. *)
Lemma put_bits_high_bits_leak :
  let bw0 := zultra_bitwriter_init 0 2 in
  31 mod 2 ^ 4 = 15 mod 2 ^ 4 /\
  (put_bits_seq [(31, 4); (0, 4)] bw0 [0; 0]).1.1 = 0 /\
  (put_bits_seq [(15, 4); (0, 4)] bw0 [0; 0]).1.1 = 0 /\
  (put_bits_seq [(31, 4); (0, 4)] bw0 [0; 0]).2 = [31; 0] /\
  (put_bits_seq [(15, 4); (0, 4)] bw0 [0; 0]).2 = [15; 0].
Proof. vm_compute. repeat split. Qed.

Lemma bitwriter_invariant_kept_witness :
  let bw0 := zultra_bitwriter_init 0 4 in
  bw_inv bw0 /\
  bw_inv (zultra_bitwriter_put_bits bw0 [0; 0; 0; 0] 5 3).1.2 /\
  bw_inv (zultra_bitwriter_flush_bits
            (zultra_bitwriter_put_bits bw0 [0; 0; 0; 0] 5 3).1.2
            (zultra_bitwriter_put_bits bw0 [0; 0; 0; 0] 5 3).2).1.2.
Proof.
  intros bw0.
  destruct bitwriter_invariant_kept as (Hinit & Hput & Hflush).
  assert (H0 : bw_inv bw0) by (apply Hinit; lia).
  split; [exact H0|].
  assert (H1 : bw_inv (zultra_bitwriter_put_bits bw0 [0; 0; 0; 0] 5 3).1.2).
  { apply (Hput bw0 [0; 0; 0; 0] 5 3 _ (zultra_bitwriter_put_bits bw0 [0; 0; 0; 0] 5 3).2 H0);
      [lia|reflexivity]. }
  split; [exact H1|].
  set (p := zultra_bitwriter_put_bits bw0 [0; 0; 0; 0] 5 3) in *.
  set (f := zultra_bitwriter_flush_bits p.1.2 p.2).
  destruct (Hflush p.1.2 p.2 f.1.1 f.1.2 f.2 H1 eq_refl) as (_ & _ & Hok & _).
  apply Hok. reflexivity.
Defined.

End BitWriterProofs.

(** ** The writer as a producer of bytes *)

Section BitWriterStream.
Import BitWriter.

Lemma take_S_insert (l : list Z) (i : nat) (v : Z) :
  (i < length l)%nat -> take (S i) (<[i := v]> l) = take i l ++ [v].
Proof.
  intros Hi. rewrite insert_take_drop by exact Hi.
  replace (S i) with (length (take i l) + 1)%nat by (rewrite length_take; lia).
  rewrite take_app_add. reflexivity.
Qed.

Lemma take_zset_next (l : list Z) (i v : Z) :
  0 <= i < Z.of_nat (length l) ->
  take (Z.to_nat (i + 1)) (zset l i v) = take (Z.to_nat i) l ++ [v].
Proof.
  intros Hi. unfold zset.
  destruct (i <? 0) eqn:E; [zbool; lia|].
  replace (Z.to_nat (i + 1)) with (S (Z.to_nat i)) by lia.
  apply take_S_insert. lia.
Qed.

Lemma take_zset_below (l : list Z) (n : nat) (i v : Z) :
  Z.of_nat n <= i -> take n (zset l i v) = take n l.
Proof.
  intros Hi. unfold zset. destruct (i <? 0); [reflexivity|].
  apply take_insert_ge. lia.
Qed.

(** A drain with room stores the low bytes of the accumulator after what was
    stored before. *)
Lemma put_bits_drain_emitted (n : nat) bw out :
  0 <= nOutOffset bw ->
  nOutOffset bw + Z.of_nat n <= nMaxOutDataOffset bw ->
  nMaxOutDataOffset bw <= Z.of_nat (length out) ->
  let '(r, bw', out') := put_bits_drain n bw out in
  r = 0 /\
  emitted bw' out' = emitted bw out ++ bytes_le n (nEncBitsData bw) /\
  length out' = length out.
Proof.
  revert bw out. induction n as [|n IH]; intros bw out Hoff Hroom Hlen.
  - simpl. rewrite app_nil_r. repeat split.
  - simpl put_bits_drain.
    destruct (nOutOffset bw >=? nMaxOutDataOffset bw) eqn:E; [zbool; lia|].
    set (bw1 := {| nEncBitCount := nEncBitCount bw - 8;
                   nEncBitsData := Z.shiftr (nEncBitsData bw) 8;
                   nOutOffset := nOutOffset bw + 1;
                   nMaxOutDataOffset := nMaxOutDataOffset bw |}).
    set (out1 := zset out (nOutOffset bw) (uchar (nEncBitsData bw))).
    specialize (IH bw1 out1).
    destruct (put_bits_drain n bw1 out1) as [[r bw'] out'].
    destruct IH as (Hr & Hem & Hl).
    + simpl. lia.
    + simpl. lia.
    + unfold out1. rewrite zset_length. simpl. lia.
    + split; [exact Hr|]. split.
      * rewrite Hem. unfold emitted, bw1, out1. simpl nOutOffset. simpl nEncBitsData.
        rewrite take_zset_next by lia. rewrite <- app_assoc. simpl.
        rewrite Z.shiftr_div_pow2 by lia. reflexivity.
      * rewrite Hl. unfold out1. apply zset_length.
Qed.

(** Nothing a [put_bits] call does, whatever its arguments and its outcome,
    touches the bytes below the writer's offset, lowers the offset or changes
    the bound. *)
Lemma put_bits_drain_frame (n : nat) bw out (k : nat) :
  Z.of_nat k <= nOutOffset bw ->
  let '(_, bw', out') := put_bits_drain n bw out in
  take k out' = take k out /\ length out' = length out /\
  nOutOffset bw <= nOutOffset bw' /\
  nMaxOutDataOffset bw' = nMaxOutDataOffset bw.
Proof.
  revert bw out. induction n as [|n IH]; intros bw out Hk.
  - simpl. repeat split; lia.
  - simpl put_bits_drain.
    destruct (nOutOffset bw >=? nMaxOutDataOffset bw) eqn:E; [repeat split; lia|].
    match goal with
    | |- context [put_bits_drain n ?b ?o] =>
        specialize (IH b o); destruct (put_bits_drain n b o) as [[r bw'] out']
    end.
    simpl in IH. destruct IH as (Ht & Hl & Ho & Hm); [lia|].
    rewrite Ht, Hl, take_zset_below, zset_length by lia.
    repeat split; lia.
Qed.

Lemma put_bits_frame bw out nValue nBits (k : nat) :
  Z.of_nat k <= nOutOffset bw ->
  let '(_, bw', out') := zultra_bitwriter_put_bits bw out nValue nBits in
  take k out' = take k out /\ length out' = length out /\
  nOutOffset bw <= nOutOffset bw' /\
  nMaxOutDataOffset bw' = nMaxOutDataOffset bw.
Proof.
  intros Hk. unfold zultra_bitwriter_put_bits.
  destruct (nBits >? 16); [repeat split; lia|].
  match goal with
  | |- context [put_bits_drain ?n ?b ?o] => apply (put_bits_drain_frame n b o k)
  end.
  simpl. exact Hk.
Qed.

Lemma put_bits_all_frame (puts : list (Z * Z)) bw out (k : nat) :
  Z.of_nat k <= nOutOffset bw ->
  take k (put_bits_all puts bw out).2 = take k out /\
  length (put_bits_all puts bw out).2 = length out /\
  nOutOffset bw <= nOutOffset (put_bits_all puts bw out).1 /\
  nMaxOutDataOffset (put_bits_all puts bw out).1 = nMaxOutDataOffset bw.
Proof.
  revert bw out. induction puts as [|[v n] puts IH]; intros bw out Hk.
  - simpl. repeat split; lia.
  - simpl put_bits_all.
    pose proof (put_bits_frame bw out v n k Hk) as H1.
    destruct (zultra_bitwriter_put_bits bw out v n) as [[r bw1] out1].
    destruct H1 as (Ht & Hl & Ho & Hm).
    destruct (IH bw1 out1 ltac:(lia)) as (Ht' & Hl' & Ho' & Hm').
    rewrite Ht', Hl', Hm'. repeat split; try assumption; lia.
Qed.

End BitWriterStream.

Section BitWriterEmitted.
Import BitWriter.

Lemma bytes_le_app (a b : nat) (x : Z) :
  bytes_le (a + b) x = bytes_le a x ++ bytes_le b (x / 2 ^ (8 * Z.of_nat a)).
Proof.
  revert x. induction a as [|a IH]; intros x.
  - simpl. rewrite Z.div_1_r. reflexivity.
  - simpl bytes_le. rewrite IH. simpl. do 3 f_equal.
    rewrite Z.div_div by lia. rewrite <- (Z.pow_add_r 2 8) by lia.
    f_equal. f_equal. lia.
Qed.

Lemma bytes_le_length (n : nat) (x : Z) : length (bytes_le n x) = n.
Proof. revert x. induction n as [|n IH]; intros x; simpl; [|rewrite IH]; reflexivity. Qed.

(** A successful [put_bits] of a fitting value, as bytes stored: the closed
    form of the writer, the bytes appended, and well-formedness kept. *)
Lemma put_bits_fitting_emitted bw out nValue nBits r bw' out' :
  bw_wf bw out ->
  0 <= nBits <= 16 ->
  0 <= nValue < 2 ^ nBits ->
  zultra_bitwriter_put_bits bw out nValue nBits = (r, bw', out') ->
  (r <? 0) = false ->
  let total := nEncBitsData bw + nValue * 2 ^ nEncBitCount bw in
  let nBytes := (nEncBitCount bw + nBits) / 8 in
  bw' = {| nEncBitCount := (nEncBitCount bw + nBits) mod 8;
           nEncBitsData := total / 2 ^ (8 * nBytes);
           nOutOffset := nOutOffset bw + nBytes;
           nMaxOutDataOffset := nMaxOutDataOffset bw |} /\
  emitted bw' out' = emitted bw out ++ bytes_le (Z.to_nat nBytes) total /\
  length out' = length out /\
  bw_wf bw' out'.
Proof.
  intros Hwf HnBits Hval Heq Hr total nBytes.
  pose proof (put_bits_fitting bw out nValue nBits Hwf HnBits Hval) as Hfit.
  fold total nBytes in Hfit. rewrite Heq in Hfit.
  destruct Hfit as ([_ Hfail] & Hrr & Hok).
  assert (Hr0 : r = 0) by (zbool; lia).
  assert (Hroom : nOutOffset bw + nBytes <= nMaxOutDataOffset bw).
  { destruct (Z_le_gt_dec (nOutOffset bw + nBytes) (nMaxOutDataOffset bw)) as [H|H];
      [exact H|]. rewrite Hfail in Hr0 by lia. discriminate Hr0. }
  destruct (Hok Hr0) as (Hbw' & Hlen' & _ & _).
  destruct Hwf as (Hcount & Hdata & Hoff & Hlen).
  assert (HnB : 0 <= nBytes) by (apply Z.div_pos; lia).
  assert (Hpow : 0 < 2 ^ nEncBitCount bw) by (apply Z.pow_pos_nonneg; lia).
  assert (Htot : 0 <= total).
  { unfold total. apply Z.add_nonneg_nonneg; [lia|apply Z.mul_nonneg_nonneg; lia]. }
  split; [exact Hbw'|]. split; [|split; [exact Hlen'|]].
  - unfold zultra_bitwriter_put_bits in Heq.
    destruct (nBits >? 16) eqn:E16; [zbool; lia|].
    assert (Hshift : u32 (Z.shiftl nValue (nEncBitCount bw)) = nValue * 2 ^ nEncBitCount bw).
    { unfold u32. rewrite Z.shiftl_mul_pow2 by lia. apply Z.mod_small.
      assert (2 ^ nBits <= 2 ^ 16) by (apply Z.pow_le_mono_r; lia).
      assert (2 ^ nEncBitCount bw <= 2 ^ 7) by (apply Z.pow_le_mono_r; lia).
      change (2 ^ 32) with (2 ^ 16 * 2 ^ 16). change (2 ^ 7) with 128 in *.
      change (2 ^ 16) with 65536 in *. nia. }
    rewrite Hshift, lor_disjoint_add in Heq by lia. fold total in Heq.
    simpl nEncBitCount in Heq. fold nBytes in Heq.
    match type of Heq with
    | put_bits_drain ?n ?b ?o = _ =>
        pose proof (put_bits_drain_emitted n b o) as Hem; rewrite Heq in Hem
    end.
    simpl in Hem. destruct Hem as (_ & Hem & _); [lia|lia|lia|].
    exact Hem.
  - subst bw'. unfold bw_wf. simpl. rewrite Hlen'.
    pose proof (Z.mod_pos_bound (nEncBitCount bw + nBits) 8 ltac:(lia)) as Hmod.
    split; [lia|]. split; [|lia].
    split; [apply Z.div_pos; [exact Htot|apply Z.pow_pos_nonneg; lia]|].
    apply Z.div_lt_upper_bound; [apply Z.pow_pos_nonneg; lia|].
    rewrite <- Z.pow_add_r by lia.
    replace (8 * nBytes + (nEncBitCount bw + nBits) mod 8) with (nEncBitCount bw + nBits)
      by (unfold nBytes; rewrite Z.mod_eq by lia; lia).
    unfold total. rewrite Z.pow_add_r by lia.
    assert (0 < 2 ^ nBits) by (apply Z.pow_pos_nonneg; lia). nia.
Qed.

(** A successful [flush_bits] stores the pending bits, if any, as one byte. *)
Lemma flush_bits_emitted bw out r bw' out' :
  bw_wf bw out ->
  zultra_bitwriter_flush_bits bw out = (r, bw', out') ->
  (r <? 0) = false ->
  let n := if 0 <? nEncBitCount bw then 1 else 0 in
  bw' = (if 0 <? nEncBitCount bw
         then {| nEncBitCount := 0; nEncBitsData := 0;
                 nOutOffset := nOutOffset bw + 1;
                 nMaxOutDataOffset := nMaxOutDataOffset bw |}
         else bw) /\
  emitted bw' out' = emitted bw out ++ bytes_le (Z.to_nat n) (nEncBitsData bw) /\
  length out' = length out.
Proof.
  intros (Hcount & Hdata & Hoff & Hlen) Heq Hr n.
  unfold zultra_bitwriter_flush_bits in Heq.
  destruct (nEncBitCount bw >? 8) eqn:E8; [zbool; lia|].
  rewrite Z.gtb_ltb in Heq. unfold n.
  destruct (0 <? nEncBitCount bw) eqn:E0.
  - destruct (nOutOffset bw >=? nMaxOutDataOffset bw) eqn:Em.
    + injection Heq as <- _ _. discriminate Hr.
    + injection Heq as _ <- <-. zbool.
      split; [reflexivity|]. split; [|apply zset_length].
      unfold emitted. simpl nOutOffset. rewrite take_zset_next by lia.
      f_equal. simpl. f_equal.
      rewrite Z.shiftl_1_l.
      replace (2 ^ nEncBitCount bw - 1) with (Z.ones (nEncBitCount bw))
        by (rewrite Z.ones_equiv; lia).
      rewrite Z.land_ones by lia. unfold uchar.
      rewrite (Z.mod_small (nEncBitsData bw)) by lia.
      reflexivity.
  - injection Heq as _ <- <-. simpl. rewrite app_nil_r. repeat split.
Qed.

End BitWriterEmitted.

(** ** The optimal parser *)

Section ParserProofs.

Lemma mget_mset_eq (l : list zultra_match_t) (i : Z) (v : zultra_match_t) :
  0 <= i < Z.of_nat (length l) -> mget (mset l i v) i = v.
Proof.
  intros Hi. unfold mget, mset.
  destruct (i <? 0) eqn:E; [apply Z.ltb_lt in E; lia|].
  rewrite list_lookup_insert_eq by lia. reflexivity.
Qed.

Lemma mget_mset_ne (l : list zultra_match_t) (i j : Z) (v : zultra_match_t) :
  i <> j -> mget (mset l i v) j = mget l j.
Proof.
  intros Hne. unfold mget, mset.
  destruct (j <? 0) eqn:Ej; [reflexivity|].
  destruct (i <? 0) eqn:Ei; [reflexivity|].
  apply Z.ltb_ge in Ej, Ei.
  rewrite list_lookup_insert_ne by lia. reflexivity.
Qed.

Lemma mset_length (l : list zultra_match_t) (i : Z) (v : zultra_match_t) :
  length (mset l i v) = length l.
Proof. unfold mset. destruct (i <? 0); [reflexivity|apply length_insert]. Qed.

Lemma u16_le (x : Z) : 0 <= x -> 0 <= u16 x <= x.
Proof.
  intros Hx. unfold u16. split; [apply Z.mod_pos_bound; lia|].
  apply Z.mod_le; lia.
Qed.

(** *** The chosen length never reaches the last byte *)

Lemma improve_len_ok (i e : Z) (b : best_t) (c l o : Z) :
  len_ok i e b -> 0 <= l -> i + l <= e - LAST_LITERALS -> len_ok i e (improve b c l o).
Proof.
  intros Hb Hl Hle. unfold improve. destruct (b.1.1 >? c); [|exact Hb].
  split; simpl; assumption.
Qed.

Lemma optimize_lengths_len_ok (n : nat) :
  forall (k : Z) cached nOffsetSize cost0 i e o (b : best_t),
    len_ok i e b -> k <= e - LAST_LITERALS - i ->
    (n = O \/ Z.of_nat n <= k - 2) ->
    len_ok i e (optimize_lengths n k cached nOffsetSize cost0 i o b).
Proof.
  induction n as [|n IH]; intros k cached nOffsetSize cost0 i e o b Hb Hk Hn.
  - exact Hb.
  - destruct Hn as [Hn|Hn]; [discriminate|]. simpl.
    apply IH; [apply improve_len_ok; [exact Hb|lia|lia] |lia|].
    destruct n; [left; reflexivity|right; lia].
Qed.

Lemma optimize_candidates_len_ok (n : nat) :
  forall (m : Z) bs cached i e (b : best_t),
    i <= e - 2 -> len_ok i e b ->
    len_ok i e (optimize_candidates n m bs cached i e b).
Proof.
  unfold LAST_LITERALS.
  induction n as [|n IH]; intros m bs cached i e b Hi Hb; [exact Hb|].
  simpl.
  set (pm := mget (match_table bs) (Z.shiftl i MATCHES_PER_OFFSET_SHIFT + m)).
  destruct (match_length pm >=? MIN_MATCH_SIZE) eqn:Hge; [|exact Hb].
  unfold MIN_MATCH_SIZE, LAST_LITERALS in *. zbool.
  apply IH; [exact Hi|].
  set (len := if i + match_length pm >? e - 1 then e - 1 - i else match_length pm).
  assert (Hlen : 1 <= len <= e - 1 - i).
  { unfold len. destruct (i + match_length pm >? e - 1) eqn:E; zbool; lia. }
  destruct (match_length pm >=? LEAVE_ALONE_MATCH_SIZE).
  - apply improve_len_ok; unfold LAST_LITERALS; [exact Hb|lia|lia].
  - apply optimize_lengths_len_ok; unfold LAST_LITERALS; [exact Hb|lia|].
    destruct (Z_le_gt_dec len 2) as [Hs|Hs].
    + left. replace (len - 3 + 1) with (len - 2) by lia.
      destruct (Z.to_nat (len - 2)) eqn:E; [reflexivity|lia].
    + right. lia.
Qed.

Lemma optimize_position_parse_ok bs window cached i e :
  0 <= i <= e - 2 -> e <= Z.of_nat (length (best_match bs)) ->
  parse_ok e (best_match (optimize_position bs window cached i e)) i.
Proof.
  intros Hi He. unfold optimize_position, parse_ok, set_parse. cbn [best_match].
  rewrite mget_mset_eq by lia. cbn [match_length].
  match goal with |- context [optimize_candidates ?n ?m ?b ?c ?i ?e ?b0] =>
    pose proof (optimize_candidates_len_ok n m b c i e b0) as Hok;
    set (best := optimize_candidates n m b c i e b0) in * end.
  destruct Hok as [H0 H1]; [lia|split; simpl; unfold LAST_LITERALS; lia|].
  pose proof (u16_le _ H0). lia.
Qed.

Lemma optimize_position_other bs window cached i e j :
  i <> j ->
  mget (best_match (optimize_position bs window cached i e)) j = mget (best_match bs) j.
Proof. intros Hne. unfold optimize_position. simpl. apply mget_mset_ne, Hne. Qed.

Lemma optimize_position_length bs window cached i e :
  length (best_match (optimize_position bs window cached i e)) = length (best_match bs).
Proof. unfold optimize_position. simpl. apply mset_length. Qed.

Lemma optimize_positions_parse_ok (n : nat) :
  forall bs window cached s e,
    0 <= s -> s + Z.of_nat n <= e - 1 ->
    e <= Z.of_nat (length (best_match bs)) ->
    (forall j, s + Z.of_nat n <= j < e -> parse_ok e (best_match bs) j) ->
    forall j, s <= j < e ->
      parse_ok e (best_match (optimize_positions n bs window cached s e)) j.
Proof.
  induction n as [|n IH]; intros bs window cached s e Hs Hn He Hinv j Hj.
  - simpl. apply Hinv. lia.
  - simpl. apply IH; [lia|lia|rewrite optimize_position_length; lia| |exact Hj].
    intros j' Hj'.
    destruct (Z.eq_dec j' (s + Z.of_nat n)) as [->|Hne].
    + apply optimize_position_parse_ok; lia.
    + unfold parse_ok. rewrite optimize_position_other by lia.
      apply Hinv. lia.
Qed.

(** For any match table, [zultra_optimize_matches_lwd] leaves a parse in
    which no token that starts in [[s, e)] reaches position [e - 1], which
    itself holds a literal. *)
Lemma optimize_matches_parse_ok bs window s e :
  0 <= s < e -> e <= Z.of_nat (length (best_match bs)) ->
  forall j, s <= j < e ->
    parse_ok e (best_match (zultra_optimize_matches_lwd bs window s e)) j.
Proof.
  intros Hse He j Hj. unfold zultra_optimize_matches_lwd.
  destruct (e <=? s) eqn:E; zbool; [lia|].
  apply optimize_positions_parse_ok; simpl;
    [lia|lia|rewrite mset_length; lia| |exact Hj].
  intros j' Hj'. assert (j' = e - 1) as -> by lia.
  unfold parse_ok. rewrite mget_mset_eq by lia. simpl. unfold LAST_LITERALS. lia.
Qed.

Lemma parse_token_starts_last (fuel : nat) :
  forall best i s e,
    (forall j, s <= j < e -> parse_ok e best j) ->
    s <= i < e -> e - i <= Z.of_nat fuel ->
    exists toks, parse_token_starts fuel best i e = toks ++ [e - 1].
Proof.
  induction fuel as [|fuel IH]; intros best i s e Hok Hi Hfuel; [simpl in Hfuel; lia|].
  simpl. destruct (i <? e) eqn:E; zbool; [|lia].
  destruct (Hok i Hi) as [H0 H1]. unfold LAST_LITERALS in H1.
  destruct (Z.eq_dec i (e - 1)) as [->|Hne].
  - exists []. simpl. f_equal.
    assert (Hz : match_length (mget best (e - 1)) = 0) by lia. rewrite Hz. simpl.
    replace (e - 1 + 1) with e by lia.
    destruct fuel; simpl; [reflexivity|]. rewrite Z.ltb_irrefl. reflexivity.
  - set (i' := if match_length (mget best i) >=? MIN_MATCH_SIZE
               then i + match_length (mget best i) else i + 1).
    assert (Hi' : i < i' <= e - 1).
    { unfold i', MIN_MATCH_SIZE.
      destruct (match_length (mget best i) >=? 3) eqn:E3; zbool; lia. }
    destruct (IH best i' s e Hok) as [toks Htoks]; [lia|lia|].
    exists (i :: toks). rewrite Htoks. reflexivity.
Qed.

(** *** The parser keeps the first cheapest candidate *)

Lemma optimize_lengths_first_cheapest (n : nat) :
  forall k cached nOffsetSize cost0 i o b,
    optimize_lengths n k cached nOffsetSize cost0 i o b
    = first_cheapest b (candidate_lengths n k cached nOffsetSize cost0 i o).
Proof.
  induction n as [|n IH]; intros; [reflexivity|]. simpl. apply IH.
Qed.

Lemma optimize_candidates_first_cheapest (n : nat) :
  forall m bs cached i e b,
    optimize_candidates n m bs cached i e b
    = first_cheapest b (candidate_matches n m bs cached i e).
Proof.
  induction n as [|n IH]; intros; [reflexivity|]. simpl.
  destruct (match_length _ >=? MIN_MATCH_SIZE); [|reflexivity].
  rewrite IH. unfold first_cheapest at 2. rewrite fold_left_app.
  fold first_cheapest.
  destruct (match_length _ >=? LEAVE_ALONE_MATCH_SIZE); [reflexivity|].
  rewrite optimize_lengths_first_cheapest. reflexivity.
Qed.

Lemma first_cheapest_spec (l : list best_t) :
  forall b, first_cheapest_of (first_cheapest b l) (b :: l).
Proof.
  induction l as [|c l IH]; intros b.
  - exists [], []. simpl. repeat split; constructor.
  - change (first_cheapest b (c :: l))
      with (first_cheapest (improve b c.1.1 c.1.2 c.2) l).
    unfold improve. destruct c as [[cc cl] co]. cbn [fst snd].
    destruct (b.1.1 >? cc) eqn:E; zbool.
    + destruct (IH (cc, cl, co)) as (before & after & Heq & Hb & Ha).
      set (r := first_cheapest (cc, cl, co) l) in *.
      assert (Hr : r.1.1 <= cc).
      { destruct before as [|x before]; simpl in Heq.
        - injection Heq as Hx _. rewrite <- Hx. simpl. lia.
        - injection Heq as Hx _. subst x.
          apply Forall_cons in Hb as [Hb1 _]. simpl in Hb1. lia. }
      exists (b :: before), after. rewrite Heq. simpl. repeat split; [|exact Ha].
      constructor; [lia|exact Hb].
    + destruct (IH b) as (before & after & Heq & Hb & Ha).
      set (r := first_cheapest b l) in *.
      destruct before as [|x before]; simpl in Heq.
      * injection Heq as Hx Hl. exists [], ((cc, cl, co) :: l).
        rewrite <- Hx. simpl. repeat split; [constructor|].
        constructor; [simpl; lia|]. rewrite Hx, Hl. exact Ha.
      * injection Heq as Hx Hl. subst x.
        apply Forall_cons in Hb as [Hb1 Hb2].
        exists (b :: (cc, cl, co) :: before), after. rewrite Hl. simpl.
        repeat split; [|exact Ha].
        constructor; [assumption|]. constructor; [simpl; lia|assumption].
Qed.

Lemma candidate_lengths_ext (n : nat) :
  forall k cached nOffsetSize c1 c2 i o,
    (forall j, i < j -> zget c1 j = zget c2 j) ->
    (n = O \/ Z.of_nat n <= k - 2) ->
    candidate_lengths n k cached nOffsetSize c1 i o
    = candidate_lengths n k cached nOffsetSize c2 i o.
Proof.
  induction n as [|n IH]; intros k cached nOffsetSize c1 c2 i o Hc Hn; [reflexivity|].
  destruct Hn as [Hn|Hn]; [discriminate|]. simpl.
  rewrite (Hc (i + k)) by lia. f_equal.
  apply IH; [exact Hc|]. destruct n; [left; reflexivity|right; lia].
Qed.

Lemma candidate_matches_ext (n : nat) :
  forall m bs1 bs2 cached i e,
    i <= e - 2 -> same_above i bs1 bs2 ->
    candidate_matches n m bs1 cached i e = candidate_matches n m bs2 cached i e.
Proof.
  induction n as [|n IH]; intros m bs1 bs2 cached i e Hi Hsame; [reflexivity|].
  pose proof Hsame as (Ht & Hl & Ho & Hc).
  simpl. rewrite <- Ht.
  set (pm := mget (match_table bs1) (Z.shiftl i MATCHES_PER_OFFSET_SHIFT + m)).
  destruct (match_length pm >=? MIN_MATCH_SIZE) eqn:Hge; [|reflexivity].
  unfold MIN_MATCH_SIZE, LAST_LITERALS in *. zbool.
  rewrite (IH _ bs1 bs2) by assumption. f_equal.
  set (len := if i + match_length pm >? e - 1 then e - 1 - i else match_length pm).
  assert (Hlen : 1 <= len <= e - 1 - i).
  { unfold len. destruct (i + match_length pm >? e - 1) eqn:E; zbool; lia. }
  unfold zultra_get_offset_size, zultra_get_varlen_size. rewrite <- Hl, <- Ho.
  destruct (match_length pm >=? LEAVE_ALONE_MATCH_SIZE).
  - rewrite (Hc (i + len)) by lia. reflexivity.
  - apply candidate_lengths_ext; [exact Hc|].
    destruct (Z_le_gt_dec len 2) as [Hs|Hs].
    + left. replace (len - 3 + 1) with (len - 2) by lia.
      destruct (Z.to_nat (len - 2)) eqn:E; [reflexivity|lia].
    + right. lia.
Qed.

Lemma candidates_at_ext bs1 bs2 window cached i e :
  i <= e - 2 -> same_above i bs1 bs2 ->
  candidates_at bs1 window cached i e = candidates_at bs2 window cached i e.
Proof.
  intros Hi Hsame. unfold candidates_at.
  rewrite (candidate_matches_ext _ _ bs1 bs2) by assumption.
  destruct Hsame as (_ & Hl & _ & Hc).
  unfold zultra_get_literal_size. rewrite Hl, (Hc (i + 1)) by lia. reflexivity.
Qed.

Lemma optimize_position_chosen bs window cached i e :
  0 <= i -> i < Z.of_nat (length (cost bs)) -> i < Z.of_nat (length (best_match bs)) ->
  exists chosen,
    first_cheapest_of chosen (candidates_at bs window cached i e)
    /\ records (optimize_position bs window cached i e) i chosen.
Proof.
  intros H0 Hc Hb. unfold optimize_position.
  rewrite optimize_candidates_first_cheapest.
  match goal with |- context [first_cheapest ?b ?l] =>
    exists (first_cheapest b l); split; [exact (first_cheapest_spec l b)|] end.
  unfold records, set_parse. cbn [cost best_match].
  rewrite zget_zset_eq, mget_mset_eq by lia. split; reflexivity.
Qed.

Lemma optimize_position_same_above bs window cached i e :
  same_above i (optimize_position bs window cached i e) bs.
Proof.
  unfold same_above, optimize_position, set_parse. cbn.
  repeat split. intros j Hj. apply zget_zset_ne. lia.
Qed.

Lemma optimize_position_cost_length bs window cached i e :
  length (cost (optimize_position bs window cached i e)) = length (cost bs).
Proof. unfold optimize_position. simpl. apply zset_length. Qed.

Lemma optimize_positions_frame (n : nat) :
  forall bs window cached s e,
    let bs' := optimize_positions n bs window cached s e in
    match_table bs' = match_table bs
    /\ literalsEncoder bs' = literalsEncoder bs
    /\ offsetEncoder bs' = offsetEncoder bs
    /\ forall j, s + Z.of_nat n <= j ->
         zget (cost bs') j = zget (cost bs) j
         /\ mget (best_match bs') j = mget (best_match bs) j.
Proof.
  induction n as [|n IH]; intros bs window cached s e; [cbn; auto|].
  cbn zeta. cbn [optimize_positions].
  specialize (IH (optimize_position bs window cached (s + Z.of_nat n) e)
                 window cached s e).
  cbn zeta in IH. destruct IH as (Ht & Hl & Ho & Hj).
  repeat split; try (etransitivity; [eassumption|reflexivity]).
  - destruct (Hj j) as [Hc _]; [lia|]. rewrite Hc.
    unfold optimize_position, set_parse. cbn [cost]. apply zget_zset_ne. lia.
  - destruct (Hj j) as [_ Hb]; [lia|]. rewrite Hb.
    apply optimize_position_other. lia.
Qed.

Lemma optimize_positions_chosen (n : nat) :
  forall bs window cached s e i,
    0 <= s -> s + Z.of_nat n <= e - 1 ->
    e <= Z.of_nat (length (cost bs)) -> e <= Z.of_nat (length (best_match bs)) ->
    s <= i < s + Z.of_nat n ->
    let bs' := optimize_positions n bs window cached s e in
    exists chosen,
      first_cheapest_of chosen (candidates_at bs' window cached i e)
      /\ records bs' i chosen.
Proof.
  induction n as [|n IH]; intros bs window cached s e i Hs Hn Hc Hb Hi; [lia|].
  cbn zeta. cbn [optimize_positions].
  set (p := s + Z.of_nat n).
  set (bs1 := optimize_position bs window cached p e).
  destruct (Z.eq_dec i p) as [->|Hne].
  - destruct (optimize_position_chosen bs window cached p e) as (chosen & Hfirst & Hrec);
      [lia|lia|lia|].
    fold bs1 in Hrec.
    pose proof (optimize_positions_frame n bs1 window cached s e) as Hframe.
    cbn zeta in Hframe. destruct Hframe as (Ht & Hl & Ho & Hj).
    exists chosen. split.
    + rewrite (candidates_at_ext _ bs) ; [exact Hfirst|lia|].
      pose proof (optimize_position_same_above bs window cached p e) as (Ht1 & Hl1 & Ho1 & Hc1).
      fold bs1 in Ht1, Hl1, Ho1, Hc1.
      repeat split; try congruence.
      intros j Hj'. destruct (Hj j) as [Hcj _]; [unfold p in *; lia|].
      rewrite Hcj. apply Hc1. exact Hj'.
    + destruct Hrec as [Hrc Hrb]. destruct (Hj p) as [Hcp Hbp]; [unfold p; lia|].
      split; congruence.
  - apply IH; unfold bs1;
      [lia|lia|rewrite optimize_position_cost_length; lia
      |rewrite optimize_position_length; lia|unfold p in *; lia].
Qed.

(** Within one slot of the match table the lengths are tried from the
    longest down. *)
Lemma candidate_lengths_descending (n : nat) :
  forall k cached nOffsetSize cost0 i o,
    map (fun c : best_t => c.1.2) (candidate_lengths n k cached nOffsetSize cost0 i o)
    = map (fun j => k - Z.of_nat j) (seq 0 n).
Proof.
  induction n as [|n IH]; intros; [reflexivity|].
  cbn [candidate_lengths map seq]. rewrite IH, <- seq_shift, map_map.
  f_equal; [simpl; lia|]. apply map_ext. intros j. lia.
Qed.

(** C7 (as amended): at every position the backward dynamic program of
    [zultra_optimize_matches_lwd] weighs the literal first, then each slot of
    the match table with its lengths from the longest down, and records the
    first cheapest of them; so on equal cost the literal is kept over any
    match, and the longer length of a match over a shorter one. *)
Theorem parser_records_first_cheapest_candidate bs window s e i :
  0 <= s -> s <= i <= e - 2 ->
  e <= Z.of_nat (length (cost bs)) -> e <= Z.of_nat (length (best_match bs)) ->
  let bs' := zultra_optimize_matches_lwd bs window s e in
  exists chosen,
    first_cheapest_of chosen (candidates_at bs' window (cached_varlen_sizes bs) i e)
    /\ records bs' i chosen.
Proof.
  intros Hs Hi Hc Hb. cbn zeta. unfold zultra_optimize_matches_lwd.
  destruct (e <=? s) eqn:E; zbool; [lia|].
  apply optimize_positions_chosen; cbn [cost best_match set_parse];
    [lia|lia|rewrite zset_length; lia|rewrite mset_length; lia|lia].
Qed.

Lemma parser_records_first_cheapest_candidate_witness :
  let bs' := zultra_optimize_matches_lwd tie_block_state tie_window 1 6 in
  exists chosen,
    first_cheapest_of chosen
      (candidates_at bs' tie_window (cached_varlen_sizes tie_block_state) 1 6)
    /\ records bs' 1 chosen.
Proof.
  apply (parser_records_first_cheapest_candidate tie_block_state tie_window 1 6 1);
    simpl; lia.
Defined.

(** C7 (as stated) fails: lengths 4 and 3 of the one match at position 1
    both cost 12 bits, less than the literal's 20, and the parser keeps the
    longer one, which it tried first. *)
Lemma longer_match_wins_tie :
  let bs' := zultra_optimize_matches_lwd tie_block_state tie_window 1 6 in
  candidates_at bs' tie_window (cached_varlen_sizes tie_block_state) 1 6
  = [(20, 0, 0); (12, 4, 1); (12, 3, 1)]
  /\ mget (best_match bs') 1 = {| match_length := 4; match_offset := 1 |}.
Proof. vm_compute. split; reflexivity. Qed.

End ParserProofs.

Section LastLiteral.

Variable finder_state : Type.
Variable zultra_find_matches_at :
  finder_state -> Z -> Z -> list zultra_match_t * finder_state.
Variable LAST_MATCH_OFFSET : Z.

(** C2: for every sub-range [[s, e)] with [e > s] of a block whose match
    table [zultra_find_all_matches] has filled and clamped (over the block
    [[s0, e0)], whatever matches the finder reports), after
    [zultra_optimize_matches_lwd] the entry of the parse at [e - 1] has
    length 0, every entry at a position [i] of the sub-range has
    [i + length <= e - 1], and the walk over the tokens of the parse ends
    with a token that starts at [e - 1]: the last byte is a literal. *)
Theorem last_byte_of_subrange_is_literal bs st window s0 e0 s e :
  0 <= s < e -> e <= Z.of_nat (length (best_match bs)) ->
  let tbl := (zultra_find_all_matches finder_state zultra_find_matches_at
                LAST_MATCH_OFFSET st (match_table bs) s0 e0).1 in
  let best := best_match (zultra_optimize_matches_lwd (set_match_table bs tbl)
                            window s e) in
  match_length (mget best (e - 1)) = 0
  /\ (forall i, s <= i < e ->
        0 <= match_length (mget best i) /\ i + match_length (mget best i) <= e - 1)
  /\ exists toks, parse_token_starts (Z.to_nat (e - s)) best s e = toks ++ [e - 1].
Proof.
  intros Hse He tbl best.
  assert (Hok : forall j, s <= j < e -> parse_ok e best j).
  { intros j Hj. apply optimize_matches_parse_ok; [exact Hse|exact He|exact Hj]. }
  split; [|split].
  - destruct (Hok (e - 1)) as [H0 H1]; [lia|]. unfold LAST_LITERALS in H1. lia.
  - intros i Hi. exact (Hok i Hi).
  - apply (parse_token_starts_last _ best s s e Hok); lia.
Qed.

End LastLiteral.

Lemma last_byte_of_subrange_is_literal_witness :
  let find_at := fun (st : unit) (i _ : Z) =>
                   (if i =? 1 then [{| match_length := 4; match_offset := 1 |}] else [],
                    st) in
  let tbl := (zultra_find_all_matches unit find_at 4 tt
                (match_table tie_block_state) 1 6).1 in
  let best := best_match (zultra_optimize_matches_lwd
                            (set_match_table tie_block_state tbl) tie_window 1 6) in
  match_length (mget best (6 - 1)) = 0
  /\ (forall i, 1 <= i < 6 ->
        0 <= match_length (mget best i) /\ i + match_length (mget best i) <= 6 - 1)
  /\ exists toks, parse_token_starts (Z.to_nat (6 - 1)) best 1 6 = toks ++ [6 - 1].
Proof.
  intros find_at.
  apply (last_byte_of_subrange_is_literal unit find_at 4 tie_block_state tt
           tie_window 1 6 1 6); simpl; lia.
Defined.

(** ** The Huffman encoder *)

(** Array reads after writes, decided by [lia]. *)
Ltac zgs :=
  repeat first [ rewrite zget_zset_eq by (rewrite ?zset_length; lia)
               | rewrite zget_zset_ne by lia
               | rewrite zset_length ].

Lemma zget_lookup (l : list Z) (i : Z) :
  0 <= i < Z.of_nat (length l) -> l !! Z.to_nat i = Some (zget l i).
Proof.
  intros Hi. unfold zget. destruct (i <? 0) eqn:E; zbool; [lia|].
  destruct (l !! Z.to_nat i) eqn:El; [reflexivity|].
  apply lookup_ge_None in El. lia.
Qed.

Lemma zget_ge (l : list Z) (i : Z) : Z.of_nat (length l) <= i -> zget l i = 0.
Proof.
  intros Hi. unfold zget. destruct (i <? 0); [reflexivity|].
  rewrite (proj2 (lookup_ge_None l (Z.to_nat i))) by lia. reflexivity.
Qed.

Lemma zget_neg (l : list Z) (i : Z) : i < 0 -> zget l i = 0.
Proof. intros Hi. unfold zget. destruct (i <? 0) eqn:E; zbool; [reflexivity|lia]. Qed.

Lemma zget_In (l : list Z) (i : Z) :
  0 <= i < Z.of_nat (length l) -> In (zget l i) l.
Proof.
  intros Hi. apply list_elem_of_In, (list_elem_of_lookup_2 _ (Z.to_nat i)).
  apply zget_lookup, Hi.
Qed.

Lemma In_zget (l : list Z) (x : Z) :
  In x l -> exists i, 0 <= i < Z.of_nat (length l) /\ zget l i = x.
Proof.
  intros Hin. apply list_elem_of_In, list_elem_of_lookup_1 in Hin as [i Hi].
  pose proof (lookup_lt_Some _ _ _ Hi) as Hlt.
  exists (Z.of_nat i). split; [lia|].
  unfold zget. destruct (Z.of_nat i <? 0) eqn:E; zbool; [lia|].
  rewrite Nat2Z.id, Hi. reflexivity.
Qed.

Lemma zset_Permutation (l : list Z) (i v : Z) :
  0 <= i < Z.of_nat (length l) ->
  zset l i v ≡ₚ v :: delete (Z.to_nat i) l.
Proof.
  intros Hi. unfold zset. destruct (i <? 0) eqn:E; zbool; [lia|].
  rewrite insert_take_drop, delete_take_drop by lia.
  symmetry. apply Permutation_middle.
Qed.

Lemma zget_Permutation (l : list Z) (i : Z) :
  0 <= i < Z.of_nat (length l) ->
  l ≡ₚ zget l i :: delete (Z.to_nat i) l.
Proof. intros Hi. apply delete_Permutation, zget_lookup, Hi. Qed.

Lemma zset_same (l : list Z) (i : Z) :
  0 <= i < Z.of_nat (length l) -> zset l i (zget l i) = l.
Proof.
  intros Hi. unfold zset. destruct (i <? 0) eqn:E; zbool; [lia|].
  apply list_insert_id, zget_lookup, Hi.
Qed.

(** *** zultra_huffman_encoder_qsort sorts its range *)

Lemma swap_length (idx : list Z) (i j : Z) : length (swap idx i j) = length idx.
Proof. unfold swap. rewrite !zset_length. reflexivity. Qed.

Lemma swap_get (idx : list Z) (i j k : Z) :
  0 <= i < Z.of_nat (length idx) -> 0 <= j < Z.of_nat (length idx) ->
  zget (swap idx i j) k
  = if k =? j then zget idx i else if k =? i then zget idx j else zget idx k.
Proof.
  intros Hi Hj. unfold swap.
  destruct (k =? j) eqn:Ej; zbool; [subst; zgs; reflexivity|].
  destruct (k =? i) eqn:Ei; zbool; [subst; zgs; reflexivity|].
  zgs. reflexivity.
Qed.

Lemma swap_Permutation (idx : list Z) (i j : Z) :
  0 <= i < Z.of_nat (length idx) -> 0 <= j < Z.of_nat (length idx) ->
  swap idx i j ≡ₚ idx.
Proof.
  intros Hi Hj. unfold swap.
  destruct (Z.eq_dec i j) as [->|Hne].
  - rewrite !zset_same by lia. reflexivity.
  - set (l1 := zset idx i (zget idx j)).
    assert (Hl1 : length l1 = length idx) by apply zset_length.
    rewrite (zset_Permutation l1 j) by lia.
    rewrite (zget_Permutation idx i) at 2 by lia. constructor.
    apply (Permutation_cons_inv (a := zget idx j)).
    rewrite <- (zset_Permutation idx i) by lia. fold l1.
    replace (zget idx j) with (zget l1 j) at 1
      by (unfold l1; apply zget_zset_ne; lia).
    symmetry. apply zget_Permutation. lia.
Qed.

Section QsortProofs.

Variable value : list Z.

Lemma qsort_partition_spec (left right : Z) (cnt : nat) :
  forall idx i last,
    0 <= left -> left <= last -> last < i -> i + Z.of_nat cnt = right + 1 ->
    right < Z.of_nat (length idx) ->
    (forall k, left < k <= last ->
       zget value (zget idx k) <= zget value (zget idx left)) ->
    (forall k, last < k < i ->
       zget value (zget idx left) <= zget value (zget idx k)) ->
    let r := qsort_partition cnt value idx left i last in
    length r.1 = length idx /\ r.1 ≡ₚ idx
    /\ last <= r.2 <= right
    /\ (forall k, ~ (left < k <= right) -> zget r.1 k = zget idx k)
    /\ (forall P : Z -> Prop,
          (forall k, left < k <= right -> P (zget idx k)) ->
          forall k, left < k <= right -> P (zget r.1 k))
    /\ (forall k, left < k <= r.2 ->
          zget value (zget r.1 k) <= zget value (zget idx left))
    /\ (forall k, r.2 < k <= right ->
          zget value (zget idx left) <= zget value (zget r.1 k)).
Proof.
  induction cnt as [|cnt IH]; intros idx i last Hl Hll Hli Hcnt Hr Hlo Hhi.
  - cbn. repeat split; try lia; auto. intros k Hk. apply Hhi. lia.
  - cbn [qsort_partition].
    set (tmp := zget idx i). set (piv := zget idx left).
    destruct ((zget value piv >? zget value tmp)
              || ((zget value piv =? zget value tmp) && (piv >? tmp))) eqn:Hc.
    + assert (Hle : zget value tmp <= zget value piv).
      { apply orb_true_iff in Hc as [Hc|Hc]; [zbool; lia|].
        apply andb_true_iff in Hc as [Hc _]. zbool. lia. }
      change (zset (zset idx i (zget idx (last + 1))) (last + 1) tmp)
        with (swap idx i (last + 1)).
      set (idx2 := swap idx i (last + 1)).
      assert (Hget : forall k, zget idx2 k
                = if k =? last + 1 then zget idx i
                  else if k =? i then zget idx (last + 1) else zget idx k).
      { intros k. apply swap_get; lia. }
      assert (Hleft : zget idx2 left = zget idx left).
      { rewrite Hget. case_ifs; zbool; first [lia|reflexivity]. }
      specialize (IH idx2 (i + 1) (last + 1)).
      cbn zeta in IH. rewrite Hleft in IH.
      destruct IH as (H1 & H2 & H3 & H4 & H5 & H6 & H7);
        [lia|lia|lia|lia|unfold idx2; rewrite swap_length; lia| | |].
      { intros k Hk. rewrite Hget. case_ifs; zbool; try lia; [exact Hle|].
        apply Hlo. lia. }
      { intros k Hk. rewrite Hget. case_ifs; zbool; try lia; apply Hhi; lia. }
      cbn zeta. split; [rewrite H1; apply swap_length|].
      split; [rewrite H2; apply swap_Permutation; lia|].
      split; [lia|]. split.
      { intros k Hk. rewrite H4 by exact Hk. rewrite Hget.
        case_ifs; zbool; first [lia|reflexivity]. }
      split; [|split; assumption].
      intros P HP. apply H5. intros k Hk. rewrite Hget.
      case_ifs; zbool; apply HP; lia.
    + assert (Hge : zget value piv <= zget value tmp).
      { apply orb_false_iff in Hc as [Hc _]. zbool. lia. }
      specialize (IH idx (i + 1) last). cbn zeta in IH.
      destruct IH as (H1 & H2 & H3 & H4 & H5 & H6 & H7);
        [lia|lia|lia|lia|lia|exact Hlo| |].
      { intros k Hk. destruct (Z.eq_dec k i) as [->|Hne]; [exact Hge|].
        apply Hhi. lia. }
      cbn zeta. repeat split; try assumption; lia.
Qed.

Lemma zultra_huffman_encoder_qsort_spec (fuel : nat) :
  forall idx left right,
    0 <= left -> right < Z.of_nat (length idx) ->
    right - left + 1 <= Z.of_nat fuel ->
    let idx' := zultra_huffman_encoder_qsort fuel value idx left right in
    length idx' = length idx /\ idx' ≡ₚ idx
    /\ (forall k, ~ (left <= k <= right) -> zget idx' k = zget idx k)
    /\ (forall P : Z -> Prop,
          (forall k, left <= k <= right -> P (zget idx k)) ->
          forall k, left <= k <= right -> P (zget idx' k))
    /\ sorted_range value idx' left right.
Proof.
  induction fuel as [|fuel IH]; intros idx left right Hl Hr Hfuel.
  - cbn. repeat split; auto. intros a b Ha Hab Hb.
    assert (a = b) as -> by lia. lia.
  - cbn [zultra_huffman_encoder_qsort].
    destruct (left >=? right) eqn:Hge; zbool.
    { cbn zeta. repeat split; auto. intros a b Ha Hab Hb.
      assert (a = b) as -> by lia. lia. }
    set (mid := Z.shiftr (left + right) 1).
    assert (Hmid : left <= mid <= right).
    { unfold mid. rewrite Z.shiftr_div_pow2 by lia. change (2 ^ 1) with 2.
      split; [apply Z.div_le_lower_bound; lia|apply Z.div_le_upper_bound; lia]. }
    set (idx1 := swap idx left mid).
    assert (Hlen1 : length idx1 = length idx) by apply swap_length.
    assert (Hget1 : forall k, zget idx1 k
              = if k =? mid then zget idx left
                else if k =? left then zget idx mid else zget idx k).
    { intros k. apply swap_get; lia. }
    pose proof (qsort_partition_spec left right (Z.to_nat (right - left)) idx1
                  (left + 1) left) as Hpart.
    cbn zeta in Hpart.
    destruct (qsort_partition (Z.to_nat (right - left)) value idx1 left (left + 1) left)
      as [idx2 last] eqn:Epart.
    cbn [fst snd] in Hpart.
    destruct Hpart as (P1 & P2 & P3 & P4 & P5 & P6 & P7);
      [lia|lia|lia|lia|lia|intros; lia|intros; lia|].
    set (idx3 := swap idx2 left last).
    assert (Hlen3 : length idx3 = length idx) by (unfold idx3; rewrite swap_length; lia).
    assert (Hget3 : forall k, zget idx3 k
              = if k =? last then zget idx2 left
                else if k =? left then zget idx2 last else zget idx2 k).
    { intros k. apply swap_get; lia. }
    assert (Hpiv : zget idx2 left = zget idx1 left) by (apply P4; lia).
    set (pv := zget value (zget idx1 left)) in *.
    assert (Hlo3 : forall k, left <= k < last -> zget value (zget idx3 k) <= pv).
    { intros k Hk. rewrite Hget3. case_ifs; zbool; try lia; apply P6; lia. }
    assert (Hhi3 : forall k, last < k <= right -> pv <= zget value (zget idx3 k)).
    { intros k Hk. rewrite Hget3. case_ifs; zbool; try lia. apply P7. lia. }
    assert (Hat3 : zget value (zget idx3 last) = pv).
    { rewrite Hget3, Z.eqb_refl, Hpiv. reflexivity. }
    destruct (IH idx3 left (last - 1)) as (A1 & A2 & A3 & A4 & A5); [lia|lia|lia|].
    set (idx4 := zultra_huffman_encoder_qsort fuel value idx3 left (last - 1)) in *.
    destruct (IH idx4 (last + 1) right) as (B1 & B2 & B3 & B4 & B5); [lia|lia|lia|].
    set (idx5 := zultra_huffman_encoder_qsort fuel value idx4 (last + 1) right) in *.
    cbn zeta.
    assert (Hall : forall P : Z -> Prop,
               (forall k, left <= k <= right -> P (zget idx k)) ->
               forall k, left <= k <= right -> P (zget idx5 k)).
    { intros P HP.
      assert (HP1 : forall k, left <= k <= right -> P (zget idx1 k)).
      { intros k Hk. rewrite Hget1. case_ifs; zbool; apply HP; lia. }
      assert (HP2 : forall k, left <= k <= right -> P (zget idx2 k)).
      { intros k Hk. destruct (Z.eq_dec k left) as [->|Hne].
        - rewrite P4 by lia. apply HP1. lia.
        - apply (P5 P); [intros; apply HP1; lia|lia]. }
      assert (HP3 : forall k, left <= k <= right -> P (zget idx3 k)).
      { intros k Hk. rewrite Hget3. case_ifs; zbool; apply HP2; lia. }
      assert (HP4 : forall k, left <= k <= right -> P (zget idx4 k)).
      { intros k Hk. destruct (Z_le_gt_dec k (last - 1)).
        - apply (A4 P); [intros; apply HP3; lia|lia].
        - rewrite A3 by lia. apply HP3. lia. }
      intros k Hk. destruct (Z_le_gt_dec (last + 1) k).
      - apply (B4 P); [intros; apply HP4; lia|lia].
      - rewrite B3 by lia. apply HP4. lia. }
    split; [lia|]. split.
    { rewrite B2, A2. unfold idx3. rewrite swap_Permutation by lia.
      rewrite P2. apply swap_Permutation; lia. }
    split.
    { intros k Hk. rewrite B3, A3 by lia. rewrite Hget3.
      case_ifs; zbool; try lia. rewrite P4 by lia. rewrite Hget1.
      case_ifs; zbool; first [lia|reflexivity]. }
    split; [exact Hall|].
    assert (Hlo5 : forall k, left <= k < last -> zget value (zget idx5 k) <= pv).
    { intros k Hk. rewrite B3 by lia.
      apply (A4 (fun s => zget value s <= pv)); [intros; apply Hlo3; lia|lia]. }
    assert (Hhi5 : forall k, last < k <= right -> pv <= zget value (zget idx5 k)).
    { intros k Hk.
      apply (B4 (fun s => pv <= zget value s)); [|lia].
      intros j Hj. rewrite A3 by lia. apply Hhi3. lia. }
    assert (Hat5 : zget value (zget idx5 last) = pv).
    { rewrite B3, A3 by lia. exact Hat3. }
    intros a b Ha Hab Hb.
    destruct (Z_lt_ge_dec b last) as [Hb1|Hb1].
    { rewrite !(B3 _) by lia. apply A5; lia. }
    destruct (Z_lt_ge_dec last a) as [Ha1|Ha1].
    { apply B5; lia. }
    destruct (Z.eq_dec a last) as [->|Hna]; destruct (Z.eq_dec b last) as [->|Hnb];
      try lia.
    + rewrite Hat5. apply Hhi5. lia.
    + rewrite Hat5. apply Hlo5. lia.
    + transitivity pv; [apply Hlo5|apply Hhi5]; lia.
Qed.

End QsortProofs.

(** *** Moffat-Katajainen, phase 1: the parent pointers *)

Lemma mk_select_inv (n t c : Z) (st : Z * Z * list Z) :
  0 <= c <= 1 -> t <= n - 2 ->
  mk_inv1 n t c st -> mk_inv1 n t (c + 1) (mk_select n t st).2.
Proof.
  intros Hc Ht. destruct st as [[s r] A].
  intros (Hr & Hs & Hsum & Hlen & (Hp1 & Hp2 & Hp3) & Hold).
  unfold mk_select.
  destruct ((s >=? n) || ((r <? t) && (zget A r <? zget A s))) eqn:Hg.
  - assert (Hrt : r < t).
    { apply orb_true_iff in Hg as [Hg|Hg]; [zbool; lia|].
      apply andb_true_iff in Hg as [Hg _]. zbool. lia. }
    cbn [snd]. unfold mk_inv1.
    split; [lia|]. split; [lia|]. split; [lia|].
    split; [rewrite zset_length; lia|]. split; [split; [|split]|].
    + intros j Hj. destruct (Z.eq_dec j r) as [->|Hne]; zgs; [lia|].
      apply Hp1. lia.
    + intros j Hj0 Hj. destruct (Z.eq_dec (j + 1) r) as [He|Hne].
      * rewrite He. zgs. apply Hp1. lia.
      * zgs. apply Hp2; lia.
    + intros j Hj0 Hj. destruct (Z.eq_dec (j + 2) r) as [He|Hne].
      * rewrite He. zgs. specialize (Hold j). lia.
      * zgs. apply Hp3; lia.
    + intros j Hj. zgs. apply Hold. lia.
  - assert (Hsn : s < n).
    { apply orb_false_iff in Hg as [Hg _]. zbool. lia. }
    cbn [snd]. unfold mk_inv1.
    split; [lia|]. split; [lia|]. split; [lia|]. split; [lia|].
    split; [split; [|split]; assumption|].
    intros j Hj. apply Hold. lia.
Qed.

Lemma mk_phase1_inv (n : Z) (cnt : nat) :
  forall t st,
    t + Z.of_nat cnt = n - 1 ->
    mk_inv1 n t 0 st -> mk_inv1 n (n - 1) 0 (mk_phase1 cnt n t st).
Proof.
  induction cnt as [|cnt IH]; intros t st Ht Hinv.
  - cbn. replace (n - 1) with t by lia. exact Hinv.
  - cbn [mk_phase1].
    pose proof (mk_select_inv n t 0 st ltac:(lia) ltac:(lia) Hinv) as H1.
    destruct (mk_select n t st) as [w1 st1]. cbn [snd] in H1.
    pose proof (mk_select_inv n t 1 st1 ltac:(lia) ltac:(lia) H1) as H2.
    destruct (mk_select n t st1) as [w2 [[s r] A]]. cbn [snd] in H2.
    apply IH; [lia|].
    destruct H2 as (Hr & Hs & Hsum & Hlen & (Hp1 & Hp2 & Hp3) & Hold).
    unfold mk_inv1.
    split; [lia|]. split; [lia|]. split; [lia|].
    split; [rewrite zset_length; lia|]. split; [split; [|split]|].
    + intros j Hj. zgs. specialize (Hp1 j). lia.
    + intros j Hj0 Hj. zgs. apply Hp2; lia.
    + intros j Hj0 Hj. zgs. apply Hp3; lia.
    + intros j Hj. zgs. specialize (Hp1 j). lia.
Qed.

(** After phase 1, [A[0 .. n-3]] holds the parents of the internal nodes. *)
Lemma mk_phase1_ptrs (n : Z) (A : list Z) :
  2 <= n -> Z.of_nat (length A) = n ->
  let A1 := (mk_phase1 (Z.to_nat (n - 1)) n 0 (0, 0, A)).2 in
  Z.of_nat (length A1) = n /\ mk_ptrs (n - 2) (n - 1) A1.
Proof.
  intros Hn Hlen. cbn zeta.
  pose proof (mk_phase1_inv n (Z.to_nat (n - 1)) 0 (0, 0, A)) as Hinv.
  destruct (mk_phase1 (Z.to_nat (n - 1)) n 0 (0, 0, A)) as [[s r] A1].
  cbn [snd].
  destruct Hinv as (Hr & Hs & Hsum & Hlen1 & (Hp1 & Hp2 & Hp3) & Hold); [lia| |].
  { unfold mk_inv1, mk_ptrs. repeat split; intros; lia. }
  assert (Hr2 : r = n - 2).
  { destruct (Z.eq_dec r 0) as [->|Hne]; [lia|].
    specialize (Hp1 (r - 1)). specialize (Hold (r - 1)). lia. }
  subst r. split; [exact Hlen1|]. split; [|split]; try assumption.
  intros j Hj. specialize (Hp1 j). specialize (Hold j). lia.
Qed.

(** *** Sums over index ranges *)

Lemma rsum_ext (f g : Z -> Z) (cnt : nat) :
  forall lo, (forall j, lo <= j < lo + Z.of_nat cnt -> f j = g j) ->
    rsum f lo cnt = rsum g lo cnt.
Proof.
  induction cnt as [|cnt IH]; intros lo H; [reflexivity|].
  cbn [rsum]. rewrite (H lo) by lia. f_equal. apply IH. intros j Hj. apply H. lia.
Qed.

Lemma rsum_app (f : Z -> Z) (c1 c2 : nat) :
  forall lo, rsum f lo (c1 + c2) = rsum f lo c1 + rsum f (lo + Z.of_nat c1) c2.
Proof.
  induction c1 as [|c1 IH]; intros lo.
  - change (0 + c2)%nat with c2. cbn [rsum].
    replace (lo + Z.of_nat 0) with lo by lia. lia.
  - change (S c1 + c2)%nat with (S (c1 + c2)). cbn [rsum]. rewrite IH.
    replace (lo + 1 + Z.of_nat c1) with (lo + Z.of_nat (S c1)) by lia.
    lia.
Qed.

Lemma rsum_const (f : Z -> Z) (v : Z) (cnt : nat) :
  forall lo, (forall j, lo <= j < lo + Z.of_nat cnt -> f j = v) ->
    rsum f lo cnt = Z.of_nat cnt * v.
Proof.
  induction cnt as [|cnt IH]; intros lo H; [reflexivity|].
  cbn [rsum]. rewrite (H lo) by lia. rewrite IH by (intros j Hj; apply H; lia). lia.
Qed.

Lemma rsum_le (f g : Z -> Z) (cnt : nat) :
  forall lo, (forall j, lo <= j < lo + Z.of_nat cnt -> f j <= g j) ->
    rsum f lo cnt <= rsum g lo cnt.
Proof.
  induction cnt as [|cnt IH]; intros lo H; [reflexivity|].
  cbn [rsum]. specialize (H lo ltac:(lia)) as H0.
  specialize (IH (lo + 1) ltac:(intros j Hj; apply H; lia)). lia.
Qed.

Lemma rsum_nonneg (f : Z -> Z) (cnt : nat) (lo : Z) :
  (forall j, lo <= j < lo + Z.of_nat cnt -> 0 <= f j) -> 0 <= rsum f lo cnt.
Proof.
  intros H. pose proof (rsum_le (fun _ => 0) f cnt lo H) as Hle.
  rewrite (rsum_const (fun _ => 0) 0 cnt lo) in Hle by reflexivity. lia.
Qed.

(** *** Moffat-Katajainen, phase 2: depths of the leaves *)

Lemma mk_depths_spec (n : Z) (A1 : list Z) (cnt : nat) :
  forall A,
    Z.of_nat (length A) = n -> Z.of_nat cnt <= n - 2 ->
    (forall j, 0 <= j < Z.of_nat cnt -> zget A j = zget A1 j) ->
    (forall j, 0 <= j < Z.of_nat cnt -> j + 2 <= zget A1 j <= n - 1) ->
    let D := mk_depths cnt A in
    Z.of_nat (length D) = n
    /\ (forall j, Z.of_nat cnt <= j -> zget D j = zget A j)
    /\ (forall j, 0 <= j < Z.of_nat cnt -> zget D j = zget D (zget A1 j - 1) + 1).
Proof.
  induction cnt as [|t IH]; intros A Hlen Hcnt Hsame Hptr.
  - cbn. repeat split; [exact Hlen|]. intros j Hj. lia.
  - cbn [mk_depths].
    set (A' := zset A (Z.of_nat t) (zget A (zget A (Z.of_nat t) - 1) + 1)).
    destruct (IH A') as (H1 & H2 & H3).
    { unfold A'. rewrite zset_length. exact Hlen. }
    { lia. }
    { intros j Hj. unfold A'. zgs. apply Hsame. lia. }
    { intros j Hj. apply Hptr. lia. }
    cbn zeta. split; [exact H1|]. split.
    + intros j Hj. rewrite H2 by lia. unfold A'. zgs. reflexivity.
    + intros j Hj. destruct (Z.eq_dec j (Z.of_nat t)) as [->|Hne].
      * specialize (Hptr (Z.of_nat t) ltac:(lia)).
        rewrite !H2 by lia. unfold A'. zgs.
        rewrite (Hsame (Z.of_nat t)) by lia. reflexivity.
      * apply H3. lia.
Qed.

Lemma mk_count_spec (A : list Z) (d : Z) (fuel : nat) :
  forall t u,
    -1 <= t -> t + 1 <= Z.of_nat fuel ->
    let r := mk_count fuel A d t u in
    -1 <= r.1 <= t /\ r.2 = u + (t - r.1)
    /\ (forall j, r.1 < j <= t -> zget A j = d)
    /\ (0 <= r.1 -> zget A r.1 <> d).
Proof.
  induction fuel as [|fuel IH]; intros t u Ht Hfuel.
  - cbn. split; [lia|]. split; [lia|]. split; intros; lia.
  - cbn [mk_count].
    destruct ((t >=? 0) && (zget A t =? d)) eqn:Hg.
    + apply andb_true_iff in Hg as [Hg1 Hg2]. zbool.
      destruct (IH (t - 1) (u + 1)) as (H1 & H2 & H3 & H4); [lia|lia|].
      cbn zeta. split; [lia|]. split; [lia|]. split; [|exact H4].
      intros j Hj. destruct (Z.eq_dec j t) as [->|Hne]; [exact Hg2|].
      apply H3. lia.
    + cbn. apply andb_false_iff in Hg.
      split; [lia|]. split; [lia|]. split; [intros; lia|].
      intros H0. destruct Hg as [Hg|Hg]; zbool; lia.
Qed.

Lemma mk_assign_spec (d : Z) (cnt : nat) :
  forall A x,
    Z.of_nat cnt <= x + 1 -> x < Z.of_nat (length A) ->
    let r := mk_assign cnt A d x in
    r.2 = x - Z.of_nat cnt /\ length r.1 = length A
    /\ (forall j, r.2 < j <= x -> zget r.1 j = d)
    /\ (forall j, ~ (r.2 < j <= x) -> zget r.1 j = zget A j).
Proof.
  induction cnt as [|cnt IH]; intros A x Hcnt Hx.
  - cbn. split; [lia|]. split; [reflexivity|]. split; intros; [lia|reflexivity].
  - cbn [mk_assign].
    destruct (IH (zset A x d) (x - 1)) as (H1 & H2 & H3 & H4);
      [lia|rewrite zset_length; lia|].
    cbn zeta. split; [lia|]. split; [rewrite H2; apply zset_length|]. split.
    + intros j Hj. destruct (Z.eq_dec j x) as [->|Hne].
      * rewrite H4 by lia. zgs. reflexivity.
      * apply H3. lia.
    + intros j Hj. rewrite H4 by lia. zgs. reflexivity.
Qed.

Section MKLevels.

Variables (n M : Z) (A1 D : list Z).
Hypothesis Hn : 2 <= n.
Hypothesis HM : n - 1 <= M.
Hypothesis Hptr : mk_ptrs (n - 2) (n - 1) A1.
Hypothesis HD0 : zget D (n - 2) = 0.
Hypothesis HDrel :
  forall j, 0 <= j <= n - 3 -> zget D j = zget D (zget A1 j - 1) + 1.

Lemma mk_depth_bounds (k : nat) :
  forall j, 0 <= j <= n - 2 -> n - 2 - j <= Z.of_nat k ->
    0 <= zget D j <= n - 2 - j.
Proof.
  destruct Hptr as (Hp1 & _ & _).
  induction k as [|k IH]; intros j Hj Hk.
  - assert (j = n - 2) as -> by lia. rewrite HD0. lia.
  - destruct (Z.eq_dec j (n - 2)) as [->|Hne]; [rewrite HD0; lia|].
    rewrite HDrel by lia. specialize (Hp1 j ltac:(lia)).
    specialize (IH (zget A1 j - 1) ltac:(lia) ltac:(lia)). lia.
Qed.

Lemma mk_depth_range (j : Z) : 0 <= j <= n - 2 -> 0 <= zget D j <= n - 2 - j.
Proof. intros Hj. apply (mk_depth_bounds (Z.to_nat (n - 2 - j))); lia. Qed.

Lemma mk_parent_mono (k : nat) :
  forall i, 0 <= i -> i + Z.of_nat k <= n - 3 ->
    zget A1 i <= zget A1 (i + Z.of_nat k).
Proof.
  destruct Hptr as (_ & Hp2 & _).
  induction k as [|k IH]; intros i Hi Hk.
  - replace (i + Z.of_nat 0) with i by lia. lia.
  - specialize (IH i Hi ltac:(lia)).
    specialize (Hp2 (i + Z.of_nat k) ltac:(lia) ltac:(lia)).
    replace (i + Z.of_nat (S k)) with (i + Z.of_nat k + 1) by lia. lia.
Qed.

Lemma mk_parent_le (i j : Z) : 0 <= i <= j -> j <= n - 3 -> zget A1 i <= zget A1 j.
Proof.
  intros Hi Hj. pose proof (mk_parent_mono (Z.to_nat (j - i)) i ltac:(lia) ltac:(lia)) as H.
  replace (i + Z.of_nat (Z.to_nat (j - i))) with j in H by lia. exact H.
Qed.

Lemma mk_parent_two (k : nat) :
  forall i, 0 <= i -> i + 2 * Z.of_nat k <= n - 3 ->
    zget A1 i + Z.of_nat k <= zget A1 (i + 2 * Z.of_nat k).
Proof.
  destruct Hptr as (_ & _ & Hp3).
  induction k as [|k IH]; intros i Hi Hk.
  - replace (i + 2 * Z.of_nat 0) with i by lia. lia.
  - specialize (IH i Hi ltac:(lia)).
    specialize (Hp3 (i + 2 * Z.of_nat k) ltac:(lia) ltac:(lia)).
    replace (i + 2 * Z.of_nat (S k)) with (i + 2 * Z.of_nat k + 2) by lia. lia.
Qed.

Lemma mk_levels_step (A : list Z) (a d x t : Z) :
  mk_inv2 n M A1 D A a d x t -> 0 < a ->
  let cu := mk_count (Z.to_nat (t + 1)) A d t 0 in
  let ax := mk_assign (Z.to_nat (a - cu.2)) A d x in
  mk_inv2 n M A1 D ax.1 (2 * cu.2) (d + 1) ax.2 cu.1
  /\ cu.2 = t - cu.1 /\ -1 <= cu.1 <= t.
Proof.
  intros (T & Ht & HtT & HT & Ht3 & Ha & Hx & Hxn & Hd & Hlen & HAD & HDT & HpT & HDd
            & Hleaf & HK) Hapos.
  pose proof Hptr as (Hp1 & _ & _).
  pose proof (mk_count_spec A d (Z.to_nat (t + 1)) t 0 ltac:(lia) ltac:(lia)) as Hc.
  cbn zeta in Hc. cbn zeta.
  destruct (mk_count (Z.to_nat (t + 1)) A d t 0) as [t' u]. cbn [fst snd] in *.
  destruct Hc as (C1 & C2 & C3 & C4).
  assert (F2 : d <= n - 1).
  { pose proof (mk_depth_range T ltac:(lia)) as HdT. rewrite (HDT T) in HdT by lia. lia. }
  assert (F3 : forall j, t' < j <= t -> zget D j = d).
  { intros j Hj. rewrite <- HAD by lia. apply C3. exact Hj. }
  assert (F4 : forall j, t' < j <= t -> t < zget A1 j - 1).
  { intros j Hj. specialize (Hp1 j ltac:(lia)).
    destruct (Z_lt_ge_dec t (zget A1 j - 1)) as [|Hle]; [assumption|].
    pose proof (F3 j Hj) as Hdj. rewrite HDrel in Hdj by lia.
    specialize (HDd (zget A1 j - 1) ltac:(lia)). lia. }
  assert (F5 : u <= a).
  { destruct (Z_le_gt_dec u a) as [|Hgt]; [assumption|exfalso].
    pose proof (mk_parent_two (Z.to_nat (T - t)) (t' + 1) ltac:(lia) ltac:(lia)) as H2.
    rewrite Z2Nat.id in H2 by lia.
    specialize (F4 (t' + 1) ltac:(lia)).
    specialize (HpT (t' + 1 + 2 * (T - t)) ltac:(lia)). lia. }
  assert (F6 : 0 <= t' -> zget A1 t' - 1 <= t).
  { intros H0. specialize (C4 H0). rewrite HAD in C4 by lia.
    destruct (Z_le_gt_dec (zget A1 t' - 1) t) as [|Hgt]; [assumption|exfalso].
    apply C4. rewrite HDrel by lia.
    rewrite (HDT (zget A1 t' - 1)); [lia|]. specialize (HpT t' ltac:(lia)). lia. }
  assert (F7 : forall j, 0 <= j <= t' -> zget A1 j - 1 <= t).
  { intros j Hj. pose proof (mk_parent_le j t' ltac:(lia) ltac:(lia)). 
    specialize (F6 ltac:(lia)). lia. }
  assert (F8 : forall j, 0 <= j <= t' -> d + 1 <= zget D j).
  { intros j Hj. rewrite HDrel by lia. specialize (Hp1 j ltac:(lia)).
    specialize (F7 j Hj). specialize (HDd (zget A1 j - 1) ltac:(lia)). lia. }
  pose proof (mk_assign_spec d (Z.to_nat (a - u)) A x ltac:(lia) ltac:(lia)) as Hs.
  cbn zeta in Hs.
  destruct (mk_assign (Z.to_nat (a - u)) A d x) as [A' x']. cbn [fst snd] in *.
  destruct Hs as (S1 & S2 & S3 & S4). rewrite Z2Nat.id in S1 by lia.
  split; [|split; lia].
  exists t.
  split; [lia|]. split; [lia|]. split; [lia|]. split; [lia|]. split; [lia|].
  split; [lia|]. split; [lia|]. split; [lia|]. split; [lia|].
  split; [intros j Hj; rewrite S4 by lia; apply HAD; lia|].
  split; [intros j Hj; rewrite F3 by lia; lia|].
  split; [exact F7|]. split; [exact F8|]. split.
  { intros j Hj. destruct (Z_le_gt_dec j x) as [Hle|Hgt].
    - rewrite S3 by lia. lia.
    - rewrite S4 by lia. apply Hleaf. lia. }
  replace (Z.to_nat (n - 1 - x')) with (Z.to_nat (a - u) + Z.to_nat (n - 1 - x))%nat by lia.
  rewrite rsum_app.
  rewrite (rsum_const _ (2 ^ (M - d))) by (intros j Hj; cbv beta; rewrite S3 by lia; reflexivity).
  rewrite Z2Nat.id by lia.
  replace (x' + 1 + (a - u)) with (x + 1) by lia.
  rewrite (rsum_ext _ (fun j => 2 ^ (M - zget A j)))
    by (intros j Hj; cbv beta; rewrite S4 by lia; reflexivity).
  assert (Hpow : 2 * u * 2 ^ (M - (d + 1)) = u * 2 ^ (M - d)).
  { destruct (Z.eq_dec u 0) as [->|Hu]; [reflexivity|].
    pose proof (mk_depth_range t ltac:(lia)) as Hdt. rewrite (F3 t) in Hdt by lia.
    replace (M - d) with (Z.succ (M - (d + 1))) by lia.
    rewrite Z.pow_succ_r by lia. lia. }
  rewrite Hpow, Z.mul_sub_distr_r. lia.
Qed.

Lemma mk_levels_run (fuel : nat) :
  forall A a d x t,
    mk_inv2 n M A1 D A a d x t ->
    t + 2 + (if a >? 0 then 1 else 0) <= Z.of_nat fuel ->
    exists A',
      mk_levels fuel A a d x t = Some A'
      /\ Z.of_nat (length A') = n
      /\ (forall j, 0 <= j <= n - 1 -> 1 <= zget A' j <= n - 1)
      /\ rsum (fun j => 2 ^ (M - zget A' j)) 0 (Z.to_nat n) = 2 ^ M.
Proof.
  induction fuel as [|fuel IH]; intros A a d x t Hinv Hfuel.
  - exfalso. destruct Hinv as (T & Ht & _). destruct (a >? 0); lia.
  - cbn [mk_levels]. destruct (a >? 0) eqn:Ea; zbool.
    + pose proof (mk_levels_step A a d x t Hinv Ea) as Hstep. cbn zeta in Hstep.
      destruct (mk_count (Z.to_nat (t + 1)) A d t 0) as [t' u]. cbn [fst snd] in Hstep.
      destruct (mk_assign (Z.to_nat (a - u)) A d x) as [A' x']. cbn [fst snd] in Hstep.
      destruct Hstep as (Hinv' & Hu & Ht').
      rewrite Z.shiftl_mul_pow2 by lia. change (2 ^ 1) with 2.
      replace (u * 2) with (2 * u) by lia.
      apply IH; [exact Hinv'|].
      destruct (2 * u >? 0) eqn:Eu; zbool; lia.
    + destruct Hinv as (T & Ht & HtT & HT & Ht3 & Ha & Hx & Hxn & Hd & Hlen & HAD & HDT
                          & HpT & HDd & Hleaf & HK).
      pose proof Hptr as (Hp1 & _ & _).
      assert (Ht1 : t = -1).
      { destruct (Z.eq_dec t (-1)) as [|Hne]; [assumption|exfalso].
        specialize (Hp1 t ltac:(lia)). specialize (HpT t ltac:(lia)). lia. }
      assert (Ha0 : a = 0) by lia.
      assert (Hx1 : x = -1) by lia.
      exists A. split; [reflexivity|]. split; [exact Hlen|]. split.
      * intros j Hj. apply Hleaf. lia.
      * rewrite Hx1, Ha0 in HK.
        replace (Z.to_nat (n - 1 - -1)) with (Z.to_nat n) in HK by lia.
        change (-1 + 1) with 0 in HK. lia.
Qed.

End MKLevels.

(** The code lengths of [n >= 2] weights: every leaf gets a depth between
    1 and [n - 1], and the depths are those of a full binary tree. *)
Lemma mk_code_lengths_spec (n M : Z) (A : list Z) :
  2 <= n -> n - 1 <= M -> Z.of_nat (length A) = n ->
  exists A',
    mk_code_lengths n A = Some A'
    /\ Z.of_nat (length A') = n
    /\ (forall j, 0 <= j <= n - 1 -> 1 <= zget A' j <= n - 1)
    /\ rsum (fun j => 2 ^ (M - zget A' j)) 0 (Z.to_nat n) = 2 ^ M.
Proof.
  intros Hn HM Hlen. unfold mk_code_lengths.
  pose proof (mk_phase1_ptrs n A Hn Hlen) as Hph1. cbn zeta in Hph1.
  destruct (mk_phase1 (Z.to_nat (n - 1)) n 0 (0, 0, A)) as [[s r] A1].
  cbn [snd] in Hph1. destruct Hph1 as (Hlen1 & Hptr).
  pose proof Hptr as (Hp1 & _ & _).
  set (A2 := zset A1 (n - 2) 0).
  pose proof (mk_depths_spec n A1 (Z.to_nat (n - 2)) A2) as Hdep.
  cbn zeta in Hdep.
  set (D := mk_depths (Z.to_nat (n - 2)) A2) in *.
  destruct Hdep as (HlenD & HDhi & HDrel0).
  { unfold A2. rewrite zset_length. exact Hlen1. }
  { lia. }
  { intros j Hj. unfold A2. zgs. reflexivity. }
  { intros j Hj. apply Hp1. lia. }
  assert (HD0 : zget D (n - 2) = 0).
  { rewrite HDhi by lia. unfold A2. zgs. reflexivity. }
  assert (HDrel : forall j, 0 <= j <= n - 3 -> zget D j = zget D (zget A1 j - 1) + 1).
  { intros j Hj. apply HDrel0. lia. }
  pose proof (mk_depth_range n A1 D Hptr HD0 HDrel) as Hrange.
  replace (Z.to_nat n + 1)%nat with (S (Z.to_nat n)) by lia.
  cbn [mk_levels]. change (1 >? 0) with true. cbv iota.
  pose proof (mk_count_spec D 0 (Z.to_nat (n - 2 + 1)) (n - 2) 0 ltac:(lia) ltac:(lia)) as Hc.
  cbn zeta in Hc.
  destruct (mk_count (Z.to_nat (n - 2 + 1)) D 0 (n - 2) 0) as [t' u]. cbn [fst snd] in Hc.
  destruct Hc as (C1 & C2 & C3 & C4).
  assert (Ht' : t' = n - 3).
  { destruct (Z.eq_dec t' (n - 2)) as [->|Hne]; [exfalso; apply C4; [lia|exact HD0]|].
    destruct (Z_lt_ge_dec t' (n - 3)) as [Hlt|]; [exfalso|lia].
    specialize (C3 (n - 3) ltac:(lia)). rewrite HDrel in C3 by lia.
    specialize (Hp1 (n - 3) ltac:(lia)).
    specialize (Hrange (zget A1 (n - 3) - 1) ltac:(lia)). lia. }
  assert (Hu : u = 1) by lia. clear C2. subst t' u.
  change (Z.to_nat (1 - 1)) with O. cbn [mk_assign].
  change (Z.shiftl 1 1) with 2. change (0 + 1) with 1.
  apply (mk_levels_run n M A1 D Hn HM Hptr HD0 HDrel).
  - exists (n - 2).
    split; [lia|]. split; [lia|]. split; [lia|]. split; [lia|]. split; [lia|].
    split; [lia|]. split; [lia|]. split; [lia|]. split; [exact HlenD|].
    split; [reflexivity|].
    split; [intros j Hj; assert (j = n - 2) as -> by lia; rewrite HD0; lia|].
    split; [intros j Hj; specialize (Hp1 j ltac:(lia)); lia|].
    split.
    { intros j Hj. rewrite HDrel by lia. specialize (Hp1 j ltac:(lia)).
      specialize (Hrange (zget A1 j - 1) ltac:(lia)). lia. }
    split; [intros j Hj; lia|].
    replace (Z.to_nat (n - 1 - (n - 1))) with O by lia. cbn [rsum].
    replace M with (Z.succ (M - 1)) at 2 by lia.
    rewrite Z.pow_succ_r by lia. lia.
  - change (2 >? 0) with true. lia.
Qed.

(** *** The queue of used symbols *)

Lemma used_symbols_In (n : Z) (v : list Z) (s : Z) :
  In s (used_symbols n v) <-> (0 <= s < n /\ zget v s <> 0).
Proof.
  unfold used_symbols. rewrite filter_In, in_map_iff. split.
  - intros [(k & Hk & Hin) Hnz]. apply in_seq in Hin.
    apply negb_true_iff in Hnz. zbool. split; [lia|exact Hnz].
  - intros [Hs Hnz]. split.
    + exists (Z.to_nat s). split; [lia|]. apply in_seq. lia.
    + apply negb_true_iff. apply Z.eqb_neq. exact Hnz.
Qed.

Lemma used_symbols_NoDup (n : Z) (v : list Z) : NoDup (used_symbols n v).
Proof.
  unfold used_symbols. apply NoDup_ListNoDup, List.NoDup_filter, NoDup_ListNoDup.
  apply (NoDup_fmap_2 Z.of_nat). apply NoDup_seq.
Qed.

Lemma used_symbols_length (n : Z) (v : list Z) :
  0 <= n -> Z.of_nat (length (used_symbols n v)) <= n.
Proof.
  intros Hn. unfold used_symbols.
  pose proof (List.filter_length_le
                (fun i => negb (zget v i =? 0)) (map Z.of_nat (seq 0 (Z.to_nat n)))) as H.
  rewrite length_map, length_seq in H. lia.
Qed.

(** *** Sums over a queue *)

Lemma lsum_Permutation (g : Z -> Z) (l l' : list Z) :
  l ≡ₚ l' -> lsum g l = lsum g l'.
Proof.
  induction 1 as [|x l l' _ IH|x y l|l l' l'' _ IH1 _ IH2]; cbn [lsum]; lia.
Qed.

Lemma lsum_app (g : Z -> Z) (l l' : list Z) :
  lsum g (l ++ l') = lsum g l + lsum g l'.
Proof. induction l as [|x l IH]; cbn [lsum app]; lia. Qed.

Lemma lsum_ext (g h : Z -> Z) (l : list Z) :
  (forall s, In s l -> g s = h s) -> lsum g l = lsum h l.
Proof.
  induction l as [|x l IH]; intros H; [reflexivity|].
  cbn [lsum]. rewrite (H x) by (left; reflexivity).
  rewrite IH by (intros s Hs; apply H; right; exact Hs). reflexivity.
Qed.

Lemma rsum_shift (f : Z -> Z) (cnt : nat) :
  forall lo, rsum (fun i => f (i + 1)) lo cnt = rsum f (lo + 1) cnt.
Proof.
  induction cnt as [|cnt IH]; intros lo; [reflexivity|].
  cbn [rsum]. rewrite IH. reflexivity.
Qed.

Lemma zget_cons (x : Z) (l : list Z) (i : Z) :
  0 <= i -> zget (x :: l) (i + 1) = zget l i.
Proof.
  intros Hi. unfold zget.
  destruct (i + 1 <? 0) eqn:E1; destruct (i <? 0) eqn:E2; zbool; try lia.
  replace (Z.to_nat (i + 1)) with (S (Z.to_nat i)) by lia. reflexivity.
Qed.

Lemma lsum_rsum (g : Z -> Z) (l : list Z) :
  lsum g l = rsum (fun i => g (zget l i)) 0 (length l).
Proof.
  induction l as [|x l IH]; [reflexivity|].
  cbn [lsum length rsum]. f_equal. rewrite IH.
  rewrite <- (rsum_shift (fun i => g (zget (x :: l) i))).
  apply rsum_ext. intros j Hj. cbv beta. rewrite zget_cons by lia. reflexivity.
Qed.

Lemma kraft_sum_app (L : Z) (l l' : list Z) :
  kraft_sum L (l ++ l') = kraft_sum L l + kraft_sum L l'.
Proof. induction l as [|x l IH]; cbn [kraft_sum app]; lia. Qed.

(** The Kraft number of a table is the sum over its used symbols. *)
Lemma kraft_sum_used (L : Z) (len : list Z) (n : nat) :
  kraft_sum L (take n len)
  = lsum (fun s => 2 ^ (L - zget len s)) (used_symbols (Z.of_nat n) len).
Proof.
  induction n as [|n IH]; [reflexivity|].
  unfold used_symbols in *. rewrite Nat2Z.id in *.
  rewrite seq_S, map_app, List.filter_app, lsum_app, <- IH. cbn [map List.filter].
  change (0 + n)%nat with n.
  destruct (len !! n) as [x|] eqn:El.
  - rewrite (take_S_r _ _ _ El), kraft_sum_app. f_equal.
    assert (Hx : zget len (Z.of_nat n) = x).
    { unfold zget. destruct (Z.of_nat n <? 0) eqn:E; zbool; [lia|].
      rewrite Nat2Z.id, El. reflexivity. }
    rewrite Hx. cbn [kraft_sum]. destruct (x =? 0); cbn [negb lsum]; [reflexivity|].
    rewrite Hx. reflexivity.
  - apply lookup_ge_None in El.
    rewrite !take_ge by lia.
    rewrite zget_ge by lia. cbn. lia.
Qed.

(** *** Storing the lengths along the queue *)

Lemma store_code_lengths_spec (queue : list Z) :
  forall A len,
    NoDup queue -> length A = length queue ->
    (forall s, In s queue -> 0 <= s < Z.of_nat (length len)) ->
    let len' := store_code_lengths queue A len in
    length len' = length len
    /\ (forall i, 0 <= i < Z.of_nat (length queue) ->
          zget len' (zget queue i) = zget A i)
    /\ (forall s, ~ In s queue -> zget len' s = zget len s).
Proof.
  induction queue as [|q queue IH]; intros A len Hnd HlenA Hrange.
  - cbn. split; [reflexivity|]. split; [intros; lia|reflexivity].
  - destruct A as [|a A]; [discriminate|].
    apply NoDup_cons in Hnd as [Hq Hnd]. 
    cbn [store_code_lengths].
    destruct (IH A (zset len q a)) as (H1 & H2 & H3);
      [exact Hnd|cbn in HlenA; lia| |].
    { intros s Hs. rewrite zset_length. apply Hrange. right. exact Hs. }
    cbn zeta. split; [rewrite H1; apply zset_length|]. split.
    + intros i Hi. destruct (Z.eq_dec i 0) as [->|Hne].
      * change (zget (q :: queue) 0) with q. change (zget (a :: A) 0) with a.
        rewrite H3 by (rewrite <- list_elem_of_In; exact Hq).
        apply zget_zset_eq. apply Hrange. left. reflexivity.
      * cbn [length] in Hi.
        replace i with (i - 1 + 1) by lia. rewrite !zget_cons by lia.
        apply H2. lia.
    + intros s Hs. rewrite H3 by (intros Hin; apply Hs; right; exact Hin).
      apply zget_zset_ne. intros ->. apply Hs. left. reflexivity.
Qed.

Lemma zget_repeat0 (k : nat) (s : Z) : zget (repeat 0 k) s = 0.
Proof.
  unfold zget. destruct (s <? 0); [reflexivity|].
  generalize (Z.to_nat s). intros i. revert i.
  induction k as [|k IH]; intros [|i]; cbn; auto.
Qed.

Lemma NoDup_zget_inj (l : list Z) (i j : Z) :
  NoDup l -> 0 <= i < Z.of_nat (length l) -> 0 <= j < Z.of_nat (length l) ->
  zget l i = zget l j -> i = j.
Proof.
  intros Hnd Hi Hj Heq.
  pose proof (zget_lookup l i Hi) as Hli. pose proof (zget_lookup l j Hj) as Hlj.
  rewrite Heq in Hli.
  pose proof (NoDup_lookup l _ _ _ Hnd Hli Hlj). lia.
Qed.

(** *** zultra_huffman_encoder_estimate_dynamic_codelens *)

(** With two or more used symbols the estimate gives each of them a length
    between 1 and their number less one, gives every other symbol 0, and the
    lengths are those of a full binary tree: at any scale [M] that holds
    them, their Kraft number is [2^M]. *)
Lemma estimate_dynamic_codelens_spec (e : zultra_huffman_encoder_t) :
  0 <= nSymbols e <= MAX_SYMBOLS ->
  let queue := used_symbols (nSymbols e) (nEntropy e) in
  let n := Z.of_nat (length queue) in
  2 <= n ->
  exists len,
    zultra_huffman_encoder_estimate_dynamic_codelens e = Built (set_code_lengths e len)
    /\ length len = Z.to_nat MAX_SYMBOLS
    /\ (forall s, In s queue -> 1 <= zget len s <= n - 1)
    /\ (forall s, ~ In s queue -> zget len s = 0)
    /\ (forall M, n - 1 <= M -> lsum (fun s => 2 ^ (M - zget len s)) queue = 2 ^ M).
Proof.
  intros Hsym queue n Hn.
  unfold zultra_huffman_encoder_estimate_dynamic_codelens.
  destruct ((nSymbols e <? 0) || (nSymbols e >? MAX_SYMBOLS)) eqn:Eg.
  { apply orb_true_iff in Eg as [Eg|Eg]; zbool; lia. }
  fold queue. fold n.
  destruct (n >? 1) eqn:En; zbool; [|lia].
  pose proof (zultra_huffman_encoder_qsort_spec (nEntropy e) (length queue) queue 0 (n - 1)
                ltac:(lia) ltac:(lia) ltac:(lia)) as Hq.
  cbn zeta in Hq.
  set (queue1 := zultra_huffman_encoder_qsort (length queue) (nEntropy e) queue 0 (n - 1))
    in *.
  destruct Hq as (Hqlen & Hqperm & _).
  set (A := map (zget (nEntropy e)) queue1).
  assert (HlenA : Z.of_nat (length A) = n) by (unfold A; rewrite length_map; lia).
  destruct (mk_code_lengths_spec n (n - 1) A Hn ltac:(lia) HlenA)
    as (A' & HA' & HlenA' & Hrange & _).
  rewrite HA'.
  assert (Hnd1 : NoDup queue1).
  { rewrite Hqperm. apply used_symbols_NoDup. }
  assert (Hin1 : forall s, In s queue1 <-> In s queue).
  { intros s. rewrite <- !list_elem_of_In. rewrite Hqperm. reflexivity. }
  pose proof (store_code_lengths_spec queue1 A' (repeat 0 (Z.to_nat MAX_SYMBOLS))
                Hnd1 ltac:(lia)) as Hst.
  cbn zeta in Hst.
  set (len := store_code_lengths queue1 A' (repeat 0 (Z.to_nat MAX_SYMBOLS))) in *.
  destruct Hst as (S1 & S2 & S3).
  { intros s Hs. apply Hin1, used_symbols_In in Hs. rewrite repeat_length. lia. }
  exists len. split; [reflexivity|].
  split; [rewrite S1; apply repeat_length|]. split; [|split].
  - intros s Hs. apply Hin1, In_zget in Hs as (i & Hi & <-).
    rewrite S2 by lia. apply Hrange. lia.
  - intros s Hs. rewrite S3 by (rewrite Hin1; exact Hs). apply zget_repeat0.
  - intros M HM.
    destruct (mk_code_lengths_spec n M A Hn HM HlenA) as (A'' & HA'' & _ & _ & HK).
    rewrite HA' in HA''. injection HA'' as <-.
    rewrite (lsum_Permutation _ queue queue1) by (symmetry; exact Hqperm).
    rewrite lsum_rsum, <- HK.
    replace (length queue1) with (Z.to_nat n) by lia.
    apply rsum_ext. intros i Hi. cbv beta. rewrite S2 by lia. reflexivity.
Qed.

(** *** Powers of two and 32-bit range *)

Lemma int32_id (x : Z) : - 2 ^ 31 <= x < 2 ^ 31 -> int32 x = x.
Proof. intros Hx. unfold int32. rewrite Z.mod_small by lia. lia. Qed.

Lemma pow2_pos (x : Z) : 0 <= x -> 0 < 2 ^ x.
Proof. intros Hx. apply Z.pow_pos_nonneg; lia. Qed.

Lemma pow2_nonneg (x : Z) : 0 <= 2 ^ x.
Proof. apply Z.pow_nonneg. lia. Qed.

Lemma pow2_split (a b : Z) : 0 <= a <= b -> 2 ^ b = 2 ^ (b - a) * 2 ^ a.
Proof. intros H. rewrite <- Z.pow_add_r by lia. f_equal. lia. Qed.

Lemma pow2_mono (a b : Z) : 0 <= a <= b -> 2 ^ a <= 2 ^ b.
Proof. intros H. apply Z.pow_le_mono_r; lia. Qed.

Lemma pow2_double (a : Z) : 0 <= a -> 2 ^ (a + 1) = 2 * 2 ^ a.
Proof. intros H. rewrite Z.pow_add_r by lia. change (2 ^ 1) with 2. lia. Qed.

Lemma shiftr_pow2 (L c : Z) : 0 <= c <= L -> Z.shiftr (2 ^ L) c = 2 ^ (L - c).
Proof.
  intros H. rewrite Z.shiftr_div_pow2 by lia.
  rewrite (pow2_split c L) by lia. apply Z.div_mul. pose proof (pow2_pos c). lia.
Qed.

Lemma pow2_30 (L : Z) : 0 <= L <= 30 -> 2 ^ L <= 2 ^ 30.
Proof. intros H. apply pow2_mono. lia. Qed.

(** *** More on sums over index ranges *)

Lemma rsum_linear (f : Z -> Z) (a b : Z) (cnt : nat) :
  forall lo, rsum (fun i => a * f i + b) lo cnt = a * rsum f lo cnt + Z.of_nat cnt * b.
Proof.
  induction cnt as [|cnt IH]; intros lo; [cbn; lia|].
  cbn [rsum]. rewrite IH. lia.
Qed.

Lemma rsum_update (f f' : Z -> Z) (j : Z) (cnt : nat) :
  forall lo, lo <= j < lo + Z.of_nat cnt ->
    (forall i, lo <= i < lo + Z.of_nat cnt -> i <> j -> f' i = f i) ->
    rsum f' lo cnt = rsum f lo cnt - f j + f' j.
Proof.
  induction cnt as [|cnt IH]; intros lo Hj Hext; [lia|].
  cbn [rsum]. destruct (Z.eq_dec j lo) as [->|Hne].
  - rewrite (rsum_ext f' f) by (intros i Hi; apply Hext; lia). lia.
  - rewrite (Hext lo) by lia. rewrite IH by (try lia; intros i Hi Hij; apply Hext; lia).
    lia.
Qed.

Lemma rsum_snoc (f : Z -> Z) (cnt : nat) (lo : Z) :
  rsum f lo (S cnt) = rsum f lo cnt + f (lo + Z.of_nat cnt).
Proof.
  replace (S cnt) with (cnt + 1)%nat by lia. rewrite rsum_app. cbn [rsum]. lia.
Qed.

Lemma rsum_tail_le (f : Z -> Z) (lo : Z) (c1 c2 : nat) :
  (forall i, lo <= i < lo + Z.of_nat c1 -> 0 <= f i) ->
  rsum f (lo + Z.of_nat c1) c2 <= rsum f lo (c1 + c2).
Proof.
  intros H. rewrite rsum_app. pose proof (rsum_nonneg f c1 lo H). lia.
Qed.

(** *** The length limiter *)

Section LimiterProofs.

(** [queue] holds the used symbols sorted by their length in [len0], the
    lengths of a full tree (Kraft number one at scale [M]) of which the
    longest exceeds [L]; there are at most [2^L] of them. *)
Variables (queue len0 : list Z) (L M : Z).
Local Abbreviation m := (Z.of_nat (length queue)).
Local Abbreviation q i := (zget queue i).
Local Abbreviation l0 i := (zget len0 (zget queue i)).
Local Abbreviation c0 i := (Z.min (zget len0 (zget queue i)) L).

Hypothesis HL : 1 <= L <= 30.
Hypothesis Hm2 : 2 <= m.
Hypothesis HmL : m <= 2 ^ L.
Hypothesis Hm288 : m <= MAX_SYMBOLS.
Hypothesis Hnd : NoDup queue.
Hypothesis Hin : forall s, In s queue -> 0 <= s < Z.of_nat (length len0).
Hypothesis Hlen0 : forall i, 0 <= i < m -> 1 <= l0 i <= M.
Hypothesis Hsorted : sorted_range len0 queue 0 (m - 1).
Hypothesis Hkraft : queue_kraft M queue len0 = 2 ^ M.
Hypothesis Hover : L < l0 (m - 1).

Lemma queue_kraft_rsum (K : Z) (len : list Z) :
  queue_kraft K queue len
  = rsum (fun i => 2 ^ (K - zget len (q i))) 0 (length queue).
Proof. unfold queue_kraft. apply (lsum_rsum (fun s => 2 ^ (K - zget len s))). Qed.

Lemma q_range (i : Z) : 0 <= i < m -> 0 <= q i < Z.of_nat (length len0).
Proof. intros Hi. apply Hin, zget_In, Hi. Qed.

Lemma q_inj (i j : Z) : 0 <= i < m -> 0 <= j < m -> q i = q j -> i = j.
Proof. intros Hi Hj. apply NoDup_zget_inj; assumption. Qed.

Lemma queue_kraft_update (K : Z) (len : list Z) (j v : Z) :
  0 <= j < m -> length len = length len0 ->
  queue_kraft K queue (zset len (q j) v)
  = queue_kraft K queue len - 2 ^ (K - zget len (q j)) + 2 ^ (K - v).
Proof.
  intros Hj Hlen. rewrite !queue_kraft_rsum.
  pose proof (q_range j Hj) as Hqj.
  rewrite (rsum_update (fun i => 2 ^ (K - zget len (q i)))
             (fun i => 2 ^ (K - zget (zset len (q j) v) (q i))) j).
  - cbv beta. rewrite zget_zset_eq by lia. reflexivity.
  - lia.
  - intros i Hi Hij. cbv beta. rewrite zget_zset_ne; [reflexivity|].
    intros Heq. apply Hij. symmetry. apply q_inj; [lia|lia|exact Heq].
Qed.

Lemma limit_scale : L + 1 <= M.
Proof. pose proof (Hlen0 (m - 1) ltac:(lia)) as Hl0_1. lia. Qed.

Lemma clamp_scaled_ge (i : Z) :
  0 <= i < m -> 2 ^ (M - l0 i) <= 2 ^ (M - L) * 2 ^ (L - c0 i).
Proof.
  intros Hi. pose proof (Hlen0 i Hi) as Hl0_2. pose proof limit_scale.
  rewrite <- Z.pow_add_r by lia. apply pow2_mono. lia.
Qed.

Lemma clamp_scaled_le (i : Z) :
  0 <= i < m -> 2 ^ (M - L) * 2 ^ (L - c0 i) + - 2 ^ (M - L) <= 2 ^ (M - l0 i).
Proof.
  intros Hi. pose proof (Hlen0 i Hi) as Hl0_3. pose proof limit_scale.
  rewrite <- Z.pow_add_r by lia.
  pose proof (pow2_nonneg (M - L)). pose proof (pow2_nonneg (M - l0 i)).
  destruct (Z_le_gt_dec (l0 i) L) as [Hle|Hgt].
  - rewrite Z.min_l by lia. replace (M - L + (L - l0 i)) with (M - l0 i) by lia. lia.
  - rewrite Z.min_r by lia. replace (M - L + (L - L)) with (M - L) by lia. lia.
Qed.

Lemma clamp_scaled_last :
  2 ^ (M - l0 (m - 1)) + 1 <= 2 ^ (M - L) * 2 ^ (L - c0 (m - 1)).
Proof.
  pose proof (Hlen0 (m - 1) ltac:(lia)) as Hl0_4. 
  rewrite Z.min_r by lia. replace (L - L) with 0 by lia.
  change (2 ^ 0) with 1. rewrite Z.mul_1_r.
  replace (M - L) with (M - L - 1 + 1) by lia. rewrite pow2_double by lia.
  pose proof (pow2_pos (M - L - 1) ltac:(lia)).
  pose proof (pow2_mono (M - l0 (m - 1)) (M - L - 1) ltac:(lia)). lia.
Qed.

(** Clamping every length to [L] overshoots the Kraft number, by less
    than the number of symbols. *)
Lemma clamp_total_bounds :
  2 ^ L < rsum (fun i => 2 ^ (L - c0 i)) 0 (length queue) <= 2 ^ L + m.
Proof.
  pose proof limit_scale as HML.
  pose proof Hkraft as HK. rewrite queue_kraft_rsum in HK.
  set (k0 := rsum (fun i => 2 ^ (L - c0 i)) 0 (length queue)).
  pose proof (pow2_pos (M - L) ltac:(lia)) as Hpos.
  pose proof (pow2_split L M ltac:(lia)) as Hsplit.
  split.
  - assert (H1 : 2 ^ M + 1 <= 2 ^ (M - L) * k0).
    { unfold k0.
      pose proof (rsum_linear (fun i => 2 ^ (L - c0 i)) (2 ^ (M - L)) 0 (length queue) 0)
        as Hlin.
      rewrite Z.mul_0_r, Z.add_0_r in Hlin. rewrite <- Hlin, <- HK.
      replace (length queue) with (S (Z.to_nat (m - 1))) by lia.
      rewrite !rsum_snoc. rewrite Z2Nat.id by lia. rewrite !Z.add_0_l.
      pose proof clamp_scaled_last as Hlast.
      pose proof (rsum_le (fun i => 2 ^ (M - l0 i))
                    (fun i => 2 ^ (M - L) * 2 ^ (L - c0 i) + 0) (Z.to_nat (m - 1)) 0) as Hle.
      cbv beta in Hle.
      specialize (Hle ltac:(intros j Hj; rewrite Z.add_0_r; apply clamp_scaled_ge; lia)).
      lia. }
    destruct (Z_lt_ge_dec (2 ^ L) k0) as [|Hge]; [assumption|exfalso].
    assert (2 ^ (M - L) * k0 <= 2 ^ (M - L) * 2 ^ L)
      by (apply Z.mul_le_mono_nonneg_l; lia).
    lia.
  - assert (H1 : 2 ^ (M - L) * k0 + m * - 2 ^ (M - L) <= 2 ^ M).
    { unfold k0. rewrite <- rsum_linear, <- HK. apply rsum_le.
      intros j Hj. cbv beta. apply clamp_scaled_le. lia. }
    destruct (Z_le_gt_dec k0 (2 ^ L + m)) as [|Hgt]; [assumption|exfalso].
    assert (2 ^ (M - L) * (2 ^ L + m + 1) <= 2 ^ (M - L) * k0)
      by (apply Z.mul_le_mono_nonneg_l; lia).
    lia.
Qed.

(** The symbols up to a position [j] that is not the last and whose length
    is below [L] leave at least one slot of that length free. *)
Lemma prefix_bound (j : Z) :
  0 <= j < m - 1 -> l0 j < L ->
  rsum (fun i => 2 ^ (L - l0 i)) 0 (Z.to_nat (j + 1)) <= 2 ^ L - 2 ^ (L - l0 j).
Proof.
  intros Hj Hlt. pose proof limit_scale as HML.
  pose proof (Hlen0 j ltac:(lia)) as Hlj.
  set (c := l0 j) in *.
  assert (Hsort : forall i, 0 <= i <= j -> 1 <= l0 i <= c).
  { intros i Hi. pose proof (Hlen0 i ltac:(lia)) as Hl0_5.
    pose proof (Hsorted i j ltac:(lia) ltac:(lia) ltac:(lia)). unfold c. lia. }
  set (T := rsum (fun i => 2 ^ (c - l0 i)) 0 (Z.to_nat (j + 1))).
  assert (HT : 2 ^ (M - c) * T + 1 <= 2 ^ M).
  { pose proof Hkraft as HK. rewrite queue_kraft_rsum in HK. rewrite <- HK.
    replace (length queue)
      with (Z.to_nat (j + 1) + S (Z.to_nat (m - 1 - (j + 1))))%nat by lia.
    rewrite rsum_app, rsum_snoc.
    replace (0 + Z.of_nat (Z.to_nat (j + 1)) + Z.of_nat (Z.to_nat (m - 1 - (j + 1))))
      with (m - 1) by lia.
    pose proof (rsum_nonneg (fun i => 2 ^ (M - l0 i)) (Z.to_nat (m - 1 - (j + 1)))
                  (0 + Z.of_nat (Z.to_nat (j + 1)))
                  ltac:(intros; apply pow2_nonneg)) as Hnn.
    pose proof (Hlen0 (m - 1) ltac:(lia)) as Hl0_6.
    pose proof (pow2_pos (M - l0 (m - 1)) ltac:(lia)) as Hlast.
    enough (2 ^ (M - c) * T = rsum (fun i => 2 ^ (M - l0 i)) 0 (Z.to_nat (j + 1))) by lia.
    unfold T.
    pose proof (rsum_linear (fun i => 2 ^ (c - l0 i)) (2 ^ (M - c)) 0 (Z.to_nat (j + 1)) 0)
      as Hlin.
    rewrite Z.mul_0_r, Z.add_0_r in Hlin. rewrite <- Hlin.
    apply rsum_ext. intros i Hi. cbv beta. specialize (Hsort i ltac:(lia)).
    rewrite Z.add_0_r, <- Z.pow_add_r by lia. f_equal. lia. }
  assert (HT2 : T <= 2 ^ c - 1).
  { destruct (Z_le_gt_dec T (2 ^ c - 1)) as [|Hgt]; [assumption|exfalso].
    pose proof (pow2_pos (M - c) ltac:(lia)).
    assert (2 ^ (M - c) * 2 ^ c <= 2 ^ (M - c) * T)
      by (apply Z.mul_le_mono_nonneg_l; lia).
    rewrite <- (pow2_split c M) in * by lia. lia. }
  assert (HS : rsum (fun i => 2 ^ (L - l0 i)) 0 (Z.to_nat (j + 1)) = 2 ^ (L - c) * T).
  { unfold T.
    pose proof (rsum_linear (fun i => 2 ^ (c - l0 i)) (2 ^ (L - c)) 0 (Z.to_nat (j + 1)) 0)
      as Hlin.
    rewrite Z.mul_0_r, Z.add_0_r in Hlin. rewrite <- Hlin.
    apply rsum_ext. intros i Hi. cbv beta. specialize (Hsort i ltac:(lia)).
    rewrite Z.add_0_r, <- Z.pow_add_r by lia. f_equal. lia. }
  rewrite HS. pose proof (pow2_pos (L - c) ltac:(lia)).
  assert (2 ^ (L - c) * T <= 2 ^ (L - c) * (2 ^ c - 1))
    by (apply Z.mul_le_mono_nonneg_l; lia).
  rewrite Z.mul_sub_distr_l, <- (pow2_split c L) in * by lia. lia.
Qed.

Lemma queue_kraft_nonneg (K : Z) (len : list Z) : 0 <= queue_kraft K queue len.
Proof. rewrite queue_kraft_rsum. apply rsum_nonneg. intros. apply pow2_nonneg. Qed.

Lemma queue_kraft_lower (len : list Z) (i : Z) :
  0 <= i < m ->
  (forall i', 0 <= i' < m -> 1 <= zget len (q i') <= L) ->
  2 ^ (L - zget len (q i)) + (m - 1) <= queue_kraft L queue len.
Proof.
  intros Hi Hall. rewrite queue_kraft_rsum.
  set (f' := fun i' : Z => if i' =? i then 2 ^ (L - zget len (q i)) else 1).
  pose proof (rsum_update (fun _ => 1) f' i (length queue) 0 ltac:(lia)) as Hup.
  rewrite (rsum_const (fun _ => 1) 1) in Hup by reflexivity.
  assert (Hfi : f' i = 2 ^ (L - zget len (q i))) by (unfold f'; rewrite Z.eqb_refl; reflexivity).
  transitivity (rsum f' 0 (length queue)).
  - rewrite Hup; [lia|]. intros i' Hi' Hne. unfold f'.
    destruct (i' =? i) eqn:E; zbool; [lia|reflexivity].
  - apply rsum_le. intros i' Hi'. unfold f'.
    destruct (i' =? i) eqn:E; zbool; [subst; lia|].
    specialize (Hall i' ltac:(lia)).
    pose proof (pow2_pos (L - zget len (q i')) ltac:(lia)). lia.
Qed.

Lemma limit_clamp_spec (cnt : nat) :
  forall len k,
    Z.of_nat cnt <= m -> length len = length len0 ->
    (forall i, 0 <= i < Z.of_nat cnt -> zget len (q i) = l0 i) ->
    (forall i, Z.of_nat cnt <= i < m -> zget len (q i) = c0 i) ->
    (forall s, ~ In s queue -> zget len s = zget len0 s) ->
    k = rsum (fun i => 2 ^ (L - c0 i)) (Z.of_nat cnt) (Z.to_nat (m - Z.of_nat cnt)) ->
    let r := limit_clamp cnt queue len L (2 ^ L) k in
    length r.1 = length len0
    /\ (forall i, 0 <= i < m -> zget r.1 (q i) = c0 i)
    /\ (forall s, ~ In s queue -> zget r.1 s = zget len0 s)
    /\ r.2 = rsum (fun i => 2 ^ (L - c0 i)) 0 (length queue).
Proof.
  induction cnt as [|i IH]; intros len k Hcnt Hlen Hlo Hhi Hout Hk.
  - cbn [limit_clamp fst snd]. split; [exact Hlen|]. split; [|split; [exact Hout|]].
    + intros i Hi. apply Hhi. lia.
    + rewrite Hk. f_equal. lia.
  - cbn [limit_clamp].
    set (n := q (Z.of_nat i)).
    pose proof (q_range (Z.of_nat i) ltac:(lia)) as Hn. fold n in Hn.
    pose proof (Hlen0 (Z.of_nat i) ltac:(lia)) as Hli.
    set (len1 := if zget len n >? L then zset len n L else len).
    assert (Hlen1 : length len1 = length len0).
    { unfold len1. destruct (zget len n >? L); [rewrite zset_length|]; exact Hlen. }
    assert (Hn1 : zget len1 n = c0 (Z.of_nat i)).
    { unfold len1. pose proof (Hlo (Z.of_nat i) ltac:(lia)) as Hl. fold n in Hl.
      destruct (zget len n >? L) eqn:E; zbool.
      - rewrite zget_zset_eq by lia. fold n. lia.
      - fold n. lia. }
    assert (Hother : forall s, s <> n -> zget len1 s = zget len s).
    { intros s Hs. unfold len1. destruct (zget len n >? L); [|reflexivity].
      apply zget_zset_ne. auto. }
    rewrite Hn1.
    pose proof clamp_total_bounds as [_ Htot].
    pose proof (pow2_30 L ltac:(lia)) as H30. change (2 ^ 30) with 1073741824 in H30.
    unfold MAX_SYMBOLS in Hm288.
    assert (Hk1 : k + 2 ^ (L - c0 (Z.of_nat i))
                  = rsum (fun i => 2 ^ (L - c0 i)) (Z.of_nat i)
                      (Z.to_nat (m - Z.of_nat i))).
    { replace (Z.to_nat (m - Z.of_nat i)) with (S (Z.to_nat (m - Z.of_nat (S i)))) by lia.
      cbn [rsum]. rewrite Hk. replace (Z.of_nat i + 1) with (Z.of_nat (S i)) by lia. lia. }
    rewrite shiftr_pow2 by lia.
    rewrite int32_id.
    2:{ rewrite Hk1.
        pose proof (rsum_nonneg (fun i => 2 ^ (L - c0 i)) (Z.to_nat (m - Z.of_nat i))
                      (Z.of_nat i) ltac:(intros; apply pow2_nonneg)).
        pose proof (rsum_tail_le (fun i => 2 ^ (L - c0 i)) 0 i (Z.to_nat (m - Z.of_nat i))
                      ltac:(intros; apply pow2_nonneg)) as Hle.
        replace (i + Z.to_nat (m - Z.of_nat i))%nat with (length queue) in Hle by lia.
        rewrite Z.add_0_l in Hle. change (2 ^ 31) with 2147483648. lia. }
    apply IH; [lia|exact Hlen1| | | |exact Hk1].
    + intros i' Hi'. rewrite Hother; [apply Hlo; lia|].
      intros Heq. apply q_inj in Heq; lia.
    + intros i' Hi'. destruct (Z.eq_dec i' (Z.of_nat i)) as [->|Hne]; [exact Hn1|].
      rewrite Hother; [apply Hhi; lia|].
      intros Heq. apply q_inj in Heq; lia.
    + intros s Hs. rewrite Hother; [apply Hout, Hs|].
      intros ->. apply Hs. apply zget_In. lia.
Qed.

Lemma limit_lengthen_spec (j : Z) (fuel : nat) :
  forall len k,
    0 <= j < m -> length len = length len0 ->
    1 <= zget len (q j) <= L -> L - zget len (q j) <= Z.of_nat fuel ->
    k = queue_kraft L queue len -> k <= 2 ^ L + m ->
    let r := limit_lengthen fuel len (q j) L (2 ^ L) k in
    length r.1 = length len0
    /\ zget len (q j) <= zget r.1 (q j) <= L
    /\ (forall s, s <> q j -> zget r.1 s = zget len s)
    /\ r.2 = queue_kraft L queue r.1
    /\ r.2 = k - 2 ^ (L - zget len (q j)) + 2 ^ (L - zget r.1 (q j))
    /\ (zget r.1 (q j) = L \/ r.2 <= 2 ^ L)
    /\ (zget len (q j) < zget r.1 (q j) -> 2 ^ L < r.2 + 2 ^ (L - zget r.1 (q j))).
Proof.
  induction fuel as [|fuel IH]; intros len k Hj Hlen Hc Hfuel Hk Hkb.
  - cbn [limit_lengthen fst snd].
    split; [exact Hlen|]. split; [lia|]. split; [reflexivity|]. split; [exact Hk|].
    split; [lia|]. split; [left; lia|lia].
  - cbn [limit_lengthen]. set (n := q j) in *. set (c := zget len n) in *.
    pose proof (q_range j Hj) as Hn. fold n in Hn.
    destruct ((c <? L) && (k >? 2 ^ L)) eqn:Hg.
    + apply andb_true_iff in Hg as [Hg1 Hg2]. zbool.
      set (len1 := zset len n (c + 1)).
      assert (Hc1 : zget len1 n = c + 1) by (unfold len1; apply zget_zset_eq; lia).
      rewrite Hc1, shiftr_pow2 by lia.
      assert (Hpow : 2 ^ (L - c) = 2 * 2 ^ (L - (c + 1))).
      { rewrite <- pow2_double by lia. f_equal. lia. }
      assert (Hk1 : k - 2 ^ (L - (c + 1)) = queue_kraft L queue len1).
      { unfold len1, n. rewrite queue_kraft_update by assumption. fold n. fold c. lia. }
      pose proof (queue_kraft_nonneg L len1) as Hnn.
      pose proof (pow2_nonneg (L - (c + 1))) as Hp.
      pose proof (pow2_30 L ltac:(lia)) as H30. change (2 ^ 30) with 1073741824 in H30.
      unfold MAX_SYMBOLS in Hm288.
      rewrite int32_id by (change (2 ^ 31) with 2147483648; lia).
      pose proof (IH len1 (k - 2 ^ (L - (c + 1))) Hj) as HI.
      cbn zeta in HI. fold n in HI. rewrite Hc1 in HI.
      set (r := limit_lengthen fuel len1 n L (2 ^ L) (k - 2 ^ (L - (c + 1)))) in *.
      destruct HI as (I1 & I2 & I3 & I4 & I5 & I6 & I7);
        [unfold len1; rewrite zset_length; exact Hlen|lia|lia|exact Hk1|lia|].
      set (c' := zget r.1 n) in *.
      cbn zeta. split; [exact I1|]. split; [lia|]. split.
      { intros s Hs. rewrite I3 by exact Hs. unfold len1. apply zget_zset_ne. auto. }
      split; [exact I4|]. split; [lia|]. split; [exact I6|].
      intros _.
      destruct (Z.eq_dec c' (c + 1)) as [He|Hne]; [rewrite He in *; lia|].
      apply I7. lia.
    + cbn [fst snd]. fold c.
      split; [exact Hlen|]. split; [lia|]. split; [reflexivity|]. split; [exact Hk|].
      split; [lia|]. split; [|lia].
      apply andb_false_iff in Hg as [Hg|Hg]; zbool; [left|right]; lia.
Qed.

Lemma limit_propagate_done (cnt : nat) (len : list Z) (k : Z) :
  k <= 2 ^ L -> limit_propagate cnt queue len L (2 ^ L) k = (len, k).
Proof.
  intros Hk. destruct cnt; [reflexivity|]. cbn [limit_propagate].
  destruct (k >? 2 ^ L) eqn:E; zbool; [lia|reflexivity].
Qed.

Lemma limit_propagate_spec (cnt : nat) :
  forall len k,
    Z.of_nat cnt <= m -> limit_state queue len0 L (Z.of_nat cnt) len k ->
    2 ^ L < k -> k <= 2 ^ L + m ->
    let r := limit_propagate cnt queue len L (2 ^ L) k in
    limit_stopped queue len0 L r.1 r.2.
Proof.
  induction cnt as [|i IH]; intros len k Hcnt (Hlen & Hlo & Hhi & Hout & Hk) Hover' Hkb.
  - exfalso. rewrite Hk, queue_kraft_rsum in Hover'.
    rewrite (rsum_const _ 1) in Hover'; [lia|].
    intros j Hj. cbv beta. rewrite Hhi by lia. replace (L - L) with 0 by lia. reflexivity.
  - cbn [limit_propagate]. destruct (k >? 2 ^ L) eqn:E; zbool; [|lia]. clear E.
    remember (Z.of_nat i) as j eqn:Ej.
    assert (Hj : 0 <= j < m) by lia.
    pose proof (Hlen0 j Hj) as Hlj.
    pose proof (Hlo j ltac:(lia)) as Hcj.
    pose proof (limit_lengthen_spec j (Z.to_nat (L - zget len (q j))) len k
                  Hj Hlen ltac:(lia) ltac:(lia) Hk Hkb) as Hsp.
    cbn zeta in Hsp.
    destruct (limit_lengthen (Z.to_nat (L - zget len (q j))) len (q j) L (2 ^ L) k)
      as [len' k'].
    cbn [fst snd] in Hsp. destruct Hsp as (S1 & S2 & S3 & S4 & S5 & S6 & S7).
    set (c' := zget len' (q j)) in *.
    assert (Hfr : forall i', 0 <= i' < m -> i' <> j -> zget len' (q i') = zget len (q i')).
    { intros i' Hi' Hne. apply S3. intros Heq. apply q_inj in Heq; lia. }
    assert (Hk'le : k' <= k).
    { rewrite S5. pose proof (pow2_mono (L - c') (L - zget len (q j)) ltac:(lia)). lia. }
    destruct (Z_lt_ge_dec (2 ^ L) k') as [Hgt|Hle].
    + apply IH; [lia| |exact Hgt|lia].
      destruct S6 as [S6|S6]; [|lia].
      split; [exact S1|]. split; [|split; [|split; [|exact S4]]].
      * intros i' Hi'. rewrite Hfr by lia. apply Hlo. lia.
      * intros i' Hi'. destruct (Z.eq_dec i' j) as [->|Hne]; [exact S6|].
        rewrite Hfr by lia. apply Hhi. lia.
      * intros s Hs. rewrite S3; [apply Hout, Hs|].
        intros ->. apply Hs, zget_In. lia.
    + rewrite limit_propagate_done by lia. cbn [fst snd].
      assert (Hclt : zget len (q j) < c').
      { destruct (Z.eq_dec (zget len (q j)) c') as [He|]; [|lia].
        rewrite He in S5. lia. }
      assert (Hljlt : l0 j < L) by lia.
      assert (Hjm : j < m - 1).
      { destruct (Z.eq_dec j (m - 1)) as [He|]; [|lia]. rewrite He in Hljlt. lia. }
      assert (Hsort : forall i', 0 <= i' <= j -> 1 <= l0 i' <= l0 j).
      { intros i' Hi'. pose proof (Hlen0 i' ltac:(lia)).
        pose proof (Hsorted i' j ltac:(lia) ltac:(lia) ltac:(lia)). lia. }
      exists j, c'.
      split; [lia|]. split; [lia|]. split; [exact S1|]. split; [|split; [|split]].
      * intros i' Hi'. destruct (Z.eq_dec i' j) as [->|Hne]; [fold c'; lia|].
        rewrite Hfr by lia. rewrite Hlo by lia. specialize (Hsort i' ltac:(lia)). lia.
      * intros i' Hi'. rewrite Hfr by lia. apply Hhi. lia.
      * intros s Hs. rewrite S3; [apply Hout, Hs|].
        intros ->. apply Hs, zget_In. lia.
      * split; [exact S4|]. split; [lia|].
        specialize (S7 Hclt). split; [lia|].
        assert (Hkpre : k = rsum (fun i => 2 ^ (L - l0 i)) 0 (Z.to_nat (j + 1))
                            + (m - 1 - j)).
        { rewrite Hk, queue_kraft_rsum.
          replace (length queue) with (Z.to_nat (j + 1) + Z.to_nat (m - 1 - j))%nat by lia.
          rewrite rsum_app. f_equal.
          - apply rsum_ext. intros i' Hi'. cbv beta. rewrite Hlo by lia.
            specialize (Hsort i' ltac:(lia)). f_equal. lia.
          - rewrite (rsum_const _ 1); [lia|].
            intros i' Hi'. cbv beta. rewrite Hhi by lia.
            replace (L - L) with 0 by lia. reflexivity. }
        pose proof (prefix_bound j ltac:(lia) Hljlt) as Hpre.
        assert (Hpow : 2 * 2 ^ (L - c') <= 2 ^ (L - l0 j)).
        { rewrite <- pow2_double by lia. apply pow2_mono. lia. }
        lia.
Qed.

Lemma limit_shorten_spec (i : Z) (fuel : nat) :
  forall len k,
    0 <= i < m -> length len = length len0 ->
    (forall i', 0 <= i' < m -> 1 <= zget len (q i') <= L) ->
    zget len (q i) <= Z.of_nat fuel ->
    k = queue_kraft L queue len -> k <= 2 ^ L ->
    exists len' k',
      limit_shorten fuel len (q i) (2 ^ L) k = Some (len', k')
      /\ length len' = length len0
      /\ (forall i', 0 <= i' < m -> 1 <= zget len' (q i') <= L)
      /\ (forall s, s <> q i -> zget len' s = zget len s)
      /\ k' = queue_kraft L queue len'
      /\ k <= k' <= 2 ^ L
      /\ (k + 2 ^ (L - zget len (q i)) <= 2 ^ L -> k < k').
Proof.
  induction fuel as [|fuel IH]; intros len k Hi Hlen Hall Hfuel Hk Hkb.
  - pose proof (Hall i Hi). lia.
  - cbn [limit_shorten].
    pose proof (Hall i Hi) as Hc. pose proof (q_range i Hi) as Hn.
    rewrite shiftr_pow2 by lia.
    pose proof (pow2_30 L ltac:(lia)) as H30. change (2 ^ 30) with 1073741824 in H30.
    pose proof (pow2_mono (L - zget len (q i)) (L - 1) ltac:(lia)) as Hp1.
    pose proof (pow2_double (L - 1) ltac:(lia)) as Hp3.
    replace (L - 1 + 1) with L in Hp3 by lia.
    pose proof (pow2_pos (L - zget len (q i)) ltac:(lia)) as Hp2.
    pose proof (queue_kraft_nonneg L len) as Hnn.
    rewrite int32_id by (change (2 ^ 31) with 2147483648; lia).
    destruct (k + 2 ^ (L - zget len (q i)) <=? 2 ^ L) eqn:Hg; zbool.
    + pose proof (queue_kraft_lower len i Hi Hall) as Hlow.
      assert (Hc2 : 2 <= zget len (q i)).
      { destruct (Z.eq_dec (zget len (q i)) 1) as [He|]; [|lia].
        rewrite He in *. pose proof (pow2_double (L - 1) ltac:(lia)) as Hd.
        replace (L - 1 + 1) with L in Hd by lia. lia. }
      set (len1 := zset len (q i) (zget len (q i) - 1)).
      assert (Hk1 : k + 2 ^ (L - zget len (q i)) = queue_kraft L queue len1).
      { unfold len1. rewrite queue_kraft_update by assumption.
        pose proof (pow2_double (L - zget len (q i)) ltac:(lia)) as Hd.
        replace (L - zget len (q i) + 1) with (L - (zget len (q i) - 1)) in Hd by lia.
        lia. }
      assert (Hc1 : zget len1 (q i) = zget len (q i) - 1)
        by (unfold len1; apply zget_zset_eq; lia).
      destruct (IH len1 (k + 2 ^ (L - zget len (q i)))) as (len' & k' & R1 & R2 & R3 & R4 & R5 & R6 & R7);
        [exact Hi|unfold len1; rewrite zset_length; exact Hlen| |lia|exact Hk1|lia|].
      { intros i' Hi'. destruct (Z.eq_dec i' i) as [->|Hne]; [lia|].
        unfold len1. rewrite zget_zset_ne; [apply Hall, Hi'|].
        intros Heq. apply q_inj in Heq; lia. }
      exists len', k'. split; [exact R1|]. split; [exact R2|]. split; [exact R3|].
      split.
      { intros s Hs. rewrite R4 by exact Hs. unfold len1. apply zget_zset_ne. auto. }
      split; [exact R5|]. split; lia.
    + exists len, k. split; [reflexivity|]. split; [exact Hlen|]. split; [exact Hall|].
      split; [reflexivity|]. split; [exact Hk|]. split; lia.
Qed.

(** The symbols up to the one the propagation stopped at are too short to
    take up what is left. *)
Lemma limit_recover_skip (len : list Z) (k j c : Z) (cnt d : nat) :
  forall i,
    0 <= i -> Z.of_nat d = j + 1 - i -> j < m - 1 -> c <= L ->
    (forall i', 0 <= i' <= j -> 1 <= zget len (q i') <= c) ->
    0 < 2 ^ L - k -> 2 ^ L - k < 2 ^ (L - c) -> 0 <= k ->
    limit_recover (cnt + d) i queue len (2 ^ L) k
    = limit_recover cnt (j + 1) queue len (2 ^ L) k.
Proof.
  induction d as [|d IH]; intros i Hi Hd Hj Hc Hlo He1 He2 Hk0.
  - replace (cnt + 0)%nat with cnt by lia. f_equal. lia.
  - replace (cnt + S d)%nat with (S (cnt + d)) by lia. cbn [limit_recover].
    destruct (k <? 2 ^ L) eqn:E; zbool; [|lia].
    destruct (i <? m) eqn:E2; zbool; [|lia].
    pose proof (Hlo i ltac:(lia)) as Hci.
    replace (Z.to_nat (zget len (q i)) + 1)%nat with (S (Z.to_nat (zget len (q i)))) by lia.
    cbn [limit_shorten]. rewrite shiftr_pow2 by lia.
    pose proof (pow2_30 L ltac:(lia)) as H30. change (2 ^ 30) with 1073741824 in H30.
    pose proof (pow2_mono (L - zget len (q i)) (L - 1) ltac:(lia)) as Hp1.
    pose proof (pow2_double (L - 1) ltac:(lia)) as Hp3.
    replace (L - 1 + 1) with L in Hp3 by lia.
    pose proof (pow2_mono (L - c) (L - zget len (q i)) ltac:(lia)) as Hp2.
    rewrite int32_id by (change (2 ^ 31) with 2147483648; lia).
    destruct (k + 2 ^ (L - zget len (q i)) <=? 2 ^ L) eqn:Hg; zbool; [lia|].
    apply IH; try assumption; lia.
Qed.

(** Every symbol at [L] takes up at least one unit of what is left. *)
Lemma limit_recover_absorb (cnt : nat) :
  forall i len k,
    0 <= i <= m -> length len = length len0 ->
    (forall i', 0 <= i' < m -> 1 <= zget len (q i') <= L) ->
    (forall i', i <= i' < m -> zget len (q i') = L) ->
    (forall s, ~ In s queue -> zget len s = zget len0 s) ->
    k = queue_kraft L queue len ->
    0 <= 2 ^ L - k <= m - i -> m - i + 1 <= Z.of_nat cnt ->
    exists len',
      limit_recover cnt i queue len (2 ^ L) k = Some (len', 2 ^ L)
      /\ length len' = length len0
      /\ (forall i', 0 <= i' < m -> 1 <= zget len' (q i') <= L)
      /\ (forall s, ~ In s queue -> zget len' s = zget len0 s)
      /\ queue_kraft L queue len' = 2 ^ L.
Proof.
  induction cnt as [|cnt IH]; intros i len k Hi Hlen Hall Hhi Hout Hk He Hcnt; [lia|].
  cbn [limit_recover]. destruct (k <? 2 ^ L) eqn:E; zbool.
  - destruct (i <? m) eqn:E2; zbool; [|lia].
    pose proof (Hall i ltac:(lia)) as Hci.
    destruct (limit_shorten_spec i (Z.to_nat (zget len (q i)) + 1) len k)
      as (len' & k' & R1 & R2 & R3 & R4 & R5 & R6 & R7);
      [lia|exact Hlen|exact Hall|lia|exact Hk|lia|].
    rewrite R1.
    assert (Hk' : k < k').
    { apply R7. rewrite Hhi by lia. replace (L - L) with 0 by lia.
      change (2 ^ 0) with 1. lia. }
    apply IH; [lia|exact R2|exact R3| | |exact R5|lia|lia].
    + intros i' Hi'. rewrite R4; [apply Hhi; lia|].
      intros Heq. apply q_inj in Heq; lia.
    + intros s Hs. rewrite R4; [apply Hout, Hs|].
      intros ->. apply Hs, zget_In. lia.
  - assert (k = 2 ^ L) as -> by lia.
    exists len. split; [reflexivity|]. split; [exact Hlen|]. split; [exact Hall|].
    split; [exact Hout|]. symmetry. exact Hk.
Qed.

(** The limiter brings the Kraft number back to exactly [2^L], with every
    queued symbol between 1 and [L] and no other symbol touched. *)
Lemma limit_code_lengths_spec :
  exists len',
    limit_code_lengths queue len0 L = Some (len', 2 ^ L)
    /\ length len' = length len0
    /\ (forall i, 0 <= i < m -> 1 <= zget len' (q i) <= L)
    /\ (forall s, ~ In s queue -> zget len' s = zget len0 s)
    /\ queue_kraft L queue len' = 2 ^ L.
Proof.
  unfold limit_code_lengths.
  rewrite Z.shiftl_1_l.
  pose proof (pow2_30 L ltac:(lia)) as H30. change (2 ^ 30) with 1073741824 in H30.
  pose proof (pow2_pos L ltac:(lia)) as HLpos.
  rewrite int32_id by (change (2 ^ 31) with 2147483648; lia).
  pose proof (limit_clamp_spec (length queue) len0 0 ltac:(lia) eq_refl
                ltac:(reflexivity)) as Hcl.
  cbn zeta in Hcl.
  destruct (limit_clamp (length queue) queue len0 L (2 ^ L) 0) as [lenC k0].
  cbn [fst snd] in Hcl.
  destruct Hcl as (C1 & C2 & C3 & C4);
    [intros; lia|reflexivity|replace (Z.to_nat (m - m)) with O by lia; reflexivity|].
  pose proof clamp_total_bounds as [Hgt Hle]. rewrite <- C4 in Hgt, Hle.
  assert (Hk0 : k0 = queue_kraft L queue lenC).
  { rewrite C4, queue_kraft_rsum. apply rsum_ext. intros i Hi. cbv beta.
    rewrite C2 by lia. reflexivity. }
  pose proof (limit_propagate_spec (length queue) lenC k0 ltac:(lia)) as Hpr.
  cbn zeta in Hpr.
  destruct (limit_propagate (length queue) queue lenC L (2 ^ L) k0) as [lenP k1].
  cbn [fst snd] in Hpr.
  destruct Hpr as (j & c & P1 & P2 & P3 & P4 & P5 & P6 & P7 & P8 & P9 & P10);
    [|exact Hgt|exact Hle|].
  { split; [exact C1|]. split; [intros; apply C2; lia|]. split; [intros; lia|].
    split; [exact C3|exact Hk0]. }
  assert (Hall : forall i', 0 <= i' < m -> 1 <= zget lenP (q i') <= L).
  { intros i' Hi'. destruct (Z_le_gt_dec i' j) as [Hl|Hg].
    - specialize (P4 i' ltac:(lia)). lia.
    - rewrite P5 by lia. lia. }
  destruct (Z.eq_dec k1 (2 ^ L)) as [He|Hne].
  - exists lenP. cbn [limit_recover].
    destruct (k1 <? 2 ^ L) eqn:E; zbool; [lia|].
    rewrite He. split; [reflexivity|]. split; [exact P3|]. split; [exact Hall|].
    split; [exact P6|]. rewrite <- P7. exact He.
  - pose proof (queue_kraft_nonneg L lenP) as Hnn. rewrite <- P7 in Hnn.
    replace (S (length queue))
      with ((S (length queue) - Z.to_nat (j + 1)) + Z.to_nat (j + 1))%nat by lia.
    rewrite (limit_recover_skip lenP k1 j c _ _ 0) by (try assumption; lia).
    apply limit_recover_absorb; try assumption; try lia.
    intros i' Hi'. apply P5. lia.
Qed.

End LimiterProofs.

(** *** zultra_huffman_encoder_build_dynamic_codewords *)

Lemma used_symbols_ext (n : Z) (v v' : list Z) :
  (forall s, 0 <= s < n -> (zget v s = 0 <-> zget v' s = 0)) ->
  used_symbols n v = used_symbols n v'.
Proof.
  intros H. unfold used_symbols. apply List.filter_ext_in.
  intros s Hs. apply in_map_iff in Hs as (k & <- & Hk). apply in_seq in Hk.
  specialize (H (Z.of_nat k) ltac:(lia)).
  destruct (zget v (Z.of_nat k) =? 0) eqn:E1;
    destruct (zget v' (Z.of_nat k) =? 0) eqn:E2; zbool; try reflexivity; tauto.
Qed.

(** A Kraft equality at a scale [M] holds at every scale [L] that still
    holds all the lengths. *)
Lemma queue_kraft_rescale (L M : Z) (queue len : list Z) :
  L <= M -> (forall s, In s queue -> 0 <= zget len s <= L) ->
  queue_kraft M queue len = 2 ^ M -> queue_kraft L queue len = 2 ^ L.
Proof.
  intros HLM Hall HK. unfold queue_kraft in *.
  assert (HL0 : 0 <= L \/ queue = []).
  { destruct queue as [|s queue]; [right; reflexivity|left].
    specialize (Hall s ltac:(left; reflexivity)). lia. }
  destruct HL0 as [HL0| ->].
  2:{ cbn in HK. pose proof (pow2_nonneg M).
      destruct (Z_lt_ge_dec M 0) as [Hneg|Hpos].
      - rewrite Z.pow_neg_r in HK by lia. cbn.
        destruct (Z_lt_ge_dec L 0); [rewrite Z.pow_neg_r by lia; reflexivity|lia].
      - pose proof (pow2_pos M ltac:(lia)). lia. }
  assert (Hscale : lsum (fun s => 2 ^ (M - zget len s)) queue
                   = 2 ^ (M - L) * lsum (fun s => 2 ^ (L - zget len s)) queue).
  { clear HK. induction queue as [|s queue IH]; [cbn; lia|].
    cbn [lsum]. rewrite IH by (intros s' Hs'; apply Hall; right; exact Hs').
    specialize (Hall s ltac:(left; reflexivity)).
    rewrite Z.mul_add_distr_l, <- Z.pow_add_r by lia.
    f_equal. f_equal. lia. }
  rewrite Hscale, (pow2_split L M) in HK by lia.
  pose proof (pow2_pos (M - L) ltac:(lia)).
  apply Z.mul_reg_l in HK; [exact HK|lia].
Qed.

(** With at least two used symbols, no more than [2^L] of them, the build
    succeeds: the used symbols, and only they, get a length between 1 and
    [L], and their Kraft number is exactly [2^L]. *)
Lemma build_dynamic_codewords_spec (e : zultra_huffman_encoder_t) :
  0 <= nSymbols e <= MAX_SYMBOLS -> 1 <= nMaxCodeLength e <= 30 ->
  let queue := used_symbols (nSymbols e) (nEntropy e) in
  2 <= Z.of_nat (length queue) <= 2 ^ nMaxCodeLength e ->
  exists e',
    zultra_huffman_encoder_build_dynamic_codewords e = Built e'
    /\ nSymbols e' = nSymbols e /\ nMaxCodeLength e' = nMaxCodeLength e
    /\ nEntropy e' = nEntropy e
    /\ length (nCodeLength e') = Z.to_nat MAX_SYMBOLS
    /\ (forall s, In s queue -> 1 <= zget (nCodeLength e') s <= nMaxCodeLength e)
    /\ (forall s, ~ In s queue -> zget (nCodeLength e') s = 0)
    /\ queue_kraft (nMaxCodeLength e) queue (nCodeLength e') = 2 ^ nMaxCodeLength e.
Proof.
  intros Hsym HL queue Hn.
  set (L := nMaxCodeLength e) in *. set (n := Z.of_nat (length queue)) in *.
  destruct (estimate_dynamic_codelens_spec e Hsym ltac:(fold queue; lia))
    as (len1 & Hest & Hlen1 & Hused & Hunused & HK).
  fold queue in Hused, Hunused, HK. fold n in Hused, HK.
  unfold zultra_huffman_encoder_build_dynamic_codewords. rewrite Hest.
  cbn [nSymbols nCodeLength nMaxCodeLength nCodeWord set_code_lengths]. fold L.
  assert (Hq1 : used_symbols (nSymbols e) len1 = queue).
  { apply used_symbols_ext. intros s Hs. 
    pose proof (used_symbols_In (nSymbols e) (nEntropy e) s) as Hiff. fold queue in Hiff.
    destruct (Z.eq_dec (zget (nEntropy e) s) 0) as [Hz|Hnz].
    - rewrite Hunused by (rewrite Hiff; tauto). tauto.
    - specialize (Hused s ltac:(apply Hiff; tauto)). split; intros; lia. }
  rewrite Hq1. fold n.
  destruct ((n >? 0) && (L >? 0)) eqn:Hg.
  2:{ apply andb_false_iff in Hg as [Hg|Hg]; zbool; lia. }
  pose proof (zultra_huffman_encoder_qsort_spec len1 (length queue) queue 0 (n - 1)
                ltac:(lia) ltac:(lia) ltac:(lia)) as Hq.
  cbn zeta in Hq.
  set (queue2 := zultra_huffman_encoder_qsort (length queue) len1 queue 0 (n - 1)) in *.
  destruct Hq as (Hq2len & Hq2perm & _ & _ & Hsorted).
  assert (Hin2 : forall s, In s queue2 <-> In s queue).
  { intros s. rewrite <- !list_elem_of_In. rewrite Hq2perm. reflexivity. }
  assert (HKq2 : forall K, queue_kraft K queue2 len1 = queue_kraft K queue len1).
  { intros K. apply lsum_Permutation. exact Hq2perm. }
  pose proof (used_symbols_length (nSymbols e) (nEntropy e) ltac:(lia)) as Hn288.
  fold queue in Hn288. fold n in Hn288.
  destruct (zget len1 (zget queue2 (n - 1)) >? L) eqn:Hmax; zbool.
  - destruct (limit_code_lengths_spec queue2 len1 L (n - 1))
      as (len' & Hlim & Hlen' & Hrange & Hout & HK');
      try rewrite Hq2len; try (fold n); try lia.
    { rewrite Hq2perm. apply used_symbols_NoDup. }
    { intros s Hs. apply Hin2, used_symbols_In in Hs. unfold MAX_SYMBOLS in *. lia. }
    { intros i Hi. apply Hused, Hin2, zget_In. lia. }
    { exact Hsorted. }
    { rewrite HKq2. apply HK. lia. }
    rewrite Hlim. eexists. split; [reflexivity|].
    cbn [nSymbols nMaxCodeLength nEntropy nCodeLength set_code_words set_code_lengths].
    split; [reflexivity|]. split; [reflexivity|]. split; [reflexivity|].
    split; [lia|]. split; [|split].
    + intros s Hs. apply Hin2, In_zget in Hs as (i & Hi & <-). apply Hrange. lia.
    + intros s Hs. rewrite Hout by (rewrite Hin2; exact Hs). apply Hunused, Hs.
    + rewrite <- HK'. symmetry. apply lsum_Permutation. exact Hq2perm.
  - eexists. split; [reflexivity|].
    cbn [nSymbols nMaxCodeLength nEntropy nCodeLength set_code_words set_code_lengths].
    split; [reflexivity|]. split; [reflexivity|]. split; [reflexivity|].
    split; [exact Hlen1|].
    assert (Hle : forall s, In s queue -> 1 <= zget len1 s <= L).
    { intros s Hs. split; [apply Hused, Hs|].
      apply Hin2, In_zget in Hs as (i & Hi & <-).
      pose proof (Hsorted i (n - 1) ltac:(lia) ltac:(lia) ltac:(lia)). lia. }
    split; [exact Hle|]. split; [exact Hunused|].
    apply (queue_kraft_rescale L (Z.max L (n - 1))); [lia| |apply HK; lia].
    intros s Hs. specialize (Hle s Hs). lia.
Qed.

(** The Kraft number of the whole table is that of the used symbols. *)
Lemma kraft_sum_queue (L : Z) (queue len : list Z) :
  NoDup queue ->
  (forall s, In s queue -> 0 <= s < Z.of_nat (length len) /\ zget len s <> 0) ->
  (forall s, ~ In s queue -> zget len s = 0) ->
  kraft_sum L len = queue_kraft L queue len.
Proof.
  intros Hnd Hin Hout.
  rewrite <- (firstn_all len) at 1. 
  change (firstn (length len) len) with (take (length len) len).
  rewrite kraft_sum_used. apply lsum_Permutation.
  apply NoDup_Permutation; [apply used_symbols_NoDup|exact Hnd|].
  intros s. rewrite !list_elem_of_In, used_symbols_In. split.
  - intros [Hs Hnz]. destruct (In_dec Z.eq_dec s queue) as [|Hno]; [assumption|].
    exfalso. apply Hnz, Hout, Hno.
  - intros Hs. apply Hin, Hs.
Qed.

Lemma count_used_app (l l' : list Z) :
  count_used (l ++ l') = count_used l + count_used l'.
Proof. induction l as [|x l IH]; cbn [count_used app]; lia. Qed.

Lemma count_used_symbols (v : list Z) (n : nat) :
  count_used (take n v) = Z.of_nat (length (used_symbols (Z.of_nat n) v)).
Proof.
  induction n as [|n IH]; [reflexivity|].
  unfold used_symbols in *. rewrite Nat2Z.id in *.
  rewrite seq_S, map_app, List.filter_app, length_app, Nat2Z.inj_add, <- IH.
  cbn [map List.filter]. change (0 + n)%nat with n.
  destruct (v !! n) as [x|] eqn:El.
  - rewrite (take_S_r _ _ _ El), count_used_app. f_equal.
    assert (Hx : zget v (Z.of_nat n) = x).
    { unfold zget. destruct (Z.of_nat n <? 0) eqn:E; zbool; [lia|].
      rewrite Nat2Z.id, El. reflexivity. }
    rewrite Hx. cbn [count_used]. destruct (x =? 0); reflexivity.
  - apply lookup_ge_None in El.
    rewrite !take_ge by lia.
    rewrite zget_ge by lia. cbn. lia.
Qed.

Lemma count_used_symbols_Z (v : list Z) (n : Z) :
  0 <= n ->
  count_used (take (Z.to_nat n) v) = Z.of_nat (length (used_symbols n v)).
Proof. intros Hn. rewrite count_used_symbols, Z2Nat.id by lia. reflexivity. Qed.

(** C1: for every frequency vector with at least two used symbols (and no
    more of them than the [2^L] codes of the encoder's maximum length [L]),
    [zultra_huffman_encoder_build_dynamic_codewords] returns code lengths,
    limited to [L], whose Kraft number is exact: the sum of [2^(L - len)]
    over the symbols with a nonzero length is [2^L]. *)
Theorem dynamic_code_lengths_kraft_equality (e : zultra_huffman_encoder_t) :
  0 <= nSymbols e <= MAX_SYMBOLS -> 1 <= nMaxCodeLength e <= 30 ->
  2 <= count_used (take (Z.to_nat (nSymbols e)) (nEntropy e)) <= 2 ^ nMaxCodeLength e ->
  exists e',
    zultra_huffman_encoder_build_dynamic_codewords e = Built e'
    /\ (forall s, 0 <= zget (nCodeLength e') s <= nMaxCodeLength e)
    /\ kraft_sum (nMaxCodeLength e) (nCodeLength e') = 2 ^ nMaxCodeLength e.
Proof.
  intros Hsym HL Hcount.
  rewrite count_used_symbols_Z in Hcount by lia.
  destruct (build_dynamic_codewords_spec e Hsym HL Hcount)
    as (e' & Hb & _ & _ & _ & Hlen & Hused & Hunused & HK).
  exists e'. split; [exact Hb|]. split.
  - intros s.
    destruct (In_dec Z.eq_dec s (used_symbols (nSymbols e) (nEntropy e))) as [Hs|Hs].
    + specialize (Hused s Hs). lia.
    + rewrite (Hunused s Hs). lia.
  - rewrite <- HK. apply kraft_sum_queue; [apply used_symbols_NoDup| |exact Hunused].
    intros s Hs. specialize (Hused s Hs). apply used_symbols_In in Hs.
    unfold MAX_SYMBOLS in *. lia.
Qed.

Lemma dynamic_code_lengths_kraft_equality_witness :
  exists e',
    zultra_huffman_encoder_build_dynamic_codewords fibonacci_tables_encoder = Built e'
    /\ (forall s, 0 <= zget (nCodeLength e') s <= nMaxCodeLength fibonacci_tables_encoder)
    /\ kraft_sum (nMaxCodeLength fibonacci_tables_encoder) (nCodeLength e')
       = 2 ^ nMaxCodeLength fibonacci_tables_encoder.
Proof.
  apply (dynamic_code_lengths_kraft_equality fibonacci_tables_encoder);
    vm_compute; split; discriminate.
Defined.

(** The bound on the number of used symbols is needed: five symbols cannot
    share the four codes of two bits, and the limiter leaves all five at two
    bits. *)
Example crowded_encoder_overflows :
  exists e',
    zultra_huffman_encoder_build_dynamic_codewords crowded_encoder = Built e'
    /\ kraft_sum 2 (nCodeLength e') = 5.
Proof. eexists. split; vm_compute; reflexivity. Qed.

(** *** The distance code of a dynamic header *)

Lemma two_in_length (l : list Z) (s1 s2 : Z) :
  s1 <> s2 -> In s1 l -> In s2 l -> 2 <= Z.of_nat (length l).
Proof.
  intros Hne H1 H2. destruct l as [|a [|b l]]; cbn [length]; try lia.
  - destruct H1.
  - destruct H1 as [<-|[]], H2 as [<-|[]]. congruence.
Qed.

Lemma length_two_in (l : list Z) :
  NoDup l -> 2 <= Z.of_nat (length l) ->
  exists s1 s2, s1 <> s2 /\ In s1 l /\ In s2 l.
Proof.
  intros Hnd Hlen. destruct l as [|a [|b l]]; cbn [length] in Hlen; try lia.
  exists a, b. apply NoDup_cons in Hnd as [Ha _].
  split; [|split; [left; reflexivity|right; left; reflexivity]].
  intros ->. apply Ha. left.
Qed.

Lemma count_offset_lens_spec (entropy : list Z) (cnt : nat) :
  forall i c,
    0 <= c <= 2 ->
    let r := count_offset_lens cnt i entropy c in
    c <= r <= 2
    /\ (c + 1 <= r -> exists s, i <= s < i + Z.of_nat cnt /\ zget entropy s <> 0)
    /\ (c + 2 <= r ->
        exists s1 s2, i <= s1 < s2 /\ s2 < i + Z.of_nat cnt
                      /\ zget entropy s1 <> 0 /\ zget entropy s2 <> 0).
Proof.
  induction cnt as [|cnt IH]; intros i c Hc.
  - cbn. split; [lia|]. split; intros; lia.
  - cbn [count_offset_lens]. destruct (c <? 2) eqn:E; zbool.
    2:{ cbn zeta. split; [lia|]. split; intros; lia. }
    destruct (zget entropy i =? 0) eqn:Ez; zbool.
    + destruct (IH (i + 1) c Hc) as (H1 & H2 & H3). cbn zeta.
      split; [exact H1|]. split.
      * intros Hr. destruct (H2 Hr) as (s & Hs & Hnz). exists s. split; [lia|exact Hnz].
      * intros Hr. destruct (H3 Hr) as (s1 & s2 & Hs1 & Hs2 & Hn1 & Hn2).
        exists s1, s2. split; [lia|]. split; [lia|]. split; assumption.
    + destruct (IH (i + 1) (c + 1) ltac:(lia)) as (H1 & H2 & H3). cbn zeta.
      split; [lia|]. split.
      * intros _. exists i. split; [lia|exact Ez].
      * intros Hr. destruct (H2 ltac:(lia)) as (s & Hs & Hnz).
        exists i, s. split; [lia|]. split; [lia|]. split; assumption.
Qed.

(** After the phantom step at least two distance symbols have a nonzero
    frequency. *)
Lemma add_phantom_offsets_two (off : zultra_huffman_encoder_t) :
  2 <= Z.of_nat (length (nEntropy off)) ->
  2 <= Z.of_nat (length (used_symbols NOFFSETSYMS (nEntropy (add_phantom_offsets off)))).
Proof.
  intros Hlen. unfold add_phantom_offsets.
  pose proof (count_offset_lens_spec (nEntropy off) (Z.to_nat (NOFFSETSYMS - 2)) 0 0
                ltac:(lia)) as Hsp.
  cbn zeta in Hsp.
  set (c := count_offset_lens (Z.to_nat (NOFFSETSYMS - 2)) 0 (nEntropy off) 0) in *.
  destruct Hsp as (Hc & H1 & H2). unfold NOFFSETSYMS in *.
  change (Z.of_nat (Z.to_nat (32 - 2))) with 30 in *.
  destruct (c =? 0) eqn:E0; zbool.
  - cbn [nEntropy set_entropy].
    apply (two_in_length _ 0 1); [lia| |]; apply used_symbols_In;
      (split; [lia|]); zgs; lia.
  - destruct (c =? 1) eqn:E1; zbool.
    + destruct (H1 ltac:(lia)) as (s & Hs & Hnz).
      destruct (zget (nEntropy off) 0 =? 0) eqn:Ez; zbool; cbn [negb nEntropy set_entropy].
      * assert (s <> 0) by (intros ->; apply Hnz, Ez).
        apply (two_in_length _ 0 s); [lia| |]; apply used_symbols_In;
          (split; [lia|]); zgs; lia.
      * apply (two_in_length _ 0 1); [lia| |]; apply used_symbols_In;
          (split; [lia|]); zgs; lia.
    + destruct (H2 ltac:(lia)) as (s1 & s2 & Hs1 & Hs2 & Hn1 & Hn2).
      apply (two_in_length _ s1 s2); [lia| |]; apply used_symbols_In;
        (split; [lia|assumption]).
Qed.

Lemma add_phantom_offsets_config (off : zultra_huffman_encoder_t) :
  nSymbols (add_phantom_offsets off) = nSymbols off
  /\ nMaxCodeLength (add_phantom_offsets off) = nMaxCodeLength off.
Proof.
  unfold add_phantom_offsets.
  destruct (_ =? 0); [split; reflexivity|].
  destruct (_ =? 1); [|split; reflexivity].
  destruct (negb _); split; reflexivity.
Qed.

Lemma defined_lengths_from_spec (len : list Z) (nMin : Z) (fuel : nat) :
  forall i,
    nMin <= i -> i - nMin <= Z.of_nat fuel ->
    let r := defined_lengths_from fuel len nMin i in
    nMin <= r <= i /\ (forall j, r <= j < i -> zget len j = 0).
Proof.
  induction fuel as [|fuel IH]; intros i Hi Hfuel.
  - cbn. split; [lia|]. intros j Hj. lia.
  - cbn [defined_lengths_from].
    destruct ((i >? nMin) && (zget len (i - 1) =? 0)) eqn:Hg.
    + apply andb_true_iff in Hg as [Hg1 Hg2]. zbool.
      destruct (IH (i - 1) ltac:(lia) ltac:(lia)) as (H1 & H2). cbn zeta.
      split; [lia|]. intros j Hj.
      destruct (Z.eq_dec j (i - 1)) as [->|Hne]; [exact Hg2|]. apply H2. lia.
    + cbn zeta. split; [lia|]. intros j Hj. lia.
Qed.

(** Cutting a table after its last nonzero length loses no used symbol. *)
Lemma count_used_defined (e : zultra_huffman_encoder_t) (nMin : Z) :
  0 <= nMin <= nSymbols e ->
  count_used (take (Z.to_nat (zultra_huffman_encoder_get_defined_var_lengths_count e nMin))
                (nCodeLength e))
  = Z.of_nat (length (used_symbols (nSymbols e) (nCodeLength e))).
Proof.
  intros Hmin. unfold zultra_huffman_encoder_get_defined_var_lengths_count.
  pose proof (defined_lengths_from_spec (nCodeLength e) nMin
                (Z.to_nat (nSymbols e - nMin)) (nSymbols e) ltac:(lia) ltac:(lia)) as Hsp.
  cbn zeta in Hsp.
  set (r := defined_lengths_from _ _ _ _) in *. destruct Hsp as (Hr & Hzero).
  rewrite count_used_symbols_Z by lia. f_equal.
  apply Permutation_length.
  apply NoDup_Permutation; [apply used_symbols_NoDup|apply used_symbols_NoDup|].
  intros s. rewrite !list_elem_of_In, !used_symbols_In. split.
  - intros [Hs Hnz]. split; [lia|exact Hnz].
  - intros [Hs Hnz]. split; [|exact Hnz].
    destruct (Z_lt_ge_dec s r) as [|Hge]; [lia|].
    exfalso. apply Hnz, Hzero. lia.
Qed.

(** Whatever the frequencies, the build succeeds for an encoder with at
    least as many codes of its maximum length as it has symbols, and it
    keeps the encoder's configuration; with two or more used symbols the
    symbols that get a length are the used ones. *)
Lemma build_dynamic_codewords_total (e : zultra_huffman_encoder_t) :
  0 <= nSymbols e <= MAX_SYMBOLS -> 1 <= nMaxCodeLength e <= 30 ->
  nSymbols e <= 2 ^ nMaxCodeLength e ->
  exists e',
    zultra_huffman_encoder_build_dynamic_codewords e = Built e'
    /\ nSymbols e' = nSymbols e /\ nMaxCodeLength e' = nMaxCodeLength e
    /\ nEntropy e' = nEntropy e
    /\ (2 <= Z.of_nat (length (used_symbols (nSymbols e) (nEntropy e))) ->
        used_symbols (nSymbols e) (nCodeLength e')
        = used_symbols (nSymbols e) (nEntropy e)).
Proof.
  intros Hsym HL Hfit.
  pose proof (used_symbols_length (nSymbols e) (nEntropy e) ltac:(lia)) as Hq.
  destruct (Z_le_gt_dec 2 (Z.of_nat (length (used_symbols (nSymbols e) (nEntropy e)))))
    as [Hn|Hn].
  - destruct (build_dynamic_codewords_spec e Hsym HL ltac:(lia))
      as (e' & Hb & H1 & H2 & H3 & _ & Hused & Hunused & _).
    exists e'. split; [exact Hb|]. split; [exact H1|]. split; [exact H2|].
    split; [exact H3|]. intros _.
    apply used_symbols_ext. intros s Hs.
    pose proof (used_symbols_In (nSymbols e) (nEntropy e) s) as Hiff.
    destruct (Z.eq_dec (zget (nEntropy e) s) 0) as [Hz|Hnz].
    + rewrite Hunused by (rewrite Hiff; tauto). tauto.
    + specialize (Hused s ltac:(apply Hiff; tauto)). split; intros; lia.
  - unfold zultra_huffman_encoder_build_dynamic_codewords,
      zultra_huffman_encoder_estimate_dynamic_codelens.
    destruct ((nSymbols e <? 0) || (nSymbols e >? MAX_SYMBOLS)) eqn:Eg.
    { apply orb_true_iff in Eg as [Eg|Eg]; zbool; lia. }
    destruct (Z.of_nat (length (used_symbols (nSymbols e) (nEntropy e))) >? 1) eqn:E1;
      zbool; [lia|].
    cbn [nSymbols nCodeLength nMaxCodeLength nCodeWord set_code_lengths].
    set (v1 := zset (repeat 0 (Z.to_nat MAX_SYMBOLS)) 0 1).
    assert (Hv1 : forall s, zget v1 s = if s =? 0 then 1 else 0).
    { intros s. unfold v1. destruct (s =? 0) eqn:Es; zbool.
      - subst s. apply zget_zset_eq. rewrite repeat_length. unfold MAX_SYMBOLS. lia.
      - rewrite zget_zset_ne by lia. apply zget_repeat0. }
    destruct (Z.eq_dec (nSymbols e) 0) as [H0|H0].
    + rewrite H0. change (used_symbols 0 v1) with (@nil Z).
      cbn [length]. change (Z.of_nat 0 >? 0) with false. cbn [andb].
      eexists. split; [reflexivity|].
      cbn [nSymbols nMaxCodeLength nEntropy set_code_words set_code_lengths].
      split; [exact H0|]. split; [reflexivity|]. split; [reflexivity|].
      intros _. reflexivity.
    + assert (Hq1 : used_symbols (nSymbols e) v1 = [0]).
      { apply Permutation_singleton_r.
        apply NoDup_Permutation; [apply used_symbols_NoDup|apply NoDup_singleton|].
        intros s. rewrite list_elem_of_In, used_symbols_In, list_elem_of_singleton, Hv1.
        destruct (s =? 0) eqn:Es; zbool; split; intros H; first [lia|destruct H; lia]. }
      rewrite Hq1. cbn [length].
      change (Z.of_nat 1 >? 0) with true.
      destruct (nMaxCodeLength e >? 0) eqn:EL; zbool; [|lia]. cbn [andb].
      change (Z.of_nat 1 - 1) with 0.
      change (zultra_huffman_encoder_qsort 1 v1 [0] 0 0) with [0].
      change (zget [0] 0) with 0. rewrite Hv1. change (0 =? 0) with true. cbv iota.
      destruct (1 >? nMaxCodeLength e) eqn:E2; zbool; [lia|].
      eexists. split; [reflexivity|].
      cbn [nSymbols nMaxCodeLength nEntropy set_code_words set_code_lengths].
      split; [reflexivity|]. split; [reflexivity|]. split; [reflexivity|lia].
Qed.

Section FinalTablesProofs.

Variable zultra_huffman_encoder_optimize_for_rle : Z -> list Z -> list Z.
Variable zultra_block_evaluate_dynamic_cost :
  zultra_huffman_encoder_t -> zultra_huffman_encoder_t -> Z.

(** The smoothing of the counts for run-length coding is not among the
    sources; it is taken to leave two used symbols where there were two. *)
Hypothesis optimize_for_rle_keeps_two :
  forall n counts,
    2 <= count_used (take (Z.to_nat n) counts) ->
    2 <= count_used
           (take (Z.to_nat n) (zultra_huffman_encoder_optimize_for_rle n counts)).

(** C4: for the encoders as [zultra_block_deflate] initialises them, the
    final tables of a dynamic block are built, and the header declares at
    least two distance symbols with a nonzero code length, whatever the
    parse used: phantom frequencies are given to distance symbols 0 and 1
    where fewer than two are in use. *)
Theorem dynamic_header_declares_two_offsets (lit off : zultra_huffman_encoder_t) :
  nSymbols lit = NLITERALSYMS -> nMaxCodeLength lit = 15 ->
  nSymbols off = NOFFSETSYMS -> nMaxCodeLength off = 15 ->
  2 <= Z.of_nat (length (nEntropy off)) ->
  exists lit' off',
    final_dynamic_tables zultra_huffman_encoder_optimize_for_rle
      zultra_block_evaluate_dynamic_cost lit off = Some (lit', off')
    /\ 2 <= count_used (declared_offset_lengths off').
Proof.
  intros Hls HlL Hos HoL Hlen. unfold final_dynamic_tables.
  assert (H15 : 2 ^ 15 = 32768) by reflexivity.
  destruct (build_dynamic_codewords_total lit) as (lit1 & Hb1 & L1 & L2 & L3 & _);
    [rewrite Hls; unfold NLITERALSYMS, MAX_SYMBOLS; lia|lia
    |rewrite Hls, HlL, H15; unfold NLITERALSYMS; lia|].
  rewrite Hb1.
  pose proof (add_phantom_offsets_config off) as [Pc1 Pc2].
  pose proof (add_phantom_offsets_two off Hlen) as Ptwo.
  set (off1 := add_phantom_offsets off) in *.
  destruct (build_dynamic_codewords_total off1) as (off2 & Hb2 & O1 & O2 & O3 & O4);
    [rewrite Pc1, Hos; unfold NOFFSETSYMS, MAX_SYMBOLS; lia|lia
    |rewrite Pc1, Pc2, Hos, HoL, H15; unfold NOFFSETSYMS; lia|].
  rewrite Hb2. rewrite Pc1, Hos in O4. specialize (O4 Ptwo).
  set (optLit := set_entropy lit1 _).
  destruct (build_dynamic_codewords_total optLit) as (lit3 & Hb3 & _);
    [cbn; rewrite L1, Hls; unfold NLITERALSYMS, MAX_SYMBOLS; lia|cbn; lia
    |cbn; rewrite L1, L2, Hls, HlL, H15; unfold NLITERALSYMS; lia|].
  rewrite Hb3.
  set (optOff := set_entropy off2 _).
  assert (Ptwo' : 2 <= Z.of_nat (length (used_symbols NOFFSETSYMS (nEntropy optOff)))).
  { unfold optOff. cbn [nEntropy set_entropy].
    rewrite <- count_used_symbols_Z by (unfold NOFFSETSYMS; lia).
    apply optimize_for_rle_keeps_two.
    rewrite count_used_symbols_Z, O3 by (unfold NOFFSETSYMS; lia).
    exact Ptwo. }
  destruct (build_dynamic_codewords_total optOff) as (off4 & Hb4 & Q1 & Q2 & Q3 & Q4);
    [cbn; rewrite O1, Pc1, Hos; unfold NOFFSETSYMS, MAX_SYMBOLS; lia|cbn; lia
    |cbn; rewrite O1, O2, Pc1, Pc2, Hos, HoL, H15; unfold NOFFSETSYMS; lia|].
  rewrite Hb4.
  assert (Q1' : nSymbols off4 = NOFFSETSYMS) by (rewrite Q1; cbn; congruence).
  assert (O1' : nSymbols off2 = NOFFSETSYMS) by congruence.
  replace (nSymbols optOff) with NOFFSETSYMS in Q4 by (cbn; congruence).
  specialize (Q4 Ptwo').
  destruct (_ <? _).
  - exists lit3, off4. split; [reflexivity|].
    unfold declared_offset_lengths.
    rewrite count_used_defined by (rewrite Q1'; unfold NOFFSETSYMS; lia).
    rewrite Q1', Q4. exact Ptwo'.
  - exists lit1, off2. split; [reflexivity|].
    unfold declared_offset_lengths.
    rewrite count_used_defined by (rewrite O1'; unfold NOFFSETSYMS; lia).
    rewrite O1', O4. exact Ptwo.
Qed.

End FinalTablesProofs.

Lemma dynamic_header_declares_two_offsets_witness :
  exists lit' off',
    final_dynamic_tables (fun _ counts => counts) (fun _ _ => 0)
      literals_only_encoder unused_offset_encoder = Some (lit', off')
    /\ 2 <= count_used (declared_offset_lengths off').
Proof.
  apply (dynamic_header_declares_two_offsets (fun _ counts => counts) (fun _ _ => 0)
           (fun _ _ H => H) literals_only_encoder unused_offset_encoder);
    vm_compute; first [reflexivity|discriminate].
Defined.

(** ** The output bound and stream initialisation *)

Lemma clamp_max_block_size_range (nMaxBlockSize : Z) :
  32768 <= clamp_max_block_size nMaxBlockSize <= 2097152.
Proof.
  unfold clamp_max_block_size, ZULTRA_DEFAULT_MAX_BLOCK_SIZE.
  repeat match goal with
         | |- context [if ?b then _ else _] => destruct b eqn:?
         end; lia.
Qed.

Lemma clamp_max_block_size_in_range (nMaxBlockSize : Z) :
  32768 <= nMaxBlockSize <= 2097152 -> clamp_max_block_size nMaxBlockSize = nMaxBlockSize.
Proof.
  intros H. unfold clamp_max_block_size.
  destruct (nMaxBlockSize =? 0) eqn:E0; [lia|].
  destruct (nMaxBlockSize <? 32768) eqn:E1; [lia|].
  destruct (nMaxBlockSize >? 2097152) eqn:E2; [lia|reflexivity].
Qed.

(** C5, as the code has it: each block is charged [(1 + 4 + 1) * MAX_SPLITS],
    that is 6 and not 5 bytes per possible split.  With [B] the defaulted and
    clamped block size and [nBlocks] the ceiling of [nInputSize / B], the
    result is [header + nBlocks * (6 * MAX_SPLITS) + nInputSize + 1 + footer]
    whenever that sum fits [size_t]. *)
Theorem memory_bound_six_bytes_per_split (nInputSize nFlags nMaxBlockSize : Z) :
  0 <= nInputSize ->
  let B := clamp_max_block_size nMaxBlockSize in
  let nBlocks := (nInputSize + (B - 1)) / B in
  let bound := zultra_frame_get_header_size nFlags + nBlocks * (6 * MAX_SPLITS)
               + nInputSize + 1 + zultra_frame_get_footer_size nFlags in
  bound < 2 ^ 64 ->
  (nBlocks - 1) * B < nInputSize <= nBlocks * B /\
  MAX_SPLITS = 64 /\
  zultra_memory_bound nInputSize nFlags nMaxBlockSize = bound.
Proof.
  intros Hin B nBlocks bound Hfit.
  pose proof (clamp_max_block_size_range nMaxBlockSize) as HB. fold B in HB.
  assert (Hhdr : 0 <= zultra_frame_get_header_size nFlags)
    by (unfold zultra_frame_get_header_size; lia).
  assert (Hftr : 0 <= zultra_frame_get_footer_size nFlags).
  { unfold zultra_frame_get_footer_size.
    destruct (nFlags =? _); [lia|]. destruct (nFlags =? _); lia. }
  assert (Hnb : 0 <= nBlocks) by (apply Z.div_pos; lia).
  assert (Hceil : (nBlocks - 1) * B < nInputSize <= nBlocks * B).
  { unfold nBlocks.
    pose proof (Z.div_mod (nInputSize + (B - 1)) B ltac:(lia)) as Hdm.
    pose proof (Z.mod_pos_bound (nInputSize + (B - 1)) B ltac:(lia)) as Hm.
    nia. }
  split; [exact Hceil|]. split; [reflexivity|].
  unfold zultra_memory_bound. fold B.
  unfold bound, MAX_SPLITS in *.
  assert (Hsmall : forall x, 0 <= x < 2 ^ 64 -> size_t x = x)
    by (intros x Hx; apply Z.mod_small; exact Hx).
  rewrite (Hsmall (nInputSize + (B - 1))) by nia.
  fold nBlocks.
  rewrite (Hsmall nBlocks) by nia.
  rewrite (Hsmall (nBlocks * (1 + 4 + 1))) by nia.
  rewrite (Hsmall (nBlocks * (1 + 4 + 1) * 64)) by nia.
  rewrite (Hsmall (_ + nBlocks * (1 + 4 + 1) * 64)) by nia.
  rewrite (Hsmall (_ + nInputSize)) by nia.
  rewrite (Hsmall (_ + 1)) by nia.
  rewrite Hsmall by nia. lia.
Qed.

Lemma memory_bound_six_bytes_per_split_witness :
  0 <= 100000 /\
  zultra_memory_bound 100000 ZULTRA_FLAG_GZIP_FRAMING 32768
    = 10 + 4 * (6 * 64) + 100000 + 1 + 8.
Proof.
  split; [lia|].
  apply (memory_bound_six_bytes_per_split 100000 ZULTRA_FLAG_GZIP_FRAMING 32768);
    [lia|vm_compute; reflexivity].
Defined.

(** C5 as stated fails: for one input byte the bound is 386, where 5 bytes
    per split would give 322. *)
Lemma memory_bound_not_five_per_split :
  zultra_memory_bound 1 ZULTRA_FLAG_DEFLATE_FRAMING 0 = 386 /\
  zultra_frame_get_header_size ZULTRA_FLAG_DEFLATE_FRAMING
    + ((1 + (clamp_max_block_size 0 - 1)) / clamp_max_block_size 0) * (5 * MAX_SPLITS)
    + 1 + 1 + zultra_frame_get_footer_size ZULTRA_FLAG_DEFLATE_FRAMING = 322.
Proof. split; vm_compute; reflexivity. Qed.

Section DriverProofs.

Variable block_state : Type.
Variable block_state_init : block_state.
Variable zalloc : Z -> Z -> bool.
Variable sizeof_zultra_compressor_t : Z.
Variable divsufsort_init : Z.

Local Abbreviation stream_init :=
  (zultra_stream_init block_state block_state_init zalloc sizeof_zultra_compressor_t
     divsufsort_init).

(** C9, as the code has it: [zultra_stream_init] has no invalid-argument
    outcome.  Whatever block size it is given, it returns [ZULTRA_OK] or
    [ZULTRA_ERROR_MEMORY]; an out-of-range size is not refused but replaced
    (0 by the default, a smaller one by 32768, a larger one by 2097152), and
    the stream it returns works with the replaced size. *)
Theorem stream_init_clamps_block_size (nFlags nMaxBlockSize : Z) :
  match stream_init nFlags nMaxBlockSize with
  | (ZULTRA_OK, Some c) =>
      max_block_size _ c = clamp_max_block_size nMaxBlockSize /\
      32768 <= max_block_size _ c <= 2097152 /\
      (nMaxBlockSize = 0 -> max_block_size _ c = ZULTRA_DEFAULT_MAX_BLOCK_SIZE) /\
      (0 < nMaxBlockSize < 32768 -> max_block_size _ c = 32768) /\
      (2097152 < nMaxBlockSize -> max_block_size _ c = 2097152)
  | (ZULTRA_ERROR_MEMORY, None) => True
  | _ => False
  end.
Proof.
  unfold zultra_stream_init.
  repeat match goal with
         | |- context [if negb ?b then _ else _] => destruct b eqn:?; simpl negb; cbv iota
         end; try exact I.
  simpl max_block_size.
  split; [reflexivity|]. split; [apply clamp_max_block_size_range|].
  unfold clamp_max_block_size, ZULTRA_DEFAULT_MAX_BLOCK_SIZE.
  repeat split; intros H; case_ifs; zbool; lia.
Qed.

End DriverProofs.

(** C9 as stated fails: with every allocation served, a maximum block size of
    100 bytes (below 32768) is accepted and the stream is set up with 32768;
    likewise 4194304 (above 2097152) is accepted with 2097152. *)
Lemma stream_init_accepts_out_of_range :
  (let r := zultra_stream_init unit tt (fun _ _ => true) 1 0 ZULTRA_FLAG_GZIP_FRAMING 100 in
   r.1 = ZULTRA_OK /\ (max_block_size unit <$> r.2) = Some 32768) /\
  (let r := zultra_stream_init unit tt (fun _ _ => true) 1 0 ZULTRA_FLAG_GZIP_FRAMING 4194304 in
   r.1 = ZULTRA_OK /\ (max_block_size unit <$> r.2) = Some 2097152).
Proof. split; split; reflexivity. Qed.

(** ** The stream driver on an empty input *)

Section EmptyInput.

Variable block_state : Type.
Variable block_state_init : block_state.
Variable zalloc : Z -> Z -> bool.
Variable sizeof_zultra_compressor_t : Z.
Variable divsufsort_init : Z.
Variable zultra_frame_update_checksum : Z -> list Z -> Z -> Z.
Variable find_matches : block_state -> list Z -> Z -> Z -> Z * block_state.
Variable zultra_block_split :
  block_state -> list Z -> Z -> Z -> Z -> Z * list Z * block_state.
Variable evaluate_costs : block_state -> list Z -> Z -> Z -> bool * Z * Z * block_state.
Variable zultra_block_deflate :
  block_state -> BitWriter.zultra_bitwriter_t -> list Z -> list Z -> Z -> Z -> Z
  -> Z * list (Z * Z) * block_state.

Local Abbreviation compress_pass :=
  (stream_compress_pass block_state zultra_frame_update_checksum find_matches
     zultra_block_split evaluate_costs zultra_block_deflate).
Local Abbreviation memory_compress :=
  (zultra_memory_compress block_state block_state_init zalloc sizeof_zultra_compressor_t
     divsufsort_init zultra_frame_update_checksum find_matches zultra_block_split
     evaluate_costs zultra_block_deflate).

Lemma pass_header_fresh (c : zultra_compressor_t block_state) (strm : zultra_stream_t) :
  compression_state _ c = 0 -> idle _ c ->
  exists c' strm',
    pass_header _ c strm = (ZULTRA_OK, c', strm') /\
    compression_state _ c' = CSTATE_HEADER_EMITTED /\
    cur_frame_index _ c' = 0 /\
    pending_frame_bytes _ c' =
      Z.of_nat (length (zultra_frame_encode_header_bytes (flags _ c))) /\
    take (length (zultra_frame_encode_header_bytes (flags _ c))) (frame_buffer _ c')
      = zultra_frame_encode_header_bytes (flags _ c) /\
    pending_out_bytes _ c' = 0 /\ cur_in_bytes _ c' = 0 /\
    dictionary_data _ c' = None /\ max_block_size _ c' = max_block_size _ c /\
    next_in strm' = next_in strm /\ next_out strm' = next_out strm /\
    avail_out strm' = avail_out strm.
Proof.
  intros Hcs (Hpf & Hpo & Hcur & Hdict & Hmbs).
  unfold pass_header. rewrite Hcs. change (Z.land 0 CSTATE_HEADER_EMITTED =? 0) with true.
  cbv iota. eexists _, _. split; [reflexivity|].
  destruct c; simpl in *. subst. rewrite take_app_length. repeat split; reflexivity.
Qed.

Lemma drain_frame_bytes_all (c : zultra_compressor_t block_state)
    (strm : zultra_stream_t) (bytes : list Z) :
  cur_frame_index _ c = 0 ->
  pending_frame_bytes _ c = Z.of_nat (length bytes) ->
  take (length bytes) (frame_buffer _ c) = bytes ->
  (length bytes <= 16)%nat ->
  Z.of_nat (length bytes) <= avail_out strm ->
  exists c' strm',
    drain_frame_bytes _ ZULTRA_OK c strm = (ZULTRA_OK, c', strm') /\
    compression_state _ c' = compression_state _ c /\
    pending_frame_bytes _ c' = 0 /\
    pending_out_bytes _ c' = pending_out_bytes _ c /\
    cur_in_bytes _ c' = cur_in_bytes _ c /\
    dictionary_data _ c' = dictionary_data _ c /\
    max_block_size _ c' = max_block_size _ c /\
    next_in strm' = next_in strm /\ next_out strm' = next_out strm ++ bytes.
Proof.
  intros Hidx Hpend Htake Hlen Hroom.
  unfold drain_frame_bytes. simpl status_is_ok. rewrite Hpend, Hidx.
  destruct (Z.of_nat (length bytes) =? 0) eqn:E0; simpl negb; simpl andb; cbv iota.
  - zbool. assert (bytes = []) as -> by (destruct bytes; [reflexivity|simpl in E0; lia]).
    exists c, strm. rewrite app_nil_r. repeat split; try reflexivity. exact Hpend.
  - zbool. rewrite Z.add_0_l.
    destruct (Z.of_nat (length bytes) >? 16) eqn:E16; [zbool; lia|].
    destruct (avail_out strm =? 0) eqn:Ea; [zbool; lia|]. simpl negb. cbv iota.
    assert (Hmin : (if avail_out strm >? Z.of_nat (length bytes)
                    then Z.of_nat (length bytes) else avail_out strm)
                   = Z.of_nat (length bytes)) by (case_ifs; zbool; lia).
    rewrite Hmin, Nat2Z.id. change (Z.to_nat 0) with 0%nat. rewrite drop_0, Htake.
    eexists _, _. split; [reflexivity|].
    destruct c, strm; simpl in *. repeat split; try reflexivity. lia.
Qed.

(** With nothing to read and nothing buffered, the input block of the pass
    compresses nothing, finalizing or not: its work sits under
    [if (nInDataSize > 0)]. *)
Lemma pass_input_no_input (nDoFinalize : Z) (c : zultra_compressor_t block_state)
    (strm : zultra_stream_t) :
  pending_frame_bytes _ c = 0 -> pending_out_bytes _ c = 0 -> cur_in_bytes _ c = 0 ->
  0 <= max_block_size _ c -> next_in strm = [] ->
  exists c' strm',
    pass_input _ zultra_frame_update_checksum find_matches zultra_block_split
      evaluate_costs zultra_block_deflate nDoFinalize ZULTRA_OK c strm
      = (ZULTRA_OK, c', strm') /\
    compression_state _ c' = compression_state _ c /\
    pending_frame_bytes _ c' = 0 /\ pending_out_bytes _ c' = 0 /\
    next_in strm' = [] /\ next_out strm' = next_out strm.
Proof.
  intros Hpf Hpo Hcur Hmbs Hin.
  assert (Hav : avail_in strm = 0) by (unfold avail_in; rewrite Hin; reflexivity).
  unfold pass_input. simpl status_is_ok. rewrite Hpf, Hpo, Hcur, Hav.
  simpl andb. cbv iota. rewrite Z.sub_0_r.
  replace (0 >? max_block_size _ c) with false
    by (symmetry; rewrite Z.gtb_ltb; apply Z.ltb_ge; lia).
  cbv iota. unfold set_input. simpl cur_in_bytes. simpl (0 + 0 >? 0). cbv iota.
  destruct (_ || _); eexists _, _; (split; [reflexivity|]); simpl;
    rewrite Hin; repeat split; assumption.
Qed.

(** With no input at all and [nDoFinalize] set, a pass over a fresh
    compressor delivers the frame header and nothing else: the final flush and
    the [CSTATE_FINALIZED_COMPRESSION] mark that would release the footer are
    part of the block group that is skipped. *)
Lemma stream_compress_pass_no_input (c : zultra_compressor_t block_state)
    (strm : zultra_stream_t) :
  compression_state _ c = 0 -> idle _ c ->
  next_in strm = [] ->
  Z.of_nat (length (zultra_frame_encode_header_bytes (flags _ c))) <= avail_out strm ->
  exists c' strm',
    compress_pass 1 c strm = (ZULTRA_OK, c', strm') /\
    next_in strm' = [] /\
    next_out strm' = next_out strm ++ zultra_frame_encode_header_bytes (flags _ c).
Proof.
  intros Hcs Hidle Hin Hroom.
  set (header := zultra_frame_encode_header_bytes (flags _ c)) in *.
  assert (Hhl : (length header <= 16)%nat).
  { unfold header, zultra_frame_encode_header_bytes. case_ifs; simpl; lia. }
  unfold stream_compress_pass.
  destruct (pass_header_fresh c strm Hcs Hidle)
    as (cA & sA & -> & HcsA & HidxA & HpfA & HfbA & HpoA & HcurA & HddA & HmbsA
        & HinA & HoutA & HavA).
  fold header in HpfA, HfbA.
  destruct (drain_frame_bytes_all cA sA header HidxA HpfA HfbA Hhl ltac:(lia))
    as (cB & sB & -> & HcsB & HpfB & HpoB & HcurB & HddB & HmbsB & HinB & HoutB).
  destruct Hidle as (_ & _ & _ & _ & Hmbs).
  unfold pass_dictionary. rewrite HddB, HddA.
  destruct (pass_input_no_input 1 cB sB) as (cD & sD & -> & HcsD & HpfD & HpoD & HinD & HoutD);
    try congruence.
  unfold pass_output. simpl status_is_ok. rewrite HpfD, HpoD. simpl andb. cbv iota.
  unfold pass_footer. simpl status_is_ok. rewrite HpfD, HpoD, HcsD, HcsB, HcsA.
  change (Z.land CSTATE_HEADER_EMITTED CSTATE_FINALIZED_COMPRESSION =? 0) with true.
  simpl andb. cbv iota.
  unfold drain_frame_bytes. simpl status_is_ok. rewrite HpfD. simpl andb. cbv iota.
  eexists _, _. split; [reflexivity|].
  rewrite HoutD, HoutB, HoutA. split; [exact HinD|reflexivity].
Qed.

(** C8 on the code: compressing the empty input with gzip framing and
    [ZULTRA_FINALIZE] returns the 10 header bytes alone (or -1 when an
    allocation is refused), whatever the block size and for any output buffer
    of at least 10 bytes; in particular never the 20-byte member
    [1f 8b 08 00 00 00 00 00 00 ff 03 00 00 00 00 00 00 00 00 00]. *)
Theorem empty_gzip_input_emits_header_only
    (fuel : nat) (nMaxOutBufferSize nMaxBlockSize : Z) :
  (0 < fuel)%nat ->
  10 <= nMaxOutBufferSize ->
  let r := memory_compress fuel [] nMaxOutBufferSize ZULTRA_FLAG_GZIP_FRAMING nMaxBlockSize in
  (r = Some [31; 139; 8; 0; 0; 0; 0; 0; 0; 255] \/ r = None) /\
  r <> Some [31; 139; 8; 0; 0; 0; 0; 0; 0; 255; 3; 0; 0; 0; 0; 0; 0; 0; 0; 0] /\
  ((zultra_stream_init block_state block_state_init zalloc sizeof_zultra_compressor_t
      divsufsort_init ZULTRA_FLAG_GZIP_FRAMING nMaxBlockSize).1 = ZULTRA_OK ->
   r = Some [31; 139; 8; 0; 0; 0; 0; 0; 0; 255]).
Proof.
  intros Hfuel Hroom r.
  assert (Hr : (r = Some [31; 139; 8; 0; 0; 0; 0; 0; 0; 255] /\
                (zultra_stream_init block_state block_state_init zalloc
                   sizeof_zultra_compressor_t divsufsort_init
                   ZULTRA_FLAG_GZIP_FRAMING nMaxBlockSize).1 = ZULTRA_OK)
               \/ (r = None /\
                   (zultra_stream_init block_state block_state_init zalloc
                      sizeof_zultra_compressor_t divsufsort_init
                      ZULTRA_FLAG_GZIP_FRAMING nMaxBlockSize).1 <> ZULTRA_OK)).
  { unfold r, zultra_memory_compress, zultra_stream_init.
    repeat match goal with
           | |- context [if negb ?b then _ else _] => destruct b eqn:?; simpl negb; cbv iota
           end; try (right; split; [reflexivity|discriminate]).
    left. split; [|reflexivity].
    pose proof (clamp_max_block_size_range nMaxBlockSize) as Hclamp.
    match goal with
    | |- context [zultra_stream_compress _ _ _ _ _ _ _ _ ?c ?s] =>
        destruct (stream_compress_pass_no_input c s) as (c' & s' & Hpass & Hin' & Hout');
          [reflexivity|unfold idle; simpl; repeat split; lia|reflexivity|simpl; lia|]
    end.
    destruct fuel as [|fuel']; [lia|]. cbn [zultra_stream_compress].
    rewrite Hpass. unfold avail_in. rewrite Hin'. simpl.
    rewrite Hout'. reflexivity. }
  destruct Hr as [[-> Hok]|[-> Hko]].
  - split; [left; reflexivity|]. split; [discriminate|]. intros _. reflexivity.
  - split; [right; reflexivity|]. split; [discriminate|]. intros H. contradiction.
Qed.

End EmptyInput.

Lemma empty_gzip_input_emits_header_only_witness :
  (0 < 1)%nat /\ 10 <= 64 /\
  zultra_memory_compress unit tt (fun _ _ => true) 1 0
    (fun a _ _ => a) (fun bs _ _ _ => (0, bs)) (fun bs _ _ _ _ => (1, [0], bs))
    (fun bs _ _ _ => (true, 0, 0, bs)) (fun bs _ _ _ _ _ _ => (0, [], bs))
    1 [] 64 ZULTRA_FLAG_GZIP_FRAMING 0
  = Some [31; 139; 8; 0; 0; 0; 0; 0; 0; 255].
Proof.
  split; [lia|]. split; [lia|].
  apply (empty_gzip_input_emits_header_only unit tt (fun _ _ => true) 1 0
           (fun a _ _ => a) (fun bs _ _ _ => (0, bs)) (fun bs _ _ _ _ => (1, [0], bs))
           (fun bs _ _ _ => (true, 0, 0, bs)) (fun bs _ _ _ _ _ _ => (0, [], bs))
           1 64 0); [lia|lia|reflexivity].
Defined.

(** ** The stored-block fallback *)

Section StoredBlocks.
Import BitWriter.

Lemma lxor_255 (x : Z) : 0 <= x < 256 -> Z.lxor x 255 = 255 - x.
Proof.
  intros Hx.
  assert (Hall : forallb (fun k => Z.lxor (Z.of_nat k) 255 =? 255 - Z.of_nat k)
                   (seq 0 256) = true) by (vm_compute; reflexivity).
  rewrite forallb_forall in Hall.
  specialize (Hall (Z.to_nat x)). rewrite Z2Nat.id in Hall by lia.
  apply Z.eqb_eq, Hall, in_seq. lia.
Qed.

(** The four bytes the driver stores before the raw data are LEN and its
    one's complement, each least significant byte first. *)
Lemma len_nlen_bytes (n : Z) :
  0 <= n <= 65535 ->
  [Z.land n 255; Z.land (Z.shiftr n 8) 255;
   Z.lxor (Z.land n 255) 255; Z.lxor (Z.land (Z.shiftr n 8) 255) 255]
  = bytes_le 2 n ++ bytes_le 2 (65535 - n).
Proof.
  intros Hn. simpl bytes_le. change (2 ^ 8) with 256.
  change 255 with (Z.ones 8) at 1 2 3 5. rewrite !Z.land_ones by lia.
  rewrite Z.shiftr_div_pow2 by lia. change (2 ^ 8) with 256.
  pose proof (Z.mod_pos_bound n 256 ltac:(lia)) as Hm.
  assert (Hq : 0 <= n / 256 <= 255).
  { split; [apply Z.div_pos; lia|]. apply Z.lt_succ_r.
    apply Z.div_lt_upper_bound; lia. }
  rewrite (Z.mod_small (n / 256)) by lia.
  rewrite !lxor_255 by lia.
  pose proof (Z.div_mod n 256 ltac:(lia)) as Hdm.
  assert (Hd : (65535 - n) / 256 = 255 - n / 256).
  { symmetry. apply (Z.div_unique _ _ _ (255 - n mod 256)); lia. }
  assert (Hmod : (65535 - n) mod 256 = 255 - n mod 256).
  { symmetry. apply (Z.mod_unique _ _ (255 - n / 256)); lia. }
  rewrite Hd, Hmod. rewrite (Z.mod_small (255 - n / 256)) by lia.
  reflexivity.
Qed.

Lemma memcpy_at_length (dst : list Z) (off : Z) (src : list Z) (n : Z) :
  0 <= off -> 0 <= n -> off + n <= Z.of_nat (length dst) -> n <= Z.of_nat (length src) ->
  length (memcpy_at dst off src n) = length dst.
Proof.
  intros Hoff Hn Hd Hs. unfold memcpy_at.
  rewrite !length_app, !length_take, length_drop. lia.
Qed.

Lemma memcpy_at_take (dst : list Z) (off : Z) (src : list Z) (n : Z) :
  0 <= off -> 0 <= n -> off + n <= Z.of_nat (length dst) -> n <= Z.of_nat (length src) ->
  take (Z.to_nat (off + n)) (memcpy_at dst off src n)
  = take (Z.to_nat off) dst ++ take (Z.to_nat n) src.
Proof.
  intros Hoff Hn Hd Hs. unfold memcpy_at.
  rewrite app_assoc.
  replace (Z.to_nat (off + n))
    with (length (take (Z.to_nat off) dst ++ take (Z.to_nat n) src))
    by (rewrite length_app, !length_take; lia).
  apply take_app_length.
Qed.

(** BFINAL, BTYPE = 00 and the padding: three calls that store the pending
    bits followed by the flag, zero-padded to whole bytes. *)
Lemma stored_header_emitted bw out bfinal r1 bw1 out1 r2 bw2 out2 r3 bw3 out3 :
  bw_wf bw out -> 0 <= bfinal <= 1 ->
  zultra_bitwriter_put_bits bw out bfinal 1 = (r1, bw1, out1) -> (r1 <? 0) = false ->
  zultra_bitwriter_put_bits bw1 out1 0 2 = (r2, bw2, out2) -> (r2 <? 0) = false ->
  zultra_bitwriter_flush_bits bw2 out2 = (r3, bw3, out3) -> (r3 <? 0) = false ->
  let nBytes := (nEncBitCount bw + 3 + 7) / 8 in
  bw3 = {| nEncBitCount := 0; nEncBitsData := 0;
           nOutOffset := nOutOffset bw + nBytes;
           nMaxOutDataOffset := nMaxOutDataOffset bw |} /\
  emitted bw3 out3
    = emitted bw out
      ++ bytes_le (Z.to_nat nBytes) (nEncBitsData bw + bfinal * 2 ^ nEncBitCount bw) /\
  length out3 = length out /\
  nOutOffset bw3 <= nMaxOutDataOffset bw.
Proof.
  intros Hwf Hfin H1 Hr1 H2 Hr2 H3 Hr3 nBytes.
  destruct (put_bits_fitting_emitted bw out bfinal 1 r1 bw1 out1 Hwf
              ltac:(lia) ltac:(change (2 ^ 1) with 2; lia) H1 Hr1)
    as (Hbw1 & Hem1 & Hl1 & Hwf1).
  destruct (put_bits_fitting_emitted bw1 out1 0 2 r2 bw2 out2 Hwf1
              ltac:(lia) ltac:(change (2 ^ 2) with 4; lia) H2 Hr2)
    as (Hbw2 & Hem2 & Hl2 & Hwf2).
  destruct (flush_bits_emitted _ _ _ _ _ Hwf2 H3 Hr3) as (Hbw3 & Hem3 & Hl3).
  set (c := nEncBitCount bw) in *. set (d := nEncBitsData bw) in *.
  set (t := d + bfinal * 2 ^ c) in *.
  assert (Hc : 0 <= c <= 7) by (destruct Hwf as (H & _); exact H).
  rewrite Z.mul_0_l, Z.add_0_r in Hbw2, Hem2.
  set (n1 := (c + 1) / 8) in *.
  assert (Hc1 : nEncBitCount bw1 = (c + 1) mod 8) by (rewrite Hbw1; reflexivity).
  assert (Hd1 : nEncBitsData bw1 = t / 2 ^ (8 * n1)) by (rewrite Hbw1; reflexivity).
  rewrite Hc1, Hd1 in *.
  set (n2 := ((c + 1) mod 8 + 2) / 8) in *.
  assert (Hc2 : nEncBitCount bw2 = ((c + 1) mod 8 + 2) mod 8) by (rewrite Hbw2; reflexivity).
  assert (Hd2 : nEncBitsData bw2 = t / 2 ^ (8 * n1) / 2 ^ (8 * n2))
    by (rewrite Hbw2; reflexivity).
  rewrite Hc2, Hd2 in *.
  set (n3 := if 0 <? ((c + 1) mod 8 + 2) mod 8 then 1 else 0) in *.
  assert (Hsum : n1 + n2 + n3 = nBytes /\ 0 <= n1 /\ 0 <= n2 /\ 0 <= n3).
  { unfold n1, n2, n3, nBytes. fold c.
    assert (Hcases : c = 0 \/ c = 1 \/ c = 2 \/ c = 3 \/ c = 4 \/ c = 5 \/ c = 6 \/ c = 7)
      by lia.
    destruct Hcases as [-> | [-> | [-> | [-> | [-> | [-> | [-> | ->]]]]]]];
      vm_compute; repeat split; discriminate. }
  destruct Hsum as (Hsum & Hn1 & Hn2 & Hn3).
  assert (Hoff3 : nOutOffset bw3 = nOutOffset bw + nBytes /\ nEncBitCount bw3 = 0
                  /\ nEncBitsData bw3 = 0
                  /\ nMaxOutDataOffset bw3 = nMaxOutDataOffset bw).
  { rewrite Hbw3. unfold n3 in Hsum.
    destruct (0 <? ((c + 1) mod 8 + 2) mod 8) eqn:E.
    - simpl. rewrite Hbw2, Hbw1. simpl. fold n1 n2. repeat split; lia.
    - destruct Hwf2 as (_ & Hdata2 & _). rewrite Hc2, Hd2 in Hdata2.
      zbool. pose proof (Z.mod_pos_bound ((c + 1) mod 8 + 2) 8 ltac:(lia)) as Hm.
      assert (Hz : ((c + 1) mod 8 + 2) mod 8 = 0) by lia.
      rewrite Hz in Hdata2. simpl in Hdata2.
      rewrite Hc2, Hd2, Hz. rewrite Hbw2, Hbw1. simpl. fold n1 n2.
      repeat split; lia. }
  destruct Hoff3 as (Ho3 & Hc3 & Hd3 & Hm3).
  split; [destruct bw3; simpl in *; subst; reflexivity|].
  split; [|split; [congruence|]].
  - rewrite Hem3, Hem2, Hem1, <- !app_assoc. f_equal.
    replace (Z.to_nat nBytes) with (Z.to_nat n1 + (Z.to_nat n2 + Z.to_nat n3))%nat by lia.
    rewrite !bytes_le_app, !Z2Nat.id by lia. reflexivity.
  - rewrite Ho3. destruct Hwf2 as (_ & _ & Ho2 & _).
    rewrite Hbw2, Hbw1 in Ho2. simpl in Ho2. fold n1 n2 in Ho2.
    unfold zultra_bitwriter_flush_bits in H3.
    destruct (nEncBitCount bw2 >? 8); [injection H3 as <- _ _; discriminate|].
    rewrite Z.gtb_ltb, Hc2 in H3. fold n3 in Hsum. unfold n3 in Hsum.
    destruct (0 <? ((c + 1) mod 8 + 2) mod 8) eqn:E; [|lia].
    destruct (nOutOffset bw2 >=? nMaxOutDataOffset bw2) eqn:Em;
      [injection H3 as <- _ _; discriminate|].
    zbool. rewrite Hbw2, Hbw1 in Em. simpl in Em. fold n1 n2 in Em. lia.
Qed.

Lemma take_zset4 (l : list Z) (i b0 b1 b2 b3 : Z) :
  0 <= i -> i + 4 <= Z.of_nat (length l) ->
  take (Z.to_nat (i + 4))
    (zset (zset (zset (zset l i b0) (i + 1) b1) (i + 2) b2) (i + 3) b3)
  = take (Z.to_nat i) l ++ [b0; b1; b2; b3].
Proof.
  intros Hi Hlen.
  replace (i + 4) with (i + 3 + 1) by lia.
  rewrite take_zset_next by (rewrite !zset_length; lia).
  replace (i + 3) with (i + 2 + 1) by lia.
  rewrite take_zset_next by (rewrite !zset_length; lia).
  replace (i + 2) with (i + 1 + 1) by lia.
  rewrite take_zset_next by (rewrite !zset_length; lia).
  rewrite take_zset_next by lia.
  rewrite <- !app_assoc. reflexivity.
Qed.

Lemma stored_blocks_spec_nil (fuel : nat) (c d bfinal : Z) :
  stored_blocks_spec fuel c d bfinal [] = [].
Proof. destruct fuel; reflexivity. Qed.

(** The stored-block loop, when it succeeds, stores exactly the blocks the
    spec describes for the [n] bytes it was given, after the bits that were
    pending, and leaves the writer on a byte boundary. *)
Lemma emit_stored_blocks_spec_ok (fuel : nat) (nMaxBlockSize nIsFinal : Z) :
  forall (src : list Z) (n : Z) bw out bw' out',
  bw_wf bw out -> 0 <= nIsFinal <= 1 ->
  0 <= n -> n <= Z.of_nat (length src) -> n <= Z.of_nat fuel ->
  nMaxOutDataOffset bw = out_buffer_size nMaxBlockSize ->
  emit_stored_blocks fuel nMaxBlockSize nIsFinal src n bw out = (ZULTRA_OK, bw', out') ->
  let bytes := stored_blocks_spec fuel (nEncBitCount bw) (nEncBitsData bw) nIsFinal
                 (take (Z.to_nat n) src) in
  emitted bw' out' = emitted bw out ++ bytes /\
  length out' = length out /\
  nOutOffset bw' = nOutOffset bw + Z.of_nat (length bytes) /\
  nMaxOutDataOffset bw' = nMaxOutDataOffset bw /\
  (0 < n -> nEncBitCount bw' = 0 /\ nEncBitsData bw' = 0).
Proof.
  induction fuel as [|fuel IH]; intros src n bw out bw' out' Hwf Hfin Hn Hsrc Hfuel Hmax Heq.
  - simpl in Heq. injection Heq as <- <-. simpl. rewrite app_nil_r.
    repeat split; lia.
  - simpl emit_stored_blocks in Heq. simpl stored_blocks_spec.
    rewrite length_take. replace (Z.of_nat (Z.to_nat n `min` length src)) with n by lia.
    cbv zeta.
    destruct (n =? 0) eqn:En0.
    { injection Heq as <- <-. rewrite app_nil_r. simpl. repeat split; zbool; lia. }
    zbool.
    set (nSub := if n >? 65535 then 65535 else n) in *.
    set (nSubIsFinal := if n >? 65535 then 0 else nIsFinal) in *.
    assert (HnSub : 0 < nSub <= 65535 /\ nSub <= n) by (unfold nSub; case_ifs; zbool; lia).
    assert (HsubFin : 0 <= nSubIsFinal <= 1) by (unfold nSubIsFinal; case_ifs; lia).
    destruct (zultra_bitwriter_put_bits bw out nSubIsFinal 1) as [[r1 bw1] out1] eqn:H1.
    destruct (r1 <? 0) eqn:Hr1; [discriminate|].
    destruct (zultra_bitwriter_put_bits bw1 out1 0 2) as [[r2 bw2] out2] eqn:H2.
    destruct (r2 <? 0) eqn:Hr2; [discriminate|].
    destruct (zultra_bitwriter_flush_bits bw2 out2) as [[r3 bw3] out3] eqn:H3.
    destruct (r3 <? 0) eqn:Hr3; [discriminate|].
    destruct (stored_header_emitted _ _ _ _ _ _ _ _ _ _ _ _ Hwf HsubFin H1 Hr1 H2 Hr2 H3 Hr3)
      as (Hbw3 & Hem3 & Hl3 & Hle3).
    set (nBytes := (nEncBitCount bw + 3 + 7) / 8) in *.
    destruct Hwf as (Hcount & Hdata & Hoff & Hlen).
    assert (HnB : 0 <= nBytes) by (apply Z.div_pos; lia).
    assert (Hcur : zultra_bitwriter_get_offset bw3 = nOutOffset bw + nBytes).
    { unfold zultra_bitwriter_get_offset. rewrite Hbw3 in *. simpl in *.
      destruct (_ <=? _) eqn:E; [reflexivity|zbool; lia]. }
    rewrite Hcur in Heq. set (nCur := nOutOffset bw + nBytes) in *.
    destruct ((nCur <? 0) || (nCur + 4 + nSub >? out_buffer_size nMaxBlockSize)) eqn:Echk;
      [discriminate|].
    apply orb_false_elim in Echk. destruct Echk as [_ Echk]. zbool.
    match type of Heq with
    | emit_stored_blocks _ _ _ ?s ?m ?b ?o = _ =>
        set (src' := s) in *; set (bw4 := b) in *; set (out8 := o) in *
    end.
    assert (Hl8 : length out8 = length out).
    { unfold out8. rewrite memcpy_at_length; rewrite ?zset_length; lia. }
    assert (Hem4 : emitted bw4 out8
                   = emitted bw out
                     ++ bytes_le (Z.to_nat nBytes)
                          (nEncBitsData bw + nSubIsFinal * 2 ^ nEncBitCount bw)
                     ++ bytes_le 2 nSub ++ bytes_le 2 (65535 - nSub)
                     ++ take (Z.to_nat nSub) src).
    { unfold emitted at 1. unfold bw4. simpl nOutOffset.
      replace (nCur + 4 + nSub) with ((nCur + 4) + nSub) by lia.
      unfold out8. rewrite memcpy_at_take by (rewrite ?zset_length; lia).
      rewrite take_zset4 by lia.
      replace (take (Z.to_nat nCur) out3) with (emitted bw3 out3)
        by (unfold emitted; rewrite Hbw3; reflexivity).
      rewrite Hem3, len_nlen_bytes by lia. rewrite <- !app_assoc. reflexivity. }
    assert (Hwf4 : bw_wf bw4 out8).
    { unfold bw_wf, bw4. rewrite Hbw3, Hl8. simpl. lia. }
    assert (Hbw4 : nEncBitCount bw4 = 0 /\ nEncBitsData bw4 = 0
                   /\ nOutOffset bw4 = nCur + 4 + nSub
                   /\ nMaxOutDataOffset bw4 = nMaxOutDataOffset bw).
    { unfold bw4. rewrite Hbw3. simpl. repeat split. }
    destruct Hbw4 as (Hc4 & Hd4 & Ho4 & Hm4).
    specialize (IH src' (n - nSub) bw4 out8 bw' out' Hwf4 Hfin ltac:(lia)).
    destruct IH as (Hem & Hl & Ho & Hm & Hz).
    { unfold src'. rewrite length_drop. lia. }
    { lia. }
    { rewrite Hm4. exact Hmax. }
    { exact Heq. }
    rewrite Hc4, Hd4 in Hem, Ho.
    (* the spec, unfolded one block *)
    assert (Hspec :
      (if n <=? 65535
       then stored_block_spec (nEncBitCount bw) (nEncBitsData bw) nIsFinal
              (take (Z.to_nat n) src)
       else stored_block_spec (nEncBitCount bw) (nEncBitsData bw) 0
              (take (Z.to_nat 65535) (take (Z.to_nat n) src))
            ++ stored_blocks_spec fuel 0 0 nIsFinal
                 (drop (Z.to_nat 65535) (take (Z.to_nat n) src)))
      = bytes_le (Z.to_nat nBytes) (nEncBitsData bw + nSubIsFinal * 2 ^ nEncBitCount bw)
        ++ bytes_le 2 nSub ++ bytes_le 2 (65535 - nSub) ++ take (Z.to_nat nSub) src
        ++ stored_blocks_spec fuel 0 0 nIsFinal (take (Z.to_nat (n - nSub)) src')).
    { unfold nSub, nSubIsFinal, src'. rewrite Z.gtb_ltb.
      destruct (n <=? 65535) eqn:E65; zbool.
      - replace (65535 <? n) with false by (symmetry; apply Z.ltb_ge; lia).
        rewrite Z.sub_diag. change (Z.to_nat 0) with 0%nat. rewrite take_0.
        rewrite stored_blocks_spec_nil, app_nil_r.
        unfold stored_block_spec. rewrite length_take.
        replace (Z.of_nat (Z.to_nat n `min` length src)) with n by lia.
        reflexivity.
      - replace (65535 <? n) with true by (symmetry; apply Z.ltb_lt; lia).
        unfold stored_block_spec. rewrite take_take, !length_take.
        replace (Z.to_nat 65535 `min` Z.to_nat n)%nat with (Z.to_nat 65535) by lia.
        replace (Z.of_nat (Z.to_nat 65535 `min` length src)) with 65535 by lia.
        rewrite <- !app_assoc. do 4 f_equal.
        assert (HnSub65 : nSub = 65535)
          by (unfold nSub; rewrite Z.gtb_ltb; destruct (65535 <? n) eqn:E; zbool; lia).
        rewrite HnSub65, skipn_firstn_comm. do 2 f_equal. lia. }
    rewrite Hspec.
    split; [rewrite Hem, Hem4, <- !app_assoc; reflexivity|].
    split; [congruence|].
    split.
    { rewrite Ho, Ho4. rewrite !length_app, !bytes_le_length, length_take.
      unfold nCur. lia. }
    split; [congruence|].
    intros _. destruct (Z.eq_dec (n - nSub) 0) as [Hzero|Hnz]; [|apply Hz; lia].
    rewrite Hzero in Heq.
    assert (bw' = bw4) as -> by (destruct fuel; simpl in Heq; congruence).
    split; assumption.
Qed.

End StoredBlocks.

(** * Further properties of the code

    ** huffman/huffencoder.c: the index quicksort *)

Lemma lex_le_refl (value : list Z) (s : Z) : lex_le value s s.
Proof. right. split; lia. Qed.

Lemma lex_le_trans (value : list Z) (s t u : Z) :
  lex_le value s t -> lex_le value t u -> lex_le value s u.
Proof. unfold lex_le. lia. Qed.

Section QsortLexProofs.

Variable value : list Z.

Lemma qsort_partition_lex (left right : Z) (cnt : nat) :
  forall idx i last,
    0 <= left -> left <= last -> last < i -> i + Z.of_nat cnt = right + 1 ->
    right < Z.of_nat (length idx) ->
    (forall k, left < k <= last -> lex_le value (zget idx k) (zget idx left)) ->
    (forall k, last < k < i -> lex_le value (zget idx left) (zget idx k)) ->
    let r := qsort_partition cnt value idx left i last in
    length r.1 = length idx
    /\ last <= r.2 <= right
    /\ (forall k, ~ (left < k <= right) -> zget r.1 k = zget idx k)
    /\ (forall P : Z -> Prop,
          (forall k, left < k <= right -> P (zget idx k)) ->
          forall k, left < k <= right -> P (zget r.1 k))
    /\ (forall k, left < k <= r.2 -> lex_le value (zget r.1 k) (zget idx left))
    /\ (forall k, r.2 < k <= right -> lex_le value (zget idx left) (zget r.1 k)).
Proof.
  induction cnt as [|cnt IH]; intros idx i last Hl Hll Hli Hcnt Hr Hlo Hhi.
  - cbn. repeat split; try lia; auto. intros k Hk. apply Hhi. lia.
  - cbn [qsort_partition].
    set (tmp := zget idx i). set (piv := zget idx left).
    destruct ((zget value piv >? zget value tmp)
              || ((zget value piv =? zget value tmp) && (piv >? tmp))) eqn:Hc.
    + assert (Hle : lex_le value tmp piv).
      { apply orb_true_iff in Hc as [Hc|Hc]; [zbool; left; lia|].
        apply andb_true_iff in Hc as [Hc1 Hc2]. zbool. right. lia. }
      change (zset (zset idx i (zget idx (last + 1))) (last + 1) tmp)
        with (swap idx i (last + 1)).
      set (idx2 := swap idx i (last + 1)).
      assert (Hget : forall k, zget idx2 k
                = if k =? last + 1 then zget idx i
                  else if k =? i then zget idx (last + 1) else zget idx k).
      { intros k. apply swap_get; lia. }
      assert (Hleft : zget idx2 left = zget idx left).
      { rewrite Hget. case_ifs; zbool; first [lia|reflexivity]. }
      specialize (IH idx2 (i + 1) (last + 1)).
      cbn zeta in IH. rewrite Hleft in IH.
      destruct IH as (H1 & H3 & H4 & H5 & H6 & H7);
        [lia|lia|lia|lia|unfold idx2; rewrite swap_length; lia| | |].
      { intros k Hk. rewrite Hget. case_ifs; zbool; try lia; [exact Hle|].
        apply Hlo. lia. }
      { intros k Hk. rewrite Hget. case_ifs; zbool; try lia; apply Hhi; lia. }
      cbn zeta. split; [rewrite H1; apply swap_length|].
      split; [lia|]. split.
      { intros k Hk. rewrite H4 by exact Hk. rewrite Hget.
        case_ifs; zbool; first [lia|reflexivity]. }
      split; [|split; assumption].
      intros P HP. apply H5. intros k Hk. rewrite Hget.
      case_ifs; zbool; apply HP; lia.
    + assert (Hge : lex_le value piv tmp).
      { apply orb_false_iff in Hc as [Hc1 Hc2].
        apply andb_false_iff in Hc2. zbool.
        destruct (Z.eq_dec (zget value piv) (zget value tmp)) as [He|Hne].
        - right. split; [exact He|]. destruct Hc2 as [Hc2|Hc2]; zbool; lia.
        - left. lia. }
      specialize (IH idx (i + 1) last). cbn zeta in IH.
      destruct IH as (H1 & H3 & H4 & H5 & H6 & H7);
        [lia|lia|lia|lia|lia|exact Hlo| |].
      { intros k Hk. destruct (Z.eq_dec k i) as [->|Hne]; [exact Hge|].
        apply Hhi. lia. }
      cbn zeta. repeat split; try assumption; lia.
Qed.

Lemma qsort_lex_sorted (fuel : nat) :
  forall idx left right,
    0 <= left -> right < Z.of_nat (length idx) ->
    right - left + 1 <= Z.of_nat fuel ->
    let idx' := zultra_huffman_encoder_qsort fuel value idx left right in
    length idx' = length idx
    /\ (forall k, ~ (left <= k <= right) -> zget idx' k = zget idx k)
    /\ (forall P : Z -> Prop,
          (forall k, left <= k <= right -> P (zget idx k)) ->
          forall k, left <= k <= right -> P (zget idx' k))
    /\ (forall a b, left <= a -> a <= b -> b <= right ->
          lex_le value (zget idx' a) (zget idx' b)).
Proof.
  induction fuel as [|fuel IH]; intros idx left right Hl Hr Hfuel.
  - cbn. repeat split; auto. intros a b Ha Hab Hb.
    assert (a = b) as -> by lia. apply lex_le_refl.
  - cbn [zultra_huffman_encoder_qsort].
    destruct (left >=? right) eqn:Hge; zbool.
    { cbn zeta. repeat split; auto. intros a b Ha Hab Hb.
      assert (a = b) as -> by lia. apply lex_le_refl. }
    set (mid := Z.shiftr (left + right) 1).
    assert (Hmid : left <= mid <= right).
    { unfold mid. rewrite Z.shiftr_div_pow2 by lia. change (2 ^ 1) with 2.
      split; [apply Z.div_le_lower_bound; lia|apply Z.div_le_upper_bound; lia]. }
    set (idx1 := swap idx left mid).
    assert (Hlen1 : length idx1 = length idx) by apply swap_length.
    assert (Hget1 : forall k, zget idx1 k
              = if k =? mid then zget idx left
                else if k =? left then zget idx mid else zget idx k).
    { intros k. apply swap_get; lia. }
    pose proof (qsort_partition_lex left right (Z.to_nat (right - left)) idx1
                  (left + 1) left) as Hpart.
    cbn zeta in Hpart.
    destruct (qsort_partition (Z.to_nat (right - left)) value idx1 left (left + 1) left)
      as [idx2 last] eqn:Epart.
    cbn [fst snd] in Hpart.
    destruct Hpart as (P1 & P3 & P4 & P5 & P6 & P7);
      [lia|lia|lia|lia|lia|intros; lia|intros; lia|].
    set (idx3 := swap idx2 left last).
    assert (Hlen3 : length idx3 = length idx) by (unfold idx3; rewrite swap_length; lia).
    assert (Hget3 : forall k, zget idx3 k
              = if k =? last then zget idx2 left
                else if k =? left then zget idx2 last else zget idx2 k).
    { intros k. apply swap_get; lia. }
    assert (Hpiv : zget idx2 left = zget idx1 left) by (apply P4; lia).
    set (pv := zget idx1 left) in *.
    assert (Hlo3 : forall k, left <= k < last -> lex_le value (zget idx3 k) pv).
    { intros k Hk. rewrite Hget3. case_ifs; zbool; try lia; apply P6; lia. }
    assert (Hhi3 : forall k, last < k <= right -> lex_le value pv (zget idx3 k)).
    { intros k Hk. rewrite Hget3. case_ifs; zbool; try lia. apply P7. lia. }
    assert (Hat3 : zget idx3 last = pv).
    { rewrite Hget3, Z.eqb_refl, Hpiv. reflexivity. }
    destruct (IH idx3 left (last - 1)) as (A1 & A3 & A4 & A5); [lia|lia|lia|].
    set (idx4 := zultra_huffman_encoder_qsort fuel value idx3 left (last - 1)) in *.
    destruct (IH idx4 (last + 1) right) as (B1 & B3 & B4 & B5); [lia|lia|lia|].
    set (idx5 := zultra_huffman_encoder_qsort fuel value idx4 (last + 1) right) in *.
    cbn zeta.
    assert (Hall : forall P : Z -> Prop,
               (forall k, left <= k <= right -> P (zget idx k)) ->
               forall k, left <= k <= right -> P (zget idx5 k)).
    { intros P HP.
      assert (HP1 : forall k, left <= k <= right -> P (zget idx1 k)).
      { intros k Hk. rewrite Hget1. case_ifs; zbool; apply HP; lia. }
      assert (HP2 : forall k, left <= k <= right -> P (zget idx2 k)).
      { intros k Hk. destruct (Z.eq_dec k left) as [->|Hne].
        - rewrite P4 by lia. apply HP1. lia.
        - apply (P5 P); [intros; apply HP1; lia|lia]. }
      assert (HP3 : forall k, left <= k <= right -> P (zget idx3 k)).
      { intros k Hk. rewrite Hget3. case_ifs; zbool; apply HP2; lia. }
      assert (HP4 : forall k, left <= k <= right -> P (zget idx4 k)).
      { intros k Hk. destruct (Z_le_gt_dec k (last - 1)).
        - apply (A4 P); [intros; apply HP3; lia|lia].
        - rewrite A3 by lia. apply HP3. lia. }
      intros k Hk. destruct (Z_le_gt_dec (last + 1) k).
      - apply (B4 P); [intros; apply HP4; lia|lia].
      - rewrite B3 by lia. apply HP4. lia. }
    split; [lia|]. split.
    { intros k Hk. rewrite B3, A3 by lia. rewrite Hget3.
      case_ifs; zbool; try lia. rewrite P4 by lia. rewrite Hget1.
      case_ifs; zbool; first [lia|reflexivity]. }
    split; [exact Hall|].
    assert (Hlo5 : forall k, left <= k < last -> lex_le value (zget idx5 k) pv).
    { intros k Hk. rewrite B3 by lia.
      apply (A4 (fun s => lex_le value s pv)); [intros; apply Hlo3; lia|lia]. }
    assert (Hhi5 : forall k, last < k <= right -> lex_le value pv (zget idx5 k)).
    { intros k Hk.
      apply (B4 (fun s => lex_le value pv s)); [|lia].
      intros j Hj. rewrite A3 by lia. apply Hhi3. lia. }
    assert (Hat5 : zget idx5 last = pv).
    { rewrite B3, A3 by lia. exact Hat3. }
    intros a b Ha Hab Hb.
    destruct (Z_lt_ge_dec b last) as [Hb1|Hb1].
    { rewrite !(B3 _) by lia. apply A5; lia. }
    destruct (Z_lt_ge_dec last a) as [Ha1|Ha1].
    { apply B5; lia. }
    destruct (Z.eq_dec a last) as [->|Hna]; destruct (Z.eq_dec b last) as [->|Hnb];
      try lia.
    + apply lex_le_refl.
    + rewrite Hat5. apply Hhi5. lia.
    + rewrite Hat5. apply Hlo5. lia.
    + apply (lex_le_trans value _ pv); [apply Hlo5|apply Hhi5]; lia.
Qed.

End QsortLexProofs.

(** X1: [zultra_huffman_encoder_qsort] rearranges the entries of [idx]
    between [left] and [right] (a permutation that leaves every other entry
    where it was) so that they are in ascending order of [value], and, among
    entries of equal value, in ascending order of the entries themselves. *)
Theorem qsort_orders_by_value_then_index
    (value idx : list Z) (left right : Z) (fuel : nat) :
  0 <= left -> right < Z.of_nat (length idx) ->
  right - left + 1 <= Z.of_nat fuel ->
  let idx' := zultra_huffman_encoder_qsort fuel value idx left right in
  idx' ≡ₚ idx
  /\ (forall k, ~ (left <= k <= right) -> zget idx' k = zget idx k)
  /\ (forall a b, left <= a -> a <= b -> b <= right ->
        zget value (zget idx' a) < zget value (zget idx' b)
        \/ (zget value (zget idx' a) = zget value (zget idx' b)
            /\ zget idx' a <= zget idx' b)).
Proof.
  intros Hl Hr Hfuel.
  pose proof (zultra_huffman_encoder_qsort_spec value fuel idx left right Hl Hr Hfuel)
    as (_ & Hperm & _).
  pose proof (qsort_lex_sorted value fuel idx left right Hl Hr Hfuel)
    as (_ & Hout & _ & Hsorted).
  cbn zeta. split; [exact Hperm|]. split; [exact Hout|].
  intros a b Ha Hab Hb. apply Hsorted; assumption.
Qed.

Lemma qsort_orders_by_value_then_index_witness :
  let value := [7; 2; 7; 2; 1] in
  let idx := [9; 4; 2; 0; 3; 1] in
  let idx' := zultra_huffman_encoder_qsort 5 value idx 1 5 in
  idx' ≡ₚ idx
  /\ (forall k, ~ (1 <= k <= 5) -> zget idx' k = zget idx k)
  /\ (forall a b, 1 <= a -> a <= b -> b <= 5 ->
        zget value (zget idx' a) < zget value (zget idx' b)
        \/ (zget value (zget idx' a) = zget value (zget idx' b)
            /\ zget idx' a <= zget idx' b)).
Proof.
  apply (qsort_orders_by_value_then_index [7; 2; 7; 2; 1] [9; 4; 2; 0; 3; 1] 1 5 5);
    [lia|cbn; lia|lia].
Defined.

(** ** huffman/huffencoder.c: the code lengths *)

Section MKMono.

Variables (n M : Z) (A1 D : list Z).
Hypothesis Hn : 2 <= n.
Hypothesis HM : n - 1 <= M.
Hypothesis Hptr : mk_ptrs (n - 2) (n - 1) A1.
Hypothesis HD0 : zget D (n - 2) = 0.
Hypothesis HDrel :
  forall j, 0 <= j <= n - 3 -> zget D j = zget D (zget A1 j - 1) + 1.

Lemma mk_levels_mono (fuel : nat) :
  forall A a d x t A',
    mk_inv2 n M A1 D A a d x t -> mk_mono n d x A ->
    mk_levels fuel A a d x t = Some A' ->
    forall j j', 0 <= j -> j <= j' -> j' <= n - 1 -> zget A' j' <= zget A' j.
Proof.
  induction fuel as [|fuel IH]; intros A a d x t A' Hinv Hmono Hrun; [discriminate|].
  cbn [mk_levels] in Hrun. destruct (a >? 0) eqn:Ea; zbool.
  - pose proof (mk_levels_step n M A1 D Hn HM Hptr HD0 HDrel A a d x t Hinv Ea) as Hstep.
    cbn zeta in Hstep.
    destruct Hinv as (T & Ht & HtT & HT & Ht3 & Ha & Hx & Hxn & Hd & Hlen & _).
    destruct (mk_count (Z.to_nat (t + 1)) A d t 0) as [t' u]. cbn [fst snd] in Hstep.
    destruct Hstep as (Hinv' & Hu & Ht').
    pose proof (mk_assign_spec d (Z.to_nat (a - u)) A x) as Hs. cbn zeta in Hs.
    destruct (mk_assign (Z.to_nat (a - u)) A d x) as [A2 x'] eqn:Eas.
    cbn [fst snd] in Hs, Hinv'.
    assert (Hua : u <= a).
    { destruct Hinv' as (T' & ? & ? & ? & ? & ? & Hx' & ?).
      destruct (Z_le_gt_dec u a) as [|Hgt]; [assumption|exfalso].
      replace (Z.to_nat (a - u)) with O in Eas by lia. cbn in Eas.
      injection Eas as <- <-. lia. }
    destruct Hs as (S1 & S2 & S3 & S4); [lia|lia|].
    rewrite Z2Nat.id in S1 by lia.
    rewrite Z.shiftl_mul_pow2 in Hrun by lia. change (2 ^ 1) with 2 in Hrun.
    replace (u * 2) with (2 * u) in Hrun by lia.
    apply (IH A2 (2 * u) (d + 1) x' t' A' Hinv'); [|exact Hrun].
    intros j j' Hj Hjj Hj'.
    destruct (Z_le_gt_dec j x) as [Hjx|Hjx].
    + rewrite (S3 j) by lia.
      destruct (Z_le_gt_dec j' x) as [Hjx'|Hjx'].
      * rewrite (S3 j') by lia. lia.
      * rewrite (S4 j') by lia.
        destruct (Hmono j' j' ltac:(lia) ltac:(lia) Hj') as [_ Hle]. lia.
    + rewrite (S4 j), (S4 j') by lia.
      destruct (Hmono j j' ltac:(lia) Hjj Hj') as [H1 H2]. lia.
  - injection Hrun as <-.
    destruct Hinv as (T & Ht & HtT & HT & Ht3 & Ha & Hx & Hxn & Hd & Hlen & HAD & HDT
                        & HpT & HDd & Hleaf & HK).
    pose proof Hptr as (Hp1 & _ & _).
    assert (Ht1 : t = -1).
    { destruct (Z.eq_dec t (-1)) as [|Hne]; [assumption|exfalso].
      specialize (Hp1 t ltac:(lia)). specialize (HpT t ltac:(lia)). lia. }
    intros j j' Hj Hjj Hj'. apply (Hmono j j'); lia.
Qed.

End MKMono.

(** The code lengths of sorted weights never increase along the array: a
    heavier leaf is never deeper. *)
Lemma mk_code_lengths_mono (n : Z) (A A' : list Z) :
  2 <= n -> Z.of_nat (length A) = n ->
  mk_code_lengths n A = Some A' ->
  forall j j', 0 <= j -> j <= j' -> j' <= n - 1 -> zget A' j' <= zget A' j.
Proof.
  intros Hn Hlen. unfold mk_code_lengths.
  pose proof (mk_phase1_ptrs n A Hn Hlen) as Hph1. cbn zeta in Hph1.
  destruct (mk_phase1 (Z.to_nat (n - 1)) n 0 (0, 0, A)) as [[s r] A1].
  cbn [snd] in Hph1. destruct Hph1 as (Hlen1 & Hptr).
  pose proof Hptr as (Hp1 & _ & _).
  set (A2 := zset A1 (n - 2) 0).
  pose proof (mk_depths_spec n A1 (Z.to_nat (n - 2)) A2) as Hdep.
  cbn zeta in Hdep.
  set (D := mk_depths (Z.to_nat (n - 2)) A2) in *.
  destruct Hdep as (HlenD & HDhi & HDrel0).
  { unfold A2. rewrite zset_length. exact Hlen1. }
  { lia. }
  { intros j Hj. unfold A2. zgs. reflexivity. }
  { intros j Hj. apply Hp1. lia. }
  assert (HD0 : zget D (n - 2) = 0).
  { rewrite HDhi by lia. unfold A2. zgs. reflexivity. }
  assert (HDrel : forall j, 0 <= j <= n - 3 -> zget D j = zget D (zget A1 j - 1) + 1).
  { intros j Hj. apply HDrel0. lia. }
  pose proof (mk_depth_range n A1 D Hptr HD0 HDrel) as Hrange.
  replace (Z.to_nat n + 1)%nat with (S (Z.to_nat n)) by lia.
  cbn [mk_levels]. change (1 >? 0) with true. cbv iota.
  pose proof (mk_count_spec D 0 (Z.to_nat (n - 2 + 1)) (n - 2) 0 ltac:(lia) ltac:(lia)) as Hc.
  cbn zeta in Hc.
  destruct (mk_count (Z.to_nat (n - 2 + 1)) D 0 (n - 2) 0) as [t' u]. cbn [fst snd] in Hc.
  destruct Hc as (C1 & C2 & C3 & C4).
  assert (Ht' : t' = n - 3).
  { destruct (Z.eq_dec t' (n - 2)) as [->|Hne]; [exfalso; apply C4; [lia|exact HD0]|].
    destruct (Z_lt_ge_dec t' (n - 3)) as [Hlt|]; [exfalso|lia].
    specialize (C3 (n - 3) ltac:(lia)). rewrite HDrel in C3 by lia.
    specialize (Hp1 (n - 3) ltac:(lia)).
    specialize (Hrange (zget A1 (n - 3) - 1) ltac:(lia)). lia. }
  assert (Hu : u = 1) by lia. clear C2. subst t' u.
  change (Z.to_nat (1 - 1)) with O. cbn [mk_assign].
  change (Z.shiftl 1 1) with 2. change (0 + 1) with 1.
  apply (mk_levels_mono n (n - 1) A1 D Hn ltac:(lia) Hptr HD0 HDrel).
  - exists (n - 2).
    split; [lia|]. split; [lia|]. split; [lia|]. split; [lia|]. split; [lia|].
    split; [lia|]. split; [lia|]. split; [lia|]. split; [exact HlenD|].
    split; [reflexivity|].
    split; [intros j Hj; assert (j = n - 2) as -> by lia; rewrite HD0; lia|].
    split; [intros j Hj; specialize (Hp1 j ltac:(lia)); lia|].
    split.
    { intros j Hj. rewrite HDrel by lia. specialize (Hp1 j ltac:(lia)).
      specialize (Hrange (zget A1 j - 1) ltac:(lia)). lia. }
    split; [intros j Hj; lia|].
    replace (Z.to_nat (n - 1 - (n - 1))) with O by lia. cbn [rsum].
    replace (2 ^ (n - 1)) with (2 ^ Z.succ (n - 1 - 1)) by (f_equal; lia).
    rewrite Z.pow_succ_r by lia. lia.
  - intros j j' Hj Hjj Hj'. lia.
Qed.

(** The estimate with two or more used symbols, with the sorted queue and
    the array of depths it stores. *)
Lemma estimate_codelens_shape (e : zultra_huffman_encoder_t) :
  0 <= nSymbols e <= MAX_SYMBOLS ->
  let queue := used_symbols (nSymbols e) (nEntropy e) in
  let n := Z.of_nat (length queue) in
  2 <= n ->
  exists queue1 A' len,
    zultra_huffman_encoder_estimate_dynamic_codelens e = Built (set_code_lengths e len)
    /\ Z.of_nat (length queue1) = n
    /\ (forall s, In s queue1 <-> In s queue)
    /\ sorted_range (nEntropy e) queue1 0 (n - 1)
    /\ (forall j j', 0 <= j -> j <= j' -> j' <= n - 1 -> zget A' j' <= zget A' j)
    /\ (forall i, 0 <= i < n -> zget len (zget queue1 i) = zget A' i).
Proof.
  intros Hsym queue n Hn.
  unfold zultra_huffman_encoder_estimate_dynamic_codelens.
  destruct ((nSymbols e <? 0) || (nSymbols e >? MAX_SYMBOLS)) eqn:Eg.
  { apply orb_true_iff in Eg as [Eg|Eg]; zbool; lia. }
  fold queue. fold n.
  destruct (n >? 1) eqn:En; zbool; [|lia].
  pose proof (zultra_huffman_encoder_qsort_spec (nEntropy e) (length queue) queue 0 (n - 1)
                ltac:(lia) ltac:(lia) ltac:(lia)) as Hq.
  cbn zeta in Hq.
  set (queue1 := zultra_huffman_encoder_qsort (length queue) (nEntropy e) queue 0 (n - 1))
    in *.
  destruct Hq as (Hqlen & Hqperm & _ & _ & Hsorted).
  set (A := map (zget (nEntropy e)) queue1).
  assert (HlenA : Z.of_nat (length A) = n) by (unfold A; rewrite length_map; lia).
  destruct (mk_code_lengths_spec n (n - 1) A Hn ltac:(lia) HlenA)
    as (A' & HA' & HlenA' & Hrange & _).
  rewrite HA'.
  assert (Hnd1 : NoDup queue1).
  { rewrite Hqperm. apply used_symbols_NoDup. }
  assert (Hin1 : forall s, In s queue1 <-> In s queue).
  { intros s. rewrite <- !list_elem_of_In. rewrite Hqperm. reflexivity. }
  pose proof (store_code_lengths_spec queue1 A' (repeat 0 (Z.to_nat MAX_SYMBOLS))
                Hnd1 ltac:(lia)) as Hst.
  cbn zeta in Hst.
  set (len := store_code_lengths queue1 A' (repeat 0 (Z.to_nat MAX_SYMBOLS))) in *.
  destruct Hst as (S1 & S2 & S3).
  { intros s Hs. apply Hin1, used_symbols_In in Hs. rewrite repeat_length. lia. }
  exists queue1, A', len. split; [reflexivity|]. split; [lia|].
  split; [exact Hin1|]. split; [exact Hsorted|]. split.
  - apply (mk_code_lengths_mono n A A' Hn HlenA HA').
  - intros i Hi. apply S2. lia.
Qed.

(** X2: with two or more used symbols (nonzero counts among the first
    [nSymbols]), [zultra_huffman_encoder_estimate_dynamic_codelens] changes
    only the code lengths; each used symbol gets a length between 1 and the
    number of used symbols less one, every other entry is 0, and the lengths
    are those of a complete prefix code: their Kraft sum is exactly one. *)
Theorem estimate_codelens_complete (e : zultra_huffman_encoder_t) :
  0 <= nSymbols e <= MAX_SYMBOLS ->
  let n := count_used (take (Z.to_nat (nSymbols e)) (nEntropy e)) in
  2 <= n ->
  exists len,
    zultra_huffman_encoder_estimate_dynamic_codelens e = Built (set_code_lengths e len)
    /\ (forall s, 0 <= s < nSymbols e -> zget (nEntropy e) s <> 0 ->
          1 <= zget len s <= n - 1)
    /\ (forall s, ~ (0 <= s < nSymbols e /\ zget (nEntropy e) s <> 0) -> zget len s = 0)
    /\ kraft_sum (n - 1) len = 2 ^ (n - 1).
Proof.
  intros Hsym n Hn. unfold n in *. clear n.
  rewrite count_used_symbols_Z in * by lia.
  destruct (estimate_dynamic_codelens_spec e Hsym Hn) as (len & Hrun & Hlen & Hin & Hout & HK).
  exists len. split; [exact Hrun|]. split; [|split].
  - intros s Hs Hnz. apply Hin, used_symbols_In. split; assumption.
  - intros s Hs. apply Hout. rewrite used_symbols_In. exact Hs.
  - rewrite (kraft_sum_queue _ (used_symbols (nSymbols e) (nEntropy e))).
    + apply HK. lia.
    + apply used_symbols_NoDup.
    + intros s Hs. pose proof (Hin s Hs) as Hr. apply used_symbols_In in Hs.
      rewrite Hlen. unfold MAX_SYMBOLS in *. lia.
    + exact Hout.
Qed.

Lemma estimate_codelens_complete_witness :
  let e := fibonacci_tables_encoder in
  let n := count_used (take (Z.to_nat (nSymbols e)) (nEntropy e)) in
  exists len,
    zultra_huffman_encoder_estimate_dynamic_codelens e = Built (set_code_lengths e len)
    /\ (forall s, 0 <= s < nSymbols e -> zget (nEntropy e) s <> 0 ->
          1 <= zget len s <= n - 1)
    /\ (forall s, ~ (0 <= s < nSymbols e /\ zget (nEntropy e) s <> 0) -> zget len s = 0)
    /\ kraft_sum (n - 1) len = 2 ^ (n - 1).
Proof.
  apply (estimate_codelens_complete fibonacci_tables_encoder);
    vm_compute; first [discriminate | split; discriminate].
Defined.

(** X3: the estimate never gives a longer code to a more frequent symbol:
    of two used symbols, the one with the larger count has a code length no
    greater than the other's. *)
Theorem estimate_codelens_monotone (e e' : zultra_huffman_encoder_t) (s t : Z) :
  0 <= nSymbols e <= MAX_SYMBOLS ->
  zultra_huffman_encoder_estimate_dynamic_codelens e = Built e' ->
  0 <= s < nSymbols e -> 0 <= t < nSymbols e ->
  zget (nEntropy e) s <> 0 -> zget (nEntropy e) t <> 0 ->
  zget (nEntropy e) s < zget (nEntropy e) t ->
  zget (nCodeLength e') t <= zget (nCodeLength e') s.
Proof.
  intros Hsym Hrun Hs Ht Hsnz Htnz Hlt.
  assert (Hins : In s (used_symbols (nSymbols e) (nEntropy e)))
    by (apply used_symbols_In; split; assumption).
  assert (Hint : In t (used_symbols (nSymbols e) (nEntropy e)))
    by (apply used_symbols_In; split; assumption).
  assert (Hne : s <> t) by (intros ->; lia).
  pose proof (two_in_length _ s t Hne Hins Hint) as Hn.
  destruct (estimate_codelens_shape e Hsym Hn)
    as (queue1 & A' & len & Hrun' & Hqlen & Hin1 & Hsorted & Hmono & Hst).
  rewrite Hrun' in Hrun. injection Hrun as <-. cbn [nCodeLength set_code_lengths].
  apply Hin1, In_zget in Hins as (a & Ha & Hqa).
  apply Hin1, In_zget in Hint as (b & Hb & Hqb).
  rewrite <- Hqa, <- Hqb, !Hst by lia.
  assert (Hab : a <= b).
  { destruct (Z_le_gt_dec a b) as [|Hgt]; [assumption|exfalso].
    pose proof (Hsorted b a ltac:(lia) ltac:(lia) ltac:(lia)) as Hle.
    rewrite Hqa, Hqb in Hle. lia. }
  apply Hmono; lia.
Qed.

Lemma estimate_codelens_monotone_witness :
  exists e',
    zultra_huffman_encoder_estimate_dynamic_codelens fibonacci_tables_encoder = Built e'
    /\ zget (nCodeLength e') 13 <= zget (nCodeLength e') 2.
Proof.
  eexists. split; [vm_compute; reflexivity|].
  apply (estimate_codelens_monotone fibonacci_tables_encoder _ 2 13);
    vm_compute;
    first [reflexivity | discriminate | split; first [reflexivity | discriminate]].
Defined.

Lemma filter_none (f : Z -> bool) (l : list Z) :
  (forall x, In x l -> f x = false) -> List.filter f l = [].
Proof.
  induction l as [|x l IH]; intros H; [reflexivity|].
  cbn. rewrite (H x) by (left; reflexivity). apply IH. intros y Hy. apply H. right. exact Hy.
Qed.

Lemma used_symbols_lone (n : Z) :
  1 <= n ->
  used_symbols n (zset (repeat 0 (Z.to_nat MAX_SYMBOLS)) 0 1) = [0].
Proof.
  intros Hn. unfold used_symbols.
  replace (Z.to_nat n) with (S (Z.to_nat (n - 1))) by lia.
  cbn [seq map List.filter]. change (Z.of_nat 0) with 0.
  rewrite zget_zset_eq by (rewrite repeat_length; unfold MAX_SYMBOLS; lia).
  cbn [Z.eqb negb]. f_equal. apply filter_none.
  intros x Hx. apply in_map_iff in Hx as (k & <- & Hk). apply in_seq in Hk.
  rewrite zget_zset_ne by lia. rewrite zget_repeat0. reflexivity.
Qed.

(** X4: with at most one used symbol the builder gives symbol 0 the one-bit
    codeword 0 and no other symbol a code, whichever symbol is the used one:
    a lone used symbol other than 0 is left with code length 0. *)
Theorem build_codewords_lone_symbol (e : zultra_huffman_encoder_t) :
  0 <= nSymbols e <= MAX_SYMBOLS ->
  count_used (take (Z.to_nat (nSymbols e)) (nEntropy e)) <= 1 ->
  zultra_huffman_encoder_build_dynamic_codewords e
  = Built (set_code_words
             (set_code_lengths e (zset (repeat 0 (Z.to_nat MAX_SYMBOLS)) 0 1))
             (if nSymbols e =? 0 then nCodeWord e else zset (nCodeWord e) 0 0)).
Proof.
  intros Hsym Hn. rewrite count_used_symbols_Z in Hn by lia.
  unfold zultra_huffman_encoder_build_dynamic_codewords,
    zultra_huffman_encoder_estimate_dynamic_codelens.
  destruct ((nSymbols e <? 0) || (nSymbols e >? MAX_SYMBOLS)) eqn:Eg.
  { apply orb_true_iff in Eg as [Eg|Eg]; zbool; lia. }
  destruct (Z.of_nat (length (used_symbols (nSymbols e) (nEntropy e))) >? 1) eqn:En;
    zbool; [lia|].
  cbn [nSymbols nCodeLength nMaxCodeLength nCodeWord set_code_lengths].
  destruct (nSymbols e =? 0) eqn:E0; zbool.
  - rewrite E0. reflexivity.
  - rewrite used_symbols_lone by lia. cbn [length].
    change (Z.of_nat 1) with 1. change (1 >? 0) with true. cbn [andb].
    change (1 - 1) with 0.
    cbn [zultra_huffman_encoder_qsort]. change (0 >=? 0) with true. cbv iota.
    change (zget [0] 0) with 0.
    rewrite zget_zset_eq by (rewrite repeat_length; unfold MAX_SYMBOLS; lia).
    destruct (nMaxCodeLength e >? 0) eqn:EL; zbool.
    + destruct (1 >? nMaxCodeLength e) eqn:E1; zbool; [lia|]. reflexivity.
    + reflexivity.
Qed.

Lemma build_codewords_lone_symbol_witness :
  let e := {| nSymbols := NOFFSETSYMS; nMaxCodeLength := 15;
              nEntropy := zset (repeat 0 288) 5 9;
              nCodeWord := repeat 0 288; nCodeLength := repeat 0 288 |} in
  exists e',
    zultra_huffman_encoder_build_dynamic_codewords e = Built e'
    /\ zget (nCodeLength e') 5 = 0 /\ zget (nCodeLength e') 0 = 1.
Proof.
  cbn zeta. eexists. split.
  - apply build_codewords_lone_symbol;
      vm_compute; first [discriminate | split; discriminate].
  - split; reflexivity.
Defined.

(** ** huffman/huffencoder.c: the canonical codewords *)

Lemma bitrev_range (n : nat) : forall w, 0 <= bitrev n w < 2 ^ Z.of_nat n.
Proof.
  induction n as [|n IH]; intros w; [cbn; lia|].
  cbn [bitrev]. specialize (IH (w / 2)).
  pose proof (Z.mod_pos_bound w 2 ltac:(lia)) as Hm.
  replace (Z.of_nat (S n)) with (Z.succ (Z.of_nat n)) by lia.
  rewrite Z.pow_succ_r by lia. nia.
Qed.

Lemma bitrev_zero (n : nat) : bitrev n 0 = 0.
Proof. induction n as [|n IH]; [reflexivity|]. cbn [bitrev]. cbn. exact IH. Qed.

Lemma bitrev_app (n m : nat) :
  forall w, 0 <= w ->
    bitrev (n + m) w = 2 ^ Z.of_nat m * bitrev n w + bitrev m (w / 2 ^ Z.of_nat n).
Proof.
  induction n as [|n IH]; intros w Hw.
  - cbn [Nat.add bitrev]. change (Z.of_nat 0) with 0. rewrite Z.pow_0_r, Z.div_1_r. lia.
  - cbn [Nat.add bitrev]. rewrite IH by (apply Z.div_pos; lia).
    rewrite Z.div_div by lia.
    replace (2 * 2 ^ Z.of_nat n) with (2 ^ Z.of_nat (S n))
      by (replace (Z.of_nat (S n)) with (Z.succ (Z.of_nat n)) by lia;
          rewrite Z.pow_succ_r by lia; reflexivity).
    replace (Z.of_nat (n + m)) with (Z.of_nat m + Z.of_nat n) by lia.
    rewrite Z.pow_add_r by lia. lia.
Qed.

Lemma bitrev_inj (n : nat) :
  forall w w', 0 <= w < 2 ^ Z.of_nat n -> 0 <= w' < 2 ^ Z.of_nat n ->
    bitrev n w = bitrev n w' -> w = w'.
Proof.
  induction n as [|n IH]; intros w w' Hw Hw' Heq.
  - change (2 ^ Z.of_nat 0) with 1 in *. lia.
  - cbn [bitrev] in Heq.
    replace (Z.of_nat (S n)) with (Z.succ (Z.of_nat n)) in * by lia.
    rewrite Z.pow_succ_r in * by lia.
    pose proof (bitrev_range n (w / 2)) as R1. pose proof (bitrev_range n (w' / 2)) as R2.
    pose proof (Z.mod_pos_bound w 2 ltac:(lia)) as M1.
    pose proof (Z.mod_pos_bound w' 2 ltac:(lia)) as M2.
    assert (Hm : w mod 2 = w' mod 2) by nia.
    assert (Hd : w / 2 = w' / 2).
    { apply IH.
      - split; [apply Z.div_pos; lia|apply Z.div_lt_upper_bound; lia].
      - split; [apply Z.div_pos; lia|apply Z.div_lt_upper_bound; lia].
      - rewrite Hm in Heq. lia. }
    rewrite (Z.div_mod w 2), (Z.div_mod w' 2) by lia. lia.
Qed.

Lemma reverse16_agrees_spec (cnt : nat) :
  forall c, reverse16_agrees cnt c = true ->
    forall w, c <= w < c + Z.of_nat cnt -> reverse16 w = bitrev 16 w.
Proof.
  induction cnt as [|cnt IH]; intros c H w Hw; [lia|].
  cbn [reverse16_agrees] in H. apply andb_true_iff in H as [H1 H2]. zbool.
  destruct (Z.eq_dec w c) as [->|Hne]; [exact H1|].
  apply (IH (c + 1) H2). lia.
Qed.

Lemma reverse16_bitrev (w : Z) : 0 <= w < 2 ^ 16 -> reverse16 w = bitrev 16 w.
Proof.
  intros Hw. apply (reverse16_agrees_spec (Z.to_nat 65536) 0); [vm_compute; reflexivity|].
  rewrite Z2Nat.id by lia. change 65536 with (2 ^ 16). lia.
Qed.

(** The codeword stored for a canonical value [c] of [l] bits. *)
Lemma reversed_codeword (c l : Z) :
  1 <= l <= 16 -> 0 <= c < 2 ^ l ->
  Z.shiftr (reverse16 c) (16 - l) = bitrev (Z.to_nat l) c.
Proof.
  intros Hl Hc.
  assert (Hc16 : 0 <= c < 2 ^ 16).
  { pose proof (pow2_mono l 16 ltac:(lia)). lia. }
  rewrite reverse16_bitrev by exact Hc16.
  replace 16%nat with (Z.to_nat l + Z.to_nat (16 - l))%nat by lia.
  rewrite bitrev_app by lia. rewrite !Z2Nat.id by lia.
  rewrite (Z.div_small c) by lia. rewrite bitrev_zero, Z.add_0_r.
  rewrite Z.shiftr_div_pow2 by lia. rewrite Z.mul_comm.
  apply Z.div_mul. pose proof (pow2_pos (16 - l) ltac:(lia)). lia.
Qed.

Lemma queue_kraft_cons (L : Z) (s : Z) (queue len : list Z) :
  queue_kraft L (s :: queue) len = 2 ^ (L - zget len s) + queue_kraft L queue len.
Proof. reflexivity. Qed.

Lemma queue_kraft_nonneg_any (L : Z) (queue len : list Z) :
  0 <= queue_kraft L queue len.
Proof.
  induction queue as [|s queue IH]; [cbn; lia|].
  rewrite queue_kraft_cons. pose proof (pow2_nonneg (L - zget len s)). lia.
Qed.

(** The canonical codewords along a queue sorted by length: the value
    issued at position [i], scaled to [L] bits, is the Kraft number of the
    symbols queued before it. *)
Lemma issue_codewords_spec (L : Z) (len : list Z) (queue : list Z) :
  forall cw c K0,
    L <= 16 ->
    NoDup queue ->
    (forall s, In s queue -> 0 <= s < Z.of_nat (length cw)) ->
    (forall s, In s queue -> 1 <= zget len s <= L) ->
    (forall a b, 0 <= a -> a <= b -> b < Z.of_nat (length queue) ->
       zget len (zget queue a) <= zget len (zget queue b)) ->
    0 <= c -> c * 2 ^ (L - zget len (zget queue 0)) = K0 ->
    K0 + queue_kraft L queue len <= 2 ^ L ->
    let cw' := issue_codewords queue len cw c (zget len (zget queue 0)) in
    length cw' = length cw
    /\ (forall s, ~ In s queue -> zget cw' s = zget cw s)
    /\ (forall i, 0 <= i < Z.of_nat (length queue) ->
          exists ci,
            0 <= ci
            /\ ci * 2 ^ (L - zget len (zget queue i))
               = K0 + queue_kraft L (take (Z.to_nat i) queue) len
            /\ zget cw' (zget queue i)
               = bitrev (Z.to_nat (zget len (zget queue i))) ci).
Proof.
  induction queue as [|n rest IH]; intros cw c K0 HL Hnd Hin Hlen Hsorted Hc HK0 HK.
  - cbn. split; [reflexivity|]. split; [reflexivity|]. intros i Hi. lia.
  - apply NoDup_cons in Hnd as [Hn Hnd]. rewrite list_elem_of_In in Hn.
    change (zget (n :: rest) 0) with n in *.
    pose proof (Hlen n ltac:(left; reflexivity)) as Hln.
    pose proof (Hin n ltac:(left; reflexivity)) as Hnr.
    rewrite queue_kraft_cons in HK.
    pose proof (queue_kraft_nonneg_any L rest len) as Hrest.
    pose proof (pow2_pos (L - zget len n) ltac:(lia)) as Hpw.
    assert (Hc2 : c < 2 ^ zget len n).
    { assert (Hlt : (c + 1) * 2 ^ (L - zget len n) <= 2 ^ zget len n * 2 ^ (L - zget len n)).
      { rewrite <- Z.pow_add_r by lia. replace (zget len n + (L - zget len n)) with L by lia.
        lia. }
      apply Z.mul_le_mono_pos_r in Hlt; lia. }
    assert (Hword : Z.shiftr (reverse16 c) (16 - zget len n)
                    = bitrev (Z.to_nat (zget len n)) c).
    { apply reversed_codeword; lia. }
    cbn [issue_codewords]. rewrite Hword.
    set (cw1 := zset cw n (bitrev (Z.to_nat (zget len n)) c)).
    destruct rest as [|n' rest'].
    + cbn zeta. split; [apply zset_length|]. split.
      * intros s Hs. apply zget_zset_ne. intros ->. apply Hs. left. reflexivity.
      * intros i Hi. cbn [length] in Hi. assert (i = 0) as -> by lia.
        exists c. split; [exact Hc|]. split.
        { change (zget [n] 0) with n. change (Z.to_nat 0) with O.
          unfold queue_kraft. cbn [take lsum]. lia. }
        { change (zget [n] 0) with n. apply zget_zset_eq. exact Hnr. }
    + change (zget (n' :: rest') 0) with n' in IH.
      pose proof (Hlen n' ltac:(right; left; reflexivity)) as Hln'.
      assert (Hmono : zget len n <= zget len n').
      { specialize (Hsorted 0 1 ltac:(lia) ltac:(lia) ltac:(cbn [length]; lia)).
        exact Hsorted. }
      set (c' := u32 (Z.shiftl (c + 1) (zget len n' - zget len n))).
      rewrite queue_kraft_cons in HK, Hrest.
      pose proof (queue_kraft_nonneg_any L rest' len) as Hrest'.
      pose proof (pow2_pos (L - zget len n') ltac:(lia)) as Hpw'.
      assert (Hsplit : 2 ^ (L - zget len n)
                       = 2 ^ (zget len n' - zget len n) * 2 ^ (L - zget len n')).
      { rewrite <- Z.pow_add_r by lia. f_equal. lia. }
      assert (Hc'v : c' = (c + 1) * 2 ^ (zget len n' - zget len n)).
      { unfold c', u32. rewrite Z.shiftl_mul_pow2 by lia.
        apply Z.mod_small.
        pose proof (pow2_pos (zget len n' - zget len n) ltac:(lia)).
        split; [nia|].
        assert (Hb : (c + 1) * 2 ^ (zget len n' - zget len n) <= 2 ^ zget len n').
        { replace (zget len n') with (zget len n + (zget len n' - zget len n)) at 2 by lia.
          rewrite Z.pow_add_r by lia. nia. }
        pose proof (pow2_mono (zget len n') 16 ltac:(lia)).
        change (2 ^ 16) with 65536 in *. change (2 ^ 32) with 4294967296. lia. }
      assert (HK0' : c' * 2 ^ (L - zget len n') = K0 + 2 ^ (L - zget len n)).
      { rewrite Hc'v, <- Z.mul_assoc, <- Hsplit. lia. }
      destruct (IH cw1 c' (K0 + 2 ^ (L - zget len n))) as (I1 & I2 & I3).
      { exact HL. }
      { exact Hnd. }
      { intros s Hs. unfold cw1. rewrite zset_length. apply Hin. right. exact Hs. }
      { intros s Hs. apply Hlen. right. exact Hs. }
      { intros a b Ha Hab Hb.
        specialize (Hsorted (a + 1) (b + 1) ltac:(lia) ltac:(lia)
                      ltac:(cbn [length] in *; lia)).
        rewrite !zget_cons in Hsorted by lia. exact Hsorted. }
      { rewrite Hc'v. pose proof (pow2_pos (zget len n' - zget len n) ltac:(lia)). nia. }
      { exact HK0'. }
      { rewrite queue_kraft_cons. lia. }
      cbn zeta in I1, I2, I3. cbn zeta.
      fold c'. fold cw1.
      split; [rewrite I1; apply zset_length|]. split.
      * intros s Hs. rewrite I2 by (intros Hin'; apply Hs; right; exact Hin').
        apply zget_zset_ne. intros ->. apply Hs. left. reflexivity.
      * intros i Hi. destruct (Z.eq_dec i 0) as [->|Hne].
        { exists c. split; [exact Hc|]. split.
          - change (zget (n :: n' :: rest') 0) with n. change (Z.to_nat 0) with O.
            unfold queue_kraft. cbn [take lsum]. lia.
          - change (zget (n :: n' :: rest') 0) with n.
            rewrite I2 by exact Hn. apply zget_zset_eq. exact Hnr. }
        { destruct (I3 (i - 1)) as (ci & Hci0 & Hci & Hcw).
          { cbn [length] in *. lia. }
          replace i with (i - 1 + 1) by lia. rewrite zget_cons by lia.
          exists ci. split; [exact Hci0|]. split; [|exact Hcw].
          rewrite Hci. replace (Z.to_nat (i - 1 + 1)) with (S (Z.to_nat (i - 1))) by lia.
          cbn [take]. rewrite queue_kraft_cons. lia. }
Qed.

(** The build with two or more used symbols, with the queue and the lengths
    the codewords are issued from. *)
Lemma build_dynamic_codewords_shape (e : zultra_huffman_encoder_t) :
  0 <= nSymbols e <= MAX_SYMBOLS -> 1 <= nMaxCodeLength e <= 30 ->
  let queue := used_symbols (nSymbols e) (nEntropy e) in
  let n := Z.of_nat (length queue) in
  2 <= n <= 2 ^ nMaxCodeLength e ->
  exists queuef lenf,
    zultra_huffman_encoder_build_dynamic_codewords e
    = Built (set_code_words (set_code_lengths e lenf)
               (issue_codewords queuef lenf (nCodeWord e) 0
                  (zget lenf (zget queuef 0))))
    /\ queuef ≡ₚ queue
    /\ (forall a b, 0 <= a -> a <= b -> b <= n - 1 ->
          lex_le lenf (zget queuef a) (zget queuef b))
    /\ (forall s, In s queue -> 1 <= zget lenf s <= nMaxCodeLength e)
    /\ (forall s, ~ In s queue -> zget lenf s = 0)
    /\ queue_kraft (nMaxCodeLength e) queue lenf = 2 ^ nMaxCodeLength e.
Proof.
  intros Hsym HL queue n Hn.
  set (L := nMaxCodeLength e) in *.
  destruct (estimate_dynamic_codelens_spec e Hsym ltac:(fold queue; fold n; lia))
    as (len1 & Hest & Hlen1 & Hused & Hunused & HK).
  fold queue in Hused, Hunused, HK. fold n in Hused, HK.
  unfold zultra_huffman_encoder_build_dynamic_codewords. rewrite Hest.
  cbn [nSymbols nCodeLength nMaxCodeLength nCodeWord set_code_lengths]. fold L.
  assert (Hq1 : used_symbols (nSymbols e) len1 = queue).
  { apply used_symbols_ext. intros s Hs.
    pose proof (used_symbols_In (nSymbols e) (nEntropy e) s) as Hiff. fold queue in Hiff.
    destruct (Z.eq_dec (zget (nEntropy e) s) 0) as [Hz|Hnz].
    - rewrite Hunused by (rewrite Hiff; tauto). tauto.
    - specialize (Hused s ltac:(apply Hiff; tauto)). split; intros; lia. }
  rewrite Hq1. fold n.
  destruct ((n >? 0) && (L >? 0)) eqn:Hg.
  2:{ apply andb_false_iff in Hg as [Hg|Hg]; zbool; lia. }
  pose proof (zultra_huffman_encoder_qsort_spec len1 (length queue) queue 0 (n - 1)
                ltac:(lia) ltac:(lia) ltac:(lia)) as Hq.
  pose proof (qsort_lex_sorted len1 (length queue) queue 0 (n - 1)
                ltac:(lia) ltac:(lia) ltac:(lia)) as Hqx.
  cbn zeta in Hq, Hqx.
  set (queue2 := zultra_huffman_encoder_qsort (length queue) len1 queue 0 (n - 1)) in *.
  destruct Hq as (Hq2len & Hq2perm & _ & _ & Hsorted).
  destruct Hqx as (_ & _ & _ & Hlex).
  assert (Hin2 : forall s, In s queue2 <-> In s queue).
  { intros s. rewrite <- !list_elem_of_In. rewrite Hq2perm. reflexivity. }
  assert (HKq2 : forall K, queue_kraft K queue2 len1 = queue_kraft K queue len1).
  { intros K. apply lsum_Permutation. exact Hq2perm. }
  pose proof (used_symbols_length (nSymbols e) (nEntropy e) ltac:(lia)) as Hn288.
  fold queue in Hn288. fold n in Hn288.
  destruct (zget len1 (zget queue2 (n - 1)) >? L) eqn:Hmax; zbool.
  - destruct (limit_code_lengths_spec queue2 len1 L (n - 1))
      as (len' & Hlim & Hlen' & Hrange & Hout & HK');
      try rewrite Hq2len; try (fold n); try lia.
    { rewrite Hq2perm. apply used_symbols_NoDup. }
    { intros s Hs. apply Hin2, used_symbols_In in Hs. unfold MAX_SYMBOLS in *. lia. }
    { intros i Hi. apply Hused, Hin2, zget_In. lia. }
    { exact Hsorted. }
    { rewrite HKq2. apply HK. lia. }
    rewrite Hlim.
    pose proof (zultra_huffman_encoder_qsort_spec len' (length queue) queue2 0 (n - 1)
                  ltac:(lia) ltac:(lia) ltac:(lia)) as Hq3.
    pose proof (qsort_lex_sorted len' (length queue) queue2 0 (n - 1)
                  ltac:(lia) ltac:(lia) ltac:(lia)) as Hq3x.
    cbn zeta in Hq3, Hq3x.
    set (queue3 := zultra_huffman_encoder_qsort (length queue) len' queue2 0 (n - 1)) in *.
    destruct Hq3 as (_ & Hq3perm & _). destruct Hq3x as (_ & _ & _ & Hlex3).
    exists queue3, len'. split; [reflexivity|].
    split; [rewrite Hq3perm; exact Hq2perm|]. split; [exact Hlex3|].
    split; [|split].
    + intros s Hs. apply Hin2, In_zget in Hs as (i & Hi & <-). apply Hrange. lia.
    + intros s Hs. rewrite Hout by (rewrite Hin2; exact Hs). apply Hunused, Hs.
    + rewrite <- HK'. symmetry. apply lsum_Permutation. exact Hq2perm.
  - exists queue2, len1. split; [reflexivity|].
    split; [exact Hq2perm|]. split; [exact Hlex|].
    assert (Hle : forall s, In s queue -> 1 <= zget len1 s <= L).
    { intros s Hs. split; [apply Hused, Hs|].
      apply Hin2, In_zget in Hs as (i & Hi & <-).
      pose proof (Hsorted i (n - 1) ltac:(lia) ltac:(lia) ltac:(lia)). lia. }
    split; [exact Hle|]. split; [exact Hunused|].
    apply (queue_kraft_rescale L (Z.max L (n - 1))); [lia| |apply HK; lia].
    intros s Hs. specialize (Hle s Hs). lia.
Qed.

Lemma lex_le_len (len : list Z) (s t : Z) : lex_le len s t -> zget len s <= zget len t.
Proof. unfold lex_le. lia. Qed.

Lemma lex_ltb_spec (len : list Z) (s t : Z) :
  lex_ltb len s t = true <-> (lex_le len s t /\ s <> t).
Proof.
  unfold lex_ltb, lex_le. split.
  - intros H. apply orb_true_iff in H as [H|H];
      [zbool; split; [lia|intros ->; lia]|].
    apply andb_true_iff in H as [H1 H2]. zbool. lia.
  - intros [H Hne]. apply orb_true_iff.
    destruct H as [H|[H1 H2]]; [left; apply Z.ltb_lt; exact H|right].
    apply andb_true_iff. split; [apply Z.eqb_eq; exact H1|apply Z.ltb_lt; lia].
Qed.

Lemma queue_kraft_app (L : Z) (q1 q2 len : list Z) :
  queue_kraft L (q1 ++ q2) len = queue_kraft L q1 len + queue_kraft L q2 len.
Proof. apply lsum_app. Qed.

Lemma queue_kraft_take_S (L : Z) (queue len : list Z) (i : Z) :
  0 <= i < Z.of_nat (length queue) ->
  queue_kraft L (take (Z.to_nat (i + 1)) queue) len
  = queue_kraft L (take (Z.to_nat i) queue) len + 2 ^ (L - zget len (zget queue i)).
Proof.
  intros Hi. replace (Z.to_nat (i + 1)) with (S (Z.to_nat i)) by lia.
  rewrite (take_S_r queue (Z.to_nat i) (zget queue i)) by (apply zget_lookup; exact Hi).
  rewrite queue_kraft_app. f_equal. unfold queue_kraft. cbn [lsum]. lia.
Qed.

Lemma queue_kraft_take_le (L : Z) (queue len : list Z) (i j : nat) :
  (i <= j)%nat ->
  queue_kraft L (take i queue) len <= queue_kraft L (take j queue) len.
Proof.
  intros Hij. rewrite <- (take_drop i (take j queue)).
  rewrite take_take, queue_kraft_app. replace (i `min` j)%nat with i by lia.
  pose proof (queue_kraft_nonneg_any L (drop i (take j queue)) len). lia.
Qed.

(** The symbols queued before position [i] of a sorted queue are those that
    come before its symbol in the order of the sort. *)
Lemma sorted_prefix_filter (len queue : list Z) (i : Z) :
  NoDup queue ->
  (forall a b, 0 <= a -> a <= b -> b < Z.of_nat (length queue) ->
     lex_le len (zget queue a) (zget queue b)) ->
  0 <= i < Z.of_nat (length queue) ->
  take (Z.to_nat i) queue ≡ₚ List.filter (fun u => lex_ltb len u (zget queue i)) queue.
Proof.
  intros Hnd Hsorted Hi. apply NoDup_Permutation.
  - apply (sublist_NoDup _ queue); [exact Hnd|apply sublist_take].
  - apply NoDup_ListNoDup, List.NoDup_filter, NoDup_ListNoDup, Hnd.
  - intros x. rewrite !list_elem_of_In, filter_In, lex_ltb_spec. split.
    + intros Hx. apply list_elem_of_In, list_elem_of_lookup_1 in Hx as [k Hk].
      apply lookup_take_Some in Hk as [Hk Hlt].
      pose proof (lookup_lt_Some _ _ _ Hk) as Hklen.
      assert (Hxk : zget queue (Z.of_nat k) = x).
      { pose proof (zget_lookup queue (Z.of_nat k) ltac:(lia)) as Hz.
        rewrite Nat2Z.id, Hk in Hz. injection Hz as Hz. symmetry. exact Hz. }
      split; [apply list_elem_of_In, (list_elem_of_lookup_2 _ k), Hk|].
      split.
      * rewrite <- Hxk. apply Hsorted; lia.
      * intros Heq. rewrite <- Hxk in Heq.
        apply (NoDup_zget_inj queue) in Heq; [lia|exact Hnd|lia|lia].
    + intros (Hin & Hle & Hne).
      apply In_zget in Hin as (k & Hk & Hxk).
      assert (Hki : k < i).
      { destruct (Z_lt_ge_dec k i) as [|Hge]; [assumption|exfalso].
        pose proof (Hsorted i k ltac:(lia) ltac:(lia) ltac:(lia)) as Hle'.
        rewrite Hxk in Hle'. unfold lex_le in *. lia. }
      apply list_elem_of_In, (list_elem_of_lookup_2 _ (Z.to_nat k)).
      apply lookup_take_Some. split; [|lia].
      rewrite <- Hxk. apply zget_lookup. lia.
Qed.

Section CanonicalTable.

Variables (L : Z) (len queue cw : list Z).
Hypothesis HL : L <= 16.
Hypothesis Hnd : NoDup queue.
Hypothesis Hin : forall s, In s queue -> 0 <= s < Z.of_nat (length cw).
Hypothesis Hlen : forall s, In s queue -> 1 <= zget len s <= L.
Hypothesis Hsorted :
  forall a b, 0 <= a -> a <= b -> b < Z.of_nat (length queue) ->
    lex_le len (zget queue a) (zget queue b).
Hypothesis Hkraft : queue_kraft L queue len <= 2 ^ L.

Local Abbreviation cw' :=
  (issue_codewords queue len cw 0 (zget len (zget queue 0))).

Lemma canonical_at (i : Z) :
  0 <= i < Z.of_nat (length queue) ->
  exists ci,
    0 <= ci < 2 ^ zget len (zget queue i)
    /\ ci * 2 ^ (L - zget len (zget queue i))
       = queue_kraft L (take (Z.to_nat i) queue) len
    /\ zget cw' (zget queue i) = bitrev (Z.to_nat (zget len (zget queue i))) ci.
Proof.
  intros Hi.
  pose proof (issue_codewords_spec L len queue cw 0 0 HL Hnd Hin Hlen) as Hspec.
  destruct Hspec as (_ & _ & H3); [|lia|lia|lia|].
  { intros a b Ha Hab Hb. apply lex_le_len, Hsorted; assumption. }
  destruct (H3 i Hi) as (ci & Hci0 & Hci & Hcw).
  exists ci. rewrite Z.add_0_l in Hci. split; [|split; assumption].
  split; [exact Hci0|].
  pose proof (Hlen (zget queue i) (zget_In queue i Hi)) as Hli.
  pose proof (queue_kraft_take_S L queue len i Hi) as HS.
  pose proof (queue_kraft_take_le L queue len (Z.to_nat (i + 1)) (length queue)
                ltac:(lia)) as Hle.
  rewrite firstn_all in Hle.
  pose proof (pow2_pos (L - zget len (zget queue i)) ltac:(lia)) as Hpw.
  assert (Hlt : (ci + 1) * 2 ^ (L - zget len (zget queue i))
                <= 2 ^ zget len (zget queue i) * 2 ^ (L - zget len (zget queue i))).
  { rewrite <- Z.pow_add_r by lia.
    replace (zget len (zget queue i) + (L - zget len (zget queue i))) with L by lia. lia. }
  apply Z.mul_le_mono_pos_r in Hlt; lia.
Qed.

Lemma canonical_fits (s : Z) :
  In s queue -> 0 <= zget cw' s < 2 ^ zget len s.
Proof.
  intros Hs. pose proof (Hlen s Hs) as Hl.
  apply In_zget in Hs as (i & Hi & <-).
  destruct (canonical_at i Hi) as (ci & _ & _ & Hcw). rewrite Hcw.
  pose proof (bitrev_range (Z.to_nat (zget len (zget queue i))) ci) as Hr.
  rewrite Z2Nat.id in Hr by lia. exact Hr.
Qed.

Lemma canonical_prefix_free_at (i j : Z) :
  0 <= i -> i < j -> j < Z.of_nat (length queue) ->
  zget cw' (zget queue j) mod 2 ^ zget len (zget queue i) <> zget cw' (zget queue i).
Proof.
  intros Hi Hij Hj.
  destruct (canonical_at i ltac:(lia)) as (ci & Hcir & Hci & Hcwi).
  destruct (canonical_at j ltac:(lia)) as (cj & Hcjr & Hcj & Hcwj).
  pose proof (Hlen (zget queue i) (zget_In queue i ltac:(lia))) as Hli.
  pose proof (Hlen (zget queue j) (zget_In queue j ltac:(lia))) as Hlj.
  pose proof (lex_le_len _ _ _ (Hsorted i j ltac:(lia) ltac:(lia) ltac:(lia))) as Hlij.
  set (li := zget len (zget queue i)) in *. set (lj := zget len (zget queue j)) in *.
  pose proof (queue_kraft_take_S L queue len i ltac:(lia)) as HS. fold li in HS.
  pose proof (queue_kraft_take_le L queue len (Z.to_nat (i + 1)) (Z.to_nat j)
                ltac:(lia)) as Hle.
  pose proof (pow2_pos (L - lj) ltac:(lia)) as Hpj.
  pose proof (pow2_pos (lj - li) ltac:(lia)) as Hpd.
  assert (Hsplit : 2 ^ (L - li) = 2 ^ (lj - li) * 2 ^ (L - lj)).
  { rewrite <- Z.pow_add_r by lia. f_equal. lia. }
  assert (Hge : (ci + 1) * 2 ^ (lj - li) <= cj).
  { assert (H : (ci + 1) * 2 ^ (lj - li) * 2 ^ (L - lj) <= cj * 2 ^ (L - lj)).
    { rewrite <- Z.mul_assoc, <- Hsplit. lia. }
    apply Z.mul_le_mono_pos_r in H; lia. }
  assert (Hq : ci + 1 <= cj / 2 ^ (lj - li)).
  { apply Z.div_le_lower_bound; lia. }
  assert (Hqr : 0 <= cj / 2 ^ (lj - li) < 2 ^ li).
  { split; [apply Z.div_pos; lia|]. apply Z.div_lt_upper_bound; [lia|].
    rewrite <- Z.pow_add_r by lia. replace (lj - li + li) with lj by lia. lia. }
  rewrite Hcwi, Hcwj.
  replace (Z.to_nat lj) with (Z.to_nat (lj - li) + Z.to_nat li)%nat by lia.
  rewrite bitrev_app by lia. rewrite !Z2Nat.id by lia.
  pose proof (bitrev_range (Z.to_nat li) (cj / 2 ^ (lj - li))) as Hr.
  rewrite Z2Nat.id in Hr by lia.
  rewrite Z.add_comm, Z.mul_comm, Z.mod_add by lia.
  rewrite Z.mod_small by exact Hr.
  intros Heq. apply bitrev_inj in Heq; rewrite ?Z2Nat.id by lia; lia.
Qed.

Lemma canonical_prefix_free (s t : Z) :
  In s queue -> In t queue -> s <> t -> zget len s <= zget len t ->
  zget cw' t mod 2 ^ zget len s <> zget cw' s.
Proof.
  intros Hs Ht Hne Hst.
  pose proof (canonical_fits s Hs) as Hfs. pose proof (canonical_fits t Ht) as Hft.
  apply In_zget in Hs as (i & Hi & Hqi). apply In_zget in Ht as (j & Hj & Hqj).
  destruct (Z_lt_ge_dec i j) as [Hij|Hij].
  - rewrite <- Hqi, <- Hqj. apply canonical_prefix_free_at; lia.
  - assert (Hji : j < i).
    { destruct (Z.eq_dec i j) as [->|]; [exfalso; apply Hne; congruence|lia]. }
    pose proof (lex_le_len _ _ _ (Hsorted j i ltac:(lia) ltac:(lia) ltac:(lia))) as Hle.
    rewrite Hqi, Hqj in Hle.
    assert (Heq : zget len s = zget len t) by lia.
    pose proof (canonical_prefix_free_at j i ltac:(lia) Hji ltac:(lia)) as Hpf.
    rewrite Hqi, Hqj in Hpf. rewrite <- Heq in Hpf.
    rewrite Z.mod_small in Hpf by exact Hfs.
    rewrite Z.mod_small by (rewrite Heq; exact Hft).
    intros H. apply Hpf. symmetry. exact H.
Qed.

End CanonicalTable.

Lemma lsum_filter_Permutation (g : Z -> Z) (f : Z -> bool) (l l' : list Z) :
  l ≡ₚ l' -> lsum g (List.filter f l) = lsum g (List.filter f l').
Proof.
  induction 1 as [|x l l' _ IH|x y l|l l' l'' _ IH1 _ IH2].
  - reflexivity.
  - cbn [List.filter]. destruct (f x); cbn [lsum]; lia.
  - cbn [List.filter]. destruct (f x), (f y); cbn [lsum]; lia.
  - lia.
Qed.

(** The codewords the build issues, for an encoder of at most 16 bits with
    between two and [2^L] used symbols. *)
Lemma build_dynamic_codewords_table (e : zultra_huffman_encoder_t) :
  0 <= nSymbols e <= MAX_SYMBOLS -> 1 <= nMaxCodeLength e <= 16 ->
  let queue := used_symbols (nSymbols e) (nEntropy e) in
  2 <= Z.of_nat (length queue) <= 2 ^ nMaxCodeLength e ->
  nSymbols e <= Z.of_nat (length (nCodeWord e)) ->
  exists e',
    zultra_huffman_encoder_build_dynamic_codewords e = Built e'
    /\ (forall s, In s queue -> 1 <= zget (nCodeLength e') s <= nMaxCodeLength e)
    /\ (forall s, ~ In s queue ->
          zget (nCodeLength e') s = 0 /\ zget (nCodeWord e') s = zget (nCodeWord e) s)
    /\ (forall s, In s queue ->
          0 <= zget (nCodeWord e') s < 2 ^ zget (nCodeLength e') s)
    /\ (forall s t, In s queue -> In t queue -> s <> t ->
          zget (nCodeLength e') s <= zget (nCodeLength e') t ->
          zget (nCodeWord e') t mod 2 ^ zget (nCodeLength e') s <> zget (nCodeWord e') s)
    /\ (forall s, In s queue ->
          exists c,
            0 <= c < 2 ^ zget (nCodeLength e') s
            /\ zget (nCodeWord e') s
               = Z.shiftr (reverse16 c) (16 - zget (nCodeLength e') s)
            /\ c * 2 ^ (nMaxCodeLength e - zget (nCodeLength e') s)
               = kraft_before (nMaxCodeLength e) queue (nCodeLength e') s).
Proof.
  intros Hsym HL queue Hn Hcw.
  destruct (build_dynamic_codewords_shape e Hsym ltac:(lia) Hn)
    as (queuef & lenf & Hrun & Hperm & Hlex & Hused & Hunused & HK).
  fold queue in Hperm, Hlex, Hused, Hunused, HK.
  set (L := nMaxCodeLength e) in *.
  assert (Hinf : forall s, In s queuef <-> In s queue).
  { intros s. rewrite <- !list_elem_of_In. rewrite Hperm. reflexivity. }
  assert (Hlenf : length queuef = length queue) by (rewrite Hperm; reflexivity).
  assert (Hndf : NoDup queuef) by (rewrite Hperm; apply used_symbols_NoDup).
  assert (Hrangef : forall s, In s queuef -> 0 <= s < Z.of_nat (length (nCodeWord e))).
  { intros s Hs. apply Hinf, used_symbols_In in Hs. lia. }
  assert (Hlen_f : forall s, In s queuef -> 1 <= zget lenf s <= L).
  { intros s Hs. apply Hused, Hinf, Hs. }
  assert (Hsortedf : forall a b, 0 <= a -> a <= b -> b < Z.of_nat (length queuef) ->
                       lex_le lenf (zget queuef a) (zget queuef b)).
  { intros a b Ha Hab Hb. apply Hlex; lia. }
  assert (HKf : queue_kraft L queuef lenf <= 2 ^ L).
  { unfold queue_kraft in *. rewrite (lsum_Permutation _ _ _ Hperm). lia. }
  eexists. split; [exact Hrun|].
  cbn [nCodeLength nCodeWord set_code_words set_code_lengths].
  split; [exact Hused|]. split; [|split; [|split]].
  - intros s Hs. split; [apply Hunused, Hs|].
    pose proof (issue_codewords_spec L lenf queuef (nCodeWord e) 0 0 ltac:(lia)
                  Hndf Hrangef Hlen_f) as Hspec.
    destruct Hspec as (_ & H2 & _); [|lia|lia|lia|].
    { intros a b Ha Hab Hb. apply lex_le_len, Hsortedf; assumption. }
    apply H2. rewrite Hinf. exact Hs.
  - intros s Hs.
    apply (canonical_fits L lenf queuef (nCodeWord e)); try assumption; [lia|].
    apply Hinf, Hs.
  - intros s t Hs Ht Hne Hst.
    apply (canonical_prefix_free L lenf queuef (nCodeWord e)); try assumption;
      [lia|apply Hinf, Hs|apply Hinf, Ht].
  - intros s Hs. pose proof (Hused s Hs) as Hls.
    apply Hinf, In_zget in Hs as (i & Hi & Hqi).
    destruct (canonical_at L lenf queuef (nCodeWord e) ltac:(lia) Hndf Hrangef Hlen_f
                Hsortedf HKf i Hi) as (ci & Hcir & Hci & Hcwi).
    rewrite Hqi in Hcir, Hci, Hcwi.
    exists ci. split; [exact Hcir|]. split.
    + rewrite Hcwi. symmetry. apply reversed_codeword; lia.
    + rewrite Hci. unfold kraft_before, queue_kraft.
      rewrite (lsum_Permutation _ _ _ (sorted_prefix_filter lenf queuef i Hndf Hsortedf Hi)).
      rewrite Hqi. apply lsum_filter_Permutation. exact Hperm.
Qed.

(** X5: for an encoder of at most 16 bits with between two and
    [2^nMaxCodeLength] used symbols, the codewords
    [zultra_huffman_encoder_build_dynamic_codewords] issues form a prefix
    code as the bit writer sends them, least significant bit first: each
    used symbol's codeword fits in its code length, and the bits of a used
    symbol's codeword are never the first bits of another's. *)
Theorem dynamic_codewords_prefix_free (e : zultra_huffman_encoder_t) :
  0 <= nSymbols e <= MAX_SYMBOLS -> 1 <= nMaxCodeLength e <= 16 ->
  2 <= count_used (take (Z.to_nat (nSymbols e)) (nEntropy e)) <= 2 ^ nMaxCodeLength e ->
  nSymbols e <= Z.of_nat (length (nCodeWord e)) ->
  exists e',
    zultra_huffman_encoder_build_dynamic_codewords e = Built e'
    /\ (forall s, 0 <= s < nSymbols e -> zget (nEntropy e) s <> 0 ->
          1 <= zget (nCodeLength e') s <= nMaxCodeLength e
          /\ 0 <= zget (nCodeWord e') s < 2 ^ zget (nCodeLength e') s)
    /\ (forall s t, 0 <= s < nSymbols e -> 0 <= t < nSymbols e ->
          zget (nEntropy e) s <> 0 -> zget (nEntropy e) t <> 0 -> s <> t ->
          zget (nCodeLength e') s <= zget (nCodeLength e') t ->
          zget (nCodeWord e') t mod 2 ^ zget (nCodeLength e') s
          <> zget (nCodeWord e') s).
Proof.
  intros Hsym HL Hn Hcw. rewrite count_used_symbols_Z in Hn by lia.
  destruct (build_dynamic_codewords_table e Hsym HL Hn Hcw)
    as (e' & Hrun & Hlen & _ & Hfit & Hpf & _).
  exists e'. split; [exact Hrun|]. split.
  - intros s Hs Hnz.
    assert (Hin : In s (used_symbols (nSymbols e) (nEntropy e)))
      by (apply used_symbols_In; split; assumption).
    split; [apply Hlen, Hin|apply Hfit, Hin].
  - intros s t Hs Ht Hsnz Htnz Hne Hst.
    apply Hpf; try assumption; apply used_symbols_In; split; assumption.
Qed.

Lemma dynamic_codewords_prefix_free_witness :
  let e := fibonacci_tables_encoder in
  exists e',
    zultra_huffman_encoder_build_dynamic_codewords e = Built e'
    /\ (forall s, 0 <= s < nSymbols e -> zget (nEntropy e) s <> 0 ->
          1 <= zget (nCodeLength e') s <= nMaxCodeLength e
          /\ 0 <= zget (nCodeWord e') s < 2 ^ zget (nCodeLength e') s)
    /\ (forall s t, 0 <= s < nSymbols e -> 0 <= t < nSymbols e ->
          zget (nEntropy e) s <> 0 -> zget (nEntropy e) t <> 0 -> s <> t ->
          zget (nCodeLength e') s <= zget (nCodeLength e') t ->
          zget (nCodeWord e') t mod 2 ^ zget (nCodeLength e') s
          <> zget (nCodeWord e') s).
Proof.
  apply (dynamic_codewords_prefix_free fibonacci_tables_encoder);
    vm_compute; first [discriminate | split; discriminate].
Defined.

(** X6: the codewords are the canonical ones, fixed by the code lengths
    alone: the codeword of a used symbol is the bit reversal of the value
    [c] whose weight [c * 2^(L - length)] is the Kraft number of the used
    symbols that come before it by code length, then by symbol index. *)
Theorem dynamic_codewords_canonical (e : zultra_huffman_encoder_t) :
  0 <= nSymbols e <= MAX_SYMBOLS -> 1 <= nMaxCodeLength e <= 16 ->
  2 <= count_used (take (Z.to_nat (nSymbols e)) (nEntropy e)) <= 2 ^ nMaxCodeLength e ->
  nSymbols e <= Z.of_nat (length (nCodeWord e)) ->
  exists e',
    zultra_huffman_encoder_build_dynamic_codewords e = Built e'
    /\ (forall s, 0 <= s < nSymbols e -> zget (nEntropy e) s <> 0 ->
          exists c,
            0 <= c < 2 ^ zget (nCodeLength e') s
            /\ zget (nCodeWord e') s
               = Z.shiftr (reverse16 c) (16 - zget (nCodeLength e') s)
            /\ c * 2 ^ (nMaxCodeLength e - zget (nCodeLength e') s)
               = kraft_before (nMaxCodeLength e)
                   (used_symbols (nSymbols e) (nEntropy e)) (nCodeLength e') s)
    /\ (forall s, ~ (0 <= s < nSymbols e /\ zget (nEntropy e) s <> 0) ->
          zget (nCodeLength e') s = 0 /\ zget (nCodeWord e') s = zget (nCodeWord e) s).
Proof.
  intros Hsym HL Hn Hcw. rewrite count_used_symbols_Z in Hn by lia.
  destruct (build_dynamic_codewords_table e Hsym HL Hn Hcw)
    as (e' & Hrun & _ & Hout & _ & _ & Hcan).
  exists e'. split; [exact Hrun|]. split.
  - intros s Hs Hnz. apply Hcan, used_symbols_In. split; assumption.
  - intros s Hs. apply Hout. rewrite used_symbols_In. exact Hs.
Qed.

Lemma dynamic_codewords_canonical_witness :
  let e := fibonacci_tables_encoder in
  exists e',
    zultra_huffman_encoder_build_dynamic_codewords e = Built e'
    /\ (forall s, 0 <= s < nSymbols e -> zget (nEntropy e) s <> 0 ->
          exists c,
            0 <= c < 2 ^ zget (nCodeLength e') s
            /\ zget (nCodeWord e') s
               = Z.shiftr (reverse16 c) (16 - zget (nCodeLength e') s)
            /\ c * 2 ^ (nMaxCodeLength e - zget (nCodeLength e') s)
               = kraft_before (nMaxCodeLength e)
                   (used_symbols (nSymbols e) (nEntropy e)) (nCodeLength e') s)
    /\ (forall s, ~ (0 <= s < nSymbols e /\ zget (nEntropy e) s <> 0) ->
          zget (nCodeLength e') s = 0 /\ zget (nCodeWord e') s = zget (nCodeWord e) s).
Proof.
  apply (dynamic_codewords_canonical fibonacci_tables_encoder);
    vm_compute; first [discriminate | split; discriminate].
Defined.

Lemma used_symbols_all (n : Z) (len : list Z) :
  (forall s, 0 <= s < n -> zget len s <> 0) ->
  used_symbols n len = map Z.of_nat (seq 0 (Z.to_nat n)).
Proof.
  intros H. unfold used_symbols.
  rewrite <- (List.filter_ext_in (fun _ => true)).
  - induction (map Z.of_nat (seq 0 (Z.to_nat n))) as [|x l IH]; [reflexivity|].
    cbn. f_equal. exact IH.
  - intros s Hs. apply in_map_iff in Hs as (k & <- & Hk). apply in_seq in Hk.
    specialize (H (Z.of_nat k) ltac:(lia)).
    destruct (zget len (Z.of_nat k) =? 0) eqn:E; zbool; [contradiction|reflexivity].
Qed.

(** X7: [zultra_huffman_encoder_build_static_codewords] leaves the code
    lengths as they are and, when every symbol has a length between 1 and
    [L <= 16] and the lengths satisfy Kraft's inequality, issues a prefix
    code: each codeword fits in its length, and no codeword's bits are the
    first bits, as the bit writer sends them, of another symbol's. *)
Theorem static_codewords_prefix_free (e : zultra_huffman_encoder_t) (L : Z) :
  0 <= nSymbols e <= MAX_SYMBOLS -> nSymbols e <= Z.of_nat (length (nCodeWord e)) ->
  L <= 16 ->
  (forall s, 0 <= s < nSymbols e -> 1 <= zget (nCodeLength e) s <= L) ->
  kraft_sum L (take (Z.to_nat (nSymbols e)) (nCodeLength e)) <= 2 ^ L ->
  let e' := zultra_huffman_encoder_build_static_codewords e in
  nCodeLength e' = nCodeLength e
  /\ (forall s, 0 <= s < nSymbols e ->
        0 <= zget (nCodeWord e') s < 2 ^ zget (nCodeLength e) s)
  /\ (forall s t, 0 <= s < nSymbols e -> 0 <= t < nSymbols e -> s <> t ->
        zget (nCodeLength e) s <= zget (nCodeLength e) t ->
        zget (nCodeWord e') t mod 2 ^ zget (nCodeLength e) s <> zget (nCodeWord e') s).
Proof.
  intros Hsym Hcw HL Hlen HK.
  unfold zultra_huffman_encoder_build_static_codewords.
  set (queue := map Z.of_nat (seq 0 (Z.to_nat (nSymbols e)))).
  assert (Hqlen : Z.of_nat (length queue) = nSymbols e).
  { unfold queue. rewrite length_map, length_seq. lia. }
  assert (Hqin : forall s, In s queue <-> 0 <= s < nSymbols e).
  { intros s. unfold queue. rewrite in_map_iff. split.
    - intros (k & <- & Hk). apply in_seq in Hk. lia.
    - intros Hs. exists (Z.to_nat s). split; [lia|]. apply in_seq. lia. }
  destruct (Z.of_nat (length queue) >? 0) eqn:En; zbool.
  2:{ cbn zeta. split; [reflexivity|]. split; intros; lia. }
  pose proof (zultra_huffman_encoder_qsort_spec (nCodeLength e) (length queue) queue 0
                (Z.of_nat (length queue) - 1) ltac:(lia) ltac:(lia) ltac:(lia)) as Hq.
  pose proof (qsort_lex_sorted (nCodeLength e) (length queue) queue 0
                (Z.of_nat (length queue) - 1) ltac:(lia) ltac:(lia) ltac:(lia)) as Hqx.
  cbn zeta in Hq, Hqx.
  set (queue1 := zultra_huffman_encoder_qsort (length queue) (nCodeLength e) queue 0
                   (Z.of_nat (length queue) - 1)) in *.
  destruct Hq as (Hq1len & Hperm & _). destruct Hqx as (_ & _ & _ & Hlex).
  assert (Hin1 : forall s, In s queue1 <-> 0 <= s < nSymbols e).
  { intros s. rewrite <- Hqin, <- !list_elem_of_In. rewrite Hperm. reflexivity. }
  assert (Hnd : NoDup queue).
  { unfold queue. apply NoDup_fmap_2; [intros x y Hxy; lia|apply NoDup_seq]. }
  assert (Hnd1 : NoDup queue1) by (rewrite Hperm; exact Hnd).
  assert (Hk1 : queue_kraft L queue1 (nCodeLength e) <= 2 ^ L).
  { unfold queue_kraft. rewrite (lsum_Permutation _ _ _ Hperm).
    rewrite kraft_sum_used in HK. rewrite Z2Nat.id in HK by lia.
    rewrite used_symbols_all in HK; [exact HK|].
    intros s Hs. specialize (Hlen s Hs). lia. }
  assert (Hr1 : forall s, In s queue1 -> 0 <= s < Z.of_nat (length (nCodeWord e))).
  { intros s Hs. apply Hin1 in Hs. lia. }
  assert (Hl1 : forall s, In s queue1 -> 1 <= zget (nCodeLength e) s <= L).
  { intros s Hs. apply Hlen, Hin1, Hs. }
  assert (Hs1 : forall a b, 0 <= a -> a <= b -> b < Z.of_nat (length queue1) ->
                  lex_le (nCodeLength e) (zget queue1 a) (zget queue1 b)).
  { intros a b Ha Hab Hb. apply Hlex; lia. }
  cbn zeta. cbn [nCodeLength nCodeWord set_code_words].
  split; [reflexivity|]. split.
  - intros s Hs.
    apply (canonical_fits L (nCodeLength e) queue1 (nCodeWord e)); try assumption.
    apply Hin1, Hs.
  - intros s t Hs Ht Hne Hst.
    apply (canonical_prefix_free L (nCodeLength e) queue1 (nCodeWord e)); try assumption;
      apply Hin1; assumption.
Qed.

Lemma static_codewords_prefix_free_witness :
  let e := static_literals_encoder in
  let e' := zultra_huffman_encoder_build_static_codewords e in
  nCodeLength e' = nCodeLength e
  /\ (forall s, 0 <= s < nSymbols e ->
        0 <= zget (nCodeWord e') s < 2 ^ zget (nCodeLength e) s)
  /\ (forall s t, 0 <= s < nSymbols e -> 0 <= t < nSymbols e -> s <> t ->
        zget (nCodeLength e) s <= zget (nCodeLength e) t ->
        zget (nCodeWord e') t mod 2 ^ zget (nCodeLength e) s <> zget (nCodeWord e') s).
Proof.
  apply (static_codewords_prefix_free static_literals_encoder 15).
  - vm_compute. split; discriminate.
  - vm_compute. discriminate.
  - lia.
  - intros s Hs. change (nSymbols static_literals_encoder) with 288 in Hs.
    assert (Hall : forallb (fun k => let l := zget (nCodeLength static_literals_encoder)
                                                (Z.of_nat k) in
                                     (1 <=? l) && (l <=? 15)) (seq 0 288) = true)
      by (vm_compute; reflexivity).
    rewrite forallb_forall in Hall.
    specialize (Hall (Z.to_nat s) ltac:(apply in_seq; lia)). cbn zeta in Hall.
    rewrite Z2Nat.id in Hall by lia.
    apply andb_true_iff in Hall as [H1 H2]. zbool. lia.
  - vm_compute. discriminate.
Defined.

(** ** huffman/bitwriter.c *)

Section BitWriterExtras.
Import BitWriter.

Lemma put_bits_drain_window (n : nat) :
  forall bw out,
    let r := put_bits_drain n bw out in
    length r.2 = length out
    /\ (forall j, ~ (nOutOffset bw <= j < nMaxOutDataOffset bw) -> zget r.2 j = zget out j)
    /\ nOutOffset bw <= nOutOffset r.1.2
    /\ nOutOffset r.1.2 <= Z.max (nOutOffset bw) (nMaxOutDataOffset bw)
    /\ nMaxOutDataOffset r.1.2 = nMaxOutDataOffset bw.
Proof.
  induction n as [|n IH]; intros bw out; cbn [put_bits_drain].
  - cbn. repeat split; lia.
  - destruct (nOutOffset bw >=? nMaxOutDataOffset bw) eqn:E; zbool.
    + cbn. repeat split; lia.
    + match goal with
      | |- context [put_bits_drain n ?b ?o] => specialize (IH b o)
      end.
      cbn zeta in IH. cbn [nOutOffset nMaxOutDataOffset] in IH.
      destruct IH as (H1 & H2 & H3 & H4 & H5). cbn zeta.
      split; [rewrite H1; apply zset_length|]. split; [|lia].
      intros j Hj. rewrite H2 by lia. apply zget_zset_ne. lia.
Qed.

Lemma put_bits_window bw out nValue nBits :
  let r := zultra_bitwriter_put_bits bw out nValue nBits in
  length r.2 = length out
  /\ (forall j, ~ (nOutOffset bw <= j < nMaxOutDataOffset bw) -> zget r.2 j = zget out j)
  /\ nOutOffset bw <= nOutOffset r.1.2
  /\ nOutOffset r.1.2 <= Z.max (nOutOffset bw) (nMaxOutDataOffset bw)
  /\ nMaxOutDataOffset r.1.2 = nMaxOutDataOffset bw.
Proof.
  unfold zultra_bitwriter_put_bits. destruct (nBits >? 16).
  - cbn. repeat split; lia.
  - match goal with
    | |- context [put_bits_drain ?n ?b ?o] => pose proof (put_bits_drain_window n b o) as H
    end.
    exact H.
Qed.

Lemma flush_bits_window bw out :
  let r := zultra_bitwriter_flush_bits bw out in
  length r.2 = length out
  /\ (forall j, ~ (nOutOffset bw <= j < nMaxOutDataOffset bw) -> zget r.2 j = zget out j)
  /\ nOutOffset bw <= nOutOffset r.1.2
  /\ nOutOffset r.1.2 <= Z.max (nOutOffset bw) (nMaxOutDataOffset bw)
  /\ nMaxOutDataOffset r.1.2 = nMaxOutDataOffset bw.
Proof.
  unfold zultra_bitwriter_flush_bits.
  destruct (nEncBitCount bw >? 8); [cbn; repeat split; lia|].
  destruct (nEncBitCount bw >? 0); [|cbn; repeat split; lia].
  destruct (nOutOffset bw >=? nMaxOutDataOffset bw) eqn:E; zbool;
    [cbn; repeat split; lia|].
  cbn. split; [apply zset_length|]. split; [|lia].
  intros j Hj. apply zget_zset_ne. lia.
Qed.

Lemma put_bits_all_window (puts : list (Z * Z)) :
  forall bw out,
    let r := put_bits_all puts bw out in
    length r.2 = length out
    /\ (forall j, ~ (nOutOffset bw <= j < nMaxOutDataOffset bw) -> zget r.2 j = zget out j)
    /\ nOutOffset bw <= nOutOffset r.1
    /\ nOutOffset r.1 <= Z.max (nOutOffset bw) (nMaxOutDataOffset bw)
    /\ nMaxOutDataOffset r.1 = nMaxOutDataOffset bw.
Proof.
  induction puts as [|[v b] puts IH]; intros bw out; cbn [put_bits_all].
  - cbn. repeat split; lia.
  - pose proof (put_bits_window bw out v b) as Hp. cbn zeta in Hp.
    destruct (zultra_bitwriter_put_bits bw out v b) as [[r bw1] out1].
    cbn [fst snd] in Hp. destruct Hp as (P1 & P2 & P3 & P4 & P5).
    specialize (IH bw1 out1). cbn zeta in IH.
    destruct IH as (H1 & H2 & H3 & H4 & H5). cbn zeta.
    split; [lia|]. split; [|lia].
    intros j Hj. rewrite H2 by lia. apply P2. exact Hj.
Qed.

End BitWriterExtras.

(** X8: the bit writer never stores outside its window: whatever values and
    widths a run of [put_bits] calls and a final [flush_bits] are given, and
    whether or not they succeed, every byte of the buffer before the initial
    [nOutOffset] or at or after [nMaxOutDataOffset] is left as it was, the
    buffer keeps its size, and [nOutOffset] never passes [nMaxOutDataOffset]
    (when it started at or below it). *)
Theorem bitwriter_stays_in_window
    (puts : list (Z * Z)) (bw : BitWriter.zultra_bitwriter_t) (out : list Z) :
  let '(bw1, out1) := BitWriter.put_bits_all puts bw out in
  let '(_, bw2, out2) := BitWriter.zultra_bitwriter_flush_bits bw1 out1 in
  length out2 = length out
  /\ (forall j, ~ (BitWriter.nOutOffset bw <= j < BitWriter.nMaxOutDataOffset bw) ->
        zget out2 j = zget out j)
  /\ BitWriter.nOutOffset bw2
     <= Z.max (BitWriter.nOutOffset bw) (BitWriter.nMaxOutDataOffset bw).
Proof.
  pose proof (put_bits_all_window puts bw out) as Hp. cbn zeta in Hp.
  destruct (BitWriter.put_bits_all puts bw out) as [bw1 out1]. cbn [fst snd] in Hp.
  destruct Hp as (P1 & P2 & P3 & P4 & P5).
  pose proof (flush_bits_window bw1 out1) as Hf. cbn zeta in Hf.
  destruct (BitWriter.zultra_bitwriter_flush_bits bw1 out1) as [[r bw2] out2].
  cbn [fst snd] in Hf. destruct Hf as (F1 & F2 & F3 & F4 & F5).
  split; [lia|]. split; [|lia].
  intros j Hj. rewrite F2 by lia. apply P2. exact Hj.
Qed.

Section BitWriterFailure.
Import BitWriter.

Lemma put_bits_drain_status (n : nat) :
  forall bw out,
    8 * Z.of_nat n <= nEncBitCount bw ->
    let r := put_bits_drain n bw out in
    r.1.1 = 0 \/ (r.1.1 = -1 /\ bw_failed r.1.2).
Proof.
  induction n as [|n IH]; intros bw out Hn; cbn [put_bits_drain].
  - left. reflexivity.
  - destruct (nOutOffset bw >=? nMaxOutDataOffset bw) eqn:E; zbool.
    + right. split; [reflexivity|]. unfold bw_failed. cbn. lia.
    + apply IH. cbn. lia.
Qed.

Lemma put_bits_failed bw out nValue nBits :
  bw_failed bw -> 0 <= nBits ->
  let r := zultra_bitwriter_put_bits bw out nValue nBits in
  r.1.1 = -1 /\ r.2 = out /\ nOutOffset r.1.2 = nOutOffset bw /\ bw_failed r.1.2.
Proof.
  intros [Hc Ho] Hb. unfold zultra_bitwriter_put_bits.
  destruct (nBits >? 16); [cbn; repeat split; assumption|].
  cbn [nEncBitCount].
  assert (Hpos : (0 < Z.to_nat ((nEncBitCount bw + nBits) / 8))%nat).
  { assert (1 <= (nEncBitCount bw + nBits) / 8) by (apply Z.div_le_lower_bound; lia).
    lia. }
  destruct (Z.to_nat ((nEncBitCount bw + nBits) / 8)) as [|n]; [lia|].
  cbn [put_bits_drain nOutOffset nMaxOutDataOffset].
  destruct (nOutOffset bw >=? nMaxOutDataOffset bw) eqn:E; zbool; [|lia].
  cbn. unfold bw_failed. cbn. repeat split; lia.
Qed.

Lemma flush_bits_failed bw out :
  bw_failed bw -> zultra_bitwriter_flush_bits bw out = (-1, bw, out).
Proof.
  intros [Hc Ho]. unfold zultra_bitwriter_flush_bits.
  destruct (nEncBitCount bw >? 8) eqn:E8; [reflexivity|].
  destruct (nEncBitCount bw >? 0) eqn:E0; zbool; [|lia].
  destruct (nOutOffset bw >=? nMaxOutDataOffset bw) eqn:E; zbool; [reflexivity|lia].
Qed.

End BitWriterFailure.

(** X9: running out of room is final.  A [put_bits] call of at most 16 bits
    on a writer within its invariant either returns 0 or returns -1 and
    leaves the writer failed (a whole byte pending, no room left); on a
    failed writer every further [put_bits] returns -1, stores nothing and
    does not move [nOutOffset], and [flush_bits] returns -1 and changes
    nothing.  So a caller may check only the last call of a run. *)
Theorem bitwriter_failure_is_final :
  (forall bw out nValue nBits,
     BitWriter.bw_inv bw -> 0 <= nBits <= 16 ->
     let r := BitWriter.zultra_bitwriter_put_bits bw out nValue nBits in
     r.1.1 = 0 \/ (r.1.1 = -1 /\ bw_failed r.1.2))
  /\ (forall bw out nValue nBits,
        bw_failed bw -> 0 <= nBits ->
        let r := BitWriter.zultra_bitwriter_put_bits bw out nValue nBits in
        r.1.1 = -1 /\ r.2 = out
        /\ BitWriter.nOutOffset r.1.2 = BitWriter.nOutOffset bw /\ bw_failed r.1.2)
  /\ (forall bw out,
        bw_failed bw -> BitWriter.zultra_bitwriter_flush_bits bw out = (-1, bw, out)).
Proof.
  split; [|split].
  - intros bw out nValue nBits [Hc Ho] Hb. unfold BitWriter.zultra_bitwriter_put_bits.
    destruct (nBits >? 16) eqn:E; zbool; [lia|].
    apply put_bits_drain_status. cbn [BitWriter.nEncBitCount].
    rewrite Z2Nat.id by (apply Z.div_pos; lia).
    apply Z.mul_div_le. lia.
  - intros bw out nValue nBits Hf Hb. apply put_bits_failed; assumption.
  - intros bw out Hf. apply flush_bits_failed, Hf.
Qed.

Lemma bitwriter_failure_is_final_witness :
  let bw0 := BitWriter.zultra_bitwriter_init 0 1 in
  let r := BitWriter.zultra_bitwriter_put_bits bw0 [0] 43981 16 in
  BitWriter.bw_inv bw0
  /\ (r.1.1 = 0 \/ (r.1.1 = -1 /\ bw_failed r.1.2))
  /\ (let r' := BitWriter.zultra_bitwriter_put_bits r.1.2 r.2 1 1 in
      r'.1.1 = -1 /\ r'.2 = r.2
      /\ BitWriter.nOutOffset r'.1.2 = BitWriter.nOutOffset r.1.2 /\ bw_failed r'.1.2)
  /\ BitWriter.zultra_bitwriter_flush_bits r.1.2 r.2 = (-1, r.1.2, r.2).
Proof.
  cbn zeta.
  assert (Hinv : BitWriter.bw_inv (BitWriter.zultra_bitwriter_init 0 1))
    by (unfold BitWriter.bw_inv; cbn; lia).
  assert (Hfail : bw_failed
            (BitWriter.zultra_bitwriter_put_bits (BitWriter.zultra_bitwriter_init 0 1)
               [0] 43981 16).1.2)
    by (unfold bw_failed; vm_compute; split; discriminate).
  destruct bitwriter_failure_is_final as (H1 & H2 & H3).
  split; [exact Hinv|]. split; [|split].
  - apply (H1 _ [0] 43981 16 Hinv). lia.
  - apply (H2 _ _ 1 1 Hfail). lia.
  - apply (H3 _ _ Hfail).
Defined.

Section BitWriterStream.
Import BitWriter.

Lemma bytes_le_low (n : nat) :
  forall x y, bytes_le n (x + y * 2 ^ (8 * Z.of_nat n)) = bytes_le n x.
Proof.
  induction n as [|n IH]; intros x y; [reflexivity|].
  cbn [bytes_le].
  replace (8 * Z.of_nat (S n)) with (8 * Z.of_nat n + 8) by lia.
  rewrite Z.pow_add_r by lia. rewrite Z.mul_assoc.
  rewrite Z.mod_add by (change (2 ^ 8) with 256; lia).
  rewrite Z.div_add by (change (2 ^ 8) with 256; lia).
  rewrite IH. reflexivity.
Qed.

Lemma put_bits_seq_emitted (puts : list (Z * Z)) :
  forall bw out r bw' out',
    bw_wf bw out -> puts_fit puts ->
    put_bits_seq puts bw out = (r, bw', out') -> (r <? 0) = false ->
    let total := nEncBitsData bw + bits_value puts * 2 ^ nEncBitCount bw in
    let nbits := nEncBitCount bw + bits_total puts in
    nEncBitCount bw' = nbits mod 8
    /\ nOutOffset bw' = nOutOffset bw + nbits / 8
    /\ nEncBitsData bw' = total / 2 ^ (8 * (nbits / 8))
    /\ emitted bw' out' = emitted bw out ++ bytes_le (Z.to_nat (nbits / 8)) total
    /\ 0 <= bits_total puts
    /\ bw_wf bw' out'.
Proof.
  induction puts as [|[v b] rest IH]; intros bw out r bw' out' Hwf Hfit Hrun Hr.
  - cbn in Hrun. injection Hrun as <- <- <-.
    destruct Hwf as (Hc & Hd & Ho & Hl). cbn [bits_value bits_total].
    cbn zeta. rewrite Z.add_0_r, Z.mul_0_l, Z.add_0_r.
    rewrite (Z.div_small (nEncBitCount bw)) by lia.
    rewrite Z.mod_small by lia. cbn.
    rewrite Z.div_1_r, app_nil_r. repeat split; lia.
  - cbn [put_bits_seq] in Hrun.
    apply Forall_cons in Hfit as [[Hb Hv] Hfit]. cbn [fst snd] in Hb, Hv.
    destruct (zultra_bitwriter_put_bits bw out v b) as [[r1 bw1] out1] eqn:Eput.
    destruct (r1 <? 0) eqn:Er1.
    { injection Hrun as <- _ _. rewrite Er1 in Hr. discriminate. }
    pose proof (put_bits_fitting_emitted bw out v b r1 bw1 out1 Hwf Hb Hv Eput Er1) as Hp.
    cbn zeta in Hp. destruct Hp as (Hbw1 & Hem1 & Hlen1 & Hwf1).
    specialize (IH bw1 out1 r bw' out' Hwf1 Hfit Hrun Hr). cbn zeta in IH.
    destruct IH as (I1 & I2 & I3 & I4 & I5 & I6).
    destruct Hwf as (Hc & Hd & Ho & Hl).
    set (c := nEncBitCount bw) in *. set (d := nEncBitsData bw) in *.
    set (V := bits_value rest) in *. set (B := bits_total rest) in *.
    set (n1 := (c + b) / 8) in *.
    assert (Hc1 : nEncBitCount bw1 = (c + b) mod 8) by (rewrite Hbw1; reflexivity).
    assert (Hd1 : nEncBitsData bw1 = (d + v * 2 ^ c) / 2 ^ (8 * n1))
      by (rewrite Hbw1; reflexivity).
    assert (Ho1 : nOutOffset bw1 = nOutOffset bw + n1) by (rewrite Hbw1; reflexivity).
    rewrite Hc1 in I1, I2, I3, I4. rewrite Hd1 in I3, I4. rewrite Ho1 in I2.
    cbn [bits_value bits_total]. fold V B. cbn zeta.
    assert (Hn1 : 0 <= n1) by (apply Z.div_pos; lia).
    pose proof (Z.mod_pos_bound (c + b) 8 ltac:(lia)) as Hm.
    assert (Hsplit : c + b = 8 * n1 + (c + b) mod 8) by (apply Z.div_mod; lia).
    set (c1 := (c + b) mod 8) in *.
    assert (Hnb : c + (b + B) = (c1 + B) + n1 * 8) by lia.
    assert (Hdiv : (c + (b + B)) / 8 = n1 + (c1 + B) / 8).
    { rewrite Hnb, Z.div_add by lia. lia. }
    assert (Hm0 : 0 <= (c1 + B) / 8) by (apply Z.div_pos; lia).
    assert (Htot : d + (v + 2 ^ b * V) * 2 ^ c
                   = (d + v * 2 ^ c) + (V * 2 ^ c1) * 2 ^ (8 * n1)).
    { rewrite <- Z.mul_assoc, <- (Z.pow_add_r 2 c1) by lia.
      replace (c1 + 8 * n1) with (b + c) by lia.
      rewrite Z.pow_add_r by lia. lia. }
    assert (Hp8 : 0 < 2 ^ (8 * n1)) by (apply pow2_pos; lia).
    assert (Hq : (d + (v + 2 ^ b * V) * 2 ^ c) / 2 ^ (8 * n1)
                 = (d + v * 2 ^ c) / 2 ^ (8 * n1) + V * 2 ^ c1).
    { rewrite Htot, Z.div_add by lia. reflexivity. }
    split; [rewrite I1, Hnb, Z.mod_add by lia; reflexivity|].
    split; [rewrite I2, Hdiv; lia|]. split; [|split; [|split; [lia|exact I6]]].
    + rewrite I3, Hdiv, Z.mul_add_distr_l, Z.pow_add_r by lia.
      rewrite <- Z.div_div by (try apply pow2_pos; lia).
      rewrite Hq. reflexivity.
    + rewrite I4, Hem1, <- app_assoc. f_equal. rewrite Hdiv.
      replace (Z.to_nat (n1 + (c1 + B) / 8))
        with (Z.to_nat n1 + Z.to_nat ((c1 + B) / 8))%nat by lia.
      rewrite bytes_le_app, Z2Nat.id by lia. rewrite Hq. f_equal.
      rewrite Htot. symmetry.
      pose proof (bytes_le_low (Z.to_nat n1) (d + v * 2 ^ c) (V * 2 ^ c1)) as Hlow.
      rewrite Z2Nat.id in Hlow by lia. exact Hlow.
Qed.

End BitWriterStream.

(** X10: a run of successful [put_bits] calls writes the concatenation of
    its values.  From a well-formed writer, with every width at most 16 and
    every value fitting its width, the bytes stored are the low bytes, least
    significant first, of the pending bits followed by the values in call
    order (each value above the previous ones), the bits that do not fill a
    byte stay pending, and the writer is well formed again. *)
Theorem put_bits_run_writes_concatenation
    (puts : list (Z * Z)) (bw : BitWriter.zultra_bitwriter_t) (out : list Z)
    (r : Z) (bw' : BitWriter.zultra_bitwriter_t) (out' : list Z) :
  BitWriter.bw_wf bw out -> puts_fit puts ->
  BitWriter.put_bits_seq puts bw out = (r, bw', out') -> (r <? 0) = false ->
  let total := BitWriter.nEncBitsData bw
               + bits_value puts * 2 ^ BitWriter.nEncBitCount bw in
  let nbits := BitWriter.nEncBitCount bw + bits_total puts in
  BitWriter.nEncBitCount bw' = nbits mod 8
  /\ BitWriter.nOutOffset bw' = BitWriter.nOutOffset bw + nbits / 8
  /\ BitWriter.nEncBitsData bw' = total / 2 ^ (8 * (nbits / 8))
  /\ BitWriter.emitted bw' out'
     = BitWriter.emitted bw out ++ BitWriter.bytes_le (Z.to_nat (nbits / 8)) total
  /\ BitWriter.bw_wf bw' out'.
Proof.
  intros Hwf Hfit Hrun Hr.
  pose proof (put_bits_seq_emitted puts bw out r bw' out' Hwf Hfit Hrun Hr) as H.
  cbn zeta in H. destruct H as (H1 & H2 & H3 & H4 & _ & H6).
  cbn zeta. split; [exact H1|]. split; [exact H2|]. split; [exact H3|].
  split; [exact H4|exact H6].
Qed.

Lemma put_bits_run_writes_concatenation_witness :
  let bw0 := BitWriter.zultra_bitwriter_init 0 4 in
  let out0 := [0; 0; 0; 0] in
  let puts := [(5, 3); (300, 9); (1, 1); (2, 5)] in
  let res := BitWriter.put_bits_seq puts bw0 out0 in
  BitWriter.bw_wf bw0 out0 /\ puts_fit puts /\ res.1.1 = 0
  /\ bits_value puts = 5 + 8 * (300 + 512 * (1 + 2 * 2))
  /\ BitWriter.emitted res.1.2 res.2
     = BitWriter.emitted bw0 out0 ++ BitWriter.bytes_le 2 (bits_value puts)
  /\ BitWriter.nEncBitCount res.1.2 = 2.
Proof.
  cbn zeta.
  assert (Hwf : BitWriter.bw_wf (BitWriter.zultra_bitwriter_init 0 4) [0; 0; 0; 0])
    by (unfold BitWriter.bw_wf; cbn; lia).
  assert (Hfit : puts_fit [(5, 3); (300, 9); (1, 1); (2, 5)])
    by (unfold puts_fit; repeat constructor; cbn; lia).
  destruct (BitWriter.put_bits_seq [(5, 3); (300, 9); (1, 1); (2, 5)]
              (BitWriter.zultra_bitwriter_init 0 4) [0; 0; 0; 0])
    as [[r bw'] out'] eqn:E.
  assert (Hr : r = 0) by (vm_compute in E; injection E as <- _ _; reflexivity).
  pose proof (put_bits_run_writes_concatenation _ _ _ r bw' out' Hwf Hfit E
                ltac:(rewrite Hr; reflexivity)) as H.
  cbn zeta in H. destruct H as (H1 & _ & _ & H4 & _).
  cbn [fst snd].
  split; [exact Hwf|]. split; [exact Hfit|]. split; [exact Hr|].
  split; [reflexivity|]. split; [exact H4|exact H1].
Defined.

(** ** blockdeflate.c: the symbols of offsets and lengths *)

Lemma all_from_spec (f : Z -> bool) (cnt : nat) :
  forall o, all_from f cnt o = true ->
    forall k, o <= k < o + Z.of_nat cnt -> f k = true.
Proof.
  induction cnt as [|cnt IH]; intros o H k Hk; [lia|].
  cbn [all_from] in H. apply andb_true_iff in H as [H1 H2].
  destruct (Z.eq_dec k o) as [->|Hne]; [exact H1|].
  apply (IH (o + 1) H2). lia.
Qed.

Lemma offset_codes_checked (o : Z) :
  MIN_OFFSET <= o <= MAX_OFFSET -> offset_code_ok o = true.
Proof.
  intros Ho. apply (all_from_spec offset_code_ok (Z.to_nat 32768) 1);
    [vm_compute; reflexivity|].
  unfold MIN_OFFSET, MAX_OFFSET in Ho. lia.
Qed.

Lemma varlen_codes_checked (l : Z) : 0 <= l <= 255 -> varlen_code_ok l = true.
Proof.
  intros Hl. apply (all_from_spec varlen_code_ok (Z.to_nat 256) 0);
    [vm_compute; reflexivity|]. lia.
Qed.

Lemma offset_code_facts (o : Z) :
  MIN_OFFSET <= o <= MAX_OFFSET ->
  exists sym base extra,
    offset_code o = Some (sym, base, extra)
    /\ sym = zultra_get_offset_symbol o
    /\ 0 <= sym < NVALIDOFFSETSYMS
    /\ extra = zget g_nRevOffsetSymbolBits sym
    /\ 0 <= extra <= 13
    /\ 0 <= o - base < 2 ^ extra
    /\ (o < MAX_OFFSET ->
        exists sym' base' extra',
          offset_code (o + 1) = Some (sym', base', extra')
          /\ sym <= sym' /\ (sym' = sym -> base' = base)).
Proof.
  intros Ho. pose proof (offset_codes_checked o Ho) as H.
  unfold offset_code_ok in H.
  destruct (offset_code o) as [[[sym base] extra]|]; [|discriminate].
  repeat (apply andb_true_iff in H as [H ?]). zbool.
  exists sym, base, extra. split; [reflexivity|]. split; [assumption|].
  split; [lia|]. split; [assumption|]. split; [lia|]. split; [lia|].
  intros Hlt. destruct (o <? MAX_OFFSET) eqn:E; zbool; [|lia].
  destruct (offset_code (o + 1)) as [[[sym' base'] extra']|]; [|discriminate].
  match goal with
  | Hn : _ && _ = true |- _ => apply andb_true_iff in Hn as [Hn1 Hn2]
  end.
  zbool. exists sym', base', extra'. split; [reflexivity|]. split; [lia|].
  intros Heq. apply orb_true_iff in Hn2 as [Hn2|Hn2]; zbool; lia.
Qed.

Lemma offset_symbol_mono (n : nat) :
  forall o, MIN_OFFSET <= o -> o + Z.of_nat n <= MAX_OFFSET ->
    zultra_get_offset_symbol o <= zultra_get_offset_symbol (o + Z.of_nat n).
Proof.
  induction n as [|n IH]; intros o Ho Hn.
  - replace (o + Z.of_nat 0) with o by lia. lia.
  - specialize (IH o Ho ltac:(lia)).
    destruct (offset_code_facts (o + Z.of_nat n) ltac:(lia))
      as (sym & base & extra & _ & Hsym & _ & _ & _ & _ & Hnext).
    destruct (Hnext ltac:(lia)) as (sym' & base' & extra' & Hc' & Hle & _).
    destruct (offset_code_facts (o + Z.of_nat n + 1) ltac:(lia))
      as (sym2 & base2 & extra2 & Hc2 & Hsym2 & _).
    rewrite Hc' in Hc2. injection Hc2 as <- <- <-.
    replace (o + Z.of_nat (S n)) with (o + Z.of_nat n + 1) by lia. lia.
Qed.

Lemma offset_base_of_symbol (n : nat) :
  forall o sym base extra sym' base' extra',
    MIN_OFFSET <= o -> o + Z.of_nat n <= MAX_OFFSET ->
    offset_code o = Some (sym, base, extra) ->
    offset_code (o + Z.of_nat n) = Some (sym', base', extra') ->
    sym' = sym -> base' = base.
Proof.
  induction n as [|n IH]; intros o sym base extra sym' base' extra' Ho Hn Hc Hc' Heq.
  - replace (o + Z.of_nat 0) with o in Hc' by lia. congruence.
  - destruct (offset_code_facts (o + Z.of_nat n) ltac:(lia))
      as (sym1 & base1 & extra1 & Hc1 & Hsym1 & _ & _ & _ & _ & Hnext).
    destruct (Hnext ltac:(lia)) as (sym2 & base2 & extra2 & Hc2 & Hle & Hsame).
    replace (o + Z.of_nat (S n)) with (o + Z.of_nat n + 1) in Hc' by lia.
    rewrite Hc2 in Hc'. injection Hc' as E1 E2 E3.
    destruct (offset_code_facts o ltac:(lia)) as (sym0 & base0 & extra0 & Hc0 & Hsym0 & _).
    rewrite Hc in Hc0. injection Hc0 as E4 E5 E6.
    pose proof (offset_symbol_mono n o Ho ltac:(lia)) as Hmono.
    rewrite <- Hsym0, <- Hsym1 in Hmono.
    assert (Hs1 : sym1 = sym) by lia.
    assert (Hb2 : base2 = base1) by (apply Hsame; lia).
    assert (Hb1 : base1 = base).
    { apply (IH o sym base extra sym1 base1 extra1); try assumption; lia. }
    lia.
Qed.

(** X11: the offset tables are a correct code for every offset from
    [MIN_OFFSET] to [MAX_OFFSET]: [zultra_write_offset] finds the symbol
    that [zultra_get_offset_symbol] counts, one of the 30 valid distance
    symbols, with the number of extra bits of that symbol and a
    displacement [offset - base] that fits in them; two offsets with the
    same symbol have the same base, so symbol and displacement determine the
    offset.  For an offset outside that range (as an unsigned value) it
    finds no symbol. *)
Theorem offset_symbols_are_exact (o : Z) :
  (MIN_OFFSET <= o <= MAX_OFFSET ->
   exists sym base extra,
     offset_code o = Some (sym, base, extra)
     /\ sym = zultra_get_offset_symbol o
     /\ 0 <= sym < NVALIDOFFSETSYMS
     /\ extra = zget g_nRevOffsetSymbolBits sym
     /\ 0 <= o - base < 2 ^ extra
     /\ (forall o', MIN_OFFSET <= o' <= MAX_OFFSET ->
           zultra_get_offset_symbol o' = sym ->
           offset_code o' = Some (sym, base, extra)))
  /\ (0 <= o < 2 ^ 32 -> ~ (MIN_OFFSET <= o <= MAX_OFFSET) -> offset_code o = None).
Proof.
  split.
  - intros Ho.
    destruct (offset_code_facts o Ho) as (sym & base & extra & Hc & Hsym & Hr & He & _ & Hd & _).
    exists sym, base, extra. repeat (split; [assumption|]).
    intros o' Ho' Hs'.
    destruct (offset_code_facts o' Ho') as (sym' & base' & extra' & Hc' & Hsym' & _ & He' & _).
    assert (Hs : sym' = sym) by congruence.
    assert (Hx : extra' = extra) by congruence.
    assert (Hb : base' = base).
    { destruct (Z_le_gt_dec o o') as [Hle|Hgt].
      - apply (offset_base_of_symbol (Z.to_nat (o' - o)) o sym base extra sym' base' extra');
          [lia|lia|exact Hc| |exact Hs].
        replace (o + Z.of_nat (Z.to_nat (o' - o))) with o' by lia. exact Hc'.
      - symmetry.
        apply (offset_base_of_symbol (Z.to_nat (o - o')) o' sym' base' extra' sym base extra);
          [lia|lia|exact Hc'| |symmetry; exact Hs].
        replace (o' + Z.of_nat (Z.to_nat (o - o'))) with o by lia. exact Hc. }
    rewrite Hc', Hs, Hx, Hb. reflexivity.
  - intros Ho Hout. unfold offset_code, u32, MIN_OFFSET, MAX_OFFSET in *.
    destruct (Z.eq_dec o 0) as [->|Hne]; [reflexivity|].
    rewrite Z.mod_small by lia.
    destruct (o - 1 <? 256) eqn:E1; zbool; [lia|].
    destruct (o - 1 <? 32768) eqn:E2; zbool; [lia|]. reflexivity.
Qed.

Lemma offset_symbols_are_exact_witness :
  (exists sym base extra,
     offset_code 1000 = Some (sym, base, extra)
     /\ sym = zultra_get_offset_symbol 1000
     /\ 0 <= sym < NVALIDOFFSETSYMS
     /\ extra = zget g_nRevOffsetSymbolBits sym
     /\ 0 <= 1000 - base < 2 ^ extra
     /\ (forall o', MIN_OFFSET <= o' <= MAX_OFFSET ->
           zultra_get_offset_symbol o' = sym ->
           offset_code o' = Some (sym, base, extra)))
  /\ offset_code 32769 = None.
Proof.
  split.
  - apply (proj1 (offset_symbols_are_exact 1000)). unfold MIN_OFFSET, MAX_OFFSET. lia.
  - apply (proj2 (offset_symbols_are_exact 32769)); unfold MIN_OFFSET, MAX_OFFSET; lia.
Defined.

Lemma varlen_code_facts (l : Z) :
  0 <= l <= 255 ->
  exists sym base extra,
    varlen_code l = (sym, base, extra)
    /\ sym = zultra_get_varlen_symbol l
    /\ NMATCHLENSYMSTART <= sym < NMATCHLENSYMSTART + NMATCHLENSYMS
    /\ extra = zget g_nRevMatchSymbolBits (sym - NMATCHLENSYMSTART)
    /\ 0 <= extra <= 5
    /\ 0 <= l - base < 2 ^ extra
    /\ (l < 255 ->
        exists sym' base' extra',
          varlen_code (l + 1) = (sym', base', extra')
          /\ sym <= sym' /\ (sym' = sym -> base' = base)).
Proof.
  intros Hl. pose proof (varlen_codes_checked l Hl) as H.
  unfold varlen_code_ok in H.
  destruct (varlen_code l) as [[sym base] extra].
  repeat (apply andb_true_iff in H as [H ?]). zbool.
  exists sym, base, extra. split; [reflexivity|]. split; [assumption|].
  split; [lia|]. split; [assumption|]. split; [lia|]. split; [lia|].
  intros Hlt. destruct (l <? 255) eqn:E; zbool; [|lia].
  destruct (varlen_code (l + 1)) as [[sym' base'] extra'].
  match goal with
  | Hn : _ && _ = true |- _ => apply andb_true_iff in Hn as [Hn1 Hn2]
  end.
  zbool. exists sym', base', extra'. split; [reflexivity|]. split; [lia|].
  intros Heq. apply orb_true_iff in Hn2 as [Hn2|Hn2]; zbool; lia.
Qed.

Lemma varlen_symbol_mono (n : nat) :
  forall l, 0 <= l -> l + Z.of_nat n <= 255 ->
    zultra_get_varlen_symbol l <= zultra_get_varlen_symbol (l + Z.of_nat n).
Proof.
  induction n as [|n IH]; intros l Hl Hn.
  - replace (l + Z.of_nat 0) with l by lia. lia.
  - specialize (IH l Hl ltac:(lia)).
    destruct (varlen_code_facts (l + Z.of_nat n) ltac:(lia))
      as (sym & base & extra & _ & Hsym & _ & _ & _ & _ & Hnext).
    destruct (Hnext ltac:(lia)) as (sym' & base' & extra' & Hc' & Hle & _).
    destruct (varlen_code_facts (l + Z.of_nat n + 1) ltac:(lia))
      as (sym2 & base2 & extra2 & Hc2 & Hsym2 & _).
    rewrite Hc' in Hc2. injection Hc2 as E1 E2 E3.
    replace (l + Z.of_nat (S n)) with (l + Z.of_nat n + 1) by lia. lia.
Qed.

Lemma varlen_base_of_symbol (n : nat) :
  forall l sym base extra sym' base' extra',
    0 <= l -> l + Z.of_nat n <= 255 ->
    varlen_code l = (sym, base, extra) ->
    varlen_code (l + Z.of_nat n) = (sym', base', extra') ->
    sym' = sym -> base' = base.
Proof.
  induction n as [|n IH]; intros l sym base extra sym' base' extra' Hl Hn Hc Hc' Heq.
  - replace (l + Z.of_nat 0) with l in Hc' by lia. congruence.
  - destruct (varlen_code_facts (l + Z.of_nat n) ltac:(lia))
      as (sym1 & base1 & extra1 & Hc1 & Hsym1 & _ & _ & _ & _ & Hnext).
    destruct (Hnext ltac:(lia)) as (sym2 & base2 & extra2 & Hc2 & Hle & Hsame).
    replace (l + Z.of_nat (S n)) with (l + Z.of_nat n + 1) in Hc' by lia.
    rewrite Hc2 in Hc'. injection Hc' as E1 E2 E3.
    destruct (varlen_code_facts l ltac:(lia)) as (sym0 & base0 & extra0 & Hc0 & Hsym0 & _).
    rewrite Hc in Hc0. injection Hc0 as E4 E5 E6.
    pose proof (varlen_symbol_mono n l Hl ltac:(lia)) as Hmono.
    rewrite <- Hsym0, <- Hsym1 in Hmono.
    assert (Hs1 : sym1 = sym) by lia.
    assert (Hb2 : base2 = base1) by (apply Hsame; lia).
    assert (Hb1 : base1 = base).
    { apply (IH l sym base extra sym1 base1 extra1); try assumption; lia. }
    lia.
Qed.

(** X12: the match length tables are a correct code for every encoded
    length (match length less [MIN_MATCH_SIZE]) from 0 to 255:
    [zultra_write_varlen] finds the symbol that [zultra_get_varlen_symbol]
    counts, one of the 29 length symbols from 257 on, with the number of
    extra bits of that symbol and a displacement [length - base] that fits
    in them; two lengths with the same symbol have the same base, so symbol
    and displacement determine the length. *)
Theorem varlen_symbols_are_exact (l : Z) :
  0 <= l <= MAX_MATCH_SIZE - MIN_MATCH_SIZE ->
  exists sym base extra,
    varlen_code l = (sym, base, extra)
    /\ sym = zultra_get_varlen_symbol l
    /\ NMATCHLENSYMSTART <= sym < NMATCHLENSYMSTART + NMATCHLENSYMS
    /\ extra = zget g_nRevMatchSymbolBits (sym - NMATCHLENSYMSTART)
    /\ 0 <= l - base < 2 ^ extra
    /\ (forall l', 0 <= l' <= MAX_MATCH_SIZE - MIN_MATCH_SIZE ->
          zultra_get_varlen_symbol l' = sym ->
          varlen_code l' = (sym, base, extra)).
Proof.
  unfold MAX_MATCH_SIZE, MIN_MATCH_SIZE. intros Hl.
  destruct (varlen_code_facts l ltac:(lia))
    as (sym & base & extra & Hc & Hsym & Hr & He & _ & Hd & _).
  exists sym, base, extra. repeat (split; [assumption|]).
  intros l' Hl' Hs'.
  destruct (varlen_code_facts l' ltac:(lia))
    as (sym' & base' & extra' & Hc' & Hsym' & _ & He' & _).
  assert (Hs : sym' = sym) by congruence.
  assert (Hx : extra' = extra) by congruence.
  assert (Hb : base' = base).
  { destruct (Z_le_gt_dec l l') as [Hle|Hgt].
    - apply (varlen_base_of_symbol (Z.to_nat (l' - l)) l sym base extra sym' base' extra');
        [lia|lia|exact Hc| |exact Hs].
      replace (l + Z.of_nat (Z.to_nat (l' - l))) with l' by lia. exact Hc'.
    - symmetry.
      apply (varlen_base_of_symbol (Z.to_nat (l - l')) l' sym' base' extra' sym base extra);
        [lia|lia|exact Hc'| |symmetry; exact Hs].
      replace (l' + Z.of_nat (Z.to_nat (l - l'))) with l by lia. exact Hc. }
  rewrite Hc', Hs, Hx, Hb. reflexivity.
Qed.

Lemma varlen_symbols_are_exact_witness :
  exists sym base extra,
    varlen_code 254 = (sym, base, extra)
    /\ sym = zultra_get_varlen_symbol 254
    /\ NMATCHLENSYMSTART <= sym < NMATCHLENSYMSTART + NMATCHLENSYMS
    /\ extra = zget g_nRevMatchSymbolBits (sym - NMATCHLENSYMSTART)
    /\ 0 <= 254 - base < 2 ^ extra
    /\ (forall l', 0 <= l' <= MAX_MATCH_SIZE - MIN_MATCH_SIZE ->
          zultra_get_varlen_symbol l' = sym ->
          varlen_code l' = (sym, base, extra)).
Proof.
  apply (varlen_symbols_are_exact 254). unfold MAX_MATCH_SIZE, MIN_MATCH_SIZE. lia.
Defined.

(** ** blockdeflate.c: the cost model against the writers *)

Lemma put_bits_bit_position bw out nValue nBits r bw' out' :
  BitWriter.bw_wf bw out -> 0 <= nBits <= 16 -> 0 <= nValue < 2 ^ nBits ->
  BitWriter.zultra_bitwriter_put_bits bw out nValue nBits = (r, bw', out') ->
  (r <? 0) = false ->
  bit_position bw' = bit_position bw + nBits /\ BitWriter.bw_wf bw' out'.
Proof.
  intros Hwf Hb Hv Hrun Hr.
  pose proof (put_bits_fitting_emitted bw out nValue nBits r bw' out' Hwf Hb Hv Hrun Hr) as H.
  cbn zeta in H. destruct H as (Hbw' & _ & _ & Hwf').
  split; [|exact Hwf'].
  destruct Hwf as (Hc & _). rewrite Hbw'. unfold bit_position. cbn.
  pose proof (Z.div_mod (BitWriter.nEncBitCount bw + nBits) 8 ltac:(lia)). lia.
Qed.

Lemma write_codeword_bit_position e s bw out r bw' out' :
  encoder_fits e -> 0 <= s < nSymbols e -> BitWriter.bw_wf bw out ->
  zultra_huffman_encoder_write_codeword e s bw out = (r, bw', out') ->
  (r <? 0) = false ->
  bit_position bw' = bit_position bw + zget (nCodeLength e) s
  /\ BitWriter.bw_wf bw' out'.
Proof.
  intros Hfit Hs Hwf Hrun Hr. unfold zultra_huffman_encoder_write_codeword in Hrun.
  destruct ((s >=? 0) && (s <? nSymbols e)) eqn:E.
  2:{ apply andb_false_iff in E as [E|E]; zbool; lia. }
  destruct (Hfit s Hs) as [Hl Hw].
  apply (put_bits_bit_position bw out _ _ r bw' out' Hwf Hl Hw Hrun Hr).
Qed.

Lemma offset_size_of_code (bs : zultra_block_state) (o sym base extra : Z) :
  offset_code o = Some (sym, base, extra) ->
  zultra_get_offset_size bs o = zget (nCodeLength (offsetEncoder bs)) sym + extra.
Proof.
  unfold offset_code, zultra_get_offset_size.
  destruct (u32 (o - 1) <? 256).
  - intros H. injection H as <- _ <-. reflexivity.
  - destruct (u32 (o - 1) <? 32768); [|discriminate].
    intros H. injection H as <- _ <-. reflexivity.
Qed.

Lemma varlen_size_of_code (bs : zultra_block_state) (l sym base extra : Z) :
  varlen_code l = (sym, base, extra) ->
  zultra_get_varlen_size bs l = zget (nCodeLength (literalsEncoder bs)) sym + extra.
Proof.
  unfold varlen_code, zultra_get_varlen_size.
  intros H. injection H as <- _ <-. reflexivity.
Qed.

Lemma write_literal_bits bs bw out b r bw' out' :
  encoder_fits (literalsEncoder bs) -> nSymbols (literalsEncoder bs) = NLITERALSYMS ->
  BitWriter.bw_wf bw out -> 0 <= b ->
  zultra_write_literal bs bw out b = (r, bw', out') -> (r <? 0) = false ->
  b < 256
  /\ bit_position bw' = bit_position bw + zget (nCodeLength (literalsEncoder bs)) b
  /\ BitWriter.bw_wf bw' out'.
Proof.
  intros Hlit Hnl Hwf Hb Hrun Hr. unfold zultra_write_literal in Hrun.
  destruct (b >=? 256) eqn:E.
  { injection Hrun as Hr0 _ _. zbool. lia. }
  zbool. split; [lia|].
  destruct (zultra_huffman_encoder_write_codeword (literalsEncoder bs) b bw out)
    as [[r1 bw1] out1] eqn:Ew.
  destruct (r1 <? 0) eqn:Er1.
  { injection Hrun as Hr0 _ _. zbool. lia. }
  injection Hrun as _ <- <-.
  apply (write_codeword_bit_position _ b bw out r1 bw1 out1 Hlit); try assumption.
  rewrite Hnl. unfold NLITERALSYMS. lia.
Qed.

Lemma write_varlen_bits bs bw out l r bw' out' :
  encoder_fits (literalsEncoder bs) -> nSymbols (literalsEncoder bs) = NLITERALSYMS ->
  BitWriter.bw_wf bw out -> 0 <= l <= 255 ->
  zultra_write_varlen bs bw out l = (r, bw', out') -> (r <? 0) = false ->
  bit_position bw'
  = bit_position bw + zget (nCodeLength (literalsEncoder bs)) (zultra_get_varlen_symbol l)
    + zget g_nRevMatchSymbolBits (zultra_get_varlen_symbol l - NMATCHLENSYMSTART)
  /\ BitWriter.bw_wf bw' out'.
Proof.
  intros Hlit Hnl Hwf Hl Hrun Hr.
  destruct (varlen_code_facts l Hl)
    as (sym & base & extra & Hc & Hsym & Hsr & Hrev & Hx & Hd & _).
  unfold NMATCHLENSYMSTART, NMATCHLENSYMS in *.
  assert (H5 : 2 ^ extra <= 2 ^ 5) by (apply pow2_mono; lia).
  change (2 ^ 5) with 32 in H5.
  unfold zultra_write_varlen in Hrun. rewrite Hc in Hrun.
  destruct (zultra_huffman_encoder_write_codeword (literalsEncoder bs) sym bw out)
    as [[r1 bwa] outa] eqn:Ew1.
  destruct (r1 <? 0) eqn:Er1.
  { injection Hrun as Hr0 _ _. zbool. lia. }
  destruct (BitWriter.zultra_bitwriter_put_bits bwa outa (u32 (l - base)) extra)
    as [[r2 bwb] outb] eqn:Ep1.
  destruct (r2 <? 0) eqn:Er2.
  { injection Hrun as Hr0 _ _. zbool. lia. }
  injection Hrun as _ <- <-.
  destruct (write_codeword_bit_position _ sym bw out r1 bwa outa Hlit
              ltac:(rewrite Hnl; unfold NLITERALSYMS; lia) Hwf Ew1 Er1) as [P1 W1].
  destruct (put_bits_bit_position bwa outa (u32 (l - base)) extra r2 bwb outb W1
              ltac:(lia)) as [P2 W2]; [|exact Ep1|exact Er2|].
  { unfold u32. rewrite Z.mod_small by (change (2 ^ 32) with 4294967296; lia). lia. }
  split; [|exact W2]. rewrite <- Hsym, <- Hrev. lia.
Qed.

Lemma write_offset_bits bs bw out o r bw' out' :
  encoder_fits (offsetEncoder bs) -> nSymbols (offsetEncoder bs) = NOFFSETSYMS ->
  BitWriter.bw_wf bw out -> MIN_OFFSET <= o <= MAX_OFFSET ->
  zultra_write_offset bs bw out o = (r, bw', out') -> (r <? 0) = false ->
  bit_position bw'
  = bit_position bw + zget (nCodeLength (offsetEncoder bs)) (zultra_get_offset_symbol o)
    + zget g_nRevOffsetSymbolBits (zultra_get_offset_symbol o)
  /\ BitWriter.bw_wf bw' out'.
Proof.
  intros Hoff Hno Hwf Ho Hrun Hr.
  destruct (offset_code_facts o Ho)
    as (sym & base & extra & Hc & Hsym & Hsr & Hrev & Hx & Hd & _).
  unfold NVALIDOFFSETSYMS in *.
  assert (H13 : 2 ^ extra <= 2 ^ 13) by (apply pow2_mono; lia).
  change (2 ^ 13) with 8192 in H13.
  unfold zultra_write_offset in Hrun. rewrite Hc in Hrun.
  destruct (zultra_huffman_encoder_write_codeword (offsetEncoder bs) sym bw out)
    as [[r1 bwa] outa] eqn:Ew1.
  destruct (r1 <? 0) eqn:Er1.
  { injection Hrun as Hr0 _ _. zbool. lia. }
  destruct (BitWriter.zultra_bitwriter_put_bits bwa outa (u32 (o - base)) extra)
    as [[r2 bwb] outb] eqn:Ep1.
  destruct (r2 <? 0) eqn:Er2.
  { injection Hrun as Hr0 _ _. zbool. lia. }
  injection Hrun as _ <- <-.
  destruct (write_codeword_bit_position _ sym bw out r1 bwa outa Hoff
              ltac:(rewrite Hno; unfold NOFFSETSYMS; lia) Hwf Ew1 Er1) as [P1 W1].
  destruct (put_bits_bit_position bwa outa (u32 (o - base)) extra r2 bwb outb W1
              ltac:(lia)) as [P2 W2]; [|exact Ep1|exact Er2|].
  { unfold u32. rewrite Z.mod_small by (change (2 ^ 32) with 4294967296; lia). lia. }
  split; [|exact W2]. rewrite <- Hsym, <- Hrev. lia.
Qed.

(** X13: the cost the parser charges for a token is the number of bits the
    writers emit for it.  With encoders whose codewords fit their lengths, a
    successful [zultra_write_literal] of a byte advances the bit position of
    a well-formed writer by [zultra_get_literal_size], and a successful
    [zultra_write_varlen] followed by [zultra_write_offset], for an encoded
    length of at most 255 and an offset from 1 to 32768, advances it by
    [zultra_get_varlen_size] plus [zultra_get_offset_size]; the writer stays
    well formed. *)
Theorem token_cost_is_bits_written (bs : zultra_block_state) :
  encoder_fits (literalsEncoder bs) -> encoder_fits (offsetEncoder bs) ->
  nSymbols (literalsEncoder bs) = NLITERALSYMS ->
  nSymbols (offsetEncoder bs) = NOFFSETSYMS ->
  (forall bw out b bw' out',
     BitWriter.bw_wf bw out -> 0 <= b < 256 ->
     zultra_write_literal bs bw out b = (0, bw', out') ->
     bit_position bw' = bit_position bw + zultra_get_literal_size bs b
     /\ BitWriter.bw_wf bw' out')
  /\ (forall bw out l o bw1 out1 bw2 out2,
        BitWriter.bw_wf bw out ->
        0 <= l <= MAX_MATCH_SIZE - MIN_MATCH_SIZE -> MIN_OFFSET <= o <= MAX_OFFSET ->
        zultra_write_varlen bs bw out l = (0, bw1, out1) ->
        zultra_write_offset bs bw1 out1 o = (0, bw2, out2) ->
        bit_position bw2
        = bit_position bw + zultra_get_varlen_size bs l + zultra_get_offset_size bs o
        /\ BitWriter.bw_wf bw2 out2).
Proof.
  intros Hlit Hoff Hnl Hno. split.
  - intros bw out b bw' out' Hwf Hb Hrun.
    destruct (write_literal_bits bs bw out b 0 bw' out' Hlit Hnl Hwf ltac:(lia) Hrun
                eq_refl) as (_ & P & W).
    split; [|exact W]. unfold zultra_get_literal_size.
    replace (b <? 256) with true by (symmetry; apply Z.ltb_lt; lia). exact P.
  - intros bw out l o bw1 out1 bw2 out2 Hwf Hl Ho Hrun1 Hrun2.
    unfold MAX_MATCH_SIZE, MIN_MATCH_SIZE in Hl.
    destruct (write_varlen_bits bs bw out l 0 bw1 out1 Hlit Hnl Hwf ltac:(lia) Hrun1
                eq_refl) as (P1 & W1).
    destruct (write_offset_bits bs bw1 out1 o 0 bw2 out2 Hoff Hno W1 Ho Hrun2
                eq_refl) as (P2 & W2).
    split; [|exact W2].
    destruct (varlen_code_facts l ltac:(lia))
      as (sym & base & extra & Hc & Hsym & _ & Hrev & _).
    destruct (offset_code_facts o Ho)
      as (osym & obase & oextra & Hoc & Hosym & _ & Horev & _).
    rewrite (varlen_size_of_code bs l sym base extra Hc).
    rewrite (offset_size_of_code bs o osym obase oextra Hoc).
    rewrite <- Hsym, <- Hrev in P1. rewrite <- Hosym, <- Horev in P2. lia.
Qed.

Lemma encoder_fits_checked (e : zultra_huffman_encoder_t) :
  all_from (encoder_fits_at e) (Z.to_nat (nSymbols e)) 0 = true -> encoder_fits e.
Proof.
  intros H s Hs. pose proof (all_from_spec _ _ _ H s ltac:(lia)) as Hat.
  unfold encoder_fits_at in Hat.
  repeat (apply andb_true_iff in Hat as [Hat ?]). zbool. lia.
Qed.

Lemma token_cost_is_bits_written_witness :
  let bs := tie_block_state in
  let bw0 := BitWriter.zultra_bitwriter_init 0 4 in
  let out0 := [0; 0; 0; 0] in
  let lit := zultra_write_literal bs bw0 out0 65 in
  let len := zultra_write_varlen bs bw0 out0 1 in
  let off := zultra_write_offset bs len.1.2 len.2 1 in
  (lit.1.1 = 0 /\ bit_position lit.1.2 = zultra_get_literal_size bs 65)
  /\ (len.1.1 = 0 /\ off.1.1 = 0
      /\ bit_position off.1.2
         = zultra_get_varlen_size bs 1 + zultra_get_offset_size bs 1).
Proof.
  cbn zeta.
  assert (Hwf : BitWriter.bw_wf (BitWriter.zultra_bitwriter_init 0 4) [0; 0; 0; 0])
    by (unfold BitWriter.bw_wf; cbn; lia).
  destruct (token_cost_is_bits_written tie_block_state) as [Hlit Hmatch];
    try reflexivity;
    try (apply encoder_fits_checked; vm_compute; reflexivity).
  destruct (zultra_write_literal tie_block_state (BitWriter.zultra_bitwriter_init 0 4)
              [0; 0; 0; 0] 65) as [[r1 bw1] out1] eqn:E1.
  assert (Hr1 : r1 = 0) by (vm_compute in E1; injection E1 as <- _ _; reflexivity).
  subst r1.
  destruct (Hlit _ _ 65 bw1 out1 Hwf ltac:(lia) E1) as [P1 _].
  destruct (zultra_write_varlen tie_block_state (BitWriter.zultra_bitwriter_init 0 4)
              [0; 0; 0; 0] 1) as [[r2 bw2] out2] eqn:E2.
  assert (Hr2 : r2 = 0) by (vm_compute in E2; injection E2 as <- _ _; reflexivity).
  subst r2. cbn [fst snd].
  destruct (zultra_write_offset tie_block_state bw2 out2 1) as [[r3 bw3] out3] eqn:E3.
  assert (Hr3 : r3 = 0).
  { vm_compute in E2. injection E2 as <- <-. vm_compute in E3.
    injection E3 as <- _ _. reflexivity. }
  subst r3. cbn [fst snd].
  destruct (Hmatch _ _ 1 1 bw2 out2 bw3 out3 Hwf
              ltac:(unfold MAX_MATCH_SIZE, MIN_MATCH_SIZE; lia)
              ltac:(unfold MIN_OFFSET, MAX_OFFSET; lia) E2 E3) as [P2 _].
  split; [split; [reflexivity|exact P1]|].
  split; [reflexivity|]. split; [reflexivity|exact P2].
Defined.

(** ** blockdeflate.c: the optimal parser *)

Lemma first_cheapest_of_min (chosen : best_t) (l : list best_t) :
  first_cheapest_of chosen l ->
  In chosen l /\ forall c, In c l -> chosen.1.1 <= c.1.1.
Proof.
  intros (before & after & -> & Hb & Ha). split.
  - apply in_or_app. right. left. reflexivity.
  - intros c Hc. apply in_app_or in Hc as [Hc|[<-|Hc]].
    + rewrite Forall_forall in Hb. rewrite <- list_elem_of_In in Hc.
      specialize (Hb c Hc). cbn beta in Hb. lia.
    + lia.
    + rewrite Forall_forall in Ha. rewrite <- list_elem_of_In in Hc.
      specialize (Ha c Hc). cbn beta in Ha. lia.
Qed.

Lemma candidate_lengths_bounds (n : nat) :
  forall k cached nOffsetSize cost0 i o c,
    In c (candidate_lengths n k cached nOffsetSize cost0 i o) ->
    k - Z.of_nat n < c.1.2 <= k.
Proof.
  induction n as [|n IH]; intros k cached nOffsetSize cost0 i o c Hc; [destruct Hc|].
  cbn [candidate_lengths] in Hc. destruct Hc as [<-|Hc]; [cbn; lia|].
  apply IH in Hc. lia.
Qed.

Lemma candidate_matches_bounds (n : nat) :
  forall m bs cached i e c,
    i <= e - 2 ->
    In c (candidate_matches n m bs cached i e) ->
    1 <= c.1.2 <= e - 1 - i.
Proof.
  induction n as [|n IH]; intros m bs cached i e c Hi Hc; [destruct Hc|].
  cbn [candidate_matches] in Hc.
  set (pM := mget (match_table bs) (Z.shiftl i MATCHES_PER_OFFSET_SHIFT + m)) in *.
  destruct (match_length pM >=? MIN_MATCH_SIZE) eqn:E3; [|destruct Hc].
  zbool. unfold MIN_MATCH_SIZE, LAST_LITERALS, LEAVE_ALONE_MATCH_SIZE in *.
  apply in_app_or in Hc as [Hc|Hc]; [|apply (IH _ _ _ _ _ _ Hi Hc)].
  set (nMatchLen := if i + match_length pM >? e - 1 then e - 1 - i else match_length pM)
    in *.
  assert (Hml : 1 <= nMatchLen <= e - 1 - i).
  { unfold nMatchLen. destruct (i + match_length pM >? e - 1) eqn:E; zbool; lia. }
  destruct (match_length pM >=? 40) eqn:E40.
  - destruct Hc as [<-|[]]. cbn. exact Hml.
  - apply candidate_lengths_bounds in Hc. lia.
Qed.

Lemma candidates_at_advance bs window cached i e c :
  i <= e - 2 -> In c (candidates_at bs window cached i e) ->
  i < i + (if c.1.2 =? 0 then 1 else c.1.2) <= e - 1.
Proof.
  intros Hi Hc. unfold candidates_at in Hc. destruct Hc as [<-|Hc]; [cbn; lia|].
  apply candidate_matches_bounds in Hc; [|exact Hi].
  destruct (c.1.2 =? 0) eqn:E; zbool; lia.
Qed.

(** What [zultra_optimize_matches_lwd] leaves in the cost array. *)
Lemma optimize_matches_costs bs window s e :
  0 <= s < e ->
  e <= Z.of_nat (length (cost bs)) -> e <= Z.of_nat (length (best_match bs)) ->
  let bs' := zultra_optimize_matches_lwd bs window s e in
  literalsEncoder bs' = literalsEncoder bs
  /\ zget (cost bs') (e - 1) = zultra_get_literal_size bs' (zget window (e - 1))
  /\ (forall i, s <= i <= e - 2 ->
        exists chosen,
          first_cheapest_of chosen (candidates_at bs' window (cached_varlen_sizes bs) i e)
          /\ zget (cost bs') i = chosen.1.1).
Proof.
  intros Hs Hc Hb. cbn zeta. unfold zultra_optimize_matches_lwd.
  destruct (e <=? s) eqn:E; zbool; [lia|].
  set (bs1 := set_parse bs _ _).
  pose proof (optimize_positions_frame (Z.to_nat (e - 1 - s)) bs1 window
                (cached_varlen_sizes bs) s e) as Hframe.
  cbn zeta in Hframe. destruct Hframe as (_ & Hl & _ & Hj).
  split; [rewrite Hl; reflexivity|]. split.
  - destruct (Hj (e - 1) ltac:(lia)) as [Hce _]. rewrite Hce.
    unfold zultra_get_literal_size. rewrite Hl. unfold bs1. cbn [cost set_parse literalsEncoder].
    rewrite zget_zset_eq by lia. reflexivity.
  - intros i Hi.
    destruct (optimize_positions_chosen (Z.to_nat (e - 1 - s)) bs1 window
                (cached_varlen_sizes bs) s e i) as (chosen & Hfirst & Hrec & _);
      unfold bs1; cbn [cost best_match set_parse];
      [lia|lia|rewrite zset_length; lia|rewrite mset_length; lia|lia|].
    exists chosen. split; [exact Hfirst|exact Hrec].
Qed.

(** X14: the parse [zultra_optimize_matches_lwd] costs is optimal among the
    parses built from the candidates it weighs: the cost it records at a
    position is no more than the cost of any way to cover the rest of the
    block with those candidates, and it is the cost of one such way. *)
Theorem parser_cost_is_minimal bs window s e :
  0 <= s < e ->
  e <= Z.of_nat (length (cost bs)) -> e <= Z.of_nat (length (best_match bs)) ->
  let bs' := zultra_optimize_matches_lwd bs window s e in
  let cached := cached_varlen_sizes bs in
  (forall i total,
     candidate_parse bs' window cached s e i total -> zget (cost bs') i <= total)
  /\ (forall i, s <= i <= e - 1 ->
        candidate_parse bs' window cached s e i (zget (cost bs') i)).
Proof.
  intros Hs Hc Hb.
  pose proof (optimize_matches_costs bs window s e Hs Hc Hb) as Hcosts.
  cbn zeta in Hcosts. cbn zeta.
  set (bs' := zultra_optimize_matches_lwd bs window s e) in *.
  destruct Hcosts as (_ & Hlast & Hchosen).
  split.
  - intros i total Hparse. induction Hparse as [|i c total Hi Hin Hrest IH].
    + rewrite Hlast. lia.
    + destruct (Hchosen i Hi) as (chosen & Hfirst & Hcost).
      apply first_cheapest_of_min in Hfirst as [_ Hmin].
      specialize (Hmin c Hin). lia.
  - assert (Hind : forall n i, s <= i <= e - 1 -> e - 1 - i <= Z.of_nat n ->
                     candidate_parse bs' window (cached_varlen_sizes bs) s e i
                       (zget (cost bs') i)).
    { induction n as [|n IH]; intros i Hi Hn.
      - assert (i = e - 1) as -> by lia. rewrite Hlast. constructor.
      - destruct (Z.eq_dec i (e - 1)) as [->|Hne]; [rewrite Hlast; constructor|].
        destruct (Hchosen i ltac:(lia)) as (chosen & Hfirst & Hcost).
        apply first_cheapest_of_min in Hfirst as [Hin _].
        pose proof (candidates_at_advance bs' window (cached_varlen_sizes bs) i e chosen
                      ltac:(lia) Hin) as Hadv.
        set (next := i + (if chosen.1.2 =? 0 then 1 else chosen.1.2)) in *.
        replace (zget (cost bs') i)
          with (chosen.1.1 - zget (cost bs') next + zget (cost bs') next) by lia.
        apply parse_token; [lia|exact Hin|]. fold next. apply IH; lia. }
    intros i Hi. apply (Hind (Z.to_nat (e - 1 - i))); lia.
Qed.

Lemma parser_cost_is_minimal_witness :
  let bs' := zultra_optimize_matches_lwd tie_block_state tie_window 1 6 in
  let cached := cached_varlen_sizes tie_block_state in
  (forall i total,
     candidate_parse bs' tie_window cached 1 6 i total -> zget (cost bs') i <= total)
  /\ (forall i, 1 <= i <= 6 - 1 ->
        candidate_parse bs' tie_window cached 1 6 i (zget (cost bs') i)).
Proof.
  apply (parser_cost_is_minimal tie_block_state tie_window 1 6); cbn; lia.
Defined.

(** *** zultra_post_optimize_block_lwd *)

Lemma mget_mset_cases (l : list zultra_match_t) (i j : Z) (v : zultra_match_t) :
  mget (mset l i v) j = mget l j \/ (j = i /\ mget (mset l i v) j = v).
Proof.
  destruct (Z.eq_dec j i) as [->|Hne]; [|left; apply mget_mset_ne; lia].
  destruct (Z_lt_ge_dec i 0) as [Hneg|Hpos].
  { left. unfold mget, mset. destruct (i <? 0) eqn:E; zbool; [reflexivity|lia]. }
  destruct (Z_lt_ge_dec i (Z.of_nat (length l))) as [Hin|Hout].
  - right. split; [reflexivity|]. apply mget_mset_eq. lia.
  - left. unfold mget, mset. destruct (i <? 0) eqn:E; zbool; [reflexivity|].
    rewrite list_insert_ge by lia. reflexivity.
Qed.

Lemma rewritten_refl bs window best : rewritten_as_literals bs window best best.
Proof. split; [reflexivity|]. intros j. split; [reflexivity|left; reflexivity]. Qed.

Lemma rewritten_trans bs window b1 b2 b3 :
  rewritten_as_literals bs window b1 b2 -> rewritten_as_literals bs window b2 b3 ->
  rewritten_as_literals bs window b1 b3.
Proof.
  intros [L1 H1] [L2 H2]. split; [congruence|].
  intros j. destruct (H1 j) as [O1 C1]. destruct (H2 j) as [O2 C2].
  split; [congruence|].
  destruct C2 as [C2|C2]; [|right; exact C2].
  destruct C1 as [C1|C1]; [left; congruence|right].
  destruct C1 as [C1 C1']. split; [congruence|exact C1'].
Qed.

Lemma literals_cost_coded (n : nat) bs window nStartIdx nMatchCost :
  forall j c,
    let v := literals_cost n bs window nStartIdx j nMatchCost c in
    v <> u32 (-1) -> v < nMatchCost ->
    forall k, j <= k < j + Z.of_nat n ->
      zget (nCodeLength (literalsEncoder bs)) (zget window (nStartIdx + k)) <> 0.
Proof.
  induction n as [|n IH]; intros j c v Hv1 Hv2 k Hk; [lia|].
  unfold v in *. cbn [literals_cost] in Hv1, Hv2.
  destruct (c <? nMatchCost) eqn:Ec; zbool; [|lia].
  destruct (u32 (zget (nCodeLength (literalsEncoder bs)) (zget window (nStartIdx + j)))
            =? 0) eqn:E0; zbool; [congruence|].
  destruct (Z.eq_dec k j) as [->|Hne].
  - intros Hz. apply E0. rewrite Hz. reflexivity.
  - apply (IH (j + 1) _ Hv1 Hv2). lia.
Qed.

Lemma zero_lengths_spec (n : nat) bs window nStartIdx :
  forall best j,
    (forall k, j <= k < j + Z.of_nat n ->
       zget (nCodeLength (literalsEncoder bs)) (zget window (nStartIdx + k)) <> 0) ->
    rewritten_as_literals bs window best (zero_lengths n best nStartIdx j).
Proof.
  induction n as [|n IH]; intros best j Hcoded; [apply rewritten_refl|].
  cbn [zero_lengths].
  eapply rewritten_trans; [|apply IH; intros k Hk; apply Hcoded; lia].
  split; [apply mset_length|].
  intros p.
  destruct (mget_mset_cases best (nStartIdx + j)
              p {| match_length := 0;
                   match_offset := match_offset (mget best (nStartIdx + j)) |})
    as [-> | [-> ->]].
  - split; [reflexivity|left; reflexivity].
  - cbn. split; [reflexivity|right]. split; [reflexivity|]. apply Hcoded. lia.
Qed.

Lemma post_optimize_from_spec (fuel : nat) bs window e :
  forall best i,
    rewritten_as_literals bs window best (post_optimize_from fuel bs window best i e).
Proof.
  induction fuel as [|fuel IH]; intros best i; [apply rewritten_refl|].
  cbn [post_optimize_from].
  destruct (i <? e); [|apply rewritten_refl].
  destruct (match_length (mget best i) >=? MIN_MATCH_SIZE); [|apply IH].
  destruct ((match_offset (mget best i) <? MIN_OFFSET)
            || (match_offset (mget best i) >? MAX_OFFSET)); [apply IH|].
  set (mc := u32 _).
  destruct (literals_cost (Z.to_nat (match_length (mget best i))) bs window i 0 mc 0
            =? u32 (-1)) eqn:E1; [apply IH|].
  destruct (literals_cost (Z.to_nat (match_length (mget best i))) bs window i 0 mc 0
            <? mc) eqn:E2; [|apply IH].
  zbool.
  eapply rewritten_trans; [|apply IH].
  apply zero_lengths_spec.
  apply (literals_cost_coded _ bs window i mc 0 0 E1 E2).
Qed.

(** X16: [zultra_post_optimize_block_lwd] touches nothing but the lengths
    of the parse, and only to turn matches into literals: the match table,
    the costs and both encoders are as before, the parse keeps its size and
    every offset, and an entry either keeps its length or gets length 0 at
    a position whose byte has a nonzero code length in the literals
    encoder, so every literal it introduces has a codeword. *)
Theorem post_optimize_only_makes_coded_literals
    (bs : zultra_block_state) (window : list Z) (s e : Z) :
  let bs' := zultra_post_optimize_block_lwd bs window s e in
  match_table bs' = match_table bs /\ cost bs' = cost bs
  /\ literalsEncoder bs' = literalsEncoder bs /\ offsetEncoder bs' = offsetEncoder bs
  /\ length (best_match bs') = length (best_match bs)
  /\ forall j,
       match_offset (mget (best_match bs') j) = match_offset (mget (best_match bs) j)
       /\ (match_length (mget (best_match bs') j) = match_length (mget (best_match bs) j)
           \/ (match_length (mget (best_match bs') j) = 0
               /\ zget (nCodeLength (literalsEncoder bs)) (zget window j) <> 0)).
Proof.
  cbn zeta. unfold zultra_post_optimize_block_lwd.
  cbn [match_table cost literalsEncoder offsetEncoder best_match set_parse].
  repeat (split; [reflexivity|]).
  apply post_optimize_from_spec.
Qed.

(** ** matchfinder.c: the match table *)

Lemma mget_mset_same (l : list zultra_match_t) (i : Z) (v : zultra_match_t) :
  mget (mset l i v) i = v \/ mget (mset l i v) i = no_match.
Proof.
  destruct (Z_lt_ge_dec i 0) as [Hneg|Hpos].
  - right. unfold mget. destruct (i <? 0) eqn:E; zbool; [reflexivity|lia].
  - destruct (Z_lt_ge_dec i (Z.of_nat (length l))) as [Hin|Hout].
    + left. apply mget_mset_eq. lia.
    + right. unfold mget, mset. destruct (i <? 0) eqn:E; zbool; [reflexivity|].
      rewrite (proj2 (lookup_ge_None _ _)); [reflexivity|].
      rewrite length_insert. lia.
Qed.

Section MatchFinderProofs.

Variable finder_state : Type.
Variable zultra_find_matches_at :
  finder_state -> Z -> Z -> list zultra_match_t * finder_state.
Variable LAST_MATCH_OFFSET : Z.

Local Abbreviation slot_ok i e pm :=
  (match_length pm <= Z.max (e - LAST_LITERALS - i) 0
   /\ (e - LAST_MATCH_OFFSET < i -> pm = no_match)).

Lemma clamp_slots_spec (n : nat) :
  forall m tbl nMatches i e,
    let tbl' := clamp_slots LAST_MATCH_OFFSET n m tbl nMatches i e in
    (forall j, ~ (Z.shiftl i MATCHES_PER_OFFSET_SHIFT + m <= j
                  < Z.shiftl i MATCHES_PER_OFFSET_SHIFT + m + Z.of_nat n) ->
       mget tbl' j = mget tbl j)
    /\ (forall k, m <= k < m + Z.of_nat n ->
          slot_ok i e (mget tbl' (Z.shiftl i MATCHES_PER_OFFSET_SHIFT + k))).
Proof.
  induction n as [|n IH]; intros m tbl nMatches i e; cbn [clamp_slots].
  - cbn zeta. split; [reflexivity|intros; lia].
  - set (idx := Z.shiftl i MATCHES_PER_OFFSET_SHIFT + m).
    set (tbl1 := if (nMatches <=? m) || (i >? e - LAST_MATCH_OFFSET) then _ else _).
    specialize (IH (m + 1) tbl1 nMatches i e). cbn zeta in IH.
    destruct IH as [Hout Hin]. cbn zeta.
    assert (Hother : forall j, j <> idx -> mget tbl1 j = mget tbl j).
    { intros j Hj. unfold tbl1.
      destruct ((nMatches <=? m) || (i >? e - LAST_MATCH_OFFSET));
        [apply mget_mset_ne; lia|].
      destruct (match_length (mget tbl idx) >? _); [apply mget_mset_ne; lia|reflexivity]. }
    assert (Hat : slot_ok i e (mget tbl1 idx)).
    { unfold tbl1, LAST_LITERALS.
      destruct ((nMatches <=? m) || (i >? e - LAST_MATCH_OFFSET)) eqn:E.
      - destruct (mget_mset_same tbl idx no_match) as [-> | ->]; cbn; split; try lia;
          reflexivity.
      - apply orb_false_iff in E as [_ E]. zbool.
        set (nMaxLen := if e - 1 - i <? 0 then 0 else e - 1 - i).
        assert (Hmax : nMaxLen = Z.max (e - 1 - i) 0).
        { unfold nMaxLen. destruct (e - 1 - i <? 0) eqn:E0; zbool; lia. }
        assert (Hu32 : 0 <= u32 nMaxLen).
        { unfold u32. apply Z.mod_pos_bound. change (2 ^ 32) with 4294967296. lia. }
        assert (Hu32le : u32 nMaxLen <= nMaxLen).
        { unfold u32. apply Z.mod_le; [lia|change (2 ^ 32) with 4294967296; lia]. }
        destruct (match_length (mget tbl idx) >? u32 nMaxLen) eqn:Eg; zbool.
        + pose proof (u16_le (u32 nMaxLen) Hu32) as Hu16.
          destruct (mget_mset_same tbl idx
                      {| match_length := u16 (u32 nMaxLen);
                         match_offset := match_offset (mget tbl idx) |}) as [-> | ->];
            cbn; split; lia.
        + split; lia. }
    split.
    + intros j Hj. rewrite Hout by (fold idx in Hj |- *; lia).
      apply Hother. fold idx in Hj. lia.
    + intros k Hk. destruct (Z.eq_dec k m) as [->|Hne].
      * rewrite Hout by lia. exact Hat.
      * apply Hin. lia.
Qed.

Lemma store_matches_below (found : list zultra_match_t) :
  forall idx tbl j, j < idx -> mget (store_matches found idx tbl) j = mget tbl j.
Proof.
  induction found as [|pm rest IH]; intros idx tbl j Hj; [reflexivity|].
  cbn [store_matches]. rewrite IH by lia. apply mget_mset_ne. lia.
Qed.

Lemma find_all_matches_from_spec (n : nat) :
  forall i st tbl e,
    0 <= i ->
    let tbl' :=
      (find_all_matches_from finder_state zultra_find_matches_at LAST_MATCH_OFFSET
         n i st tbl e).1 in
    (forall j, j < Z.shiftl i MATCHES_PER_OFFSET_SHIFT -> mget tbl' j = mget tbl j)
    /\ (forall p k, i <= p < i + Z.of_nat n -> 0 <= k < NMATCHES_PER_OFFSET ->
          slot_ok p e (mget tbl' (Z.shiftl p MATCHES_PER_OFFSET_SHIFT + k))).
Proof.
  unfold MATCHES_PER_OFFSET_SHIFT, NMATCHES_PER_OFFSET.
  induction n as [|n IH]; intros i st tbl e Hi; cbn [find_all_matches_from].
  - cbn. split; [reflexivity|intros; lia].
  - destruct (zultra_find_matches_at st i NMATCHES_PER_OFFSET) as [found st'].
    set (tbl1 := store_matches found _ tbl).
    set (tbl2 := clamp_slots _ _ _ tbl1 _ _ _).
    pose proof (clamp_slots_spec (Z.to_nat NMATCHES_PER_OFFSET) 0 tbl1
                  (Z.of_nat (length found)) i e) as Hclamp.
    cbn zeta in Hclamp. fold tbl2 in Hclamp. destruct Hclamp as [Cout Cin].
    unfold MATCHES_PER_OFFSET_SHIFT, NMATCHES_PER_OFFSET in Cout, Cin.
    specialize (IH (i + 1) st' tbl2 e ltac:(lia)). cbn zeta in IH.
    destruct IH as [Hbelow Hall]. cbn zeta.
    rewrite Z.shiftl_mul_pow2 in * by lia. change (2 ^ 3) with 8 in *.
    split.
    + intros j Hj. rewrite Hbelow by lia. rewrite Cout by lia.
      unfold tbl1. apply store_matches_below. unfold MATCHES_PER_OFFSET_SHIFT.
      rewrite Z.shiftl_mul_pow2 by lia. change (2 ^ 3) with 8. lia.
    + intros p k Hp Hk. destruct (Z.eq_dec p i) as [->|Hne].
      * rewrite Z.shiftl_mul_pow2 by lia. change (2 ^ 3) with 8.
        rewrite Hbelow by lia. apply Cin. lia.
      * apply Hall; lia.
Qed.

(** X15: whatever the match finder reports, after
    [zultra_find_all_matches] over [[nStartOffset, nEndOffset)] no match
    stored for a position of that range reaches the last byte: each of the
    [NMATCHES_PER_OFFSET] slots of position [i] holds a length of at most
    [nEndOffset - LAST_LITERALS - i] (or 0 if that is negative), and all the
    slots of a position after [nEndOffset - LAST_MATCH_OFFSET] are empty. *)
Theorem find_all_matches_clamps_to_window
    (st : finder_state) (tbl : list zultra_match_t) (nStartOffset nEndOffset i k : Z) :
  0 <= nStartOffset -> nStartOffset <= i < nEndOffset ->
  0 <= k < NMATCHES_PER_OFFSET ->
  let tbl' :=
    (zultra_find_all_matches finder_state zultra_find_matches_at LAST_MATCH_OFFSET
       st tbl nStartOffset nEndOffset).1 in
  let pm := mget tbl' (Z.shiftl i MATCHES_PER_OFFSET_SHIFT + k) in
  match_length pm <= Z.max (nEndOffset - LAST_LITERALS - i) 0
  /\ (nEndOffset - LAST_MATCH_OFFSET < i -> pm = no_match).
Proof.
  intros Hs Hi Hk. cbn zeta. unfold zultra_find_all_matches.
  pose proof (find_all_matches_from_spec (Z.to_nat (nEndOffset - nStartOffset))
                nStartOffset st tbl nEndOffset Hs) as H.
  cbn zeta in H. destruct H as [_ H]. apply H; lia.
Qed.

End MatchFinderProofs.

Lemma find_all_matches_clamps_to_window_witness :
  let find_at := fun (st : unit) (i _ : Z) =>
                   (if i =? 1 then [{| match_length := 9; match_offset := 1 |}] else [],
                    st) in
  let tbl' := (zultra_find_all_matches unit find_at 4 tt (repeat no_match 48) 1 6).1 in
  let pm := mget tbl' (Z.shiftl 1 MATCHES_PER_OFFSET_SHIFT + 0) in
  match_length pm <= Z.max (6 - LAST_LITERALS - 1) 0
  /\ (6 - 4 < 1 -> pm = no_match).
Proof.
  apply (find_all_matches_clamps_to_window unit _ 4 tt (repeat no_match 48) 1 6 1 0);
    unfold NMATCHES_PER_OFFSET; lia.
Defined.

(** ** The sub-block round of zultra_stream_compress *)

Section StoredFallback.
Import BitWriter.

(** One block of the stored form, split off the front. *)
Lemma stored_blocks_spec_step (fuel : nat) (c d bfinal : Z) (src : list Z) (n : Z) :
  0 < n -> n <= Z.of_nat (length src) ->
  let nSub := if n >? 65535 then 65535 else n in
  let nSubIsFinal := if n >? 65535 then 0 else bfinal in
  stored_blocks_spec (S fuel) c d bfinal (take (Z.to_nat n) src)
  = bytes_le (Z.to_nat ((c + 3 + 7) / 8)) (d + nSubIsFinal * 2 ^ c)
    ++ bytes_le 2 nSub ++ bytes_le 2 (65535 - nSub) ++ take (Z.to_nat nSub) src
    ++ stored_blocks_spec fuel 0 0 bfinal
         (take (Z.to_nat (n - nSub)) (drop (Z.to_nat nSub) src)).
Proof.
  intros Hn Hsrc. cbn zeta. cbn [stored_blocks_spec].
  rewrite length_take. replace (Z.of_nat (Z.to_nat n `min` length src)) with n by lia.
  replace (n =? 0) with false by (symmetry; apply Z.eqb_neq; lia).
  rewrite Z.gtb_ltb.
  destruct (n <=? 65535) eqn:E65; zbool.
  - replace (65535 <? n) with false by (symmetry; apply Z.ltb_ge; lia).
    rewrite Z.sub_diag. change (Z.to_nat 0) with 0%nat. rewrite take_0.
    rewrite stored_blocks_spec_nil, app_nil_r.
    unfold stored_block_spec. rewrite length_take.
    replace (Z.of_nat (Z.to_nat n `min` length src)) with n by lia.
    reflexivity.
  - replace (65535 <? n) with true by (symmetry; apply Z.ltb_lt; lia).
    unfold stored_block_spec. rewrite take_take, !length_take.
    replace (Z.to_nat 65535 `min` Z.to_nat n)%nat with (Z.to_nat 65535) by lia.
    replace (Z.of_nat (Z.to_nat 65535 `min` length src)) with 65535 by lia.
    rewrite <- !app_assoc. do 4 f_equal.
    rewrite skipn_firstn_comm. do 2 f_equal. lia.
Qed.

(** [flush_bits] on a well-formed writer fails exactly when a byte is due
    and has no room. *)
Lemma flush_bits_status bw out :
  bw_wf bw out ->
  ((zultra_bitwriter_flush_bits bw out).1.1 <? 0) = true
  <-> (0 < nEncBitCount bw /\ nMaxOutDataOffset bw <= nOutOffset bw).
Proof.
  intros (Hc & _ & Ho & _). unfold zultra_bitwriter_flush_bits.
  destruct (nEncBitCount bw >? 8) eqn:E8; [zbool; lia|].
  destruct (nEncBitCount bw >? 0) eqn:E0.
  - destruct (nOutOffset bw >=? nMaxOutDataOffset bw) eqn:Em; cbn [fst snd]; zbool.
    + split; [intros _; lia|reflexivity].
    + split; [discriminate|lia].
  - cbn [fst snd]. zbool. split; [discriminate|lia].
Qed.

(** The bytes the header of a stored block takes, call by call. *)
Lemma stored_header_bytes (c : Z) :
  0 <= c <= 7 ->
  let n1 := (c + 1) / 8 in
  let n2 := ((c + 1) mod 8 + 2) / 8 in
  let n3 := if 0 <? ((c + 1) mod 8 + 2) mod 8 then 1 else 0 in
  0 <= n1 /\ 0 <= n2 /\ 0 <= n3 /\ n1 + n2 + n3 = (c + 3 + 7) / 8.
Proof.
  intros Hc.
  assert (Hcases : c = 0 \/ c = 1 \/ c = 2 \/ c = 3 \/ c = 4 \/ c = 5 \/ c = 6 \/ c = 7)
    by lia.
  destruct Hcases as [-> | [-> | [-> | [-> | [-> | [-> | [-> | ->]]]]]]];
    vm_compute; repeat split; discriminate.
Qed.

(** The stored-block loop succeeds exactly when the blocks the spec
    describes fit the output buffer after the bytes already stored;
    otherwise it ends with [ZULTRA_ERROR_DST]. *)
Lemma emit_stored_blocks_status (fuel : nat) (nMaxBlockSize nIsFinal : Z) :
  forall (src : list Z) (n : Z) bw out,
  bw_wf bw out -> 0 <= nIsFinal <= 1 ->
  0 <= n -> n <= Z.of_nat (length src) -> n <= Z.of_nat fuel ->
  nMaxOutDataOffset bw = out_buffer_size nMaxBlockSize ->
  let bytes := stored_blocks_spec fuel (nEncBitCount bw) (nEncBitsData bw) nIsFinal
                 (take (Z.to_nat n) src) in
  (emit_stored_blocks fuel nMaxBlockSize nIsFinal src n bw out).1.1
  = if nOutOffset bw + Z.of_nat (length bytes) <=? out_buffer_size nMaxBlockSize
    then ZULTRA_OK else ZULTRA_ERROR_DST.
Proof.
  induction fuel as [|fuel IH]; intros src n bw out Hwf Hfin Hn Hsrc Hfuel Hmax; cbn zeta.
  { cbn [emit_stored_blocks stored_blocks_spec fst snd length].
    destruct Hwf as (_ & _ & Ho & _).
    replace (nOutOffset bw + Z.of_nat 0 <=? out_buffer_size nMaxBlockSize) with true
      by (symmetry; apply Z.leb_le; lia).
    reflexivity. }
  destruct (Z.eq_dec n 0) as [->|Hn0].
  { cbn [emit_stored_blocks]. change (0 =? 0) with true. cbv iota. cbn [fst snd].
    change (Z.to_nat 0) with 0%nat. rewrite take_0. rewrite stored_blocks_spec_nil.
    destruct Hwf as (_ & _ & Ho & _). cbn [length].
    replace (nOutOffset bw + Z.of_nat 0 <=? out_buffer_size nMaxBlockSize) with true
      by (symmetry; apply Z.leb_le; lia).
    reflexivity. }
  rewrite stored_blocks_spec_step by lia. cbn zeta.
  cbn [emit_stored_blocks].
  replace (n =? 0) with false by (symmetry; apply Z.eqb_neq; lia).
  set (nSub := if n >? 65535 then 65535 else n) in *.
  set (nSubIsFinal := if n >? 65535 then 0 else nIsFinal) in *.
  assert (HnSub : 0 < nSub <= 65535 /\ nSub <= n) by (unfold nSub; case_ifs; zbool; lia).
  assert (HsubFin : 0 <= nSubIsFinal <= 1) by (unfold nSubIsFinal; case_ifs; lia).
  set (nBytes := (nEncBitCount bw + 3 + 7) / 8).
  set (rest := stored_blocks_spec fuel 0 0 nIsFinal
                 (take (Z.to_nat (n - nSub)) (drop (Z.to_nat nSub) src))).
  rewrite !length_app, !bytes_le_length, length_take.
  pose proof Hwf as (Hcount & Hdata & Hoff & Hlen).
  destruct (stored_header_bytes (nEncBitCount bw) Hcount) as (Hn1 & Hn2 & Hn3 & Hsum).
  cbn zeta in Hn1, Hn2, Hn3, Hsum. fold nBytes in Hsum.
  set (n1 := (nEncBitCount bw + 1) / 8) in *.
  set (n2 := ((nEncBitCount bw + 1) mod 8 + 2) / 8) in *.
  set (n3 := if 0 <? ((nEncBitCount bw + 1) mod 8 + 2) mod 8 then 1 else 0) in *.
  assert (Htotal : nOutOffset bw
                   + Z.of_nat (Z.to_nat nBytes
                               + (2 + (2 + (Z.to_nat nSub `min` length src + length rest))))
                   = nOutOffset bw + nBytes + 4 + nSub + Z.of_nat (length rest)) by lia.
  rewrite Htotal. clear Htotal.
  (* the final-block bit *)
  pose proof (put_bits_fitting bw out nSubIsFinal 1 Hwf ltac:(lia)
                ltac:(change (2 ^ 1) with 2; lia)) as Hp1.
  cbn zeta in Hp1. fold n1 in Hp1.
  destruct (zultra_bitwriter_put_bits bw out nSubIsFinal 1) as [[r1 bw1] out1] eqn:H1.
  destruct Hp1 as (Hf1 & Hr1 & _).
  destruct (r1 <? 0) eqn:Er1.
  { cbn [fst snd]. zbool.
    replace (nOutOffset bw + nBytes + 4 + nSub + Z.of_nat (length rest)
             <=? out_buffer_size nMaxBlockSize) with false
      by (symmetry; apply Z.leb_gt; lia).
    reflexivity. }
  destruct (put_bits_fitting_emitted bw out nSubIsFinal 1 r1 bw1 out1 Hwf ltac:(lia)
              ltac:(change (2 ^ 1) with 2; lia) H1 Er1) as (Hbw1 & _ & _ & Hwf1).
  (* the block type *)
  pose proof (put_bits_fitting bw1 out1 0 2 Hwf1 ltac:(lia)
                ltac:(change (2 ^ 2) with 4; lia)) as Hp2.
  cbn zeta in Hp2.
  destruct (zultra_bitwriter_put_bits bw1 out1 0 2) as [[r2 bw2] out2] eqn:H2.
  destruct Hp2 as (Hf2 & Hr2 & _).
  assert (Hc1 : nEncBitCount bw1 = (nEncBitCount bw + 1) mod 8) by (rewrite Hbw1; reflexivity).
  assert (Ho1 : nOutOffset bw1 = nOutOffset bw + n1) by (rewrite Hbw1; reflexivity).
  assert (Hm1 : nMaxOutDataOffset bw1 = nMaxOutDataOffset bw) by (rewrite Hbw1; reflexivity).
  rewrite Hc1, Ho1, Hm1 in Hf2. fold n2 in Hf2.
  destruct (r2 <? 0) eqn:Er2.
  { cbn [fst snd]. zbool.
    replace (nOutOffset bw + nBytes + 4 + nSub + Z.of_nat (length rest)
             <=? out_buffer_size nMaxBlockSize) with false
      by (symmetry; apply Z.leb_gt; lia).
    reflexivity. }
  destruct (put_bits_fitting_emitted bw1 out1 0 2 r2 bw2 out2 Hwf1 ltac:(lia)
              ltac:(change (2 ^ 2) with 4; lia) H2 Er2) as (Hbw2 & _ & _ & Hwf2).
  assert (Hc2 : nEncBitCount bw2 = ((nEncBitCount bw + 1) mod 8 + 2) mod 8)
    by (rewrite Hbw2, Hc1; reflexivity).
  assert (Ho2 : nOutOffset bw2 = nOutOffset bw + n1 + n2)
    by (rewrite Hbw2, Hc1, Ho1; reflexivity).
  assert (Hm2 : nMaxOutDataOffset bw2 = nMaxOutDataOffset bw)
    by (rewrite Hbw2, Hm1; reflexivity).
  (* the padding *)
  pose proof (flush_bits_status bw2 out2 Hwf2) as Hp3.
  rewrite Hc2, Ho2, Hm2 in Hp3.
  destruct (zultra_bitwriter_flush_bits bw2 out2) as [[r3 bw3] out3] eqn:H3.
  cbn [fst snd] in Hp3.
  destruct (r3 <? 0) eqn:Er3.
  { cbn [fst snd]. destruct Hp3 as [Hp3 _]. specialize (Hp3 eq_refl).
    assert (n3 = 1) by (unfold n3; destruct (0 <? _) eqn:E; zbool; lia).
    replace (nOutOffset bw + nBytes + 4 + nSub + Z.of_nat (length rest)
             <=? out_buffer_size nMaxBlockSize) with false
      by (symmetry; apply Z.leb_gt; lia).
    reflexivity. }
  destruct (stored_header_emitted _ _ _ _ _ _ _ _ _ _ _ _ Hwf HsubFin H1 Er1 H2 Er2 H3 Er3)
    as (Hbw3 & _ & Hl3 & Hle3).
  fold nBytes in Hbw3, Hle3.
  assert (HnB : 0 <= nBytes) by lia.
  assert (Hcur : zultra_bitwriter_get_offset bw3 = nOutOffset bw + nBytes).
  { unfold zultra_bitwriter_get_offset. rewrite Hbw3 in *. cbn in *.
    destruct (_ <=? _) eqn:E; [reflexivity|zbool; lia]. }
  rewrite Hcur. set (nCur := nOutOffset bw + nBytes) in *.
  destruct ((nCur <? 0) || (nCur + 4 + nSub >? out_buffer_size nMaxBlockSize)) eqn:Echk.
  { cbn [fst snd]. apply orb_true_iff in Echk as [Echk|Echk]; zbool; [lia|].
    replace (nCur + 4 + nSub + Z.of_nat (length rest)
             <=? out_buffer_size nMaxBlockSize) with false
      by (symmetry; apply Z.leb_gt; lia).
    reflexivity. }
  apply orb_false_elim in Echk. destruct Echk as [_ Echk]. zbool.
  match goal with
  | |- (emit_stored_blocks _ _ _ ?s ?m ?b ?o).1.1 = _ =>
      set (src' := s); set (bw4 := b); set (out8 := o)
  end.
  assert (Hl8 : length out8 = length out).
  { unfold out8. rewrite memcpy_at_length; rewrite ?zset_length; lia. }
  assert (Hwf4 : bw_wf bw4 out8).
  { unfold bw_wf, bw4. rewrite Hbw3, Hl8. cbn. lia. }
  specialize (IH src' (n - nSub) bw4 out8 Hwf4 Hfin ltac:(lia)
                ltac:(unfold src'; rewrite length_drop; lia) ltac:(lia)
                ltac:(unfold bw4; rewrite Hbw3; exact Hmax)).
  cbn zeta in IH. rewrite IH.
  replace (nEncBitCount bw4) with 0 by (unfold bw4; rewrite Hbw3; reflexivity).
  replace (nEncBitsData bw4) with 0 by (unfold bw4; rewrite Hbw3; reflexivity).
  replace (nOutOffset bw4) with (nCur + 4 + nSub) by (unfold bw4; reflexivity).
  fold src' rest. reflexivity.
Qed.

End StoredFallback.

Section SubBlockRound.
Import BitWriter.

Variable block_state : Type.
Variable evaluate_costs : block_state -> list Z -> Z -> Z -> bool * Z * Z * block_state.
Variable zultra_block_deflate :
  block_state -> zultra_bitwriter_t -> list Z -> list Z -> Z -> Z -> Z
  -> Z * list (Z * Z) * block_state.

Lemma bitwriter_copy_id (bw : zultra_bitwriter_t) : zultra_bitwriter_copy bw = bw.
Proof. destruct bw; reflexivity. Qed.

(** The outcomes of one round of the sub-block loop, by the tests the code
    makes. *)
Lemma compress_subblock_cases
    (nDoFinalize nInDataSize nAvailIn : Z) (c : zultra_compressor_t block_state)
    (nInStart nSplitOffset : Z) :
  bw_wf (bitwriter _ c) (out_buffer _ c) ->
  nMaxOutDataOffset (bitwriter _ c) = out_buffer_size (max_block_size _ c) ->
  let nBlockSize := nSplitOffset - (nInStart + previous_block_size _ c) in
  0 < nBlockSize ->
  0 <= nInStart ->
  HISTORY_SIZE + nInStart + nBlockSize <= Z.of_nat (length (in_data _ c)) ->
  let bw0 := bitwriter _ c in
  let out0 := out_buffer _ c in
  let pInWindow :=
    drop (Z.to_nat (HISTORY_SIZE - previous_block_size _ c)) (in_data _ c) in
  let nStart := previous_block_size _ c + nInStart in
  let costs := evaluate_costs (block _ c) pInWindow nStart nBlockSize in
  let nIsDynamic := if costs.1.1.2 <=? costs.1.2 then 0 else 1 in
  let nIsFinal :=
    if negb (nDoFinalize =? 0) && (nInStart + nBlockSize >=? nInDataSize) && (nAvailIn =? 0)
    then 1 else 0 in
  let hdr := put_bits_all [(nIsFinal, 1); (1 + nIsDynamic, 2)] bw0 out0 in
  let deflated :=
    zultra_block_deflate costs.2 hdr.1 hdr.2 pInWindow nStart nBlockSize nIsDynamic in
  let att := put_bits_all deflated.1.2 hdr.1 hdr.2 in
  let raw := take (Z.to_nat nBlockSize)
               (drop (Z.to_nat (HISTORY_SIZE + nInStart)) (in_data _ c)) in
  let stored := stored_blocks_spec (length raw) (nEncBitCount bw0) (nEncBitsData bw0)
                  nIsFinal raw in
  let r := compress_subblock _ evaluate_costs zultra_block_deflate nDoFinalize nInDataSize
             nAvailIn c nInStart nSplitOffset in
  let c' := r.1.2 in
  match nMaxOutDataOffset bw0 <? nOutOffset bw0 + (nEncBitCount bw0 + 3) / 8
  return Prop with
  | true => r.1.1 = ZULTRA_ERROR_DST /\ r.2 = nInStart
  | false =>
    match costs.1.1.1 return Prop with
    | false => r.1.1 = ZULTRA_ERROR_COMPRESSION /\ r.2 = nInStart
    | true =>
      match (0 <=? deflated.1.1) && (nOutOffset att.1 - nOutOffset hdr.1 <=? nBlockSize)
      return Prop with
      | true =>
        r.1.1 = ZULTRA_OK /\ r.2 = nInStart + nBlockSize
        /\ bitwriter _ c' = att.1 /\ out_buffer _ c' = att.2
        /\ take (Z.to_nat (nOutOffset bw0)) (out_buffer _ c')
           = take (Z.to_nat (nOutOffset bw0)) out0
        /\ 0 <= nEncBitCount hdr.1
      | false =>
        r.2 = nInStart + nBlockSize
        /\ match nOutOffset bw0 + Z.of_nat (length stored)
                 <=? out_buffer_size (max_block_size _ c)
           return Prop with
           | true =>
             r.1.1 = ZULTRA_OK
             /\ bitwriter _ c'
                = {| nEncBitCount := 0; nEncBitsData := 0;
                     nOutOffset := nOutOffset bw0 + Z.of_nat (length stored);
                     nMaxOutDataOffset := nMaxOutDataOffset bw0 |}
             /\ emitted (bitwriter _ c') (out_buffer _ c') = emitted bw0 out0 ++ stored
           | false => r.1.1 = ZULTRA_ERROR_DST
           end
      end
    end
  end.
Proof.
  intros Hwf Hmax nBlockSize Hsize Hstart Hin bw0 out0 pInWindow nStart costs nIsDynamic
    nIsFinal hdr deflated att raw stored r c'.
  assert (Hhist : 0 <= HISTORY_SIZE) by (unfold HISTORY_SIZE; lia).
  assert (HfinR : 0 <= nIsFinal <= 1) by (unfold nIsFinal; case_ifs; lia).
  pose proof Hwf as (Hcount & Hdata & Hoff & Hlen). fold bw0 out0 in Hcount, Hdata, Hoff, Hlen.
  subst c' r att deflated hdr. unfold compress_subblock.
  fold nBlockSize pInWindow bw0 out0.
  change (previous_block_size block_state c + nInStart) with nStart.
  fold nIsFinal. subst nIsDynamic costs.
  destruct (evaluate_costs (block block_state c) pInWindow nStart nBlockSize)
    as [[[bCostOk nStaticCost] nDynamicCost] bs1].
  cbn [fst snd put_bits_all].
  set (nIsDynamic := if nStaticCost <=? nDynamicCost then 0 else 1).
  assert (HdynR : 0 <= 1 + nIsDynamic < 2 ^ 2)
    by (unfold nIsDynamic; change (2 ^ 2) with 4; case_ifs; lia).
  (* the two header calls *)
  pose proof (put_bits_fitting bw0 out0 nIsFinal 1 Hwf ltac:(lia)
                ltac:(change (2 ^ 1) with 2; lia)) as Hp1.
  cbn zeta in Hp1.
  destruct (zultra_bitwriter_put_bits bw0 out0 nIsFinal 1) as [[r1 bw1] out1] eqn:H1.
  destruct Hp1 as (Hf1 & Hr1 & _).
  assert (Hnum : (nEncBitCount bw0 + 1) / 8 + ((nEncBitCount bw0 + 1) mod 8 + 2) / 8
                 = (nEncBitCount bw0 + 3) / 8
                 /\ 0 <= (nEncBitCount bw0 + 1) / 8
                 /\ 0 <= ((nEncBitCount bw0 + 1) mod 8 + 2) / 8).
  { assert (Hcases : nEncBitCount bw0 = 0 \/ nEncBitCount bw0 = 1 \/ nEncBitCount bw0 = 2
                     \/ nEncBitCount bw0 = 3 \/ nEncBitCount bw0 = 4 \/ nEncBitCount bw0 = 5
                     \/ nEncBitCount bw0 = 6 \/ nEncBitCount bw0 = 7) by lia.
    destruct Hcases as [-> | [-> | [-> | [-> | [-> | [-> | [-> | ->]]]]]]];
      vm_compute; repeat split; discriminate. }
  destruct Hnum as (Hnum & Hnum1 & Hnum2).
  destruct (r1 <? 0) eqn:Er1.
  { zbool. cbn [fst snd].
    replace (nMaxOutDataOffset bw0 <? nOutOffset bw0 + (nEncBitCount bw0 + 3) / 8)
      with true by (symmetry; apply Z.ltb_lt; lia).
    split; reflexivity. }
  destruct (put_bits_fitting_emitted bw0 out0 nIsFinal 1 r1 bw1 out1 Hwf
              ltac:(lia) ltac:(change (2 ^ 1) with 2; lia) H1 Er1)
    as (Hbw1 & Hem1 & Hl1 & Hwf1).
  pose proof (put_bits_fitting bw1 out1 (1 + nIsDynamic) 2 Hwf1 ltac:(lia) HdynR) as Hp2.
  cbn zeta in Hp2.
  destruct (zultra_bitwriter_put_bits bw1 out1 (1 + nIsDynamic) 2) as [[r2 bw2] out2] eqn:H2.
  destruct Hp2 as (Hf2 & Hr2 & _).
  assert (Hc1 : nEncBitCount bw1 = (nEncBitCount bw0 + 1) mod 8) by (rewrite Hbw1; reflexivity).
  assert (Ho1 : nOutOffset bw1 = nOutOffset bw0 + (nEncBitCount bw0 + 1) / 8)
    by (rewrite Hbw1; reflexivity).
  assert (Hm1 : nMaxOutDataOffset bw1 = nMaxOutDataOffset bw0) by (rewrite Hbw1; reflexivity).
  rewrite Hc1, Ho1, Hm1 in Hf2.
  destruct (r2 <? 0) eqn:Er2.
  { zbool. cbn [fst snd].
    replace (nMaxOutDataOffset bw0 <? nOutOffset bw0 + (nEncBitCount bw0 + 3) / 8)
      with true by (symmetry; apply Z.ltb_lt; lia).
    split; reflexivity. }
  destruct (put_bits_fitting_emitted bw1 out1 (1 + nIsDynamic) 2 r2 bw2 out2 Hwf1
              ltac:(lia) HdynR H2 Er2)
    as (Hbw2 & Hem2 & Hl2 & Hwf2).
  assert (Hoff2 : nOutOffset bw2 = nOutOffset bw0 + (nEncBitCount bw0 + 3) / 8).
  { rewrite Hbw2, Hc1, Ho1. cbn. lia. }
  assert (Hm2 : nMaxOutDataOffset bw2 = nMaxOutDataOffset bw0)
    by (rewrite Hbw2, Hm1; reflexivity).
  replace (nMaxOutDataOffset bw0 <? nOutOffset bw0 + (nEncBitCount bw0 + 3) / 8)
    with false
    by (symmetry; apply Z.ltb_ge; destruct Hwf2 as (_ & _ & Ho & _); lia).
  (* the cost evaluation *)
  destruct bCostOk; cbn [negb status_is_ok]; [|split; reflexivity].
  (* the earlier bytes under the header bits *)
  pose proof (put_bits_frame bw0 out0 nIsFinal 1 (Z.to_nat (nOutOffset bw0)) ltac:(lia)) as Hfr1.
  rewrite H1 in Hfr1. destruct Hfr1 as (Ht1 & _ & _ & _).
  pose proof (put_bits_frame bw1 out1 (1 + nIsDynamic) 2 (Z.to_nat (nOutOffset bw0))
                ltac:(lia)) as Hfr2.
  rewrite H2 in Hfr2. destruct Hfr2 as (Ht2 & _ & _ & _).
  assert (Hprev : zultra_bitwriter_get_offset bw2 = nOutOffset bw2).
  { unfold zultra_bitwriter_get_offset. pose proof Hwf2 as (_ & _ & Ho & _).
    destruct (nOutOffset bw2 <=? nMaxOutDataOffset bw2) eqn:E; [reflexivity|zbool; lia]. }
  rewrite Hprev.
  destruct (nOutOffset bw2 <? 0) eqn:Eneg; [zbool; lia|].
  cbn [fst snd].
  destruct (zultra_block_deflate bs1 bw2 out2 pInWindow nStart nBlockSize nIsDynamic)
    as [[nCompressionResult puts] bs2].
  cbn [fst snd].
  pose proof (put_bits_all_frame puts bw2 out2 (Z.to_nat (nOutOffset bw0)) ltac:(lia)) as Hf3.
  pose proof (put_bits_all_window puts bw2 out2) as Hw3. cbn zeta in Hw3.
  destruct (put_bits_all puts bw2 out2) as [bw3 out3]. cbn [fst snd] in *.
  destruct Hf3 as (Ht3 & Hl3 & Ho3 & Hm3).
  destruct Hw3 as (_ & _ & _ & Hw3 & _).
  assert (Hcur : zultra_bitwriter_get_offset bw3 = nOutOffset bw3).
  { unfold zultra_bitwriter_get_offset. pose proof Hwf2 as (_ & _ & Ho & _).
    destruct (nOutOffset bw3 <=? nMaxOutDataOffset bw3) eqn:E; [reflexivity|zbool; lia]. }
  rewrite Hcur.
  assert (Hcond : (nCompressionResult <? 0) || (nOutOffset bw3 <? 0)
                  || (nOutOffset bw3 - nOutOffset bw2 >? nBlockSize)
                  = negb ((0 <=? nCompressionResult)
                          && (nOutOffset bw3 - nOutOffset bw2 <=? nBlockSize))).
  { rewrite Z.gtb_ltb.
    destruct (nCompressionResult <? 0) eqn:E1; destruct (0 <=? nCompressionResult) eqn:E2;
      destruct (nOutOffset bw3 <? 0) eqn:E3;
      destruct (nBlockSize <? nOutOffset bw3 - nOutOffset bw2) eqn:E4;
      destruct (nOutOffset bw3 - nOutOffset bw2 <=? nBlockSize) eqn:E5;
      zbool; try reflexivity; lia. }
  rewrite Hcond. clear Hcond.
  destruct ((0 <=? nCompressionResult)
            && (nOutOffset bw3 - nOutOffset bw2 <=? nBlockSize)) eqn:Ekept; cbn [negb].
  - (* kept *)
    cbn [fst snd bitwriter out_buffer set_writer].
    split; [reflexivity|]. split; [reflexivity|]. split; [reflexivity|].
    split; [reflexivity|]. split; [rewrite Ht3, Ht2, Ht1; reflexivity|].
    destruct Hwf2 as (Hc2 & _). lia.
  - (* rewound and stored *)
    rewrite !bitwriter_copy_id.
    assert (Hwf0' : bw_wf bw0 out3).
    { unfold bw_wf. rewrite Hl3, Hl2, Hl1. repeat split; lia. }
    assert (Hrawlen : length raw = Z.to_nat nBlockSize).
    { unfold raw. rewrite length_take, length_drop. lia. }
    pose proof (emit_stored_blocks_status (Z.to_nat nBlockSize) (max_block_size _ c)
                  nIsFinal (drop (Z.to_nat (HISTORY_SIZE + nInStart)) (in_data _ c))
                  nBlockSize bw0 out3 Hwf0' HfinR ltac:(lia)
                  ltac:(rewrite length_drop; lia) ltac:(lia) Hmax) as Hst.
    cbn zeta in Hst. fold raw in Hst.
    subst stored. rewrite Hrawlen.
    set (stored := stored_blocks_spec (Z.to_nat nBlockSize) (nEncBitCount bw0)
                     (nEncBitsData bw0) nIsFinal raw) in *.
    destruct (emit_stored_blocks (Z.to_nat nBlockSize) (max_block_size _ c) nIsFinal
                (drop (Z.to_nat (HISTORY_SIZE + nInStart)) (in_data _ c))
                nBlockSize bw0 out3) as [[nError bw5] out5] eqn:Hrun.
    cbn [fst snd bitwriter out_buffer set_writer] in *.
    split; [reflexivity|].
    destruct (nOutOffset bw0 + Z.of_nat (length stored)
              <=? out_buffer_size (max_block_size _ c)) eqn:Efits; [|exact Hst].
    subst nError. split; [reflexivity|].
    pose proof (emit_stored_blocks_spec_ok (Z.to_nat nBlockSize) (max_block_size _ c)
                  nIsFinal (drop (Z.to_nat (HISTORY_SIZE + nInStart)) (in_data _ c))
                  nBlockSize bw0 out3 bw5 out5 Hwf0' HfinR ltac:(lia)) as Hok.
    destruct Hok as (Hem & Hl & Ho & Hm & Hz);
      [rewrite length_drop; lia|lia|exact Hmax|exact Hrun|].
    fold raw in Hem, Ho. fold stored in Hem, Ho.
    split.
    + destruct (Hz Hsize) as (Hc5 & Hd5).
      destruct bw5; cbn in *; subst; reflexivity.
    + rewrite Hem. f_equal. unfold emitted. rewrite Ht3, Ht2, Ht1. reflexivity.
Qed.

(** C3, as the code has it.  One round of the sub-block loop of
    [zultra_stream_compress], from a well-formed writer on the output buffer,
    for a sub-block of [nBlockSize > 0] bytes inside the input buffer, has
    one of five outcomes, decided as follows.

    - The byte that the three header bits complete has no room: the round
      ends with [ZULTRA_ERROR_DST] and [nInStart] is not advanced.
    - Else the cost evaluation failed: [ZULTRA_ERROR_COMPRESSION], [nInStart]
      not advanced.
    - Else [zultra_block_deflate] reported success and its calls moved the
      byte offset of the writer, from where the header bits left it, by at
      most [nBlockSize]: the attempt is kept.  The writer and the buffer are
      exactly what the header bits and the calls of [zultra_block_deflate]
      left, the bytes stored before the round are untouched, and the round
      returns [ZULTRA_OK].  The test counts whole bytes stored, not the bits
      left pending: a kept payload takes at most [8 * nBlockSize + 7] bits
      when no more than 7 bits are pending after it.
    - Else (the attempt failed or moved the offset by more) the writer is put
      back in the state saved before the header bits and the sub-block is
      stored from there.  If the stored form of the spec (blocks of at most
      65535 bytes, each with BFINAL and BTYPE = 00 padded to a byte, LEN
      least significant byte first, NLEN its one's complement, then the raw
      bytes) fits the output buffer after the bytes already there, the round
      returns [ZULTRA_OK], the bytes stored are those before the round
      followed by exactly that form, and the writer is on a byte boundary
      behind them.
    - If it does not fit, the round ends with [ZULTRA_ERROR_DST].

    In the last three cases [nInStart] advances by [nBlockSize]. *)
Theorem subblock_kept_or_rewound_and_stored
    (nDoFinalize nInDataSize nAvailIn : Z) (c : zultra_compressor_t block_state)
    (nInStart nSplitOffset : Z) :
  bw_wf (bitwriter _ c) (out_buffer _ c) ->
  nMaxOutDataOffset (bitwriter _ c) = out_buffer_size (max_block_size _ c) ->
  let nBlockSize := nSplitOffset - (nInStart + previous_block_size _ c) in
  0 < nBlockSize ->
  0 <= nInStart ->
  HISTORY_SIZE + nInStart + nBlockSize <= Z.of_nat (length (in_data _ c)) ->
  let bw0 := bitwriter _ c in
  let out0 := out_buffer _ c in
  let pInWindow :=
    drop (Z.to_nat (HISTORY_SIZE - previous_block_size _ c)) (in_data _ c) in
  let nStart := previous_block_size _ c + nInStart in
  let costs := evaluate_costs (block _ c) pInWindow nStart nBlockSize in
  let nIsDynamic := if costs.1.1.2 <=? costs.1.2 then 0 else 1 in
  let nIsFinal :=
    if negb (nDoFinalize =? 0) && (nInStart + nBlockSize >=? nInDataSize) && (nAvailIn =? 0)
    then 1 else 0 in
  let hdr := put_bits_all [(nIsFinal, 1); (1 + nIsDynamic, 2)] bw0 out0 in
  let deflated :=
    zultra_block_deflate costs.2 hdr.1 hdr.2 pInWindow nStart nBlockSize nIsDynamic in
  let att := put_bits_all deflated.1.2 hdr.1 hdr.2 in
  let raw := take (Z.to_nat nBlockSize)
               (drop (Z.to_nat (HISTORY_SIZE + nInStart)) (in_data _ c)) in
  let stored := stored_blocks_spec (length raw) (nEncBitCount bw0) (nEncBitsData bw0)
                  nIsFinal raw in
  let header_has_room :=
    nOutOffset bw0 + (nEncBitCount bw0 + 3) / 8 <= nMaxOutDataOffset bw0 in
  let kept :=
    0 <= deflated.1.1 /\ nOutOffset att.1 - nOutOffset hdr.1 <= nBlockSize in
  let stored_fits :=
    nOutOffset bw0 + Z.of_nat (length stored) <= out_buffer_size (max_block_size _ c) in
  let r := compress_subblock _ evaluate_costs zultra_block_deflate nDoFinalize nInDataSize
             nAvailIn c nInStart nSplitOffset in
  let c' := r.1.2 in
  (~ header_has_room -> r.1.1 = ZULTRA_ERROR_DST /\ r.2 = nInStart)
  /\ (header_has_room -> costs.1.1.1 = false ->
      r.1.1 = ZULTRA_ERROR_COMPRESSION /\ r.2 = nInStart)
  /\ (header_has_room -> costs.1.1.1 = true -> kept ->
      r.1.1 = ZULTRA_OK /\ r.2 = nInStart + nBlockSize
      /\ bitwriter _ c' = att.1 /\ out_buffer _ c' = att.2
      /\ take (Z.to_nat (nOutOffset bw0)) (out_buffer _ c')
         = take (Z.to_nat (nOutOffset bw0)) out0
      /\ (nEncBitCount att.1 <= 7 ->
          bit_position att.1 - bit_position hdr.1 <= 8 * nBlockSize + 7))
  /\ (header_has_room -> costs.1.1.1 = true -> ~ kept ->
      r.2 = nInStart + nBlockSize
      /\ (stored_fits ->
          r.1.1 = ZULTRA_OK
          /\ bitwriter _ c'
             = {| nEncBitCount := 0; nEncBitsData := 0;
                  nOutOffset := nOutOffset bw0 + Z.of_nat (length stored);
                  nMaxOutDataOffset := nMaxOutDataOffset bw0 |}
          /\ emitted (bitwriter _ c') (out_buffer _ c') = emitted bw0 out0 ++ stored)
      /\ (~ stored_fits -> r.1.1 = ZULTRA_ERROR_DST)).
Proof.
  intros Hwf Hmax nBlockSize Hsize Hstart Hin.
  pose proof (compress_subblock_cases nDoFinalize nInDataSize nAvailIn c nInStart
                nSplitOffset Hwf Hmax Hsize Hstart Hin) as H.
  cbv zeta in H |- *. fold nBlockSize in H |- *.
  destruct (evaluate_costs (block block_state c)
              (drop (Z.to_nat (HISTORY_SIZE - previous_block_size block_state c))
                 (in_data block_state c))
              (previous_block_size block_state c + nInStart) nBlockSize)
    as [[[bCostOk nStaticCost] nDynamicCost] bs1].
  cbn [fst snd] in H |- *.
  match type of H with
  | (if ?b then _ else _) => destruct b eqn:Ehdr
  end; zbool.
  { split; [intros _; exact H|]. repeat split; intros; lia. }
  split; [intros Hfull; lia|].
  destruct bCostOk.
  2:{ split; [intros _ _; exact H|]. split; intros _ Hc; discriminate Hc. }
  split; [intros _ Hc; discriminate Hc|].
  match type of H with
  | (if ?b then _ else _) => destruct b eqn:Ekept
  end.
  - apply andb_true_iff in Ekept as [E1 E2]. zbool.
    destruct H as (H1 & H2 & H3 & H4 & H5 & H6).
    split.
    + intros _ _ _. split; [exact H1|]. split; [exact H2|]. split; [exact H3|].
      split; [exact H4|]. split; [exact H5|].
      intros Hpend. unfold bit_position. lia.
    + intros _ _ Hnot. exfalso. apply Hnot. split; lia.
  - split.
    { intros _ _ [K1 K2]. apply andb_false_iff in Ekept as [E|E]; zbool; lia. }
    intros _ _ _. destruct H as [H1 H]. split; [exact H1|].
    match type of H with
    | (if ?b then _ else _) => destruct b eqn:Efits
    end; zbool.
    + split; [intros _; exact H|intros Hnot; lia].
    + split; [intros Hfit; lia|intros _; exact H].
Qed.

End SubBlockRound.

Lemma subblock_kept_or_rewound_and_stored_witness :
  let c := {| flags := ZULTRA_FLAG_DEFLATE_FRAMING; max_block_size := 32768;
              dictionary_data := None; dictionary_size := 0;
              in_data := repeat 7 (Z.to_nat (HISTORY_SIZE + 32768));
              cur_in_bytes := 0; previous_block_size := 0;
              out_buffer := repeat 0 (Z.to_nat (out_buffer_size 32768));
              cur_out_index := 0; pending_out_bytes := 0;
              bitwriter := BitWriter.zultra_bitwriter_init 0 (out_buffer_size 32768);
              compression_state := CSTATE_HEADER_EMITTED;
              cur_frame_index := 0; pending_frame_bytes := 0;
              frame_buffer := repeat 0 16; block := tt |} in
  let r := compress_subblock unit (fun bs _ _ _ => (true, 0, 1, bs))
             (fun bs _ _ _ _ _ _ => (-1, [], bs)) 1 3 0 c 0 3 in
  r.1.1 = ZULTRA_OK /\ r.2 = 3 /\
  BitWriter.emitted (bitwriter _ r.1.2) (out_buffer _ r.1.2) = [1; 3; 0; 252; 255; 7; 7; 7].
Proof.
  intros c r.
  assert (Hwf : BitWriter.bw_wf (bitwriter _ c) (out_buffer _ c))
    by (unfold BitWriter.bw_wf; vm_compute; repeat split; discriminate).
  assert (Hsize : 0 < 3 - (0 + previous_block_size _ c)) by (vm_compute; reflexivity).
  pose proof (subblock_kept_or_rewound_and_stored unit
                (fun bs _ _ _ => (true, 0, 1, bs)) (fun bs _ _ _ _ _ _ => (-1, [], bs))
                1 3 0 c 0 3 Hwf eq_refl Hsize ltac:(lia) ltac:(vm_compute; discriminate))
    as H.
  cbv zeta in H. fold c r in H.
  destruct H as (_ & _ & _ & H).
  destruct H as (Hnext & Hstored & _).
  - vm_compute. discriminate.
  - reflexivity.
  - intros [Hres _]. revert Hres. vm_compute. intros Hres. apply Hres. reflexivity.
  - destruct Hstored as (Hok & _ & Hem).
    + vm_compute. discriminate.
    + split; [exact Hok|]. split; [exact Hnext|].
      rewrite Hem. vm_compute. reflexivity.
Defined.

(** C3 as stated fails: a kept compressed payload can be longer than the
    raw sub-block.  For the sub-block of the single byte 65,
    with five bits pending in the writer, the static estimate (3 + 8 + 7 = 18
    bits) is below the dynamic one and [zultra_block_deflate] writes the
    8-bit codeword of the literal and the 7-bit end marker.  The header bits
    complete the pending byte, the literal fills the next one and the end
    marker stays pending: the offset has moved by 1 since the header, which
    is not more than [nBlockSize = 1], so the attempt is kept and the round
    returns [ZULTRA_OK] with two bytes stored and seven bits pending.  The
    payload is 15 bits for a raw length of 8 bits; once the closing
    [zultra_bitwriter_flush_bits] of the stream has run it lies in two bytes
    of the output buffer, and the bytes are not the stored form of the
    sub-block. *)
Lemma kept_payload_exceeds_raw_length :
  let c := one_byte_group_compressor in
  let r := compress_subblock unit (fun bs _ _ _ => (true, 18, 100, bs))
             (fun bs _ _ _ _ _ _ => (0, static_block_puts 65, bs)) 1 1 0 c 0 32769 in
  let nBlockSize := 32769 - (0 + previous_block_size _ c) in
  let flushed :=
    BitWriter.zultra_bitwriter_flush_bits (bitwriter _ r.1.2) (out_buffer _ r.1.2) in
  static_block_puts 65 = [(142, 8); (0, 7)]
  /\ nBlockSize = 1
  /\ r.1.1 = ZULTRA_OK /\ r.2 = 1
  /\ bitwriter _ r.1.2
     = {| BitWriter.nEncBitCount := 7; BitWriter.nEncBitsData := 0;
          BitWriter.nOutOffset := 2;
          BitWriter.nMaxOutDataOffset := out_buffer_size 32768 |}
  /\ BitWriter.emitted (bitwriter _ r.1.2) (out_buffer _ r.1.2) = [96; 142]
  /\ bit_position (bitwriter _ r.1.2) - (bit_position (bitwriter _ c) + 3) = 15
  /\ 8 * nBlockSize < 15
  /\ flushed.1.1 = 0
  /\ BitWriter.emitted flushed.1.2 flushed.2 = [96; 142; 0]
  /\ stored_blocks_spec 1 5 0 1 [65] = [32; 1; 0; 254; 255; 65].
Proof. vm_compute. repeat split; reflexivity. Qed.
